(** * julia-polygon: rectilinear polygons for trustworthy Julia sets

    A shallow embedding of [main.cpp]: the polygon container, the
    point-in-polygon oracle with its y jump table, the multi-polygon oracle
    [jsoracle], the snippet-fusion loop of [floodFillPattern], the boundary
    walk of [buildPolygon] and the persistence pair [save]/[load].

    Conventions.
    - [int] and [VLONG] values are modelled as [Z]; signed overflow is
      undefined in the source and the model covers the executions without it.
    - An array is a list; an access outside the array is undefined behaviour
      in the source and yields [Undef] here.
    - [exit(99)] yields [Exit99].
    - A loop whose termination is not structural carries a step budget;
      [Fuel] is the answer of a run that used its whole budget. *)

From Stdlib Require Import ZArith QArith Qround Lia Bool Ascii String.
From stdpp Require Import base list.

Local Open Scope Z_scope.

(** ** Outcomes of a run *)

Inductive res (A : Type) : Type :=
| Ret (a : A)
| Exit99
| Undef
| Fuel.

Arguments Ret {A} a.
Arguments Exit99 {A}.
Arguments Undef {A}.
Arguments Fuel {A}.

Definition bind {A B : Type} (m : res A) (k : A -> res B) : res B :=
  match m with
  | Ret a => k a
  | Exit99 => Exit99
  | Undef => Undef
  | Fuel => Fuel
  end.

Notation "'do' x <- m ; k" := (bind m (fun x => k))
  (at level 10, x name, m at level 100, k at level 200,
   format "'[' 'do'  x  <-  m ; '//' k ']'").

(** ** Constants of the source *)

Definition COLORGRAY : Z := 0.
Definition COLORWHITE : Z := 1.
Definition COLORBLACK : Z := 2.
Definition COLORRED : Z := 4.
Definition COLORBLUE : Z := 5.
Definition COLORYELLOW : Z := 6.
Definition AKTIVCOL : Z := 16.

(** [enum { PIP_ERROR=-1, PIP_UNKNOWN=0, PIP_INTERIOR, PIP_BOUNDARY, PIP_EXTERIOR }] *)
Inductive pip : Type :=
| PIP_ERROR
| PIP_UNKNOWN
| PIP_INTERIOR
| PIP_BOUNDARY
| PIP_EXTERIOR.

Definition pip_code (r : pip) : Z :=
  match r with
  | PIP_ERROR => -1
  | PIP_UNKNOWN => 0
  | PIP_INTERIOR => 1
  | PIP_BOUNDARY => 2
  | PIP_EXTERIOR => 3
  end.

Definition pip_eqb (a b : pip) : bool := pip_code a =? pip_code b.

(** ** Polygons *)

Record PolygonPoint : Type := mkPoint { px : Z; py : Z }.

(** [points] holds the first [pointcount] entries of the vertex buffer, so
    [pointcount] is its length; [yprepare] is the jump-table buffer. *)
Record Polygon : Type := mkPolygon {
  points : list PolygonPoint;
  useprepare : Z;
  nenner : Z;
  xmin : Z; xmax : Z; ymin : Z; ymax : Z;
  yprepare : list Z
}.

Definition pointcount (apg : Polygon) : Z := Z.of_nat (length (points apg)).

(** Array read [a[i]]. *)
Definition zget {A : Type} (l : list A) (i : Z) : option A :=
  if i <? 0 then None else l !! Z.to_nat i.

Definition rd {A : Type} (l : list A) (i : Z) : res A :=
  match zget l i with
  | Some a => Ret a
  | None => Undef
  end.

Definition minimumI (a b : Z) : Z := if a <? b then a else b.
Definition maximumI (a b : Z) : Z := if a >? b then a else b.

(** ** The single-polygon oracle [point_in_polygonVH] *)

(** The through-versus-touch test shared by both edge kinds. *)
Definition passes_through (y0 y1 y2 : Z) : bool :=
  ((y0 <? y1) && (y1 <? y2)) || ((y0 >? y1) && (y1 >? y2)).

Inductive edge_result : Type :=
| EdgeBoundary
| EdgeDiagonal
| EdgeNext (even : Z).

(** The body of the [while] loop for the edge ending at index [i]. *)
Definition pip_edge (pts : list PolygonPoint) (ax ay i even : Z)
  : res edge_result :=
  let pc := Z.of_nat (length pts) in
  do pi <- rd pts i ;
  do pim <- rd pts (i - 1) ;
  if px pi =? px pim then
    let miy := minimumI (py pi) (py pim) in
    let may := maximumI (py pi) (py pim) in
    if (px pi =? ax) && (miy <=? ay) && (ay <=? may) then Ret EdgeBoundary
    else if (ax <? px pi) && (miy <=? ay) && (ay <=? may) then
      if ay =? py pi then
        let y1 := py pi in
        do p0 <- (if i >? 0 then rd pts (i - 1) else rd pts (pc - 2)) ;
        do p2 <- (if i <? pc - 1 then rd pts (i + 1) else rd pts 1) ;
        if passes_through (py p0) y1 (py p2)
        then Ret (EdgeNext (1 - even)) else Ret (EdgeNext even)
      else if (miy <? ay) && (ay <? may) then Ret (EdgeNext (1 - even))
      else Ret (EdgeNext even)
    else Ret (EdgeNext even)
  else if py pi =? py pim then
    let minx := minimumI (px pi) (px pim) in
    let maxx := maximumI (px pi) (px pim) in
    if (py pi =? ay) && (minx <=? ax) && (ax <=? maxx) then Ret EdgeBoundary
    else if (ay =? py pi) && (minx >? ax) then
      do p0 <- (if i >? 1 then rd pts (i - 2) else rd pts (pc - 2)) ;
      do p1 <- (if i >? 1 then rd pts i
             else if i =? 1 then rd pts i else rd pts 0) ;
      do p2 <- (if i <? pc - 1 then rd pts (i + 1) else rd pts 1) ;
      if passes_through (py p0) (py p1) (py p2)
      then Ret (EdgeNext (1 - even)) else Ret (EdgeNext even)
    else Ret (EdgeNext even)
  else Ret EdgeDiagonal.

Definition pip_finish (even : Z) : pip :=
  if even >? 0 then PIP_EXTERIOR else PIP_INTERIOR.

(** The [while (i<(apg.pointcount-1))] loop, one iteration per unit of
    budget. *)
Fixpoint pip_loop (fuel : nat) (apg : Polygon) (ax ay i even : Z)
  : res pip :=
  match fuel with
  | O => Fuel
  | S fuel' =>
    if i <? pointcount apg - 1 then
      do i' <- (if useprepare apg >? 0 then rd (yprepare apg) i
                else Ret (i + 1)) ;
      if i' >=? pointcount apg then Ret (pip_finish even)
      else
        do e <- pip_edge (points apg) ax ay i' even ;
        match e with
        | EdgeBoundary => Ret PIP_BOUNDARY
        | EdgeDiagonal => Exit99
        | EdgeNext even' => pip_loop fuel' apg ax ay i' even'
        end
    else Ret (pip_finish even)
  end.

(** A run that ends visits every edge index at most once, so the budget
    [pointcount + 1] is never the reason for [Fuel] unless the source loops
    forever on a cyclic jump table. *)
Definition point_in_polygonVH (apg : Polygon) (ax ay : Z) : res pip :=
  if (ax <? xmin apg) || (ax >? xmax apg) ||
     (ay <? ymin apg) || (ay >? ymax apg)
  then Ret PIP_EXTERIOR
  else pip_loop (S (length (points apg))) apg ax ay 0 1.

(** [Polygon::isDiagonalFree]: the loop over [i = 1 .. pointcount-1], read
    off the list two vertices at a time. *)
Fixpoint isDiagonalFree_pts (pts : list PolygonPoint) : Z :=
  match pts with
  | a :: (b :: _) as rest =>
    if negb (px a =? px b) && negb (py a =? py b) then 0
    else isDiagonalFree_pts rest
  | _ => 1
  end.

Definition isDiagonalFree (apg : Polygon) : Z := isDiagonalFree_pts (points apg).

(** ** The multi-polygon oracle [jsoracle] *)

Definition mxy : Z := 2.
Definition AREA : Z := (mxy + mxy + 1) * (mxy + mxy + 1).

(** The values taken by [dx] and by [dy]: [-mxy .. mxy]. *)
Definition offsets : list Z := [-2; -1; 0; 1; 2].

(** The points of the neighbourhood in the order the two nested loops visit
    them ([dy] outside, [dx] inside). *)
Definition block (qx qy : Z) : list (Z * Z) :=
  flat_map (fun dy => map (fun dx => (qx + dx, qy + dy)) offsets) offsets.

(** The nested loops with their guard [ic>=0]: the counter goes up while the
    answers are [want] and the first other answer stops both loops at -1. *)
Fixpoint scan_block (apg : Polygon) (want : pip) (pts : list (Z * Z)) (ic : Z)
  : res Z :=
  match pts with
  | [] => Ret ic
  | (x, y) :: rest =>
    do r <- point_in_polygonVH apg x y ;
    if pip_eqb r want then scan_block apg want rest (ic + 1) else Ret (-1)
  end.

(** [(int)floor(ax*nenner)]: the [double] is read as the rational it
    denotes. *)
Definition scaled (ax : Q) (n : Z) : Z := Qfloor (ax * inject_Z n).

Definition scan_polygon (apg : Polygon) (want : pip) (ax ay : Q) : res Z :=
  scan_block apg want (block (scaled ax (nenner apg)) (scaled ay (nenner apg))) 0.

(** First loop: [true] when some interior polygon made the function return
    [PIP_INTERIOR]. *)
Fixpoint jsoracle_int (intp : list Polygon) (ax ay : Q) : res bool :=
  match intp with
  | [] => Ret false
  | apg :: rest =>
    do ic <- scan_polygon apg PIP_INTERIOR ax ay ;
    if ic =? AREA then Ret true else jsoracle_int rest ax ay
  end.

(** Second loop: [None] when the loop returned [PIP_UNKNOWN] from inside,
    otherwise the final value of [ergext]. *)
Fixpoint jsoracle_ext (extp : list Polygon) (ax ay : Q) (ergext : pip)
  : res (option pip) :=
  match extp with
  | [] => Ret (Some ergext)
  | apg :: rest =>
    if pointcount apg >? 0 then
      do ic <- scan_polygon apg PIP_EXTERIOR ax ay ;
      if negb (ic =? AREA) then Ret None
      else jsoracle_ext rest ax ay PIP_EXTERIOR
    else jsoracle_ext rest ax ay ergext
  end.

(** [intp] and [extp] are the first [intpcount] and [extpcount] entries of the
    two global arrays. *)
Definition jsoracle (intp extp : list Polygon) (ax ay : Q) : res pip :=
  do hit <- jsoracle_int intp ax ay ;
  if hit then Ret PIP_INTERIOR
  else
    do e <- jsoracle_ext extp ax ay PIP_UNKNOWN ;
    match e with
    | None => Ret PIP_UNKNOWN
    | Some ergext =>
      if pip_eqb ergext PIP_EXTERIOR && (Z.of_nat (length extp) >? 0)
      then Ret PIP_EXTERIOR else Ret PIP_UNKNOWN
    end.

(** ** The y jump table *)

(** Array write [a[i]=v]. *)
Definition wr {A : Type} (l : list A) (i : Z) (v : A) : res (list A) :=
  if (0 <=? i) && (i <? Z.of_nat (length l))
  then Ret (<[Z.to_nat i := v]> l) else Undef.

Definition BUFFER : Z := 2.

(** The test of [prepareY] on the edge from [a = points[i-1]] to
    [b = points[i]]. *)
Definition in_band (ay : Z) (a b : PolygonPoint) : bool :=
  ((py a <=? ay + BUFFER) && (py b >=? ay - BUFFER)) ||
  ((py a >=? ay - BUFFER) && (py b <=? ay + BUFFER)).

(** The [for(int i=1;i<pointcount;i++)] loop of [prepareY] with [n]
    iterations left; the state is the table and [li]. *)
Fixpoint prepareY_loop (n : nat) (pts : list PolygonPoint) (ay i : Z)
  (yp : list Z) (li : Z) : res (list Z * Z) :=
  match n with
  | O => Ret (yp, li)
  | S n' =>
    do a <- rd pts (i - 1) ;
    do b <- rd pts i ;
    if in_band ay a b then
      do yp' <- wr yp (if li >=? 0 then li else 0) i ;
      prepareY_loop n' pts ay (i + 1) yp' i
    else prepareY_loop n' pts ay (i + 1) yp li
  end.

Definition set_table (apg : Polygon) (use : Z) (yp : list Z) : Polygon :=
  mkPolygon (points apg) use (nenner apg)
            (xmin apg) (xmax apg) (ymin apg) (ymax apg) yp.

Definition prepareY (apg : Polygon) (ay : Z) : res Polygon :=
  do s <- prepareY_loop (Z.to_nat (pointcount apg - 1)) (points apg) ay 1
                        (yprepare apg) (-1) ;
  let '(yp, li) := s in
  do yp' <- wr yp (if li >=? 0 then li else 0) (pointcount apg + 16) ;
  Ret (set_table apg 1 yp').

Definition unPrepareY (apg : Polygon) : Polygon :=
  set_table apg 0 (yprepare apg).

(** ** Building polygons *)

(** The bounding box as a record of its own: [xmin], [xmax], [ymin],
    [ymax]. *)
Record Box : Type := mkBox { bxmin : Z; bxmax : Z; bymin : Z; bymax : Z }.

Definition box_of (apg : Polygon) : Box :=
  mkBox (xmin apg) (xmax apg) (ymin apg) (ymax apg).

(** The bounding-box update shared by [add] and [load]: the first vertex
    sets the box, every later one widens it with a margin of 8. *)
Definition box_update (first : bool) (b : Box) (ax ay : Z) : Box :=
  if first then mkBox ax ax ay ay
  else
    mkBox (if ax - 8 <? bxmin b then ax - 8 else bxmin b)
          (if ax + 8 >? bxmax b then ax + 8 else bxmax b)
          (if ay - 8 <? bymin b then ay - 8 else bymin b)
          (if ay + 8 >? bymax b then ay + 8 else bymax b).

Definition with_points (apg : Polygon) (pts : list PolygonPoint) (b : Box)
  : Polygon :=
  mkPolygon pts (useprepare apg) (nenner apg)
            (bxmin b) (bxmax b) (bymin b) (bymax b) (yprepare apg).

(** [Polygon::add]. The growth of the vertex buffer does not show in the
    list model. With [pointcount >= 2] both reads are inside the array. *)
Definition add (apg : Polygon) (ax ay : Z) : Polygon :=
  let pts := points apg in
  let pc := pointcount apg in
  let b := box_update (pc =? 0) (box_of apg) ax ay in
  let appended := pts ++ [mkPoint ax ay] in
  let replaced := <[Z.to_nat (pc - 1) := mkPoint ax ay]> pts in
  if pc >=? 2 then
    match zget pts (pc - 1), zget pts (pc - 2) with
    | Some B, Some A =>
      if (ax =? px B) && (ax =? px A) then with_points apg replaced b
      else if (ay =? py B) && (ay =? py A) then with_points apg replaced b
      else with_points apg appended b
    | _, _ => with_points apg appended b
    end
  else with_points apg appended b.

(** The loop over the point lines in [load], once the lines are parsed:
    the vertices are stored as they come and the box follows. *)
Fixpoint load_box (first : bool) (b : Box) (pts : list PolygonPoint) : Box :=
  match pts with
  | [] => b
  | p :: rest => load_box false (box_update first b (px p) (py p)) rest
  end.

(** The polygon [load] leaves behind for the denominator [nen] and the
    vertices [pts]: [setlen] allocates a table buffer of [pointcount] cells
    whose content [cells] is whatever the allocator left there. *)
Definition loaded (b0 : Box) (nen : Z) (pts : list PolygonPoint)
  (cells : list Z) : Polygon :=
  let b := load_box true b0 pts in
  mkPolygon pts 0 nen (bxmin b) (bxmax b) (bymin b) (bymax b) cells.

(** ** The raster [Charmap] *)

(** [cmp] is the byte array of [memused = xlen*ylen] cells, row after row. *)
Record Charmap : Type := mkCharmap { xlen : Z; ylen : Z; cmp : list Z }.

Definition getPoint (c : Charmap) (ax ay : Z) : res Z :=
  rd (cmp c) (ay * xlen c + ax).

Definition setPoint (c : Charmap) (ax ay awert : Z) : res Charmap :=
  do l <- wr (cmp c) (ay * xlen c + ax) awert ;
  Ret (mkCharmap (xlen c) (ylen c) l).

(** The lazy [&&] and [||] of C over tests that read the raster. *)
Definition andr (a b : res bool) : res bool :=
  do x <- a ; if x then b else Ret false.

Definition orr (a b : res bool) : res bool :=
  do x <- a ; if x then Ret true else b.

(** [getPoint(ax,ay) == v] *)
Definition has_colour (c : Charmap) (ax ay v : Z) : res bool :=
  do p <- getPoint c ax ay ; Ret (p =? v).

(** ** The kernel scan in [floodFillPattern] *)

(** [for(int dx=0;dx<D;dx++)] of the test, [n] columns left: are the
    pixels of this row of the block all of colour [relf]? *)
Fixpoint kernel_test_row (n : nat) (relf : Z) (c : Charmap) (x y dx : Z)
  : res bool :=
  match n with
  | O => Ret true
  | S n' =>
    do same <- has_colour c (x + dx) y relf ;
    if same then kernel_test_row n' relf c x y (dx + 1) else Ret false
  end.

(** [for(int dy=0;dy<D;dy++)] of the test, [m] rows left; the answer is
    [gef > 0]. *)
Fixpoint kernel_test (m : nat) (D relf : Z) (c : Charmap) (x y dy : Z)
  : res bool :=
  match m with
  | O => Ret true
  | S m' =>
    do gef <- kernel_test_row (Z.to_nat D) relf c x (y + dy) 0 ;
    if gef then kernel_test m' D relf c x y (dy + 1) else Ret false
  end.

(** [for(int x2=...;x2<(x+D-1);x2++)], [n] pixels left. *)
Fixpoint kernel_mark_row (n : nat) (c : Charmap) (x2 y2 : Z) : res Charmap :=
  match n with
  | O => Ret c
  | S n' =>
    do c1 <- setPoint c x2 y2 AKTIVCOL ;
    kernel_mark_row n' c1 (x2 + 1) y2
  end.

(** [for(int y2=...;y2<(y+D-1);y2++)], [m] rows left. *)
Fixpoint kernel_mark (m : nat) (D : Z) (c : Charmap) (x y2 : Z)
  : res Charmap :=
  match m with
  | O => Ret c
  | S m' =>
    do c1 <- kernel_mark_row (Z.to_nat (D - 2)) c (x + 1) y2 ;
    kernel_mark m' D c1 x (y2 + 1)
  end.

(** The body of the two loops of the scan at the block with corner
    [(x,y)]. *)
Definition kernel_at (D relf : Z) (c : Charmap) (x y : Z) : res Charmap :=
  do here <- has_colour c x y relf ;
  if negb here then Ret c
  else
    do gef <- kernel_test (Z.to_nat D) D relf c x y 0 ;
    if gef then kernel_mark (Z.to_nat (D - 2)) D c x (y + 1) else Ret c.

(** [for(int x=...;x<(inbild.xlen-D);x+=D)]; the copy has the size of
    [inbild]. *)
Fixpoint kernel_cols (fuel : nat) (D relf : Z) (c : Charmap) (x y : Z)
  : res Charmap :=
  match fuel with
  | O => Fuel
  | S fuel' =>
    if x <? xlen c - D then
      do c1 <- kernel_at D relf c x y ;
      kernel_cols fuel' D relf c1 (x + D) y
    else Ret c
  end.

(** [for(int y=...;y<(inbild.ylen-D);y+=D)] *)
Fixpoint kernel_rows (fuel : nat) (D relf : Z) (c : Charmap) (y : Z)
  : res Charmap :=
  match fuel with
  | O => Fuel
  | S fuel' =>
    if y <? ylen c - D then
      do c1 <- kernel_cols (S (Z.to_nat (xlen c))) D relf c 0 y ;
      kernel_rows fuel' D relf c1 (y + D)
    else Ret c
  end.

(** The scan on the copy of [inbild], after
    [if (granularity < 3) granularity=3]. *)
Definition kernel_scan (granularity relf : Z) (inbild : Charmap)
  : res Charmap :=
  let D := if granularity <? 3 then 3 else granularity in
  kernel_rows (S (Z.to_nat (ylen inbild))) D relf inbild 0.

(** ** Snippet fusion in [floodFillPattern] *)

(** The loop [for(int dx=0;dx<4;dx++)] that looks for gray above and below;
    the answer is [korrekt>0]. *)
Fixpoint gray_free_rows (c : Charmap) (x y : Z) (dxs : list Z) : res bool :=
  match dxs with
  | [] => Ret true
  | dx :: rest =>
    do g <- orr (has_colour c (x + dx) (y - 1) COLORGRAY)
                (has_colour c (x + dx) (y + 1) COLORGRAY) ;
    if g then Ret false else gray_free_rows c x y rest
  end.

(** The loop [for(int dy=0;dy<4;dy++)] that looks for gray left and right. *)
Fixpoint gray_free_cols (c : Charmap) (x y : Z) (dys : list Z) : res bool :=
  match dys with
  | [] => Ret true
  | dy :: rest =>
    do g <- orr (has_colour c (x - 1) (y + dy) COLORGRAY)
                (has_colour c (x + 1) (y + dy) COLORGRAY) ;
    if g then Ret false else gray_free_cols c x y rest
  end.

Definition four : list Z := [0; 1; 2; 3].

(** The body of the two nested loops at pixel [(x,y)]; the state is the
    raster and [changed]. *)
Definition fuse_at (relf : Z) (c : Charmap) (x y changed : Z)
  : res (Charmap * Z) :=
  do here <- has_colour c x y relf ;
  if negb here then Ret (c, changed)
  else
    do h <- andr (has_colour c (x + 1) y relf)
                 (andr (has_colour c (x - 1) y AKTIVCOL)
                       (has_colour c (x + 2) y AKTIVCOL)) ;
    if h then
      do korrekt <- gray_free_rows c x y four ;
      if korrekt then
        do c1 <- setPoint c x y AKTIVCOL ;
        do c2 <- setPoint c1 (x + 1) y AKTIVCOL ;
        Ret (c2, 1)
      else Ret (c, changed)
    else
      do v <- andr (has_colour c x (y + 1) relf)
                   (andr (has_colour c x (y + 2) AKTIVCOL)
                         (has_colour c x (y - 1) AKTIVCOL)) ;
      if v then
        do korrekt <- gray_free_cols c x y four ;
        if korrekt then
          do c1 <- setPoint c x y AKTIVCOL ;
          do c2 <- setPoint c1 x (y + 1) AKTIVCOL ;
          Ret (c2, 1)
        else Ret (c, changed)
      else Ret (c, changed).

(** [for(int x=...;x<(ptsa->xlen-2);x++)] with [n] iterations left. *)
Fixpoint fuse_row (n : nat) (relf : Z) (c : Charmap) (x y changed : Z)
  : res (Charmap * Z) :=
  match n with
  | O => Ret (c, changed)
  | S n' =>
    do s <- fuse_at relf c x y changed ;
    fuse_row n' relf (fst s) (x + 1) y (snd s)
  end.

(** [for(int y=...;y<(ptsa->ylen-2);y++)] with [m] iterations left. *)
Fixpoint fuse_rows (m : nat) (relf : Z) (c : Charmap) (y changed : Z)
  : res (Charmap * Z) :=
  match m with
  | O => Ret (c, changed)
  | S m' =>
    do s <- fuse_row (Z.to_nat (xlen c - 3)) relf c 1 y changed ;
    fuse_rows m' relf (fst s) (y + 1) (snd s)
  end.

(** One turn of [while (changed>0)]: [changed=0], then both loops. *)
Definition fuse_pass (relf : Z) (c : Charmap) : res (Charmap * Z) :=
  fuse_rows (Z.to_nat (ylen c - 3)) relf c 1 0.

(** [while (changed>0)], one turn per unit of budget. *)
Fixpoint fuse_loop (fuel : nat) (relf : Z) (c : Charmap) : res Charmap :=
  match fuel with
  | O => Fuel
  | S fuel' =>
    do s <- fuse_pass relf c ;
    if snd s >? 0 then fuse_loop fuel' relf (fst s) else Ret (fst s)
  end.

(** [floodFillPattern] up to the end of [while (changed>0)]: the scan,
    then the fusion. *)
Definition connect_snippets (fuel : nat) (granularity relf : Z)
  (inbild : Charmap) : res Charmap :=
  do c <- kernel_scan granularity relf inbild ;
  fuse_loop fuel relf c.

(** ** Text input and output *)

(** The C library is not part of the repository; [printf] and [sscanf] are
    modelled after the C standard for the three formats in use: ["%i"] and
    ["%I64d"] for output, ["%I64d"], ["%i"] and ["%i,%i"] for input.  A
    text file is the list of the lines [fgets] delivers, each with its line
    feed. *)

Definition code (c : ascii) : Z := Z.of_nat (nat_of_ascii c).

Definition newline : ascii := ascii_of_nat 10.

(** [isspace] in the C locale. *)
Definition isspace (c : ascii) : bool :=
  (code c =? 32) || ((9 <=? code c) && (code c <=? 13)).

(** The test [s[i]<32] of [chomp] on a signed [char]. *)
Definition below32 (c : ascii) : bool := (code c <? 32) || (128 <=? code c).

(** [chomp]: cut the trailing run of characters below 32. *)
Fixpoint chomp (s : string) : string :=
  match s with
  | EmptyString => EmptyString
  | String c rest =>
    match chomp rest with
    | EmptyString => if below32 c then EmptyString else String c EmptyString
    | t => String c t
    end
  end.

(** The value of [c] as a digit in [base], for bases 8, 10 and 16. *)
Definition digit_val (base : Z) (c : ascii) : option Z :=
  let n := code c in
  let v := if (48 <=? n) && (n <=? 57) then n - 48
           else if (97 <=? n) && (n <=? 102) then n - 87
           else if (65 <=? n) && (n <=? 70) then n - 55
           else 16 in
  if v <? base then Some v else None.

Fixpoint scan_digits (base : Z) (s : string) (acc : Z) : Z * string :=
  match s with
  | EmptyString => (acc, s)
  | String c rest =>
    match digit_val base c with
    | Some d => scan_digits base rest (acc * base + d)
    | None => (acc, s)
    end
  end.

Fixpoint skip_space (s : string) : string :=
  match s with
  | String c rest => if isspace c then skip_space rest else s
  | EmptyString => s
  end.

(** The digits of a number in [base]; at least one digit is needed. *)
Definition scan_unsigned (base : Z) (s : string) : option (Z * string) :=
  match s with
  | String c _ =>
    match digit_val base c with
    | Some _ => Some (scan_digits base s 0)
    | None => None
    end
  | EmptyString => None
  end.

(** The prefix rule of ["%i"]: [0x] or [0X] before a hexadecimal digit means
    base 16, another leading [0] means base 8, anything else base 10. *)
Definition scan_prefixed (s : string) : option (Z * string) :=
  match s with
  | String "0" (String x (String h rest)) =>
    if ((code x =? 120) || (code x =? 88)) &&
       (match digit_val 16 h with Some _ => true | None => false end)
    then scan_unsigned 16 (String h rest)
    else scan_unsigned 8 s
  | String "0" _ => scan_unsigned 8 s
  | _ => scan_unsigned 10 s
  end.

(** One conversion: white space, an optional sign, the digits. *)
Definition scan_int (auto_base : bool) (s : string) : option (Z * string) :=
  let body := if auto_base then scan_prefixed else scan_unsigned 10 in
  match skip_space s with
  | String "-" rest =>
    match body rest with
    | Some (v, r) => Some (- v, r)
    | None => None
    end
  | String "+" rest => body rest
  | t => body t
  end.

(** [sscanf(tmp,"%I64d",&n) == 1] *)
Definition sscanf_I64d (s : string) : option Z :=
  match scan_int false s with
  | Some (v, _) => Some v
  | None => None
  end.

(** [sscanf(tmp,"%i",&a) == 1] *)
Definition sscanf_i (s : string) : option Z :=
  match scan_int true s with
  | Some (v, _) => Some v
  | None => None
  end.

(** [sscanf(tmp,"%i,%i",&ax,&ay) == 2] *)
Definition sscanf_i_i (s : string) : option (Z * Z) :=
  match scan_int true s with
  | Some (vx, String "," rest) =>
    match scan_int true rest with
    | Some (vy, _) => Some (vx, vy)
    | None => None
    end
  | _ => None
  end.

Definition digit_char (d : Z) : ascii := ascii_of_nat (Z.to_nat (48 + d)).

(** The decimal digits of [n >= 0] in front of [acc], lowest digit first
    computed; [fuel] bounds the number of digits. *)
Fixpoint digits_fuel (fuel : nat) (n : Z) (acc : string) : string :=
  match fuel with
  | O => acc
  | S fuel' =>
    let acc' := String (digit_char (n mod 10)) acc in
    if n <? 10 then acc' else digits_fuel fuel' (n / 10) acc'
  end.

Definition print_unsigned (n : Z) (acc : string) : string :=
  digits_fuel (S (Z.to_nat (Z.log2 n))) n acc.

(** The output of ["%i"] and of ["%I64d"], followed by [acc]. *)
Definition print_int (z : Z) (acc : string) : string :=
  if z <? 0 then String "-" (print_unsigned (- z) acc) else print_unsigned z acc.

Definition line_end : string := String newline EmptyString.

(** ** [Polygon::save] and [Polygon::load] *)

(** ["%i,%i\n"] for one vertex. *)
Definition point_line (p : PolygonPoint) : string :=
  print_int (px p) (String "," (print_int (py p) line_end)).

(** The lines [save] writes; [RANGE0] and [RANGE1] are the two globals. *)
Definition save (RANGE0 RANGE1 : Z) (apg : Polygon) : list string :=
  [print_int (nenner apg) line_end;
   print_int RANGE0 (String "," (print_int RANGE1 (String ","
     (print_int RANGE0 (String "," (print_int RANGE1 line_end))))));
   print_int (pointcount apg) line_end]
  ++ map point_line (points apg)
  ++ [String "." line_end].

(** [fgets(tmp,1000,f); chomp(tmp);] -- at the end of the file [fgets] leaves
    the buffer as it is. *)
Definition next_line (tmp : string) (f : list string) : string * list string :=
  match f with
  | [] => (chomp tmp, [])
  | l :: rest => (chomp l, rest)
  end.

(** The loop over the point lines with [n] lines to go. *)
Fixpoint load_points (n : nat) (tmp : string) (f : list string)
  (first : bool) (b : Box) (acc : list PolygonPoint)
  : res (list PolygonPoint * Box) :=
  match n with
  | O => Ret (acc, b)
  | S n' =>
    let '(tmp1, f1) := next_line tmp f in
    match sscanf_i_i tmp1 with
    | Some (ax, ay) =>
      load_points n' tmp1 f1 false (box_update first b ax ay)
                  (acc ++ [mkPoint ax ay])
    | None => Exit99
    end
  end.

(** [load] on an open file; [old] is the polygon object before the call
    and [tmp0] the content of the uninitialised line buffer.  The range
    line is parsed into [cx0 .. cy1], which the model does not carry, and
    falls back to the globals when it does not parse.  [setlen] leaves a
    table buffer of [a] cells. *)
Definition load (old : Polygon) (tmp0 : string) (f : list string)
  : res Polygon :=
  let '(t1, f1) := next_line tmp0 f in
  let nen := match sscanf_I64d t1 with
             | Some n => n
             | None => Z.shiftl 1 25
             end in
  let '(t2, f2) := next_line t1 f1 in
  let '(t3, f3) := next_line t2 f2 in
  match sscanf_i t3 with
  | None => Exit99
  | Some a =>
    if a <? 0 then Undef
    else
      do r <- load_points (Z.to_nat a) t3 f3 true (box_of old) [] ;
      let '(pts, b) := r in
      Ret (mkPolygon pts 0 nen (bxmin b) (bxmax b) (bymin b) (bymax b)
                     (repeat 0 (Z.to_nat a)))
  end.

(** ** Closing the seam: [trimColinearStart] *)

(** The test of the [while] loop on the first two and the last-but-one
    vertex. *)
Definition seam_colinear (p0 p1 pl : PolygonPoint) : bool :=
  ((px p0 =? px p1) && (px p0 =? px pl)) ||
  ((py p0 =? py p1) && (py p0 =? py pl)).

(** [while (pointcount >= 3)], one turn per unit of budget.  [pointcount--]
    drops the last entry of the list; the two assignments follow in the
    order of the source, the second one writing [points[1].x] from
    [points[pointcount-1].y]. *)
Fixpoint trim_loop (fuel : nat) (pts : list PolygonPoint)
  : res (list PolygonPoint) :=
  match fuel with
  | O => Fuel
  | S fuel' =>
    let pc := Z.of_nat (length pts) in
    if pc >=? 3 then
      do p0 <- rd pts 0 ;
      do p1 <- rd pts 1 ;
      do pl <- rd pts (pc - 2) ;
      if seam_colinear p0 p1 pl then
        let pts1 := take (length pts - 1) pts in
        let pc1 := pc - 1 in
        do q <- rd pts1 (pc1 - 1) ;
        do a0 <- rd pts1 0 ;
        do pts2 <- wr pts1 0 (mkPoint (px q) (py a0)) ;
        do q2 <- rd pts2 (pc1 - 1) ;
        do a1 <- rd pts2 1 ;
        do pts3 <- wr pts2 1 (mkPoint (py q2) (py a1)) ;
        trim_loop fuel' pts3
      else Ret pts
    else Ret pts
  end.

(** Every turn but the last drops a vertex, so [pointcount] turns and one
    are enough. *)
Definition trimColinearStart (apg : Polygon) : res Polygon :=
  do pts <- trim_loop (S (length (points apg))) (points apg) ;
  Ret (with_points apg pts (box_of apg)).

(** ** The structural checks of the quality control *)

Definition colinear3 (a b c : PolygonPoint) : bool :=
  ((px a =? px c) && (px b =? px c)) || ((py a =? py c) && (py b =? py c)).

(** The loop [for(int i=2;i<pointcount;i++)] of [isColinearFree]: [true]
    when it finds three vertices in a line. *)
Fixpoint colinear_inside (pts : list PolygonPoint) : bool :=
  match pts with
  | a :: rest =>
    match rest with
    | b :: c :: _ => colinear3 a b c || colinear_inside rest
    | _ => false
    end
  | [] => false
  end.

(** [Polygon::isColinearFree], with its check around the end on
    [points[pointcount-2]], [points[0]] and [points[1]]. *)
Definition isColinearFree (apg : Polygon) : res Z :=
  let pts := points apg in
  if colinear_inside pts then Ret 0
  else
    do pl <- rd pts (pointcount apg - 2) ;
    do p1 <- rd pts 1 ;
    do p0 <- rd pts 0 ;
    if ((px pl =? px p1) && (px p0 =? px p1)) ||
       ((py pl =? py p1) && (py p0 =? py p1))
    then Ret 0 else Ret 1.

(** The first test of [qcA]: [1] when the first vertex equals the last. *)
Definition isClosed (apg : Polygon) : res Z :=
  let pts := points apg in
  do p0 <- rd pts 0 ;
  do pl <- rd pts (pointcount apg - 1) ;
  if negb (px p0 =? px pl) || negb (py p0 =? py pl) then Ret 0 else Ret 1.

(** ** The boundary walk of [buildPolygon] *)

(** The four tests for a blue neighbour, in the order +x, -x, -y, +y. *)
Definition next_blue (blau : Charmap) (aktx akty : Z)
  : res (option (Z * Z)) :=
  do e <- has_colour blau (aktx + 1) akty COLORBLUE ;
  if e then Ret (Some (aktx + 1, akty))
  else
    do w <- has_colour blau (aktx - 1) akty COLORBLUE ;
    if w then Ret (Some (aktx - 1, akty))
    else
      do n <- has_colour blau aktx (akty - 1) COLORBLUE ;
      if n then Ret (Some (aktx, akty - 1))
      else
        do s <- has_colour blau aktx (akty + 1) COLORBLUE ;
        if s then Ret (Some (aktx, akty + 1)) else Ret None.

(** [POLYGONADD(XX,YY)]: [plane] stands for the conversion
    [(int)floor((XX*skalaRangeProPixel + RANGE0) * NENNER)] of a pixel
    coordinate. *)
Definition POLYGONADD (plane : Z -> Z) (p1 : Polygon) (xx yy : Z) : Polygon :=
  add p1 (plane xx) (plane yy).

(** [while (1)] of the walk, one step per unit of budget.  The branch
    without a blue neighbour logs, saves a picture and calls [exit(99)]. *)
Fixpoint walk (fuel : nat) (plane : Z -> Z) (blau : Charmap) (p1 : Polygon)
  (startx starty aktx akty : Z) : res (Charmap * Polygon) :=
  match fuel with
  | O => Fuel
  | S fuel' =>
    if (aktx =? startx) && (akty =? starty) then Ret (blau, p1)
    else
      do n <- next_blue blau aktx akty ;
      match n with
      | None => Exit99
      | Some (nx, ny) =>
        do blau' <- setPoint blau nx ny COLORYELLOW ;
        walk fuel' plane blau' (POLYGONADD plane p1 nx ny)
             startx starty nx ny
      end
  end.

(** The search for a starting point: the inner loop over [x] with [n]
    columns to go ... *)
Fixpoint find_in_row (n : nat) (blau : Charmap) (x y : Z) : res (option Z) :=
  match n with
  | O => Ret None
  | S n' =>
    do b <- has_colour blau x y COLORBLUE ;
    if b then Ret (Some x) else find_in_row n' blau (x + 1) y
  end.

(** ... and the outer loop over [y] with [m] rows to go. *)
Fixpoint find_rows (m : nat) (blau : Charmap) (y : Z)
  : res (option (Z * Z)) :=
  match m with
  | O => Ret None
  | S m' =>
    do r <- find_in_row (Z.to_nat (xlen blau)) blau 0 y ;
    match r with
    | Some x => Ret (Some (x, y))
    | None => find_rows m' blau (y + 1)
    end
  end.

Definition find_start (blau : Charmap) : res (option (Z * Z)) :=
  find_rows (Z.to_nat (ylen blau)) blau 0.

(** [new Polygon; setlen(blau->xlen << 4); nenner=NENNER]. The bounding box
    is set by the first [add]. *)
Definition fresh_polygon (blau : Charmap) : Polygon :=
  mkPolygon [] 0 (Z.shiftl 1 25) 0 0 0 0
            (repeat 0 (Z.to_nat (Z.shiftl (xlen blau) 4))).

(** One turn of the outer [while (changed>0)]: [None] when no blue pixel is
    left; otherwise the raster after the turn and the polygon that was
    saved, if one was. *)
Definition trace_once (fuel : nat) (plane : Z -> Z)
  (LOWERBOUNDPOLYGONLENGTH : Z) (blau : Charmap)
  : res (option (Charmap * option Polygon)) :=
  do s <- find_start blau ;
  match s with
  | None => Ret None
  | Some (startx, starty) =>
    do n <- next_blue blau startx starty ;
    match n with
    | None =>
      do blau' <- setPoint blau startx starty COLORYELLOW ;
      Ret (Some (blau', None))
    | Some (nx, ny) =>
      do blau1 <- setPoint blau nx ny COLORYELLOW ;
      let p1 := POLYGONADD plane
                  (POLYGONADD plane (fresh_polygon blau) startx starty) nx ny in
      do w <- walk fuel plane blau1 p1 startx starty nx ny ;
      let '(blau2, p2) := w in
      do p3 <- trimColinearStart p2 ;
      if pointcount p3 >? LOWERBOUNDPOLYGONLENGTH
      then Ret (Some (blau2, Some p3))
      else Ret (Some (blau2, None))
    end
  end.

(** [buildPolygon]: the polygons it has saved, in order, together with the
    way the run ends: [Ret 1] for [return 1], or the reason why the run
    stops before.  The polygons saved before an [exit(99)] are on disk all
    the same. *)
Fixpoint buildPolygon (fuel : nat) (plane : Z -> Z)
  (LOWERBOUNDPOLYGONLENGTH : Z) (blau : Charmap) (saved : list Polygon)
  : list Polygon * res Z :=
  match fuel with
  | O => (saved, Fuel)
  | S fuel' =>
    match trace_once (S fuel') plane LOWERBOUNDPOLYGONLENGTH blau with
    | Ret None => (saved, Ret 1)
    | Ret (Some (blau', Some p)) =>
      buildPolygon fuel' plane LOWERBOUNDPOLYGONLENGTH blau' (saved ++ [p])
    | Ret (Some (blau', None)) =>
      buildPolygon fuel' plane LOWERBOUNDPOLYGONLENGTH blau' saved
    | Exit99 => (saved, Exit99)
    | Undef => (saved, Undef)
    | Fuel => (saved, Fuel)
    end
  end.

(** ** The structural check [qcA] and the table of all polygons *)

(** [qcA]: closed, free of colinear segments, free of diagonals, in this
    order; the first test that fails gives 0. *)
Definition qcA (apg : Polygon) : res Z :=
  do closed <- isClosed apg ;
  if closed <=? 0 then Ret 0
  else
    do free <- isColinearFree apg ;
    if free <=? 0 then Ret 0
    else if isDiagonalFree apg <=? 0 then Ret 0 else Ret 1.

(** One of the two loops of [prepareYOracle]:
    [py=(int)floor(ay*p[i].nenner); p[i].prepareY(py);] for every polygon of
    the array. *)
Fixpoint prepare_all (l : list Polygon) (ay : Q) : res (list Polygon) :=
  match l with
  | [] => Ret []
  | apg :: rest =>
    do apg' <- prepareY apg (scaled ay (nenner apg)) ;
    do rest' <- prepare_all rest ay ;
    Ret (apg' :: rest')
  end.

(** [prepareYOracle] on the two global arrays. *)
Definition prepareYOracle (intp extp : list Polygon) (ay : Q)
  : res (list Polygon * list Polygon) :=
  do intp' <- prepare_all intp ay ;
  do extp' <- prepare_all extp ay ;
  Ret (intp', extp').

(** [unPrepareYOracle] *)
Definition unPrepareYOracle (intp extp : list Polygon)
  : list Polygon * list Polygon :=
  (map unPrepareY intp, map unPrepareY extp).

(** ** More of [Charmap]

    The rasters of the model have their array ([cmp] is not [NULL]), so
    the first line [if (!cmp) return;] of [lineVH] has no case here. *)

(** [getPoint(ax,ay) != v] *)
Definition lacks_colour (c : Charmap) (ax ay v : Z) : res bool :=
  do p <- getPoint c ax ay ; Ret (negb (p =? v)).

(** [for(int x=...;x<=x1;x++) setPoint(x,y,ff);] with [n] pixels to go. *)
Fixpoint fill_row (n : nat) (c : Charmap) (x y ff : Z) : res Charmap :=
  match n with
  | O => Ret c
  | S n' => do c1 <- setPoint c x y ff ; fill_row n' c1 (x + 1) y ff
  end.

(** [for(int y=...;y<=y1;y++)] with [m] rows to go. *)
Fixpoint fill_rows (m : nat) (c : Charmap) (x0 x1 y ff : Z) : res Charmap :=
  match m with
  | O => Ret c
  | S m' =>
    do c1 <- fill_row (Z.to_nat (x1 - x0 + 1)) c x0 y ff ;
    fill_rows m' c1 x0 x1 (y + 1) ff
  end.

(** [Charmap::fillrect] *)
Definition fillrect (c : Charmap) (ax ay bx by_ ff : Z) : res Charmap :=
  let x0 := minimumI ax bx in
  let x1 := maximumI ax bx in
  let y0 := minimumI ay by_ in
  let y1 := maximumI ay by_ in
  fill_rows (Z.to_nat (y1 - y0 + 1)) c x0 x1 y0 ff.

(** [if (a<0) a=0; else if (a >= len) a=len-1;] *)
Definition clamp (a len : Z) : Z :=
  if a <? 0 then 0 else if a >=? len then len - 1 else a.

(** The two loops of [lineVH]: [n] cells from [pos] on, [step] apart. *)
Fixpoint line_cells (n : nat) (l : list Z) (pos step awert : Z)
  : res (list Z) :=
  match n with
  | O => Ret l
  | S n' =>
    do l1 <- wr l pos awert ; line_cells n' l1 (pos + step) step awert
  end.

(** [Charmap::lineVH] *)
Definition lineVH (c : Charmap) (aax aay bbx bby awert : Z) : res Charmap :=
  let ax := clamp aax (xlen c) in
  let ay := clamp aay (ylen c) in
  let bx := clamp bbx (xlen c) in
  let by_ := clamp bby (ylen c) in
  if ax =? bx then
    let y0 := if ay <? by_ then ay else by_ in
    let y1 := if ay <? by_ then by_ else ay in
    do l <- line_cells (Z.to_nat (y1 - y0 + 1)) (cmp c)
                       (y0 * xlen c + ax) (xlen c) awert ;
    Ret (mkCharmap (xlen c) (ylen c) l)
  else if ay =? by_ then
    let x0 := if ax <? bx then ax else bx in
    let x1 := if ax <? bx then bx else ax in
    do l <- line_cells (Z.to_nat (x1 - x0 + 1)) (cmp c)
                       (ay * xlen c + x0) 1 awert ;
    Ret (mkCharmap (xlen c) (ylen c) l)
  else Ret c.

(** [drawCrossing] *)
Definition drawCrossing (inout : Charmap) (ax ay af : Z) : res Charmap :=
  do c1 <- lineVH inout 0 (ay - 10) (xlen inout - 1) (ay - 10) af ;
  do c2 <- lineVH c1 0 (ay + 10) (xlen c1 - 1) (ay + 10) af ;
  do c3 <- lineVH c2 (ax - 10) 0 (ax - 10) (ylen c2 - 1) af ;
  lineVH c3 (ax + 10) 0 (ax + 10) (ylen c3 - 1) af.

(** ** The white border: [borderPresent] *)

Definition BORDERWIDTH : Z := 16.

(** The four tests of the inner loop, joined by [||]. *)
Definition border_test (md : Charmap) (a b : Z) : res bool :=
  orr (lacks_colour md a b COLORWHITE)
      (orr (lacks_colour md (xlen md - 1 - a) b COLORWHITE)
           (orr (lacks_colour md b a COLORWHITE)
                (lacks_colour md b (ylen md - 1 - a) COLORWHITE))).

(** [for(int b=...;b<md.xlen;b++)] with [n] turns to go; the answer is the
    value of [border] after the loop. *)
Fixpoint border_cols (n : nat) (md : Charmap) (a b : Z) : res Z :=
  match n with
  | O => Ret 1
  | S n' =>
    do bad <- border_test md a b ;
    if bad then Ret 0 else border_cols n' md a (b + 1)
  end.

(** [for(int a=...;a<D;a++)] with [m] turns to go. *)
Fixpoint border_rows (m : nat) (md : Charmap) (a : Z) : res Z :=
  match m with
  | O => Ret 1
  | S m' =>
    do border <- border_cols (Z.to_nat (xlen md)) md a 0 ;
    if border <=? 0 then Ret border else border_rows m' md (a + 1)
  end.

Definition borderPresent (md : Charmap) : res Z :=
  border_rows (Z.to_nat BORDERWIDTH) md 0.

(** ** The palette *)

Record RGB : Type := mkRGB { R : Z; G : Z; B : Z }.

(** [Charmap::setPaletteRGB] on the array [palette[256]]. *)
Definition setPaletteRGB (pal : list RGB) (pos ar ag ab : Z) : list RGB :=
  if (pos <? 0) || (pos >? 255) then pal
  else <[Z.to_nat pos := mkRGB ar ag ab]> pal.

(** [setPaletteTo]: all 256 entries black, then the seven colours. *)
Definition setPaletteTo : list RGB :=
  let p0 := repeat (mkRGB 0 0 0) 256 in
  let p1 := setPaletteRGB p0 COLORBLACK 0 0 0 in
  let p2 := setPaletteRGB p1 COLORWHITE 255 255 255 in
  let p3 := setPaletteRGB p2 COLORGRAY 127 127 127 in
  let p4 := setPaletteRGB p3 COLORRED 255 0 0 in
  let p5 := setPaletteRGB p4 COLORBLUE 0 0 255 in
  let p6 := setPaletteRGB p5 COLORYELLOW 255 255 0 in
  setPaletteRGB p6 AKTIVCOL 0 255 127.

(** The three tests of [adjustPalette] on a palette entry; [None] is the
    branch that calls [exit(99)]. *)
Definition classify (e : RGB) : option Z :=
  if (R e <? 20) && (G e <? 20) && (B e <? 20) then Some COLORBLACK
  else if (R e >? 230) && (G e >? 230) && (B e >? 230) then Some COLORWHITE
  else if (R e >? 50) && (G e >? 50) && (B e >? 50) &&
          (R e <? 200) && (G e <? 200) && (B e <? 200) then Some COLORGRAY
  else None.

(** The body of the two loops at pixel [(x,y)]. *)
Definition adjust_at (pal : list RGB) (md : Charmap) (x y : Z)
  : res Charmap :=
  do f <- getPoint md x y ;
  do e <- rd pal f ;
  match classify e with
  | Some v => setPoint md x y v
  | None => Exit99
  end.

Fixpoint adjust_row (n : nat) (pal : list RGB) (md : Charmap) (x y : Z)
  : res Charmap :=
  match n with
  | O => Ret md
  | S n' => do md1 <- adjust_at pal md x y ; adjust_row n' pal md1 (x + 1) y
  end.

Fixpoint adjust_rows (m : nat) (pal : list RGB) (md : Charmap) (y : Z)
  : res Charmap :=
  match m with
  | O => Ret md
  | S m' =>
    do md1 <- adjust_row (Z.to_nat (xlen md)) pal md 0 y ;
    adjust_rows m' pal md1 (y + 1)
  end.

(** [adjustPalette] on a raster with the palette [pal]: the raster and the
    palette it leaves. *)
Definition adjustPalette (pal : list RGB) (md : Charmap)
  : res (Charmap * list RGB) :=
  do md' <- adjust_rows (Z.to_nat (ylen md)) pal md 0 ;
  Ret (md', setPaletteTo).

(** ** The end of [floodFillPattern] *)

(** The four [fillrect] calls for [relf == COLORWHITE]. *)
Definition border_fill (c : Charmap) : res Charmap :=
  do c1 <- fillrect c 0 0 (xlen c - 1) (BORDERWIDTH - 1) AKTIVCOL ;
  do c2 <- fillrect c1 0 (ylen c1 - 1 - (BORDERWIDTH - 1))
                    (xlen c1 - 1) (ylen c1 - 1) AKTIVCOL ;
  do c3 <- fillrect c2 0 0 (BORDERWIDTH - 1) (ylen c2 - 1) AKTIVCOL ;
  fillrect c3 (xlen c3 - 1 - (BORDERWIDTH - 1)) 0
           (xlen c3 - 1) (ylen c3 - 1) AKTIVCOL.

Definition three : list Z := [-1; 0; 1].

(** [for(int dx=-1;dx<=1;dx++)] of the neighbour test: [true] for the
    [break] with [gef=1]. *)
Fixpoint relf_in_row (dxs : list Z) (relf : Z) (c : Charmap) (x y : Z)
  : res bool :=
  match dxs with
  | [] => Ret false
  | dx :: rest =>
    do h <- has_colour c (x + dx) y relf ;
    if h then Ret true else relf_in_row rest relf c x y
  end.

(** [for(int dy=-1;dy<=1;dy++)]; the answer is [gef > 0]. *)
Fixpoint relf_near (dys : list Z) (relf : Z) (c : Charmap) (x y : Z)
  : res bool :=
  match dys with
  | [] => Ret false
  | dy :: rest =>
    do g <- relf_in_row three relf c x (y + dy) ;
    if g then Ret true else relf_near rest relf c x y
  end.

(** The body of the two boundary loops at pixel [(x,y)]. *)
Definition mark_at (relf : Z) (c : Charmap) (x y : Z) : res Charmap :=
  do a <- has_colour c x y AKTIVCOL ;
  if negb a then Ret c
  else
    do gef <- relf_near three relf c x y ;
    if gef then setPoint c x y COLORBLUE else Ret c.

Fixpoint mark_row (n : nat) (relf : Z) (c : Charmap) (x y : Z)
  : res Charmap :=
  match n with
  | O => Ret c
  | S n' => do c1 <- mark_at relf c x y ; mark_row n' relf c1 (x + 1) y
  end.

Fixpoint mark_rows (m : nat) (relf : Z) (c : Charmap) (y : Z)
  : res Charmap :=
  match m with
  | O => Ret c
  | S m' =>
    do c1 <- mark_row (Z.to_nat (xlen c - 2)) relf c 1 y ;
    mark_rows m' relf c1 (y + 1)
  end.

(** [for(int y=1;y<(ptsa->ylen-1);y++) for(int x=1;x<(ptsa->xlen-1);x++)] *)
Definition boundary_pass (relf : Z) (c : Charmap) : res Charmap :=
  mark_rows (Z.to_nat (ylen c - 2)) relf c 1.

(** [floodFillPattern]; [granularity] is the global, [fuel] the budget of
    the fusion loop.  The copy [ptsa] starts as [inbild]. *)
Definition floodFillPattern (fuel : nat) (granularity relf : Z)
  (inbild : Charmap) : res Charmap :=
  do c <- connect_snippets fuel granularity relf inbild ;
  do c1 <- (if relf =? COLORWHITE then border_fill c else Ret c) ;
  boundary_pass relf c1.

(** [interiorPolygon] and [exteriorPolygon]: the polygons saved and the way
    the run ends. *)
Definition make_polygons (relf : Z) (fuel1 fuel2 : nat) (plane : Z -> Z)
  (granularity LOWERBOUNDPOLYGONLENGTH : Z) (inbild : Charmap)
  : list Polygon * res Z :=
  match floodFillPattern fuel1 granularity relf inbild with
  | Ret blau => buildPolygon fuel2 plane LOWERBOUNDPOLYGONLENGTH blau []
  | Exit99 => ([], Exit99)
  | Undef => ([], Undef)
  | Fuel => ([], Fuel)
  end.

Definition interiorPolygon := make_polygons COLORBLACK.
Definition exteriorPolygon := make_polygons COLORWHITE.

(** ** The bitmap file: [dez], [writehex], [saveAsBmp], [loadAsBmp]

    A file is the list of its bytes.  [fwrite] and [fread] of an
    [unsigned int] move its four bytes, lowest first, as on the machines
    the program is built for.  [xlen] and [ylen] are set by [setlenxy] from
    [int] values only, so their 64-bit products do not overflow. *)

(** Conversion to [unsigned int] and to [int]. *)
Definition to_unsigned (z : Z) : Z := z mod 2 ^ 32.
Definition to_int (z : Z) : Z := (z + 2 ^ 31) mod 2 ^ 32 - 2 ^ 31.

(** The [n] lowest bytes of [v], lowest first, and the value of such a
    run of bytes. *)
Fixpoint le_bytes (n : nat) (v : Z) : list Z :=
  match n with
  | O => []
  | S n' => v mod 256 :: le_bytes n' (v / 256)
  end.

Fixpoint le_value (l : list Z) : Z :=
  match l with
  | [] => 0
  | b :: rest => b + 256 * le_value rest
  end.

(** [dez] *)
Definition dez (c : ascii) : Z :=
  let k := code c in
  if (65 <=? k) && (k <=? 70) then k - 65 + 10
  else if (97 <=? k) && (k <=? 102) then k - 97 + 10
  else if (48 <=? k) && (k <=? 57) then k - 48
  else 0.

(** [writehex]: the bytes it writes.  At an odd length [s[i+1]] of the last
    turn is the terminating zero of the string. *)
Fixpoint writehex (s : string) : list Z :=
  match s with
  | EmptyString => []
  | String a EmptyString => [(16 * dez a + dez zero) mod 256]
  | String a (String b rest) => (16 * dez a + dez b) mod 256 :: writehex rest
  end.

(** The first [n] elements of an array, read in one go. *)
Definition first_n {A : Type} (l : list A) (n : Z) : res (list A) :=
  if (0 <=? n) && (n <=? Z.of_nat (length l)) then Ret (take (Z.to_nat n) l)
  else Undef.

(** [puffer] of the palette loop of [saveAsBmp]. *)
Definition palette_bytes (e : RGB) : list Z := [B e; G e; R e; 0].

(** [ybytes=(int)(4*ceil(ybytes*0.25))]: the products and [ceil] are exact
    on doubles for an [int], and the conversion back is defined when the
    value is an [int]. *)
Definition round_up_4 (ybytes : Z) : res Z :=
  let v := 4 * ((ybytes + 3) / 4) in
  if v <? 2 ^ 31 then Ret v else Undef.

Definition BMP_OFF : Z := 14 + 40 + 256 * 4.

(** [Charmap::saveAsBmp]: the bytes of the file, which the model takes to
    be opened. *)
Definition saveAsBmp (c : Charmap) (palette : list RGB) : res (list Z) :=
  do ybytes <- round_up_4 (to_int (ylen c)) ;
  let off := BMP_OFF in
  let filelen := to_unsigned (off + ybytes * xlen c) in
  do pal <- first_n palette 256 ;
  do pixels <- first_n (cmp c) (xlen c * ylen c) ;
  Ret (writehex "424D"
       ++ le_bytes 4 filelen
       ++ writehex "00000000"
       ++ le_bytes 4 off
       ++ writehex "28000000"
       ++ le_bytes 4 (to_unsigned (xlen c))
       ++ le_bytes 4 (to_unsigned (ylen c))
       ++ writehex "0100"
       ++ writehex "0800"
       ++ writehex "00000000"
       ++ writehex "00000000"
       ++ writehex "130B0000"
       ++ writehex "130B0000"
       ++ writehex "00010000"
       ++ writehex "00000000"
       ++ concat (map palette_bytes pal)
       ++ pixels).

(** [fread] of one element of [n] bytes whose value is used afterwards:
    the element and the rest of the file.  The value of an element that the
    file holds only in part is indeterminate. *)
Definition fread (n : nat) (f : list Z) : res (list Z * list Z) :=
  if (n <=? length f)%nat then Ret (take n f, drop n f) else Undef.

(** [DUMMYREAD(NR)], and the reads of [filelen] and [off], whose values
    are not used: the rest of the file. *)
Definition DUMMYREAD (n : nat) (f : list Z) : list Z := drop n f.

(** The palette loop of [loadAsBmp], [n] entries to go. *)
Fixpoint read_palette (n : nat) (f : list Z) : res (list RGB * list Z) :=
  match n with
  | O => Ret ([], f)
  | S n' =>
    do r <- fread 4 f ;
    do b <- rd (fst r) 0 ;
    do g <- rd (fst r) 1 ;
    do r_ <- rd (fst r) 2 ;
    do rest <- read_palette n' (snd r) ;
    Ret (mkRGB r_ g b :: fst rest, snd rest)
  end.

(** [Charmap::loadAsBmp] on the file, [None] when it cannot be opened: the
    value returned, the raster and its palette.  [setlenxy] takes the two
    sizes as [int]; [new] of a negative number of bytes throws. *)
Definition loadAsBmp (file : option (list Z)) (c : Charmap)
  (palette : list RGB) : res (Z * Charmap * list RGB) :=
  match file with
  | None => Ret (0, c, palette)
  | Some f0 =>
    let f1 := DUMMYREAD 2 f0 in
    let f2 := DUMMYREAD 4 f1 in
    let f3 := DUMMYREAD 4 f2 in
    let f4 := DUMMYREAD 4 f3 in
    let f5 := DUMMYREAD 4 f4 in
    do wx <- fread 4 f5 ;
    do wy <- fread 4 (snd wx) ;
    let xl := to_int (le_value (fst wx)) in
    let yl := to_int (le_value (fst wy)) in
    let memused := xl * yl in
    if memused <? 0 then Undef
    else
      let f6 := DUMMYREAD 2 (snd wy) in
      do bitsperpixel <- fread 2 f6 ;
      if negb (le_value (fst bitsperpixel) =? 8) then Exit99
      else
        let f7 := DUMMYREAD 24 (snd bitsperpixel) in
        do pal <- read_palette 256 f7 ;
        do pixels <- fread (Z.to_nat memused) (snd pal) ;
        Ret (1, mkCharmap xl yl (fst pixels), fst pal)
  end.

(** ** The image checks of [main]

    From [loadAsBmp("_in.bmp")] to the test of the white border; the
    raster and the palette that [main] goes on with. *)
Definition main_image (file : option (list Z)) (inbild : Charmap)
  (palette : list RGB) : res (Charmap * list RGB) :=
  do r <- loadAsBmp file inbild palette ;
  if fst (fst r) <=? 0 then Exit99
  else
    do a <- adjustPalette (snd r) (snd (fst r)) ;
    if negb (xlen (fst a) =? ylen (fst a)) then Exit99
    else
      do border <- borderPresent (fst a) ;
      if border <=? 0 then Exit99 else Ret a.

(** ** The polygon files: [loadAllPolygons] and the names [buildPolygon]
    saves under

    The files of the working directory are a map from names to the lines
    of a text file. *)

Definition MAXPOLYGONE : Z := 16384.

Definition Files : Type := string -> option (list string).

Fixpoint zeros (n : nat) (acc : string) : string :=
  match n with
  | O => acc
  | S n' => String "0" (zeros n' acc)
  end.

(** The output of ["%04i"], followed by [acc]: zeros between the sign and
    the digits fill it up to four characters. *)
Definition print_04i (z : Z) (acc : string) : string :=
  if z <? 0 then
    String "-"
      (zeros (3 - String.length (print_unsigned (- z) EmptyString))
             (print_unsigned (- z) acc))
  else
    zeros (4 - String.length (print_unsigned z EmptyString))
          (print_unsigned z acc).

(** [sprintf(tmp,"%spoly%04i",afnpref,polanz)]; [loadAllPolygons] has the
    prefix in its format strings ["intpoly%04i"] and ["extpoly%04i"]. *)
Definition poly_name (afnpref : string) (polanz : Z) : string :=
  String.append afnpref (String.append "poly" (print_04i polanz EmptyString)).

(** [Polygon::load(afn)] on the polygon object [old]: [-1] when the file
    cannot be opened, [1] after reading it. *)
Definition load_file (fs : Files) (afn : string) (old : Polygon)
  (tmp0 : string) : res (Z * Polygon) :=
  match fs afn with
  | None => Ret (-1, old)
  | Some f => do p <- load old tmp0 f ; Ret (1, p)
  end.

(** One of the two [if (search>0) { ... }] blocks of the loop: [arr] holds
    the polygons loaded so far, so its length is the counter; the arrays
    have [MAXPOLYGONE] objects, each as [fresh] after [new]. *)
Definition load_next (fs : Files) (afnpref : string) (fresh : Polygon)
  (tmp0 : string -> string) (arr : list Polygon) (search : Z)
  : res (list Polygon * Z) :=
  if search >? 0 then
    let count := Z.of_nat (length arr) in
    let tmp := poly_name afnpref count in
    if count >=? MAXPOLYGONE then Undef
    else
      do r <- load_file fs tmp fresh (tmp0 tmp) ;
      if fst r <=? 0 then Ret (arr, 0) else Ret (arr ++ [snd r], search)
  else Ret (arr, search).

(** [while ( (searche>0) || (searchi>0) )] *)
Fixpoint load_loop (fuel : nat) (fs : Files) (fresh : Polygon)
  (tmp0 : string -> string) (intp extp : list Polygon) (searchi searche : Z)
  : res (list Polygon * list Polygon) :=
  match fuel with
  | O => Fuel
  | S fuel' =>
    if (searche >? 0) || (searchi >? 0) then
      do i <- load_next fs "int" fresh tmp0 intp searchi ;
      do e <- load_next fs "ext" fresh tmp0 extp searche ;
      load_loop fuel' fs fresh tmp0 (fst i) (fst e) (snd i) (snd e)
    else Ret (intp, extp)
  end.

(** [loadAllPolygons], called as [oracle] and [qualitycontrol] do, with
    [intp] and [extp] still [NULL]: the interior and the exterior polygons
    it leaves, [intpcount] and [extpcount] being their numbers.  [tmp0]
    gives the content of the uninitialised line buffer of each [load]. *)
Definition loadAllPolygons (fuel : nat) (fs : Files) (fresh : Polygon)
  (tmp0 : string -> string) : res (list Polygon * list Polygon) :=
  load_loop fuel fs fresh tmp0 [] [] 1 1.

(** The files after [buildPolygon] has saved the polygons [saved] one by
    one, the first under the number [polanz]:
    [sprintf(tmp,"%spoly%04i",afnpref,polanz); p1->save(tmp); polanz++;].
    The model takes the files to be writable. *)
Fixpoint save_all (afnpref : string) (RANGE0 RANGE1 polanz : Z)
  (saved : list Polygon) (fs : Files) : Files :=
  match saved with
  | [] => fs
  | p :: rest =>
    save_all afnpref RANGE0 RANGE1 (polanz + 1) rest
      (fun afn => if String.eqb afn (poly_name afnpref polanz)
                  then Some (save RANGE0 RANGE1 p) else fs afn)
  end.

(** ** Check A of [qualitycontrol] *)

(** [for(int i=0;i<count;i++) if (qcA(p[i]) <= 0) { erg=0; break; }]: the
    value of [erg], which is 1 before the loop. *)
Fixpoint qcA_all (l : list Polygon) : res Z :=
  match l with
  | [] => Ret 1
  | p :: rest => do r <- qcA p ; if r <=? 0 then Ret 0 else qcA_all rest
  end.

(** The two loops of check A, the second under [if (erg>0)]: the value of
    [erg] that decides between [FAILED] and [PASSED]. *)
Definition check_A (intp extp : list Polygon) : res Z :=
  do erg <- qcA_all intp ;
  if erg >? 0 then qcA_all extp else Ret erg.

(** ** The options of [main]: [upper] and the loop over [argv]

    The loop sets [cmd], [RANGE0], [RANGE1], [LOWERBOUNDPOLYGONLENGTH] and
    [granularity]; the branch for [POINT=] sets the point of the oracle
    only, which the settings here do not carry. *)

(** [if ((s[i]>='a')&&(s[i]<='z')) s[i]=s[i]-'a'+'A';] *)
Definition upper_char (c : ascii) : ascii :=
  if (97 <=? code c) && (code c <=? 122)
  then ascii_of_nat (nat_of_ascii c - 97 + 65)
  else c.

(** [upper] *)
Fixpoint upper (s : string) : string :=
  match s with
  | EmptyString => EmptyString
  | String c rest => String (upper_char c) (upper rest)
  end.

(** [&s[n]] for [n] up to the length of [s]. *)
Fixpoint from_index (n : nat) (s : string) : string :=
  match n, s with
  | S n', String _ rest => from_index n' rest
  | _, _ => s
  end.

Definition CMD_MAKEINT : Z := 1.
Definition CMD_MAKEEXT : Z := 2.
Definition CMD_QUALITY : Z := 3.
Definition CMD_ORACLE : Z := 4.

Record Settings : Type := mkSettings {
  cmd : Z;
  RANGE0 : Z;
  RANGE1 : Z;
  granularity : Z;
  LOWERBOUNDPOLYGONLENGTH : Z
}.

(** The standard values. *)
Definition standard_settings : Settings := mkSettings CMD_ORACLE (-2) 2 5 24.

(** The body of the loop for one argument; [strstr(a,p)==a] holds when [a]
    starts with [p]. *)
Definition option_step (st : Settings) (arg : string) : Settings :=
  let a := upper arg in
  if String.prefix "CMD=" a then
    let v := from_index 4 a in
    if String.eqb v "MAKEINT" then
      mkSettings CMD_MAKEINT (RANGE0 st) (RANGE1 st) (granularity st)
                 (LOWERBOUNDPOLYGONLENGTH st)
    else if String.eqb v "MAKEEXT" then
      mkSettings CMD_MAKEEXT (RANGE0 st) (RANGE1 st) (granularity st)
                 (LOWERBOUNDPOLYGONLENGTH st)
    else if String.eqb v "ORACLE" then
      mkSettings CMD_ORACLE (RANGE0 st) (RANGE1 st) (granularity st)
                 (LOWERBOUNDPOLYGONLENGTH st)
    else if String.eqb v "QUALITY" then
      mkSettings CMD_QUALITY (RANGE0 st) (RANGE1 st) (granularity st)
                 (LOWERBOUNDPOLYGONLENGTH st)
    else st
  else if String.prefix "RANGE=" a then
    match sscanf_i_i (from_index 6 a) with
    | Some (r0, r1) =>
      mkSettings (cmd st) r0 r1 (granularity st) (LOWERBOUNDPOLYGONLENGTH st)
    | None =>
      mkSettings (cmd st) (-2) 2 (granularity st) (LOWERBOUNDPOLYGONLENGTH st)
    end
  else if String.prefix "POINT=" a then st
  else if String.prefix "MINPOLLEN=" a then
    match sscanf_i (from_index 10 a) with
    | Some n => mkSettings (cmd st) (RANGE0 st) (RANGE1 st) (granularity st) n
    | None => mkSettings (cmd st) (RANGE0 st) (RANGE1 st) (granularity st) 24
    end
  else if String.prefix "GRANULARITY=" a then
    match sscanf_i (from_index 12 a) with
    | Some n =>
      mkSettings (cmd st) (RANGE0 st) (RANGE1 st) n (LOWERBOUNDPOLYGONLENGTH st)
    | None =>
      mkSettings (cmd st) (RANGE0 st) (RANGE1 st) 5 (LOWERBOUNDPOLYGONLENGTH st)
    end
  else st.

(** [for(int i=1;i<argc;i++)] on the arguments after the program name. *)
Definition main_settings (args : list string) : Settings :=
  fold_left option_step args standard_settings.

(** ** Predicates used by the statements *)

(** The edge ending at index [i] is horizontal or vertical. *)
Definition edge_rect (pts : list PolygonPoint) (i : Z) : Prop :=
  forall a b, zget pts (i - 1) = Some a -> zget pts i = Some b ->
              px a = px b \/ py a = py b.

(** An edge lying strictly above or strictly below the ray. *)
Definition edge_off_row (pts : list PolygonPoint) (ay k : Z) : Prop :=
  exists a b, zget pts (k - 1) = Some a /\ zget pts k = Some b /\
              (px a = px b \/ py a = py b) /\
              ((py a < ay /\ py b < ay) \/ (ay < py a /\ ay < py b)).

(** The edge ending at index [k] passes the test of [prepareY] for row
    [ay0]. *)
Definition relevant (pts : list PolygonPoint) (ay0 k : Z) : bool :=
  match zget pts (k - 1), zget pts k with
  | Some a, Some b => in_band ay0 a b
  | _, _ => false
  end.

(** Entry [r] of the table [T] names the next relevant edge after [r], and
    that edge is at most [hi]. *)
Definition link (pts : list PolygonPoint) (ay0 : Z) (T : list Z) (r hi : Z)
  : Prop :=
  exists j, zget T r = Some j /\ r < j <= hi /\ relevant pts ay0 j = true /\
            forall k, r < k < j -> relevant pts ay0 k = false.

(** Entry [r] of the finished table: the next relevant edge, or the
    past-the-end mark when there is none. *)
Definition chain (pts : list PolygonPoint) (ay0 : Z) (T : list Z) (r : Z)
  : Prop :=
  exists j, zget T r = Some j /\
    ((r < j < Z.of_nat (length pts) /\ relevant pts ay0 j = true /\
      forall k, r < k < j -> relevant pts ay0 k = false) \/
     (j = Z.of_nat (length pts) + 16 /\
      forall k, r < k < Z.of_nat (length pts) -> relevant pts ay0 k = false)).

(** The state of [prepareY] before it looks at edge [i]. *)
Definition prepare_inv (pts : list PolygonPoint) (ay0 : Z)
  (i : Z) (yp : list Z) (li : Z) : Prop :=
  (li = -1 /\ forall k, 1 <= k < i -> relevant pts ay0 k = false) \/
  (1 <= li < i /\ relevant pts ay0 li = true /\
   (forall k, li < k < i -> relevant pts ay0 k = false) /\
   forall r, r = 0 \/ relevant pts ay0 r = true -> 0 <= r < li ->
             link pts ay0 yp r li).

(** The table buffer has a cell for every vertex and at least one cell, as
    [setlen] allocates it for a polygon with a vertex. *)
Definition table_allocated (apg : Polygon) : Prop :=
  0 < Z.of_nat (length (yprepare apg)) /\
  pointcount apg <= Z.of_nat (length (yprepare apg)).

(** A table is usable when it is off or was built by [prepareY]. *)
Definition table_ready (apg : Polygon) : Prop :=
  useprepare apg <= 0 \/ exists apg0 ay0, prepareY apg0 ay0 = Ret apg.

(** The polygon passed the structural check and its table is usable. *)
Definition oracle_ready (apg : Polygon) : Prop :=
  isDiagonalFree apg = 1 /\ table_ready apg.

(** Every point of the (2*mxy+1)^2 neighbourhood of the query gets the
    answer [want] from the single-polygon oracle. *)
Definition whole_block (want : pip) (ax ay : Q) (apg : Polygon) : Prop :=
  forall dx dy, - mxy <= dx <= mxy -> - mxy <= dy <= mxy ->
    point_in_polygonVH apg (scaled ax (nenner apg) + dx)
                           (scaled ay (nenner apg) + dy) = Ret want.

Definition nonempty (apg : Polygon) : bool := pointcount apg >? 0.

(** ** Sample data *)

(** The square with corners (0,0) and (10,10), as [load] would deliver it:
    bounding box with the margin of 8, table buffer of [pointcount] cells. *)
Definition square10 : Polygon :=
  mkPolygon [mkPoint 0 0; mkPoint 10 0; mkPoint 10 10; mkPoint 0 10; mkPoint 0 0]
            0 1 (-8) 18 (-8) 18 [0; 0; 0; 0; 0].

(** A far larger square around the same centre, used as an exterior
    polygon. *)
Definition square100 : Polygon :=
  mkPolygon [mkPoint (-45) (-45); mkPoint 55 (-45); mkPoint 55 55;
             mkPoint (-45) 55; mkPoint (-45) (-45)]
            0 1 (-53) 63 (-53) 63 [0; 0; 0; 0; 0].

(** A polygon without vertices, as [load] delivers it from a record whose
    point count is 0. *)
Definition empty_polygon : Polygon := mkPolygon [] 0 1 0 0 0 0 [].

(** ** Axis-aligned squares *)

(** The corners of the square with lower corner [(x0,y0)] and side [s], in
    one sense of rotation. *)
Definition corners (x0 y0 s : Z) : list PolygonPoint :=
  [mkPoint x0 y0; mkPoint (x0 + s) y0; mkPoint (x0 + s) (y0 + s);
   mkPoint x0 (y0 + s)].

Definition rotate1 (l : list PolygonPoint) : list PolygonPoint :=
  match l with
  | [] => []
  | a :: rest => rest ++ [a]
  end.

(** Close the ring: five vertices, the last equal to the first. *)
Definition ring (l : list PolygonPoint) : list PolygonPoint :=
  match l with
  | [] => []
  | a :: _ => l ++ [a]
  end.

Definition rotations (l : list PolygonPoint) : list (list PolygonPoint) :=
  [l; rotate1 l; rotate1 (rotate1 l); rotate1 (rotate1 (rotate1 l))].

(** The eight closed vertex sequences of the square: four starting corners,
    two senses of rotation. *)
Definition square_rings (x0 y0 s : Z) : list (list PolygonPoint) :=
  map ring (rotations (corners x0 y0 s) ++ rotations (rev (corners x0 y0 s))).

Definition strictly_inside (x0 y0 s ax ay : Z) : Prop :=
  x0 < ax < x0 + s /\ y0 < ay < y0 + s.

Definition strictly_outside (x0 y0 s ax ay : Z) : Prop :=
  ax < x0 \/ x0 + s < ax \/ ay < y0 \/ y0 + s < ay.

Definition on_edge (x0 y0 s ax ay : Z) : Prop :=
  ((ax = x0 \/ ax = x0 + s) /\ y0 <= ay <= y0 + s) \/
  ((ay = y0 \/ ay = y0 + s) /\ x0 <= ax <= x0 + s).

(** ** Rasters *)

(** The array has [xlen*ylen] cells and the raster is not empty. *)
Definition canvas_ok (c : Charmap) : Prop :=
  0 < xlen c /\ 0 <= ylen c /\ Z.of_nat (length (cmp c)) = xlen c * ylen c.

(** Number of cells of colour [v]. *)
Fixpoint count_colour (v : Z) (l : list Z) : nat :=
  match l with
  | [] => O
  | a :: rest => if a =? v then S (count_colour v rest) else count_colour v rest
  end.

(** Two target pixels at [(x,y)] and [(x+1,y)] between two active ones. *)
Definition row_gap (relf : Z) (c : Charmap) (x y : Z) : Prop :=
  getPoint c x y = Ret relf /\ getPoint c (x + 1) y = Ret relf /\
  getPoint c (x - 1) y = Ret AKTIVCOL /\ getPoint c (x + 2) y = Ret AKTIVCOL.

(** No gray above or below the four columns [x .. x+3]. *)
Definition row_gap_gray_free (c : Charmap) (x y : Z) : Prop :=
  forall dx, 0 <= dx <= 3 ->
    getPoint c (x + dx) (y - 1) <> Ret COLORGRAY /\
    getPoint c (x + dx) (y + 1) <> Ret COLORGRAY.

(** Two target pixels at [(x,y)] and [(x,y+1)] between two active ones. *)
Definition col_gap (relf : Z) (c : Charmap) (x y : Z) : Prop :=
  getPoint c x y = Ret relf /\ getPoint c x (y + 1) = Ret relf /\
  getPoint c x (y + 2) = Ret AKTIVCOL /\ getPoint c x (y - 1) = Ret AKTIVCOL.

(** No gray left or right of the four rows [y .. y+3]. *)
Definition col_gap_gray_free (c : Charmap) (x y : Z) : Prop :=
  forall dy, 0 <= dy <= 3 ->
    getPoint c (x - 1) (y + dy) <> Ret COLORGRAY /\
    getPoint c (x + 1) (y + dy) <> Ret COLORGRAY.

(** One target pixel at [(x,y)] between two active ones of its row, with no
    gray above or below the three pixels. *)
Definition single_row_gap (relf : Z) (c : Charmap) (x y : Z) : Prop :=
  getPoint c x y = Ret relf /\
  getPoint c (x - 1) y = Ret AKTIVCOL /\ getPoint c (x + 1) y = Ret AKTIVCOL /\
  forall dx, -1 <= dx <= 1 ->
    getPoint c (x + dx) (y - 1) <> Ret COLORGRAY /\
    getPoint c (x + dx) (y + 1) <> Ret COLORGRAY.

(** A 5x5 raster of white with one black pixel between two active ones in
    its middle row. *)
Definition single_gap_canvas : Charmap :=
  mkCharmap 5 5
    [1; 1; 1; 1; 1;
     1; 1; 1; 1; 1;
     1; 16; 2; 16; 1;
     1; 1; 1; 1; 1;
     1; 1; 1; 1; 1].

(** A 6x5 raster of white with two black pixels between two active ones in
    its middle row. *)
Definition double_gap_canvas : Charmap :=
  mkCharmap 6 5
    [1; 1; 1; 1; 1; 1;
     1; 1; 1; 1; 1; 1;
     1; 16; 2; 2; 16; 1;
     1; 1; 1; 1; 1; 1;
     1; 1; 1; 1; 1; 1].

(** The same raster with the gap closed. *)
Definition fused_gap_canvas : Charmap :=
  mkCharmap 6 5
    [1; 1; 1; 1; 1; 1;
     1; 1; 1; 1; 1; 1;
     1; 16; 16; 16; 16; 1;
     1; 1; 1; 1; 1; 1;
     1; 1; 1; 1; 1; 1].

(** No active pixel in the last row of the raster: so it is in the input,
    which has gray, white and black pixels only, and the kernel scan marks
    rows up to [ylen-3] only. *)
Definition last_row_inactive (c : Charmap) : Prop :=
  forall x, 0 <= x < xlen c -> getPoint c x (ylen c - 1) <> Ret AKTIVCOL.

(** No two-pixel gap that the fusion step would close is left at a pixel
    the loop visits. *)
Definition no_open_gap (relf : Z) (c : Charmap) : Prop :=
  forall x y, 1 <= x <= xlen c - 3 -> 1 <= y <= ylen c - 3 ->
    ~ (row_gap relf c x y /\ row_gap_gray_free c x y) /\
    ~ (~ row_gap relf c x y /\ col_gap relf c x y /\ col_gap_gray_free c x y).

(** An input raster of 9 by 9 black pixels. *)
Definition black_canvas : Charmap := mkCharmap 9 9 (repeat COLORBLACK 81).

(** What the kernel scan keeps of the raster [c0] it starts from. *)
Definition scan_inv (relf : Z) (c0 c : Charmap) : Prop :=
  canvas_ok c /\ xlen c = xlen c0 /\ ylen c = ylen c0 /\
  last_row_inactive c /\
  (count_colour relf (cmp c) <= count_colour relf (cmp c0))%nat.

(** ** Text *)

(** The text goes on with something that is no decimal digit. *)
Definition no_digit_head (s : string) : Prop :=
  match s with
  | EmptyString => True
  | String c _ => digit_val 10 c = None /\ (code c =? 120) || (code c =? 88) = false
  end.

Definition text_line (s : string) : string := String.append s line_end.

(** Records with one defective line each. *)
Definition record_bad_denominator : list string :=
  [text_line "xx"; text_line "-2,2,-2,2"; text_line "1"; text_line "3,4";
   text_line "."].

Definition record_bad_count : list string :=
  [text_line "33554432"; text_line "-2,2,-2,2"; text_line "one";
   text_line "3,4"; text_line "."].

Definition record_bad_point : list string :=
  [text_line "33554432"; text_line "-2,2,-2,2"; text_line "2";
   text_line "3,4"; text_line "5;6"; text_line "."].

(** ** The state of the boundary walk *)

(** The vertex of a pixel. *)
Definition vertex (plane : Z -> Z) (x y : Z) : PolygonPoint :=
  mkPoint (plane x) (plane y).

(** The pixel is inside the array and not blue (any more). *)
Definition dead (blau : Charmap) (x y : Z) : Prop :=
  exists c, getPoint blau x y = Ret c /\ c <> COLORBLUE.

(** Three vertices on one vertical or one horizontal line. *)
Definition col3 (a b c : PolygonPoint) : Prop :=
  (px a = px b /\ px b = px c) \/ (py a = py b /\ py b = py c).

(** The test of [add] on the last two vertices [A], [B] and the new one. *)
Definition colinear_new (A B v : PolygonPoint) : bool :=
  ((px v =? px B) && (px v =? px A)) || ((py v =? py B) && (py v =? py A)).

(** The pixel [k] steps from the start in the direction of the first
    step. *)
Definition along (horiz : bool) (sx sy k : Z) : Z * Z :=
  if horiz then (sx + k, sy) else (sx, sy + k).

(** What holds each time the walk tests whether it is back at the start:
    [blau0] is the raster in which the start [(sx,sy)] was found, [horiz]
    tells whether the first step went in +x, [pts] are the vertices so far
    and [(aktx,akty)] is the current pixel. *)
Record walk_inv (plane : Z -> Z) (blau0 : Charmap) (sx sy : Z) (horiz : bool)
  (blau : Charmap) (pts : list PolygonPoint) (aktx akty : Z) : Prop :=
  mk_walk_inv {
    wi_first : pts !! 0%nat = Some (vertex plane sx sy);
    wi_len : (2 <= length pts)%nat;
    wi_last : pts !! (length pts - 1)%nat = Some (vertex plane aktx akty);
    wi_dead : forall (i : nat) v, (1 <= i)%nat -> pts !! i = Some v ->
                exists x y, v = vertex plane x y /\ dead blau x y;
    wi_free : forall (i : nat) a b c,
                pts !! i = Some a -> pts !! (i + 1)%nat = Some b ->
                pts !! (i + 2)%nat = Some c -> ~ col3 a b c;
    wi_second : exists k, pts !! 1%nat =
                            Some (vertex plane (fst (along horiz sx sy k))
                                               (snd (along horiz sx sy k))) /\
                          ((3 <= length pts)%nat -> k <> 0);
    wi_xlen : xlen blau = xlen blau0;
    wi_mono : forall i, zget (cmp blau) i = Some COLORBLUE ->
                        zget (cmp blau0) i = Some COLORBLUE;
    wi_akt : getPoint blau0 aktx akty = Ret COLORBLUE;
    wi_step1 : dead blau (fst (along horiz sx sy 1)) (snd (along horiz sx sy 1));
    wi_early : (aktx, akty) = along horiz sx sy 1 -> length pts = 2%nat;
    wi_seam : aktx = sx -> akty = sy -> (3 <= length pts)%nat ->
              forall p0 p1 pl,
                pts !! 0%nat = Some p0 -> pts !! 1%nat = Some p1 ->
                pts !! (length pts - 2)%nat = Some pl ->
                seam_colinear p0 p1 pl = false
  }.

(** The start is the first blue pixel of the raster in array order. *)
Definition first_blue (blau0 : Charmap) (sx sy : Z) : Prop :=
  getPoint blau0 sx sy = Ret COLORBLUE /\ 0 < xlen blau0 /\
  forall x y, y * xlen blau0 + x < sy * xlen blau0 + sx ->
              getPoint blau0 x y <> Ret COLORBLUE.

(** A conversion that keeps different pixel coordinates apart, as the
    affine map of the source does for a range that is not empty. *)
Definition injective (plane : Z -> Z) : Prop :=
  forall a b, plane a = plane b -> a = b.

(** ** Sample rasters for the boundary walk *)

(** The conversion of the source for a raster 1024 pixels wide and the
    range -2..2: [floor((x * 4/1024 - 2) * 2^25)]. *)
Definition plane1024 (x : Z) : Z := x * 131072 - 67108864.

(** A blue ring around a black block. *)
Definition ring_canvas : Charmap :=
  mkCharmap 6 6
    [1; 1; 1; 1; 1; 1;
     1; 5; 5; 5; 5; 1;
     1; 5; 2; 2; 5; 1;
     1; 5; 2; 2; 5; 1;
     1; 5; 5; 5; 5; 1;
     1; 1; 1; 1; 1; 1].

(** A blue block of two by two pixels, the rim of a kernel of granularity
    4 that stands alone. *)
Definition block_canvas : Charmap :=
  mkCharmap 5 5
    [1; 1; 1; 1; 1;
     1; 5; 5; 1; 1;
     1; 5; 5; 1; 1;
     1; 1; 1; 1; 1;
     1; 1; 1; 1; 1].

Definition ring_polygons : list Polygon :=
  fst (buildPolygon 20 plane1024 3 ring_canvas []).

Definition block_polygons : list Polygon :=
  fst (buildPolygon 20 plane1024 1 block_canvas []).

(** ** Predicates on polygons used by the further statements *)

(** The point lies in the box, borders included. *)
Definition in_box (b : Box) (p : PolygonPoint) : Prop :=
  bxmin b <= px p <= bxmax b /\ bymin b <= py p <= bymax b.

(** The bounding box of the polygon holds all its vertices. *)
Definition box_covers (apg : Polygon) : Prop :=
  Forall (in_box (box_of apg)) (points apg).

(** [(ax,ay)] lies on the vertical or horizontal segment from [a] to [b],
    ends included. *)
Definition on_segment (a b : PolygonPoint) (ax ay : Z) : Prop :=
  (px a = px b /\ ax = px a /\
   Z.min (py a) (py b) <= ay <= Z.max (py a) (py b)) \/
  (py a = py b /\ ay = py a /\
   Z.min (px a) (px b) <= ax <= Z.max (px a) (px b)).

(** [(ax,ay)] lies on the edge of the polygon that ends at index [k]. *)
Definition on_polygon_edge (pts : list PolygonPoint) (k ax ay : Z) : Prop :=
  exists a b, zget pts (k - 1) = Some a /\ zget pts k = Some b /\
              on_segment a b ax ay.

(** The edge ending at index [k] is neither vertical nor horizontal. *)
Definition edge_diagonal (pts : list PolygonPoint) (k : Z) : Prop :=
  exists a b, zget pts (k - 1) = Some a /\ zget pts k = Some b /\
              px a <> px b /\ py a <> py b.

(** The polygon that a run of [add] calls builds from [apg]. *)
Definition add_all (apg : Polygon) (l : list (Z * Z)) : Polygon :=
  fold_left (fun p xy => add p (fst xy) (snd xy)) l apg.

(** A polygon with a diagonal second edge. *)
Definition diagonal_polygon : Polygon :=
  mkPolygon [mkPoint 0 0; mkPoint 10 0; mkPoint 5 5; mkPoint 0 0]
            0 1 0 10 0 10 [0; 0; 0; 0].

(** ** What the structural check asks of a vertex list *)

(** The first vertex is the last one. *)
Definition ring_closed (pts : list PolygonPoint) : Prop :=
  exists v, pts !! 0%nat = Some v /\ last pts = Some v.

(** No three vertices in a row on one vertical or horizontal line. *)
Definition colinear_free_inside (pts : list PolygonPoint) : Prop :=
  forall (i : nat) a b c,
    pts !! i = Some a -> pts !! (i + 1)%nat = Some b ->
    pts !! (i + 2)%nat = Some c -> ~ col3 a b c.

(** The same around the end: the last vertex but one, the first and the
    second. *)
Definition colinear_free_seam (pts : list PolygonPoint) : Prop :=
  forall pl p0 p1,
    pts !! (length pts - 2)%nat = Some pl -> pts !! 0%nat = Some p0 ->
    pts !! 1%nat = Some p1 -> ~ col3 pl p0 p1.

(** Every edge is vertical or horizontal. *)
Definition rectilinear (pts : list PolygonPoint) : Prop :=
  forall i, edge_rect pts i.

Definition sound_ring (pts : list PolygonPoint) : Prop :=
  (2 <= length pts)%nat /\ ring_closed pts /\ colinear_free_inside pts /\
  colinear_free_seam pts /\ rectilinear pts.

(** ** More on the state of the boundary walk *)

(** Neighbouring vertices share a coordinate, and every vertex is the
    vertex of a pixel that is blue in the raster [blau0]. *)
Record walk_shape (plane : Z -> Z) (blau0 : Charmap)
  (pts : list PolygonPoint) : Prop :=
  mk_walk_shape {
    ws_rect : forall (i : nat) a b,
                pts !! i = Some a -> pts !! S i = Some b ->
                px a = px b \/ py a = py b;
    ws_blue : forall (i : nat) v, pts !! i = Some v ->
                exists x y, v = vertex plane x y /\
                            getPoint blau0 x y = Ret COLORBLUE
  }.

(** Every vertex of the polygon is the vertex of a pixel that is blue in
    [c], at the position [y*xlen+x] of the array. *)
Definition on_blue (plane : Z -> Z) (c : Charmap) (p : Polygon) : Prop :=
  Forall (fun v => exists x y, v = vertex plane x y /\
                               getPoint c x y = Ret COLORBLUE) (points p).

(** The blue pixels of [c'] are blue pixels of [c]. *)
Definition blue_within (c' c : Charmap) : Prop :=
  xlen c' = xlen c /\
  forall i, zget (cmp c') i = Some COLORBLUE -> zget (cmp c) i = Some COLORBLUE.

(** ** Polygons the oracle can work on *)

(** The polygon has no diagonal edge and its table buffer is allocated. *)
Definition preparable (apg : Polygon) : Prop :=
  isDiagonalFree apg = 1 /\ table_allocated apg.

(** ** What [trimColinearStart] leaves of a vertex list *)

(** [cur] is [pts] itself, or a shorter list that agrees with [pts] from
    index 2 on, whose first two vertices have kept their y and, with three
    vertices or more, have taken as x the x and the y of the vertex that is
    the last one now. *)
Definition trimmed_from (pts cur : list PolygonPoint) : Prop :=
  cur = pts \/
  ((2 <= length cur < length pts)%nat /\
   (forall j : nat, (2 <= j < length cur)%nat -> cur !! j = pts !! j) /\
   exists A B p0 p1,
     cur !! 0%nat = Some A /\ cur !! 1%nat = Some B /\
     pts !! 0%nat = Some p0 /\ pts !! 1%nat = Some p1 /\
     py A = py p0 /\ py B = py p1 /\
     ((3 <= length cur)%nat ->
      exists L, pts !! (length cur - 1)%nat = Some L /\
                px A = px L /\ px B = py L)).

(** The test of the seam loop fails on the list, if it has three vertices
    or more. *)
Definition seam_settled (cur : list PolygonPoint) : Prop :=
  (3 <= length cur)%nat ->
  forall p0 p1 pl,
    cur !! 0%nat = Some p0 -> cur !! 1%nat = Some p1 ->
    cur !! (length cur - 2)%nat = Some pl ->
    seam_colinear p0 p1 pl = false.

(** ** Predicates on rasters used by the further statements *)

(** The pixel lies inside the raster. *)
Definition in_raster (c : Charmap) (x y : Z) : Prop :=
  0 <= x < xlen c /\ 0 <= y < ylen c.

(** [c'] has the size of [c]. *)
Definition same_size (c' c : Charmap) : Prop :=
  xlen c' = xlen c /\ ylen c' = ylen c /\ length (cmp c') = length (cmp c).

(** [c'] is [c] with the pixels of the raster that satisfy [inside]
    painted in [v]. *)
Definition painted (inside : Z -> Z -> bool) (v : Z) (c c' : Charmap) : Prop :=
  same_size c' c /\
  forall x y, in_raster c x y ->
    getPoint c' x y = if inside x y then Ret v else getPoint c x y.

(** The nearest coordinate inside [0 .. len-1]. *)
Definition nearest (a len : Z) : Z := Z.max 0 (Z.min a (len - 1)).

(** [(x,y)] lies in the rectangle with the corners [(ax,ay)] and
    [(bx,by)], in whatever order they are given. *)
Definition in_rect (ax ay bx by_ x y : Z) : bool :=
  (Z.min ax bx <=? x) && (x <=? Z.max ax bx) &&
  (Z.min ay by_ <=? y) && (y <=? Z.max ay by_).

(** The pixels [lineVH] paints: those of the segment between the two end
    points moved into the raster, if that segment is vertical or
    horizontal. *)
Definition on_line (c : Charmap) (aax aay bbx bby x y : Z) : bool :=
  let ax := nearest aax (xlen c) in
  let ay := nearest aay (ylen c) in
  let bx := nearest bbx (xlen c) in
  let by_ := nearest bby (ylen c) in
  ((ax =? bx) || (ay =? by_)) && in_rect ax ay bx by_ x y.

(** The pixels [drawCrossing] paints: two rows and two columns, ten pixels
    away from [(ax,ay)] and moved into the raster. *)
Definition on_crossing (c : Charmap) (ax ay x y : Z) : bool :=
  (y =? nearest (ay - 10) (ylen c)) || (y =? nearest (ay + 10) (ylen c)) ||
  (x =? nearest (ax - 10) (xlen c)) || (x =? nearest (ax + 10) (xlen c)).

(** All pixels less than [BORDERWIDTH] away from an edge of the raster are
    white. *)
Definition white_frame (md : Charmap) : Prop :=
  forall x y, in_raster md x y ->
    x < BORDERWIDTH \/ xlen md - BORDERWIDTH <= x \/
    y < BORDERWIDTH \/ ylen md - BORDERWIDTH <= y ->
    getPoint md x y = Ret COLORWHITE.

(** The colour class [adjustPalette] gives to the pixel value [f]. *)
Definition class_of (pal : list RGB) (f : Z) : option Z :=
  match zget pal f with
  | Some e => classify e
  | None => None
  end.

Definition class_or_gray (pal : list RGB) (f : Z) : Z :=
  match class_of pal f with
  | Some v => v
  | None => COLORGRAY
  end.

(** The pixel values are bytes. *)
Definition byte_cells (c : Charmap) : Prop :=
  Forall (fun f => 0 <= f < 256) (cmp c).

(** Gray, white and black are the only colours of the raster. *)
Definition three_classes (c : Charmap) : Prop :=
  Forall (fun v => v = COLORBLACK \/ v = COLORWHITE \/ v = COLORGRAY) (cmp c).

(** A raster of 20 by 20 white pixels with a black block in the middle. *)
Definition framed_canvas : Charmap :=
  mkCharmap 20 20
    (repeat COLORWHITE 168 ++ [COLORBLACK; COLORBLACK; COLORBLACK; COLORBLACK]
     ++ repeat COLORWHITE 16 ++ [COLORBLACK; COLORBLACK; COLORBLACK; COLORBLACK]
     ++ repeat COLORWHITE 16 ++ [COLORBLACK; COLORBLACK; COLORBLACK; COLORBLACK]
     ++ repeat COLORWHITE 16 ++ [COLORBLACK; COLORBLACK; COLORBLACK; COLORBLACK]
     ++ repeat COLORWHITE 168).

(** The state of the two loops before the cell at position [k]: the cells
    before [k] carry their class, the others are those of [md]. *)
Definition adjusted_to (pal : list RGB) (md : Charmap) (k : Z) (c : Charmap)
  : Prop :=
  same_size c md /\
  forall j, 0 <= j < Z.of_nat (length (cmp md)) ->
    zget (cmp c) j =
    if j <? k then option_map (class_or_gray pal) (zget (cmp md) j)
    else zget (cmp md) j.


(** ** The boundary pass *)

(** The pixel is inside the array and has the colour [v]. *)
Definition is_colour (c : Charmap) (x y v : Z) : bool :=
  match getPoint c x y with
  | Ret p => p =? v
  | _ => false
  end.

(** The pixel is not on the rim of the raster. *)
Definition inner (c : Charmap) (x y : Z) : bool :=
  (1 <=? x) && (x <=? xlen c - 2) && (1 <=? y) && (y <=? ylen c - 2).

(** One of the nine pixels around [(x,y)], itself included, has the
    colour [relf]. *)
Definition relf_around (relf : Z) (c : Charmap) (x y : Z) : bool :=
  existsb (fun dy => existsb (fun dx => is_colour c (x + dx) (y + dy) relf)
                             three) three.

(** The pixels the boundary pass turns blue: the active pixels off the rim
    that have a pixel of colour [relf] around them. *)
Definition marks (relf : Z) (c : Charmap) (x y : Z) : bool :=
  inner c x y && is_colour c x y AKTIVCOL && relf_around relf c x y.

(** The state of the boundary pass before the pixel at position [k] of the
    array. *)
Definition marked_to (relf : Z) (c : Charmap) (k : Z) (cur : Charmap) : Prop :=
  painted (fun x y => (y * xlen c + x <? k) && marks relf c x y)
          COLORBLUE c cur.

(** ** What the flood fill may change *)

(** [c] has the size of [c0], and every cell of [c] has the value it has in
    [c0], or holds the active colour or blue where [c0] holds [relf]. *)
Definition promoted (relf : Z) (c0 c : Charmap) : Prop :=
  same_size c c0 /\
  forall i v, zget (cmp c) i = Some v ->
    zget (cmp c0) i = Some v \/
    (zget (cmp c0) i = Some relf /\ (v = AKTIVCOL \/ v = COLORBLUE)).

(** The raster is at least as wide and as high as two borders are thick,
    when the target colour is white; [floodFillPattern] fills the border
    then. *)
Definition border_fits (relf : Z) (c : Charmap) : Prop :=
  relf = COLORWHITE ->
  white_frame c /\ BORDERWIDTH <= xlen c /\ BORDERWIDTH <= ylen c.

(** Every vertex of the polygon is the vertex of a pixel that has the
    colour [v] in [c]. *)
Definition on_colour (plane : Z -> Z) (c : Charmap) (v : Z) (p : Polygon)
  : Prop :=
  Forall (fun q => exists x y, q = vertex plane x y /\
                               getPoint c x y = Ret v) (points p).

(** A raster of 40 by 40 white pixels with a block of 6 by 6 black pixels
    at the rows and columns 18 to 23. *)
Definition island_canvas : Charmap :=
  mkCharmap 40 40
    (flat_map (fun y =>
       map (fun x => if (18 <=? x) && (x <=? 23) && (18 <=? y) && (y <=? 23)
                     then COLORBLACK else COLORWHITE)
           (map Z.of_nat (seq 0 40)))
       (map Z.of_nat (seq 0 40))).

(** The test for the three colours, cell by cell. *)
Definition plain_cell (v : Z) : bool :=
  (v =? COLORBLACK) || (v =? COLORWHITE) || (v =? COLORGRAY).

(** ** The kernel scan *)

(** The numbers [0 .. D-1]. *)
Definition offsets_to (D : Z) : list Z := map Z.of_nat (seq 0 (Z.to_nat D)).

(** All pixels of the block of [D] by [D] pixels with the corner
    [(bx,by_)] have the colour [relf]. *)
Definition block_all (c : Charmap) (relf bx by_ D : Z) : bool :=
  forallb (fun dy =>
             forallb (fun dx => is_colour c (bx + dx) (by_ + dy) relf)
                     (offsets_to D))
          (offsets_to D).

(** The corner of the block that holds the coordinate [a], in the grid of
    blocks [D] wide that starts at 0. *)
Definition corner (D a : Z) : Z := a / D * D.

(** The pixels the kernel scan marks: those off the rim of a block of the
    grid that the scan visits and that has the colour [relf] all over. *)
Definition kernel_pixel (c : Charmap) (D relf x y : Z) : bool :=
  (corner D x <? xlen c - D) && (corner D y <? ylen c - D) &&
  (1 <=? x - corner D x) && (x - corner D x <=? D - 2) &&
  (1 <=? y - corner D y) && (y - corner D y <=? D - 2) &&
  block_all c relf (corner D x) (corner D y) D.

(** The state of the scan before the block with the corner [(x0,y0)]. *)
Definition scanned_to (c : Charmap) (D relf y0 x0 : Z) (cur : Charmap)
  : Prop :=
  painted (fun x y => kernel_pixel c D relf x y &&
                      ((y <? y0) || ((y <? y0 + D) && (x <? x0))))
          AKTIVCOL c cur.

(** ** Notions for the bitmap file *)

(** The file is made of bytes. *)
Definition file_bytes (f : list Z) : Prop := Forall (fun b => 0 <= b < 256) f.

(** The number that the [n] bytes from position [pos] on hold, lowest byte
    first. *)
Definition field (f : list Z) (pos n : nat) : Z := le_value (take n (drop pos f)).

(** What [saveAsBmp] and [loadAsBmp] can handle of a raster: the array has
    [xlen*ylen] cells and the sizes are those of an [int], with room for the
    rounding of [ylen]. *)
Definition bmp_raster (c : Charmap) : Prop :=
  canvas_ok c /\ xlen c < 2 ^ 31 /\ ylen c + 3 < 2 ^ 31.

(** A raster of 3 by 2 pixels. *)
Definition small_canvas : Charmap :=
  mkCharmap 3 2 [COLORWHITE; COLORBLACK; COLORGRAY;
                 COLORBLACK; COLORWHITE; COLORWHITE].

(** The test for bytes, cell by cell. *)
Definition byte_cell (b : Z) : bool := (0 <=? b) && (b <? 256).

(** A raster of 16 by 16 white pixels and the file [saveAsBmp] writes for
    it with the standard palette. *)
Definition white_canvas : Charmap := mkCharmap 16 16 (repeat COLORWHITE 256).

Definition white_file : list Z :=
  match saveAsBmp white_canvas setPaletteTo with
  | Ret f => f
  | _ => []
  end.

(** ** Notions for the polygon files *)

(** The files numbered 0, 1, ... under the prefix load as the polygons
    [ps], in this order, and the file with the next number is missing. *)
Definition numbered_run (fs : Files) (afnpref : string) (fresh : Polygon)
  (tmp0 : string -> string) (ps : list Polygon) : Prop :=
  (forall (k : nat) p, ps !! k = Some p ->
     load_file fs (poly_name afnpref (Z.of_nat k)) fresh
               (tmp0 (poly_name afnpref (Z.of_nat k))) = Ret (1, p)) /\
  fs (poly_name afnpref (Z.of_nat (length ps))) = None.

(** What [load] makes of a saved polygon in a fresh object. *)
Definition reloaded (fresh : Polygon) (p : Polygon) : Polygon :=
  loaded (box_of fresh) (nenner p) (points p)
         (repeat 0 (length (points p))).

(** No polygon files at all. *)
Definition no_files : Files := fun _ => None.

Definition plain_polygon : Polygon := mkPolygon [] 0 0 0 0 0 0 [].

(** The state of one of the two searches of [loadAllPolygons]: still going
    with the first [a] polygons loaded and [todo] turns to come, or
    finished with all of them. *)
Definition search_state (ps arr : list Polygon) (search : Z) (todo : nat)
  : Prop :=
  (search = 1 /\ exists a, (a <= length ps)%nat /\ arr = take a ps /\
                           todo = S (length ps - a)) \/
  (search = 0 /\ arr = ps /\ todo = 0%nat).

(** ** Notions for strings *)

(** Every character of the string is one that [chomp] cuts. *)
Fixpoint all_below32 (t : string) : bool :=
  match t with
  | EmptyString => true
  | String c rest => below32 c && all_below32 rest
  end.

(** The string is empty or ends with a character that [chomp] keeps. *)
Fixpoint ends_high (s : string) : bool :=
  match s with
  | EmptyString => true
  | String c EmptyString => negb (below32 c)
  | String _ rest => ends_high rest
  end.

(** The argument that sets an option to a number. *)
Definition number_option (name : string) (n : Z) : string :=
  String.append name (print_int n EmptyString).

(** ** The grid of blocks behind the fusion *)

(** The kernel scan marks the block with the corner [(bx,by_)]: the block
    lies in the part of the raster the scan visits and has the colour
    [relf] all over. *)
Definition marked_block (c : Charmap) (D relf bx by_ : Z) : bool :=
  (0 <=? bx) && (bx <? xlen c - D) && (0 <=? by_) && (by_ <? ylen c - D) &&
  block_all c relf bx by_ D.

(** The corner of the block on the other side of the grid line the
    coordinate [a] lies at: the next block for the last coordinate of a
    block, the block before for the first one, the own block for a
    coordinate off the rim. *)
Definition across (D a : Z) : Z :=
  if a - corner D a =? D - 1 then corner D a + D
  else if a - corner D a =? 0 then corner D a - D
  else corner D a.

(** All blocks the pixel lies in or at are marked ones: its own block, for
    a pixel on the rim of its block the block next to that rim too, and
    for a pixel in the corner of its block the block across that corner as
    well. *)
Definition joined (c : Charmap) (D relf x y : Z) : bool :=
  marked_block c D relf (corner D x) (corner D y) &&
  marked_block c D relf (across D x) (corner D y) &&
  marked_block c D relf (corner D x) (across D y) &&
  marked_block c D relf (across D x) (across D y).

(** The coordinate [a] lies in or at the block with the corner [b]. *)
Definition touches (D a b : Z) : Prop :=
  b = corner D a \/
  (a - corner D a = D - 1 /\ b = corner D a + D) \/
  (a - corner D a = 0 /\ b = corner D a - D).

(** [n] pixels of colour [relf] from [(x,y)] on in the direction
    [(dx,dy)], inside the raster, with an active pixel before the first and
    one after the last of them. *)
Definition gap_between (relf : Z) (c : Charmap) (x y dx dy n : Z) : Prop :=
  in_raster c (x - dx) (y - dy) /\ in_raster c (x + n * dx) (y + n * dy) /\
  getPoint c (x - dx) (y - dy) = Ret AKTIVCOL /\
  getPoint c (x + n * dx) (y + n * dy) = Ret AKTIVCOL /\
  forall k, 0 <= k < n -> getPoint c (x + k * dx) (y + k * dy) = Ret relf.

(** No two active pixels of a row or of a column have exactly one or
    exactly two pixels of colour [relf] between them. *)
Definition gap_free (relf : Z) (c : Charmap) : Prop :=
  forall x y n, n = 1 \/ n = 2 ->
    ~ gap_between relf c x y 1 0 n /\ ~ gap_between relf c x y 0 1 n.

(** ** The states of the fusion passes *)

(** The first or the last coordinate of a block. *)
Definition on_rim (D a : Z) : bool :=
  (a - corner D a =? 0) || (a - corner D a =? D - 1).

(** The last coordinate of a block. *)
Definition last_of (D a : Z) : bool := a - corner D a =? D - 1.

(** The rim coordinates come in pairs, the last one of a block and the
    first one of the next: the first coordinate of the pair of [a]. *)
Definition pair_start (D a : Z) : Z :=
  if a - corner D a =? 0 then a - 1 else a.

(** The pass comes to [(a,b)] before it comes to [(x0,y0)]. *)
Definition visited_before (x0 y0 a b : Z) : bool :=
  (b <? y0) || ((b =? y0) && (a <? x0)).

(** The active pixels when the first pass comes to [(x0,y0)]: the pixels
    off the rim in both directions; of the others, those whose pair the
    pass has come to already, but no pixel in the last row and on the rim
    column of its block. *)
Definition first_pass_pixel (c : Charmap) (D relf x0 y0 x y : Z) : bool :=
  joined c D relf x y &&
  (if on_rim D x
   then negb (last_of D y) && visited_before x0 y0 (pair_start D x) y
   else if on_rim D y then visited_before x0 y0 x (pair_start D y)
        else true).

(** The active pixels when the second pass comes to [(x0,y0)]: of the
    pixels left out by the first pass, those whose pair the pass has come
    to already. *)
Definition second_pass_pixel (c : Charmap) (D relf x0 y0 x y : Z) : bool :=
  joined c D relf x y &&
  (if on_rim D x && last_of D y
   then visited_before x0 y0 (pair_start D x) y else true).

(** The active pixels after the visit of [(x0,y0)] in a state with the
    active pixels [g]: the two pixels of a gap along the row join them,
    or else the two pixels of a gap along the column. *)
Definition row_pattern (g : Z -> Z -> bool) (x0 y0 : Z) : bool :=
  negb (g x0 y0) && negb (g (x0 + 1) y0) && g (x0 - 1) y0 && g (x0 + 2) y0.

Definition col_pattern (g : Z -> Z -> bool) (x0 y0 : Z) : bool :=
  negb (g x0 y0) && negb (g x0 (y0 + 1)) && g x0 (y0 + 2) && g x0 (y0 - 1).

Definition after_visit (g : Z -> Z -> bool) (x0 y0 x y : Z) : bool :=
  g x y ||
  (row_pattern g x0 y0 && (y =? y0) && ((x =? x0) || (x =? x0 + 1))) ||
  (negb (row_pattern g x0 y0) && col_pattern g x0 y0 &&
   (x =? x0) && ((y =? y0) || (y =? y0 + 1))).

(** The rasters on the way of the fusion loop that starts with [c0]: [c0]
    itself, and every raster that one more turn of the body of the two
    loops, at a pixel they visit, makes of such a raster. *)
Inductive fusion_reaches (relf : Z) (c0 : Charmap) : Charmap -> Prop :=
| reaches_start : fusion_reaches relf c0 c0
| reaches_visit (cur cur' : Charmap) (x y ch ch' : Z) :
    fusion_reaches relf c0 cur ->
    1 <= x <= xlen cur - 3 -> 1 <= y <= ylen cur - 3 ->
    fuse_at relf cur x y ch = Ret (cur', ch') ->
    fusion_reaches relf c0 cur'.

(** The pixels of every gap of one or two pixels that the raster [cur] has
    between two active pixels of a row or of a column are active in
    [c']. *)
Definition gaps_closed (relf : Z) (cur c' : Charmap) : Prop :=
  forall x y n, n = 1 \/ n = 2 ->
    (gap_between relf cur x y 1 0 n ->
     forall k, 0 <= k < n -> getPoint c' (x + k) y = Ret AKTIVCOL) /\
    (gap_between relf cur x y 0 1 n ->
     forall k, 0 <= k < n -> getPoint c' x (y + k) = Ret AKTIVCOL).

(** * Proofs *)

(** ** Array reads *)

Lemma zget_Some {A : Type} (l : list A) (i : Z) :
  0 <= i < Z.of_nat (length l) -> exists a, zget l i = Some a.
Proof.
  intros Hi. unfold zget.
  destruct (Z.ltb_spec i 0) as [Hneg | _]; [lia |].
  apply lookup_lt_is_Some_2. lia.
Qed.

Lemma zget_bounds {A : Type} (l : list A) (i : Z) (a : A) :
  zget l i = Some a -> 0 <= i < Z.of_nat (length l).
Proof.
  unfold zget. destruct (Z.ltb_spec i 0) as [Hneg | Hpos]; [discriminate |].
  intros H. apply lookup_lt_Some in H. lia.
Qed.

Lemma rd_Ret {A : Type} (l : list A) (i : Z) (a : A) :
  rd l i = Ret a <-> zget l i = Some a.
Proof.
  unfold rd. destruct (zget l i); split; intros H; inversion H; reflexivity.
Qed.

Lemma rd_in {A : Type} (l : list A) (i : Z) :
  0 <= i < Z.of_nat (length l) -> exists a, rd l i = Ret a.
Proof.
  intros Hi. destruct (zget_Some l i Hi) as [a Ha].
  exists a. now apply rd_Ret.
Qed.

Lemma zget_cons_succ {A : Type} (a : A) (l : list A) (i : Z) :
  1 <= i -> zget (a :: l) i = zget l (i - 1).
Proof.
  intros Hi. unfold zget.
  destruct (Z.ltb_spec i 0); [lia |].
  destruct (Z.ltb_spec (i - 1) 0); [lia |].
  replace (Z.to_nat i) with (S (Z.to_nat (i - 1))) by lia.
  reflexivity.
Qed.

(** ** Rectilinear edges *)


Lemma isDiagonalFree_pts_edge (pts : list PolygonPoint) :
  isDiagonalFree_pts pts = 1 -> forall i, edge_rect pts i.
Proof.
  induction pts as [| a [| b rest] IH]; intros Hfree i p q Hp Hq.
  - apply zget_bounds in Hq. simpl in Hq. lia.
  - apply zget_bounds in Hp. apply zget_bounds in Hq. simpl in *. lia.
  - simpl in Hfree.
    destruct (Z.eqb_spec (px a) (px b)) as [Hx | Hx];
      destruct (Z.eqb_spec (py a) (py b)) as [Hy | Hy];
      simpl in Hfree; try discriminate.
    all: assert (Hi : 1 <= i) by (apply zget_bounds in Hp; lia).
    all: destruct (Z.eq_dec i 1) as [-> | Hne].
    all: try (cbv in Hp, Hq; inversion Hp; inversion Hq; subst; tauto).
    all: rewrite zget_cons_succ in Hp by lia.
    all: rewrite zget_cons_succ in Hq by lia.
    all: exact (IH Hfree (i - 1) p q Hp Hq).
Qed.

(** ** One edge of the ray cast *)

(** Case analysis on the next test of the code, with the comparison turned
    into a proposition. *)
Ltac split_if :=
  match goal with
  | |- context [if ?a <? ?b then _ else _] => destruct (Z.ltb_spec a b)
  | |- context [if ?a <=? ?b then _ else _] => destruct (Z.leb_spec a b)
  | |- context [if ?a =? ?b then _ else _] => destruct (Z.eqb_spec a b)
  | |- context [if ?b then _ else _] => destruct b eqn:?
  end.

Ltac bools :=
  rewrite ?Z.gtb_ltb, ?Z.geb_leb in *;
  unfold passes_through, minimumI, maximumI in *;
  rewrite ?Z.gtb_ltb, ?Z.geb_leb in *.

(** Resolve the next array read of the goal from the bounds at hand. *)
Ltac read_step :=
  match goal with
  | |- context [bind (Ret _) _] => cbn [bind]
  | H : rd ?l ?i = Ret _ |- context [rd ?l ?i] => rewrite H
  | |- context [rd ?l ?i] =>
    let a := fresh "a" in let Ha := fresh "Ha" in
    destruct (rd_in l i) as [a Ha]; [lia | rewrite Ha]
  end.

Lemma pip_edge_returns (pts : list PolygonPoint) (ax ay i even : Z) :
  1 <= i < Z.of_nat (length pts) ->
  edge_rect pts i ->
  (exists even', pip_edge pts ax ay i even = Ret (EdgeNext even')) \/
  pip_edge pts ax ay i even = Ret EdgeBoundary.
Proof.
  intros Hi Hrect. unfold pip_edge. bools.
  destruct (rd_in pts i) as [b Hb]; [lia |].
  destruct (rd_in pts (i - 1)) as [a Ha]; [lia |].
  rewrite Hb, Ha. cbn [bind].
  specialize (Hrect a b (proj1 (rd_Ret _ _ _) Ha) (proj1 (rd_Ret _ _ _) Hb)).
  repeat (first [read_step | split_if]); cbn [andb orb negb] in *;
    try discriminate; try lia; eauto.
Qed.

(** ** The plain walk over all edges *)

Lemma pip_loop_plain_step (f : nat) (apg : Polygon) (ax ay i even : Z) :
  useprepare apg <= 0 -> i < pointcount apg - 1 ->
  pip_loop (S f) apg ax ay i even =
  do e <- pip_edge (points apg) ax ay (i + 1) even ;
  match e with
  | EdgeBoundary => Ret PIP_BOUNDARY
  | EdgeDiagonal => Exit99
  | EdgeNext even' => pip_loop f apg ax ay (i + 1) even'
  end.
Proof.
  intros Hu Hi. cbn [pip_loop]. bools.
  destruct (Z.ltb_spec i (pointcount apg - 1)); [| lia].
  destruct (Z.ltb_spec 0 (useprepare apg)); [lia |].
  cbn [bind]. rewrite Z.geb_leb.
  destruct (Z.leb_spec (pointcount apg) (i + 1)); [lia |].
  reflexivity.
Qed.

Lemma pip_loop_done (f : nat) (apg : Polygon) (ax ay i even : Z) :
  pointcount apg - 1 <= i ->
  pip_loop (S f) apg ax ay i even = Ret (pip_finish even).
Proof.
  intros Hi. cbn [pip_loop].
  destruct (Z.ltb_spec i (pointcount apg - 1)); [lia | reflexivity].
Qed.

Lemma pip_loop_plain_returns (apg : Polygon) (ax ay : Z) :
  useprepare apg <= 0 ->
  (forall i, edge_rect (points apg) i) ->
  forall (f : nat) (i even : Z),
    0 <= i -> (0 < f)%nat -> pointcount apg - i <= Z.of_nat f ->
    exists r, pip_loop f apg ax ay i even = Ret r.
Proof.
  intros Hu Hrect f. induction f as [| f IH]; intros i even Hi Hf Hfuel; [lia |].
  destruct (Z.lt_ge_cases i (pointcount apg - 1)) as [Hlt | Hge].
  - rewrite pip_loop_plain_step by assumption.
    destruct (pip_edge_returns (points apg) ax ay (i + 1) even)
      as [[even' He] | He]; [unfold pointcount in *; lia | apply Hrect | |].
    + rewrite He. cbn [bind]. apply IH; lia.
    + rewrite He. cbn [bind]. eauto.
  - rewrite pip_loop_done by lia. eauto.
Qed.


Lemma pip_edge_off_row (pts : list PolygonPoint) (ax ay k even : Z) :
  edge_off_row pts ay k -> pip_edge pts ax ay k even = Ret (EdgeNext even).
Proof.
  intros (a & b & Ha & Hb & Hrect & Hoff). unfold pip_edge.
  rewrite (proj2 (rd_Ret _ _ _) Hb), (proj2 (rd_Ret _ _ _) Ha).
  cbn [bind]. bools.
  repeat split_if; cbn [andb orb] in *; try discriminate; try lia; reflexivity.
Qed.

Lemma pip_loop_plain_skip (apg : Polygon) (ax ay : Z) :
  useprepare apg <= 0 ->
  forall (n f : nat) (i even : Z),
    i + Z.of_nat n <= pointcount apg - 1 ->
    (forall k, i < k <= i + Z.of_nat n -> edge_off_row (points apg) ay k) ->
    pip_loop (n + f) apg ax ay i even =
    pip_loop f apg ax ay (i + Z.of_nat n) even.
Proof.
  intros Hu n. induction n as [| n IH]; intros f i even Hn Hoff.
  - cbn [Nat.add]. f_equal. lia.
  - cbn [Nat.add]. rewrite pip_loop_plain_step by (assumption || lia).
    rewrite pip_edge_off_row by (apply Hoff; lia).
    cbn [bind]. rewrite IH; [f_equal; lia | lia |].
    intros k Hk. apply Hoff. lia.
Qed.

(** ** The jump table built by [prepareY] *)

Lemma wr_Ret {A : Type} (l l' : list A) (i : Z) (v : A) :
  wr l i v = Ret l' ->
  0 <= i < Z.of_nat (length l) /\ l' = <[Z.to_nat i := v]> l.
Proof.
  unfold wr.
  destruct (Z.leb_spec 0 i) as [Hlo | Hlo];
    destruct (Z.ltb_spec i (Z.of_nat (length l))) as [Hhi | Hhi];
    cbn [andb]; intros Hw; inversion Hw; split; (lia || reflexivity).
Qed.

Lemma zget_insert_eq {A : Type} (l : list A) (i : Z) (v : A) :
  0 <= i < Z.of_nat (length l) -> zget (<[Z.to_nat i := v]> l) i = Some v.
Proof.
  intros Hi. unfold zget. destruct (Z.ltb_spec i 0); [lia |].
  apply list_lookup_insert_eq. lia.
Qed.

Lemma zget_insert_ne {A : Type} (l : list A) (i j : Z) (v : A) :
  0 <= i -> 0 <= j -> i <> j -> zget (<[Z.to_nat i := v]> l) j = zget l j.
Proof.
  intros Hi Hj Hne. unfold zget. destruct (Z.ltb_spec j 0); [lia |].
  apply list_lookup_insert_ne. lia.
Qed.

Lemma relevant_bounds (pts : list PolygonPoint) (ay0 k : Z) :
  relevant pts ay0 k = true -> 1 <= k < Z.of_nat (length pts).
Proof.
  unfold relevant.
  destruct (zget pts (k - 1)) eqn:Ha; [| discriminate].
  destruct (zget pts k) eqn:Hb; [| discriminate].
  apply zget_bounds in Ha. apply zget_bounds in Hb. lia.
Qed.

Lemma relevant_reads (pts : list PolygonPoint) (ay0 i : Z) (a b : PolygonPoint) :
  rd pts (i - 1) = Ret a -> rd pts i = Ret b ->
  relevant pts ay0 i = in_band ay0 a b.
Proof.
  intros Ha Hb. unfold relevant.
  apply rd_Ret in Ha. apply rd_Ret in Hb. now rewrite Ha, Hb.
Qed.

Lemma prepareY_loop_inv (pts : list PolygonPoint) (ay0 : Z) :
  forall (n : nat) (i : Z) (yp : list Z) (li : Z) (yp' : list Z) (li' : Z),
    1 <= i ->
    prepare_inv pts ay0 i yp li ->
    prepareY_loop n pts ay0 i yp li = Ret (yp', li') ->
    prepare_inv pts ay0 (i + Z.of_nat n) yp' li'.
Proof.
  induction n as [| n IH]; intros i yp li yp' li' Hi Hinv Hrun.
  - cbn in Hrun. inversion Hrun; subst. now rewrite Z.add_0_r.
  - cbn [prepareY_loop] in Hrun.
    destruct (rd pts (i - 1)) as [a | | |] eqn:Ha; try discriminate.
    destruct (rd pts i) as [b | | |] eqn:Hb; try discriminate.
    cbn [bind] in Hrun.
    pose proof (relevant_reads pts ay0 i a b Ha Hb) as Hrel.
    replace (i + Z.of_nat (S n)) with ((i + 1) + Z.of_nat n) by lia.
    destruct (in_band ay0 a b) eqn:Hband.
    + destruct (wr yp (if li >=? 0 then li else 0) i) as [yp1 | | |] eqn:Hw;
        try discriminate.
      cbn [bind] in Hrun. apply wr_Ret in Hw as [Hrange ->].
      eapply IH; [| | exact Hrun]; [lia |].
      right. split; [lia |]. split; [exact Hrel |]. split; [intros; lia |].
      intros r Hr Hrlt. rewrite Z.geb_leb in *.
      destruct Hinv as [[-> Hnone] | (Hli & Hrelli & Hgap & Hlinks)].
      * cbn in Hrange |- *.
        assert (r = 0) as ->.
        { destruct Hr as [-> | Hr]; [reflexivity |].
          rewrite Hnone in Hr; [discriminate |].
          apply relevant_bounds in Hr. lia. }
        exists i. split; [apply (zget_insert_eq yp 0 i); lia |].
        split; [lia |]. split; [exact Hrel |].
        intros k Hk. apply Hnone. lia.
      * destruct (Z.leb_spec 0 li); [| lia].
        destruct (Z.lt_trichotomy r li) as [Hlt | [-> | Hgt]].
        -- destruct (Hlinks r Hr ltac:(lia)) as (j & Hj & Hjr & Hjrel & Hjgap).
           exists j. split; [rewrite zget_insert_ne by lia; exact Hj |].
           split; [lia |]. split; assumption.
        -- exists i. split; [apply zget_insert_eq; lia |].
           split; [lia |]. split; [exact Hrel |].
           intros k Hk. apply Hgap. lia.
        -- destruct Hr as [-> | Hr]; [lia |].
           rewrite Hgap in Hr by lia. discriminate.
    + eapply IH; [| | exact Hrun]; [lia |].
      destruct Hinv as [[-> Hnone] | (Hli & Hrelli & Hgap & Hlinks)].
      * left. split; [reflexivity |]. intros k Hk.
        destruct (Z.eq_dec k i) as [-> | Hne]; [congruence | apply Hnone; lia].
      * right. split; [lia |]. split; [exact Hrelli |]. split; [| exact Hlinks].
        intros k Hk.
        destruct (Z.eq_dec k i) as [-> | Hne]; [congruence | apply Hgap; lia].
Qed.

Lemma prepareY_fields (apg apg' : Polygon) (ay0 : Z) :
  prepareY apg ay0 = Ret apg' ->
  points apg' = points apg /\ useprepare apg' = 1 /\
  xmin apg' = xmin apg /\ xmax apg' = xmax apg /\
  ymin apg' = ymin apg /\ ymax apg' = ymax apg /\ nenner apg' = nenner apg.
Proof.
  unfold prepareY. intros H.
  destruct (prepareY_loop _ _ _ _ _ _) as [[yp li] | | |]; try discriminate.
  cbn [bind] in H.
  destruct (wr yp _ _) as [yp1 | | |]; try discriminate.
  cbn [bind] in H. inversion H. subst. cbn. tauto.
Qed.

Lemma prepareY_chain (apg apg' : Polygon) (ay0 : Z) :
  prepareY apg ay0 = Ret apg' ->
  forall r, r = 0 \/ relevant (points apg) ay0 r = true ->
            0 <= r < pointcount apg ->
            chain (points apg) ay0 (yprepare apg') r.
Proof.
  unfold prepareY. intros H r Hr Hrange.
  destruct (prepareY_loop _ _ _ _ _ _) as [[yp li] | | |] eqn:Hloop;
    try discriminate.
  cbn [bind] in H.
  destruct (wr yp _ _) as [yp1 | | |] eqn:Hw; try discriminate.
  cbn [bind] in H. inversion H. subst apg'. cbn [yprepare set_table].
  apply wr_Ret in Hw as [Hwr ->].
  apply prepareY_loop_inv in Hloop; [| lia | left; split; [reflexivity | intros; lia]].
  unfold pointcount in *. rewrite Z.geb_leb in *.
  assert (Hend : forall k, 1 + Z.of_nat (Z.to_nat (Z.of_nat (length (points apg)) - 1)) <= k ->
                           relevant (points apg) ay0 k = false).
  { intros k Hk. destruct (relevant (points apg) ay0 k) eqn:E; [| reflexivity].
    apply relevant_bounds in E. lia. }
  destruct Hloop as [[-> Hnone] | (Hli & Hrelli & Hgap & Hlinks)].
  - cbn in Hwr |- *.
    assert (r = 0) as ->.
    { destruct Hr as [-> | Hr]; [reflexivity |].
      destruct (Z.lt_ge_cases r (1 + Z.of_nat (Z.to_nat (Z.of_nat (length (points apg)) - 1)))).
      - rewrite Hnone in Hr; [discriminate |]. apply relevant_bounds in Hr. lia.
      - rewrite Hend in Hr by lia. discriminate. }
    exists (Z.of_nat (length (points apg)) + 16).
    split; [apply (zget_insert_eq yp 0); lia |]. right. split; [reflexivity |].
    intros k Hk.
    destruct (Z.lt_ge_cases k (1 + Z.of_nat (Z.to_nat (Z.of_nat (length (points apg)) - 1)))).
    + apply Hnone. lia.
    + apply Hend. lia.
  - destruct (Z.leb_spec 0 li); [| lia].
    destruct (Z.lt_trichotomy r li) as [Hlt | [-> | Hgt]].
    + destruct (Hlinks r Hr ltac:(lia)) as (j & Hj & Hjr & Hjrel & Hjgap).
      exists j. split; [rewrite zget_insert_ne by lia; exact Hj |].
      left. apply relevant_bounds in Hrelli. split; [lia |]. split; assumption.
    + exists (Z.of_nat (length (points apg)) + 16).
      split; [apply zget_insert_eq; lia |]. right. split; [reflexivity |].
      intros k Hk.
      destruct (Z.lt_ge_cases k (1 + Z.of_nat (Z.to_nat (Z.of_nat (length (points apg)) - 1)))).
      * apply Hgap. lia.
      * apply Hend. lia.
    + destruct Hr as [-> | Hr]; [lia |].
      destruct (Z.lt_ge_cases r (1 + Z.of_nat (Z.to_nat (Z.of_nat (length (points apg)) - 1)))).
      * rewrite Hgap in Hr by lia. discriminate.
      * rewrite Hend in Hr by lia. discriminate.
Qed.

(** ** [prepareY] returns *)

Lemma wr_in {A : Type} (l : list A) (i : Z) (v : A) :
  0 <= i < Z.of_nat (length l) ->
  exists l', wr l i v = Ret l' /\ length l' = length l.
Proof.
  intros Hi. unfold wr.
  destruct (Z.leb_spec 0 i); [| lia].
  destruct (Z.ltb_spec i (Z.of_nat (length l))); [| lia].
  cbn [andb]. eexists. split; [reflexivity | apply length_insert].
Qed.

Lemma prepareY_loop_returns (pts : list PolygonPoint) (ay : Z) :
  forall (n : nat) (i : Z) (yp : list Z) (li : Z),
    1 <= i -> i + Z.of_nat n <= Z.of_nat (length pts) ->
    -1 <= li < i ->
    0 < Z.of_nat (length yp) -> Z.of_nat (length pts) <= Z.of_nat (length yp) ->
    exists yp' li', prepareY_loop n pts ay i yp li = Ret (yp', li') /\
                    length yp' = length yp /\ -1 <= li' < i + Z.of_nat n.
Proof.
  induction n as [| n IH]; intros i yp li Hi Hn Hli Hpos Hlen;
    cbn [prepareY_loop].
  - exists yp, li. split; [reflexivity |]. split; [reflexivity | lia].
  - destruct (rd_in pts (i - 1)) as [a ->]; [lia |].
    destruct (rd_in pts i) as [b ->]; [lia |]. cbn [bind].
    destruct (in_band ay a b).
    + destruct (wr_in yp (if li >=? 0 then li else 0) i) as (yp1 & -> & Hlen1).
      { rewrite Z.geb_leb. destruct (Z.leb_spec 0 li); lia. }
      cbn [bind].
      destruct (IH (i + 1) yp1 i) as (yp' & li' & Hrun & Hlen' & Hli');
        try lia.
      exists yp', li'. split; [exact Hrun |]. split; [congruence | lia].
    + destruct (IH (i + 1) yp li) as (yp' & li' & Hrun & Hlen' & Hli');
        try lia.
      exists yp', li'. split; [exact Hrun |]. split; [congruence | lia].
Qed.

Lemma prepareY_returns (apg : Polygon) (ay : Z) :
  table_allocated apg -> exists apg', prepareY apg ay = Ret apg'.
Proof.
  intros [Hpos Hlen]. unfold prepareY, pointcount in *.
  destruct (Nat.eq_dec (length (points apg)) 0%nat) as [Hzero | Hsome].
  - rewrite Hzero.
    destruct (wr_in (yprepare apg) 0 16) as (yp' & Hw & _); [lia |].
    change (Z.to_nat (Z.of_nat 0 - 1)) with 0%nat.
    cbn [prepareY_loop bind].
    change (if -1 >=? 0 then -1 else 0) with 0.
    change (Z.of_nat 0 + 16) with 16.
    rewrite Hw. cbn [bind]. eauto.
  - destruct (prepareY_loop_returns (points apg) ay
                (Z.to_nat (Z.of_nat (length (points apg)) - 1)) 1
                (yprepare apg) (-1))
      as (yp & li & -> & Hlen' & Hli); try lia.
    cbn [bind].
    destruct (wr_in yp (if li >=? 0 then li else 0)
                (Z.of_nat (length (points apg)) + 16)) as (yp' & -> & _).
    { rewrite Z.geb_leb. destruct (Z.leb_spec 0 li); lia. }
    cbn [bind]. eauto.
Qed.

(** ** The walk along the jump table *)

Lemma pip_loop_prepared_step (f : nat) (apg : Polygon) (ax ay i even j : Z) :
  0 < useprepare apg -> i < pointcount apg - 1 ->
  zget (yprepare apg) i = Some j ->
  pip_loop (S f) apg ax ay i even =
  if pointcount apg <=? j then Ret (pip_finish even)
  else
    do e <- pip_edge (points apg) ax ay j even ;
    match e with
    | EdgeBoundary => Ret PIP_BOUNDARY
    | EdgeDiagonal => Exit99
    | EdgeNext even' => pip_loop f apg ax ay j even'
    end.
Proof.
  intros Hu Hi Hj. cbn [pip_loop]. rewrite Z.gtb_ltb.
  destruct (Z.ltb_spec i (pointcount apg - 1)); [| lia].
  destruct (Z.ltb_spec 0 (useprepare apg)); [| lia].
  rewrite (proj2 (rd_Ret _ _ _) Hj). cbn [bind]. now rewrite Z.geb_leb.
Qed.

Lemma irrelevant_off_row (pts : list PolygonPoint) (ay0 ay k : Z) :
  relevant pts ay0 k = false ->
  1 <= k < Z.of_nat (length pts) ->
  edge_rect pts k ->
  ay0 - BUFFER <= ay <= ay0 + BUFFER ->
  edge_off_row pts ay k.
Proof.
  intros Hrel Hk Hrect Hay. unfold relevant in Hrel.
  destruct (zget_Some pts (k - 1)) as [a Ha]; [lia |].
  destruct (zget_Some pts k) as [b Hb]; [lia |].
  rewrite Ha, Hb in Hrel. exists a, b.
  split; [exact Ha |]. split; [exact Hb |]. split; [now apply Hrect |].
  unfold in_band in Hrel. rewrite !Z.geb_leb in Hrel.
  apply orb_false_elim in Hrel as [H1 H2].
  apply andb_false_iff in H1. apply andb_false_iff in H2.
  rewrite !Z.leb_gt in H1, H2. lia.
Qed.

Section PreparedWalk.

Variables (apg1 apg0 : Polygon) (ay0 : Z).
Hypothesis same_points : points apg1 = points apg0.
Hypothesis table_on : 0 < useprepare apg1.
Hypothesis table_off : useprepare apg0 <= 0.
Hypothesis table_chain :
  forall r, r = 0 \/ relevant (points apg0) ay0 r = true ->
            0 <= r < pointcount apg0 ->
            chain (points apg0) ay0 (yprepare apg1) r.
Hypothesis rectilinear : forall i, edge_rect (points apg0) i.

Lemma same_pointcount : pointcount apg1 = pointcount apg0.
Proof. unfold pointcount. now rewrite same_points. Qed.

(** Inside the band of the prepared row the two walks agree. *)
Lemma prepared_walk_eq (ax ay : Z) :
  ay0 - BUFFER <= ay <= ay0 + BUFFER ->
  forall (f1 : nat) (i even : Z) (f2 : nat),
    i = 0 \/ relevant (points apg0) ay0 i = true ->
    0 <= i -> (0 < f1)%nat -> (0 < f2)%nat ->
    pointcount apg0 - i <= Z.of_nat f1 ->
    pointcount apg0 - i <= Z.of_nat f2 ->
    pip_loop f1 apg1 ax ay i even = pip_loop f2 apg0 ax ay i even.
Proof.
  intros Hay. induction f1 as [| f1 IH];
    intros i even f2 Hi Hi0 Hf1 Hf2 Hm1 Hm2; [lia |].
  pose proof same_pointcount as Hpc.
  destruct (Z.lt_ge_cases i (pointcount apg0 - 1)) as [Hlt | Hge].
  - destruct (table_chain i Hi ltac:(lia)) as (j & Hj & Hcase).
    rewrite (pip_loop_prepared_step f1 apg1 ax ay i even j)
      by (assumption || lia).
    rewrite Hpc, same_points. unfold pointcount in *.
    destruct Hcase as [(Hjr & Hjrel & Hgap) | [-> Hnone]].
    + destruct (Z.leb_spec (Z.of_nat (length (points apg0))) j); [lia |].
      replace f2 with (Z.to_nat (j - 1 - i) + S (f2 - S (Z.to_nat (j - 1 - i))))%nat
        by lia.
      rewrite (pip_loop_plain_skip apg0 ax ay table_off).
      * rewrite pip_loop_plain_step by (unfold pointcount; (assumption || lia)).
        replace (i + Z.of_nat (Z.to_nat (j - 1 - i)) + 1) with j by lia.
        destruct (pip_edge (points apg0) ax ay j even) as [[| | even'] | | |];
          cbn [bind]; try reflexivity.
        apply IH; try lia. now right.
      * unfold pointcount. lia.
      * intros k Hk. apply (irrelevant_off_row _ ay0); auto; try lia.
        apply Hgap. lia.
    + destruct (Z.leb_spec (Z.of_nat (length (points apg0)))
                           (Z.of_nat (length (points apg0)) + 16)); [| lia].
      replace f2
        with (Z.to_nat (Z.of_nat (length (points apg0)) - 1 - i)
              + S (f2 - S (Z.to_nat (Z.of_nat (length (points apg0)) - 1 - i))))%nat
        by lia.
      rewrite (pip_loop_plain_skip apg0 ax ay table_off).
      * rewrite pip_loop_done by (unfold pointcount; lia). reflexivity.
      * unfold pointcount. lia.
      * intros k Hk. apply (irrelevant_off_row _ ay0); auto; try lia.
        apply Hnone. lia.
  - rewrite pip_loop_done by lia.
    destruct f2 as [| f2]; [lia |]. now rewrite pip_loop_done by lia.
Qed.

(** On any row the walk along the table ends with an answer. *)
Lemma prepared_walk_returns (ax ay : Z) :
  forall (f1 : nat) (i even : Z),
    i = 0 \/ relevant (points apg0) ay0 i = true ->
    0 <= i -> (0 < f1)%nat ->
    pointcount apg0 - i <= Z.of_nat f1 ->
    exists r, pip_loop f1 apg1 ax ay i even = Ret r.
Proof.
  induction f1 as [| f1 IH]; intros i even Hi Hi0 Hf1 Hm1; [lia |].
  pose proof same_pointcount as Hpc.
  destruct (Z.lt_ge_cases i (pointcount apg0 - 1)) as [Hlt | Hge].
  - destruct (table_chain i Hi ltac:(lia)) as (j & Hj & Hcase).
    rewrite (pip_loop_prepared_step f1 apg1 ax ay i even j)
      by (assumption || lia).
    rewrite Hpc, same_points. unfold pointcount in *.
    destruct Hcase as [(Hjr & Hjrel & Hgap) | [-> Hnone]].
    + destruct (Z.leb_spec (Z.of_nat (length (points apg0))) j); [lia |].
      destruct (pip_edge_returns (points apg0) ax ay j even)
        as [[even' He] | He]; [lia | apply rectilinear | |];
        rewrite He; cbn [bind]; [| eauto].
      apply IH; try lia. now right.
    + destruct (Z.leb_spec (Z.of_nat (length (points apg0)))
                           (Z.of_nat (length (points apg0)) + 16)); [| lia].
      eauto.
  - rewrite pip_loop_done by lia. eauto.
Qed.

End PreparedWalk.

(** ** The single-polygon oracle answers *)

Lemma point_in_polygonVH_returns (apg : Polygon) (ax ay : Z) :
  oracle_ready apg -> exists r, point_in_polygonVH apg ax ay = Ret r.
Proof.
  intros [Hdiag Hready]. unfold point_in_polygonVH.
  destruct (_ || _); [eauto |].
  pose proof (isDiagonalFree_pts_edge _ Hdiag) as Hrect.
  destruct Hready as [Hoff | (apg0 & ay0 & Hprep)].
  - apply pip_loop_plain_returns; auto; unfold pointcount; lia.
  - destruct (prepareY_fields _ _ _ Hprep) as (Hpts & Huse & _).
    unfold isDiagonalFree in Hdiag. rewrite Hpts in Hrect.
    apply (prepared_walk_returns apg apg0 ay0 Hpts ltac:(lia)
             (prepareY_chain apg0 apg ay0 Hprep) Hrect);
      [now left | lia | lia |].
    unfold pointcount. rewrite <- Hpts. lia.
Qed.

Lemma point_in_polygonVH_empty (apg : Polygon) (ax ay : Z) :
  points apg = [] -> point_in_polygonVH apg ax ay = Ret PIP_EXTERIOR.
Proof.
  intros Hnil. unfold point_in_polygonVH. destruct (_ || _); [reflexivity |].
  rewrite Hnil. cbn. unfold pointcount. now rewrite Hnil.
Qed.

(** ** The neighbourhood scan *)

Lemma pip_eqb_eq (a b : pip) : pip_eqb a b = true <-> a = b.
Proof. destruct a, b; cbv; split; intros H; (reflexivity || discriminate). Qed.

Lemma scan_block_Ret (apg : Polygon) (want : pip) (pts : list (Z * Z)) :
  forall ic r, scan_block apg want pts ic = Ret r ->
    (Forall (fun p => point_in_polygonVH apg (fst p) (snd p) = Ret want) pts /\
     r = ic + Z.of_nat (length pts)) \/
    (~ Forall (fun p => point_in_polygonVH apg (fst p) (snd p) = Ret want) pts /\
     r = -1).
Proof.
  induction pts as [| [x y] rest IH]; intros ic r Hrun.
  - cbn in Hrun. inversion Hrun. left. split; [constructor | cbn; lia].
  - cbn [scan_block] in Hrun.
    destruct (point_in_polygonVH apg x y) as [a | | |] eqn:Hp; try discriminate.
    cbn [bind] in Hrun. destruct (pip_eqb a want) eqn:Heq.
    + apply pip_eqb_eq in Heq. subst a.
      destruct (IH _ _ Hrun) as [[Hall ->] | [Hnot ->]].
      * left. split; [constructor; assumption | cbn [length]; lia].
      * right. split; [| reflexivity]. intros Hall. apply Hnot.
        now inversion Hall.
    + right. inversion Hrun. split; [| reflexivity]. intros Hall.
      inversion Hall as [| ? ? Hhead _]. cbn in Hhead. rewrite Hp in Hhead.
      inversion Hhead. subst a. now rewrite (proj2 (pip_eqb_eq want want)) in Heq.
Qed.

Lemma scan_block_returns (apg : Polygon) (want : pip) (pts : list (Z * Z)) :
  oracle_ready apg -> forall ic, exists r, scan_block apg want pts ic = Ret r.
Proof.
  intros Hready. induction pts as [| [x y] rest IH]; intros ic; cbn; [eauto |].
  destruct (point_in_polygonVH_returns apg x y Hready) as [a ->]. cbn [bind].
  destruct (pip_eqb a want); eauto.
Qed.

Lemma block_Forall (P : Z * Z -> Prop) (qx qy : Z) :
  Forall P (block qx qy) <->
  forall dx dy, - mxy <= dx <= mxy -> - mxy <= dy <= mxy -> P (qx + dx, qy + dy).
Proof.
  unfold mxy. split.
  - intros HF dx dy Hdx Hdy. cbn in HF.
    repeat match type of HF with
           | Forall _ (_ :: _) => apply Forall_cons in HF as [? HF]
           end.
    assert (Hx : dx = -2 \/ dx = -1 \/ dx = 0 \/ dx = 1 \/ dx = 2) by lia.
    assert (Hy : dy = -2 \/ dy = -1 \/ dy = 0 \/ dy = 1 \/ dy = 2) by lia.
    destruct Hx as [-> | [-> | [-> | [-> | ->]]]];
      destruct Hy as [-> | [-> | [-> | [-> | ->]]]]; assumption.
  - intros H. cbn. repeat constructor; apply H; lia.
Qed.

Lemma block_length (qx qy : Z) : Z.of_nat (length (block qx qy)) = AREA.
Proof. reflexivity. Qed.

Lemma scan_polygon_Ret (apg : Polygon) (want : pip) (ax ay : Q) (ic : Z) :
  scan_polygon apg want ax ay = Ret ic ->
  (ic = AREA <-> whole_block want ax ay apg).
Proof.
  unfold scan_polygon, whole_block. intros Hrun.
  apply scan_block_Ret in Hrun. rewrite block_length in Hrun.
  rewrite (block_Forall
             (fun p => point_in_polygonVH apg (fst p) (snd p) = Ret want)) in Hrun.
  cbn [fst snd] in Hrun.
  destruct Hrun as [[Hall ->] | [Hnot ->]]; split; intros H;
    try assumption; try reflexivity; try tauto.
  discriminate.
Qed.

(** ** The two aggregation loops *)

Lemma jsoracle_int_Ret (intp : list Polygon) (ax ay : Q) (hit : bool) :
  jsoracle_int intp ax ay = Ret hit ->
  (hit = true <-> Exists (whole_block PIP_INTERIOR ax ay) intp).
Proof.
  induction intp as [| apg rest IH]; cbn [jsoracle_int]; intros Hrun.
  - inversion Hrun. split; [discriminate | intros H; inversion H].
  - destruct (scan_polygon apg PIP_INTERIOR ax ay) as [ic | | |] eqn:Hscan;
      try discriminate.
    cbn [bind] in Hrun. apply scan_polygon_Ret in Hscan.
    destruct (Z.eqb_spec ic AREA) as [Hic | Hic].
    + inversion Hrun. split; [| reflexivity]. intros _. left. tauto.
    + rewrite (IH Hrun). split; intros H.
      * now right.
      * inversion H; subst; tauto.
Qed.

Lemma jsoracle_int_returns (intp : list Polygon) (ax ay : Q) :
  Forall oracle_ready intp -> exists hit, jsoracle_int intp ax ay = Ret hit.
Proof.
  induction 1 as [| apg rest Hready _ IH]; cbn [jsoracle_int]; [eauto |].
  destruct (scan_block_returns apg PIP_INTERIOR
              (block (scaled ax (nenner apg)) (scaled ay (nenner apg))) Hready 0)
    as [ic Hic].
  unfold scan_polygon. rewrite Hic. cbn [bind].
  destruct (ic =? AREA); eauto.
Qed.

Lemma jsoracle_ext_Ret (extp : list Polygon) (ax ay : Q) :
  forall (e0 : pip) (out : option pip),
    jsoracle_ext extp ax ay e0 = Ret out ->
    match out with
    | None =>
      Exists (fun p => nonempty p = true /\ ~ whole_block PIP_EXTERIOR ax ay p) extp
    | Some e =>
      Forall (fun p => nonempty p = true -> whole_block PIP_EXTERIOR ax ay p) extp /\
      ((Exists (fun p => nonempty p = true) extp /\ e = PIP_EXTERIOR) \/
       (Forall (fun p => nonempty p = false) extp /\ e = e0))
    end.
Proof.
  induction extp as [| apg rest IH]; cbn [jsoracle_ext]; intros e0 out Hrun.
  - inversion Hrun. split; [constructor |]. right. split; [constructor | reflexivity].
  - fold (nonempty apg) in Hrun. destruct (nonempty apg) eqn:Hne.
    + destruct (scan_polygon apg PIP_EXTERIOR ax ay) as [ic | | |] eqn:Hscan;
        try discriminate.
      cbn [bind] in Hrun. apply scan_polygon_Ret in Hscan.
      destruct (Z.eqb_spec ic AREA) as [Hic | Hic]; cbn [negb] in Hrun.
      * specialize (IH _ _ Hrun). destruct out as [e |].
        -- destruct IH as [Hall Hcase]. split; [constructor; tauto |].
           left. split; [now left |].
           destruct Hcase as [[_ ->] | [_ ->]]; reflexivity.
        -- now right.
      * inversion Hrun. left. tauto.
    + specialize (IH _ _ Hrun). destruct out as [e |].
      * destruct IH as [Hall Hcase]. split; [constructor; [congruence | assumption] |].
        destruct Hcase as [[Hex ->] | [Hnone ->]].
        -- left. split; [now right | reflexivity].
        -- right. split; [now constructor | reflexivity].
      * now right.
Qed.

Lemma jsoracle_ext_returns (extp : list Polygon) (ax ay : Q) :
  Forall oracle_ready extp ->
  forall e0, exists out, jsoracle_ext extp ax ay e0 = Ret out.
Proof.
  induction 1 as [| apg rest Hready _ IH]; cbn [jsoracle_ext]; intros e0; [eauto |].
  destruct (pointcount apg >? 0); [| apply IH].
  destruct (scan_block_returns apg PIP_EXTERIOR
              (block (scaled ax (nenner apg)) (scaled ay (nenner apg))) Hready 0)
    as [ic Hic].
  unfold scan_polygon. rewrite Hic. cbn [bind].
  destruct (negb (ic =? AREA)); eauto.
Qed.

Lemma whole_block_empty (ax ay : Q) (apg : Polygon) :
  nonempty apg = false -> whole_block PIP_EXTERIOR ax ay apg.
Proof.
  unfold nonempty, pointcount. rewrite Z.gtb_ltb. intros Hn dx dy _ _.
  apply point_in_polygonVH_empty.
  destruct (points apg); [reflexivity |].
  apply Z.ltb_ge in Hn. cbn [length] in Hn. lia.
Qed.

Lemma jsoracle_ext_filter (extp : list Polygon) (ax ay : Q) (e0 : pip) :
  jsoracle_ext (filter (fun p => nonempty p = true) extp) ax ay e0 =
  jsoracle_ext extp ax ay e0.
Proof.
  revert e0. induction extp as [| apg rest IH]; intros e0; [reflexivity |].
  rewrite filter_cons. cbn [jsoracle_ext]. fold (nonempty apg).
  destruct (decide (nonempty apg = true)) as [Hne | Hne].
  - cbn [jsoracle_ext]. fold (nonempty apg). rewrite Hne.
    destruct (scan_polygon apg PIP_EXTERIOR ax ay); cbn [bind]; try reflexivity.
    destruct (negb _); [reflexivity | apply IH].
  - apply not_true_is_false in Hne. rewrite Hne. apply IH.
Qed.

(** ** Claims about the oracles *)

Lemma jsoracle_returns (intp extp : list Polygon) (ax ay : Q) :
  Forall oracle_ready intp -> Forall oracle_ready extp ->
  exists r, jsoracle intp extp ax ay = Ret r.
Proof.
  intros Hi He. unfold jsoracle.
  destruct (jsoracle_int_returns intp ax ay Hi) as [hit ->]. cbn [bind].
  destruct hit; [eauto |].
  destruct (jsoracle_ext_returns extp ax ay He PIP_UNKNOWN) as [out ->].
  cbn [bind]. destruct out as [e |]; [| eauto].
  destruct (_ && _); eauto.
Qed.

(** C1: whenever [jsoracle] returns, the answer is interior exactly when
    some single interior polygon classifies all 25 points of the 5x5
    neighbourhood as interior; an answer exterior implies that no interior
    polygon matched, that there is an exterior polygon and that every
    exterior polygon classifies the whole neighbourhood as exterior; when
    neither condition holds, or no polygon of the kind exists, the answer is
    undetermined.  And [jsoracle] does return on polygons that are
    diagonal-free and whose jump table is off or built by [prepareY]. *)
Theorem jsoracle_neighbourhood_rule (intp extp : list Polygon) (ax ay : Q) :
  (forall r, jsoracle intp extp ax ay = Ret r ->
     (r = PIP_INTERIOR <-> Exists (whole_block PIP_INTERIOR ax ay) intp) /\
     (r = PIP_EXTERIOR ->
        ~ Exists (whole_block PIP_INTERIOR ax ay) intp /\ extp <> [] /\
        Forall (whole_block PIP_EXTERIOR ax ay) extp) /\
     (~ Exists (whole_block PIP_INTERIOR ax ay) intp ->
      ~ (extp <> [] /\ Forall (whole_block PIP_EXTERIOR ax ay) extp) ->
      r = PIP_UNKNOWN) /\
     (intp = [] -> r <> PIP_INTERIOR) /\
     (extp = [] -> r = PIP_INTERIOR \/ r = PIP_UNKNOWN)) /\
  (Forall oracle_ready intp -> Forall oracle_ready extp ->
   exists r, jsoracle intp extp ax ay = Ret r).
Proof.
  split.
  - intros r Hrun. unfold jsoracle in Hrun.
    destruct (jsoracle_int intp ax ay) as [hit | | |] eqn:Hint; try discriminate.
    cbn [bind] in Hrun. apply jsoracle_int_Ret in Hint.
    destruct hit.
    { inversion Hrun. subst r. assert (Hex := proj1 Hint eq_refl).
      repeat split; intros; try discriminate; try tauto.
      all: try (subst intp; inversion Hex).
      all: try (now left). }
    assert (Hno : ~ Exists (whole_block PIP_INTERIOR ax ay) intp)
      by (intros H; apply Hint in H; discriminate).
    destruct (jsoracle_ext extp ax ay PIP_UNKNOWN) as [out | | |] eqn:Hext;
      try discriminate.
    cbn [bind] in Hrun. apply jsoracle_ext_Ret in Hext.
    destruct out as [e |].
    + destruct Hext as [Hall Hcase].
      assert (Hfull : Forall (whole_block PIP_EXTERIOR ax ay) extp).
      { eapply Forall_impl; [exact Hall |]. intros p Hp. cbn in Hp.
        destruct (nonempty p) eqn:E; [auto | now apply whole_block_empty]. }
      destruct Hcase as [[Hex ->] | [Hnone ->]]; cbn [pip_eqb andb] in Hrun.
      * assert (Hne : extp <> []) by (intros ->; inversion Hex).
        replace (pip_eqb PIP_EXTERIOR PIP_EXTERIOR) with true in Hrun by reflexivity.
        cbn [andb] in Hrun. rewrite Z.gtb_ltb in Hrun.
        destruct (Z.ltb_spec 0 (Z.of_nat (length extp))) as [Hlen | Hlen].
        -- inversion Hrun. subst r.
           repeat split; intros; try discriminate; try tauto.
        -- destruct extp; [congruence | cbn in Hlen; lia].
      * replace (pip_eqb PIP_UNKNOWN PIP_EXTERIOR) with false in Hrun by reflexivity.
        cbn [andb] in Hrun. inversion Hrun. subst r.
        repeat split; intros; try discriminate; try tauto.
    + inversion Hrun. subst r.
      repeat split; intros; try discriminate; try tauto.
  - apply jsoracle_returns.
Qed.

Lemma jsoracle_neighbourhood_rule_witness :
  (exists r, jsoracle [square10] [square100] (5 # 1) (5 # 1) = Ret r) /\
  (PIP_INTERIOR = PIP_INTERIOR <->
   Exists (whole_block PIP_INTERIOR (5 # 1) (5 # 1)) [square10]).
Proof.
  split.
  - apply (proj2 (jsoracle_neighbourhood_rule [square10] [square100] (5 # 1) (5 # 1)));
      (apply List.Forall_cons; [| apply List.Forall_nil]);
      (split; [reflexivity | left; cbn; lia]).
  - apply (proj1 (jsoracle_neighbourhood_rule [square10] [square100] (5 # 1) (5 # 1))
                 PIP_INTERIOR).
    vm_compute. reflexivity.
Defined.

(** C10: an exterior polygon without vertices is skipped: dropping all such
    polygons from the exterior list never changes the outcome of
    [jsoracle]; the answer exterior is given exactly when no interior
    polygon matched, some exterior polygon has a vertex and every exterior
    polygon that has one classifies the whole neighbourhood as exterior; and
    when every exterior polygon is empty and no interior polygon matched the
    answer is undetermined, however many exterior polygons there are. *)
Theorem jsoracle_skips_empty_exterior (intp extp : list Polygon) (ax ay : Q) :
  jsoracle intp (filter (fun p => nonempty p = true) extp) ax ay =
    jsoracle intp extp ax ay /\
  (forall r, jsoracle intp extp ax ay = Ret r ->
     (r = PIP_EXTERIOR <->
      ~ Exists (whole_block PIP_INTERIOR ax ay) intp /\
      Exists (fun p => nonempty p = true) extp /\
      Forall (fun p => nonempty p = true -> whole_block PIP_EXTERIOR ax ay p) extp) /\
     (Forall (fun p => nonempty p = false) extp ->
      ~ Exists (whole_block PIP_INTERIOR ax ay) intp ->
      r = PIP_UNKNOWN)) /\
  (Forall oracle_ready intp -> Forall oracle_ready extp ->
   exists r, jsoracle intp extp ax ay = Ret r).
Proof.
  split; [| split; [| apply jsoracle_returns]].
  - unfold jsoracle. destruct (jsoracle_int intp ax ay) as [[|] | | |];
      cbn [bind]; try reflexivity.
    rewrite jsoracle_ext_filter.
    destruct (jsoracle_ext extp ax ay PIP_UNKNOWN) as [[e |] | | |] eqn:Hext;
      cbn [bind]; try reflexivity.
    apply jsoracle_ext_Ret in Hext. destruct Hext as [_ [[Hex ->] | [_ ->]]].
    + replace (Z.of_nat (length (filter (fun p => nonempty p = true) extp)) >? 0)
        with true; [replace (Z.of_nat (length extp) >? 0) with true; [reflexivity |] |].
      * destruct extp; [inversion Hex | reflexivity].
      * apply Exists_exists in Hex as (p & Hp & Hne).
        assert (Hin : p ∈ filter (fun p => nonempty p = true) extp)
          by (apply list_elem_of_filter; split; [exact Hne | exact Hp]).
        destruct (filter _ extp); [inversion Hin | reflexivity].
    + reflexivity.
  - intros r Hrun. unfold jsoracle in Hrun.
    destruct (jsoracle_int intp ax ay) as [hit | | |] eqn:Hint; try discriminate.
    cbn [bind] in Hrun. apply jsoracle_int_Ret in Hint.
    destruct hit.
    { inversion Hrun. subst r. assert (Hex := proj1 Hint eq_refl).
      split; [split; [discriminate | tauto] | tauto]. }
    assert (Hno : ~ Exists (whole_block PIP_INTERIOR ax ay) intp)
      by (intros H; apply Hint in H; discriminate).
    destruct (jsoracle_ext extp ax ay PIP_UNKNOWN) as [out | | |] eqn:Hext;
      try discriminate.
    cbn [bind] in Hrun. apply jsoracle_ext_Ret in Hext.
    destruct out as [e |].
    + destruct Hext as [Hall [[Hex ->] | [Hnone ->]]].
      * replace (Z.of_nat (length extp) >? 0) with true in Hrun
          by (destruct extp; [inversion Hex | reflexivity]).
        inversion Hrun. subst r. split; [tauto |]. intros Hnone _.
        apply Exists_exists in Hex as (p & Hp & Hne).
        rewrite Forall_forall in Hnone. specialize (Hnone p Hp). congruence.
      * inversion Hrun. subst r. split; [| reflexivity].
        split; [discriminate |]. intros (_ & Hex & _).
        apply Exists_exists in Hex as (p & Hp & Hne).
        rewrite Forall_forall in Hnone. specialize (Hnone p Hp). congruence.
    + inversion Hrun. subst r. split; [| reflexivity].
      split; [discriminate |]. intros (_ & _ & Hall).
      apply Exists_exists in Hext as (p & Hp & Hne & Hnot).
      rewrite Forall_forall in Hall. now specialize (Hall p Hp Hne).
Qed.

Lemma jsoracle_skips_empty_exterior_witness :
  ((PIP_UNKNOWN = PIP_EXTERIOR <->
    ~ Exists (whole_block PIP_INTERIOR (5 # 1) (5 # 1)) [] /\
    Exists (fun p => nonempty p = true) [empty_polygon; empty_polygon] /\
    Forall (fun p => nonempty p = true -> whole_block PIP_EXTERIOR (5 # 1) (5 # 1) p)
           [empty_polygon; empty_polygon]) /\
   (Forall (fun p => nonempty p = false) [empty_polygon; empty_polygon] ->
    ~ Exists (whole_block PIP_INTERIOR (5 # 1) (5 # 1)) [] ->
    PIP_UNKNOWN = PIP_UNKNOWN)) /\
  exists r, jsoracle [] [empty_polygon; empty_polygon] (5 # 1) (5 # 1) = Ret r.
Proof.
  pose proof (jsoracle_skips_empty_exterior [] [empty_polygon; empty_polygon]
                (5 # 1) (5 # 1)) as (_ & Hrule & Hret).
  split.
  - apply (Hrule PIP_UNKNOWN). vm_compute. reflexivity.
  - apply Hret; [apply List.Forall_nil |].
    repeat (apply List.Forall_cons; [split; [reflexivity | left; cbn; lia] |]).
    apply List.Forall_nil.
Defined.

(** The walk along a table that [prepareY] built gives the answers of the
    plain walk on the rows of the band, and it gives one. *)
Lemma prepared_answers (apg apg' : Polygon) (ay0 x y : Z) :
  isDiagonalFree apg = 1 ->
  prepareY apg ay0 = Ret apg' ->
  ay0 - BUFFER <= y <= ay0 + BUFFER ->
  point_in_polygonVH apg' x y = point_in_polygonVH (unPrepareY apg') x y /\
  exists r, point_in_polygonVH apg' x y = Ret r.
Proof.
  intros Hdiag Hprep Hy. split.
  - destruct (prepareY_fields _ _ _ Hprep) as (Hpts & Huse & _).
    unfold point_in_polygonVH. cbn [unPrepareY set_table xmin xmax ymin ymax points].
    destruct (_ || _); [reflexivity |].
    pose proof (isDiagonalFree_pts_edge _ Hdiag) as Hrect.
    apply (prepared_walk_eq apg' (unPrepareY apg') ay0); cbn; try lia; auto.
    + rewrite Hpts. intros r Hr Hrange.
      apply (prepareY_chain apg apg' ay0 Hprep r Hr).
      unfold pointcount in *. cbn in Hrange. rewrite Hpts in Hrange. exact Hrange.
    + now rewrite Hpts.
    + unfold pointcount. cbn. lia.
    + unfold pointcount. cbn. lia.
  - apply point_in_polygonVH_returns. split.
    + unfold isDiagonalFree in *.
      destruct (prepareY_fields _ _ _ Hprep) as (-> & _). exact Hdiag.
    + right. eauto.
Qed.

(** C6: for a diagonal-free polygon with its table buffer allocated,
    [prepareY] builds a table for every row [ay0], and every query on a row
    at most [BUFFER = 2] away from [ay0] gets the same answer with the
    table switched on as after [unPrepareY], and it gets an answer. *)
Theorem prepareY_keeps_answers (apg : Polygon) (ay0 x y : Z) :
  isDiagonalFree apg = 1 ->
  table_allocated apg ->
  ay0 - BUFFER <= y <= ay0 + BUFFER ->
  exists apg',
    prepareY apg ay0 = Ret apg' /\
    point_in_polygonVH apg' x y = point_in_polygonVH (unPrepareY apg') x y /\
    exists r, point_in_polygonVH apg' x y = Ret r.
Proof.
  intros Hdiag Halloc Hy.
  destruct (prepareY_returns apg ay0 Halloc) as [apg' Hprep].
  exists apg'. split; [exact Hprep |].
  exact (prepared_answers apg apg' ay0 x y Hdiag Hprep Hy).
Qed.

Lemma prepareY_keeps_answers_witness :
  exists apg',
    prepareY square10 9 = Ret apg' /\
    point_in_polygonVH apg' 5 7 = point_in_polygonVH (unPrepareY apg') 5 7 /\
    exists r, point_in_polygonVH apg' 5 7 = Ret r.
Proof.
  apply (prepareY_keeps_answers square10 9 5 7);
    [reflexivity | unfold table_allocated, pointcount; cbn; lia
     | unfold BUFFER; lia].
Defined.

(** ** Squares *)

Lemma box_update_later (b : Box) (ax ay : Z) :
  box_update false b ax ay =
  mkBox (Z.min (bxmin b) (ax - 8)) (Z.max (bxmax b) (ax + 8))
        (Z.min (bymin b) (ay - 8)) (Z.max (bymax b) (ay + 8)).
Proof.
  unfold box_update. rewrite !Z.gtb_ltb.
  repeat split_if; f_equal; lia.
Qed.

Lemma square_box (b0 : Box) (x0 y0 s : Z) (pts : list PolygonPoint) :
  0 < s -> In pts (square_rings x0 y0 s) ->
  load_box true b0 pts = mkBox (x0 - 8) (x0 + s + 8) (y0 - 8) (y0 + s + 8).
Proof.
  intros Hs Hin. cbn in Hin.
  repeat (destruct Hin as [<- | Hin]); try contradiction.
  all: cbn [load_box px py]; rewrite !box_update_later; cbn; f_equal; lia.
Qed.

(** Evaluate the array reads at constant indices. *)
Ltac eval_reads :=
  repeat match goal with
         | |- context [rd ?l ?i] =>
           let v := eval vm_compute in i in
           let r := eval cbv [rd zget Z.ltb Z.compare Z.to_nat Pos.to_nat
                              Pos.iter_op Init.Nat.add lookup list_lookup] in (rd l v) in
           change (rd l i) with r
         end.

Lemma if_andb {A : Type} (a b : bool) (x y : A) :
  (if a && b then x else y) = (if a then if b then x else y else y).
Proof. now destruct a, b. Qed.

Lemma if_orb {A : Type} (a b : bool) (x y : A) :
  (if a || b then x else y) = (if a then x else if b then x else y).
Proof. now destruct a, b. Qed.

(** Evaluate the tests on constant indices. *)
Ltac eval_closed_tests :=
  repeat match goal with
         | |- context [if ?b then _ else _] =>
           let v := eval vm_compute in b in
           match v with
           | true => change b with true
           | false => change b with false
           end; cbv iota
         end.

Ltac flat_tests :=
  cbn [bind px py]; rewrite ?Z.gtb_ltb, ?Z.geb_leb;
  repeat first [rewrite if_andb | rewrite if_orb].

(** Settle the next test from the facts at hand, or split on it. *)
Ltac decide_test :=
  match goal with
  | |- context [if ?a <? ?b then _ else _] =>
    first [ replace (a <? b) with true by (symmetry; apply Z.ltb_lt; lia)
          | replace (a <? b) with false by (symmetry; apply Z.ltb_ge; lia)
          | destruct (Z.ltb_spec a b) ]
  | |- context [if ?a <=? ?b then _ else _] =>
    first [ replace (a <=? b) with true by (symmetry; apply Z.leb_le; lia)
          | replace (a <=? b) with false by (symmetry; apply Z.leb_gt; lia)
          | destruct (Z.leb_spec a b) ]
  | |- context [if ?a =? ?b then _ else _] =>
    first [ replace (a =? b) with true by (symmetry; apply Z.eqb_eq; lia)
          | replace (a =? b) with false by (symmetry; apply Z.eqb_neq; lia)
          | destruct (Z.eqb_spec a b) ]
  end.

(** One step of the plain walk, then all tests of that edge. *)
Ltac walk_edge :=
  first [ rewrite pip_loop_done
            by (unfold pointcount; cbn [loaded useprepare points length]; lia)
        | rewrite pip_loop_plain_step
            by (unfold pointcount; cbn [loaded useprepare points length]; lia);
          unfold pip_edge, minimumI, maximumI, passes_through;
          cbn [loaded points length]; eval_closed_tests; eval_reads;
          flat_tests; repeat decide_test; cbn [bind] ].

Lemma square_walk (b0 : Box) (nen x0 y0 s : Z) (pts : list PolygonPoint)
  (cells : list Z) (ax ay : Z) :
  0 < s -> In pts (square_rings x0 y0 s) ->
  x0 - 8 <= ax <= x0 + s + 8 -> y0 - 8 <= ay <= y0 + s + 8 ->
  (strictly_inside x0 y0 s ax ay ->
   pip_loop 6 (loaded b0 nen pts cells) ax ay 0 1 = Ret PIP_INTERIOR) /\
  (strictly_outside x0 y0 s ax ay ->
   pip_loop 6 (loaded b0 nen pts cells) ax ay 0 1 = Ret PIP_EXTERIOR) /\
  (on_edge x0 y0 s ax ay ->
   pip_loop 6 (loaded b0 nen pts cells) ax ay 0 1 = Ret PIP_BOUNDARY).
Proof.
  intros Hs Hin Hx Hy. unfold strictly_inside, strictly_outside, on_edge.
  cbn in Hin.
  repeat (destruct Hin as [<- | Hin]); try contradiction.
  all: repeat split; intros Hpos.
  all: repeat walk_edge.
  all: try reflexivity.
Qed.

(** C2: for the square with lower corner [(x0,y0)] and side [s > 0], given
    as any of its eight closed five-vertex sequences and loaded with the
    bounding box of [load], [point_in_polygonVH] answers interior for every
    integer point strictly inside, exterior for every point strictly
    outside and boundary for every point on an edge. *)
Theorem square_classification (b0 : Box) (nen x0 y0 s : Z)
  (pts : list PolygonPoint) (cells : list Z) (ax ay : Z) :
  0 < s -> In pts (square_rings x0 y0 s) ->
  (strictly_inside x0 y0 s ax ay ->
   point_in_polygonVH (loaded b0 nen pts cells) ax ay = Ret PIP_INTERIOR) /\
  (strictly_outside x0 y0 s ax ay ->
   point_in_polygonVH (loaded b0 nen pts cells) ax ay = Ret PIP_EXTERIOR) /\
  (on_edge x0 y0 s ax ay ->
   point_in_polygonVH (loaded b0 nen pts cells) ax ay = Ret PIP_BOUNDARY).
Proof.
  intros Hs Hin. unfold point_in_polygonVH.
  assert (Hlen : length (points (loaded b0 nen pts cells)) = 5%nat).
  { cbn in Hin. repeat (destruct Hin as [<- | Hin]); try contradiction;
      reflexivity. }
  rewrite Hlen. cbn [loaded xmin xmax ymin ymax].
  rewrite (square_box b0 x0 y0 s pts Hs Hin). cbn [bxmin bxmax bymin bymax].
  rewrite !Z.gtb_ltb.
  destruct (Z.ltb_spec ax (x0 - 8)); [| destruct (Z.ltb_spec (x0 + s + 8) ax);
    [| destruct (Z.ltb_spec ay (y0 - 8)); [| destruct (Z.ltb_spec (y0 + s + 8) ay)]]];
    cbn [orb].
  5: apply square_walk; (assumption || lia).
  all: unfold strictly_inside, on_edge; repeat split; intros Hpos;
    (reflexivity || (exfalso; lia)).
Qed.

Lemma square_classification_witness :
  point_in_polygonVH square10 5 5 = Ret PIP_INTERIOR /\
  point_in_polygonVH square10 12 5 = Ret PIP_EXTERIOR /\
  point_in_polygonVH square10 10 5 = Ret PIP_BOUNDARY.
Proof.
  split; [| split].
  - apply (square_classification (mkBox 0 0 0 0) 1 0 0 10
             (points square10) [0; 0; 0; 0; 0] 5 5);
      [lia | left; reflexivity | unfold strictly_inside; lia].
  - apply (square_classification (mkBox 0 0 0 0) 1 0 0 10
             (points square10) [0; 0; 0; 0; 0] 12 5);
      [lia | left; reflexivity | unfold strictly_outside; lia].
  - apply (square_classification (mkBox 0 0 0 0) 1 0 0 10
             (points square10) [0; 0; 0; 0; 0] 10 5);
      [lia | left; reflexivity | unfold on_edge; lia].
Defined.

(** ** Reading and writing the raster *)

Lemma getPoint_in (c : Charmap) (x y : Z) :
  canvas_ok c -> 0 <= y * xlen c + x < xlen c * ylen c ->
  exists v, getPoint c x y = Ret v.
Proof.
  intros (_ & _ & Hlen) Hpos. unfold getPoint. apply rd_in. lia.
Qed.

Lemma setPoint_Ret (c c' : Charmap) (x y v : Z) :
  setPoint c x y v = Ret c' ->
  0 <= y * xlen c + x < Z.of_nat (length (cmp c)) /\
  xlen c' = xlen c /\ ylen c' = ylen c /\
  cmp c' = <[Z.to_nat (y * xlen c + x) := v]> (cmp c).
Proof.
  unfold setPoint. intros H.
  destruct (wr (cmp c) (y * xlen c + x) v) as [l | | |] eqn:Hw; try discriminate.
  cbn [bind] in H. inversion H. subst c'. cbn.
  apply wr_Ret in Hw as [Hr ->]. tauto.
Qed.

Lemma setPoint_in (c : Charmap) (x y v : Z) :
  canvas_ok c -> 0 <= y * xlen c + x < xlen c * ylen c ->
  exists c', setPoint c x y v = Ret c'.
Proof.
  intros (_ & _ & Hlen) Hpos. unfold setPoint, wr.
  destruct (Z.leb_spec 0 (y * xlen c + x)); [| lia].
  destruct (Z.ltb_spec (y * xlen c + x) (Z.of_nat (length (cmp c)))); [| lia].
  cbn. eauto.
Qed.

Lemma setPoint_ok (c c' : Charmap) (x y v : Z) :
  canvas_ok c -> setPoint c x y v = Ret c' -> canvas_ok c'.
Proof.
  intros (Hx & Hy & Hlen) Hset.
  apply setPoint_Ret in Hset as (_ & Hxl & Hyl & Hcmp).
  unfold canvas_ok. rewrite Hxl, Hyl, Hcmp, length_insert. tauto.
Qed.

Lemma getPoint_set_same (c c' : Charmap) (x y v : Z) :
  setPoint c x y v = Ret c' -> getPoint c' x y = Ret v.
Proof.
  intros Hset. apply setPoint_Ret in Hset as (Hr & Hxl & _ & Hcmp).
  unfold getPoint. rewrite Hxl, Hcmp. apply rd_Ret. now apply zget_insert_eq.
Qed.

Lemma getPoint_set_other (c c' : Charmap) (x y v x' y' : Z) :
  setPoint c x y v = Ret c' ->
  y' * xlen c + x' <> y * xlen c + x ->
  getPoint c' x' y' = getPoint c x' y'.
Proof.
  intros Hset Hne. apply setPoint_Ret in Hset as (Hr & Hxl & _ & Hcmp).
  unfold getPoint, rd. rewrite Hxl, Hcmp.
  destruct (Z.lt_ge_cases (y' * xlen c + x') 0) as [Hneg | Hpos].
  - unfold zget. destruct (Z.ltb_spec (y' * xlen c + x') 0); [reflexivity | lia].
  - rewrite zget_insert_ne by lia. reflexivity.
Qed.

(** ** Counting pixels of one colour *)

Lemma count_colour_insert (v w : Z) (l : list Z) (i : nat) :
  l !! i = Some v -> w <> v ->
  S (count_colour v (<[i := w]> l)) = count_colour v l.
Proof.
  revert i. induction l as [| a rest IH]; intros i Hi Hne; [discriminate |].
  destruct i as [| i]; cbn in Hi |- *.
  - inversion Hi. subst a. rewrite Z.eqb_refl.
    destruct (Z.eqb_spec w v); [contradiction | reflexivity].
  - destruct (a =? v); [f_equal |]; now apply IH.
Qed.

Lemma setPoint_count (c c' : Charmap) (x y v w : Z) :
  getPoint c x y = Ret v -> w <> v -> setPoint c x y w = Ret c' ->
  S (count_colour v (cmp c')) = count_colour v (cmp c).
Proof.
  intros Hget Hne Hset.
  apply setPoint_Ret in Hset as (Hr & _ & _ & ->).
  apply count_colour_insert; [| exact Hne].
  unfold getPoint in Hget. apply rd_Ret in Hget. unfold zget in Hget.
  destruct (Z.ltb_spec (y * xlen c + x) 0); [discriminate | exact Hget].
Qed.

(** ** The tests of the fusion step *)

Lemma has_colour_Ret (c : Charmap) (x y v : Z) (b : bool) :
  has_colour c x y v = Ret b ->
  exists p, getPoint c x y = Ret p /\ (b = true <-> p = v).
Proof.
  unfold has_colour. destruct (getPoint c x y) as [p | | |]; try discriminate.
  cbn [bind]. intros H. inversion H. exists p. split; [reflexivity |].
  destruct (Z.eqb_spec p v); split; intros; (congruence || auto).
Qed.

Lemma has_colour_true (c : Charmap) (x y v : Z) :
  has_colour c x y v = Ret true <-> getPoint c x y = Ret v.
Proof.
  split.
  - intros H. apply has_colour_Ret in H as (p & Hp & Hb).
    rewrite Hp. f_equal. now apply Hb.
  - intros H. unfold has_colour. rewrite H. cbn. now rewrite Z.eqb_refl.
Qed.

Lemma has_colour_false (c : Charmap) (x y v : Z) :
  has_colour c x y v = Ret false -> getPoint c x y <> Ret v.
Proof.
  intros H Hget. apply has_colour_true in Hget. congruence.
Qed.

Lemma andr_true (a b : res bool) :
  andr a b = Ret true <-> a = Ret true /\ b = Ret true.
Proof.
  unfold andr. destruct a as [[|] | | |]; cbn; split; intros H;
    try discriminate; try tauto; destruct H; congruence.
Qed.

Lemma andr_false (a b : res bool) :
  andr a b = Ret false -> a = Ret false \/ b = Ret false.
Proof.
  unfold andr. destruct a as [[|] | | |]; cbn; intros H;
    try discriminate; tauto.
Qed.

Lemma orr_false (a b : res bool) :
  orr a b = Ret false <-> a = Ret false /\ b = Ret false.
Proof.
  unfold orr. destruct a as [[|] | | |]; cbn; split; intros H;
    try discriminate; try tauto; destruct H; congruence.
Qed.

Lemma orr_true (a b : res bool) :
  orr a b = Ret true -> a = Ret true \/ b = Ret true.
Proof.
  unfold orr. destruct a as [[|] | | |]; cbn; intros H;
    try discriminate; tauto.
Qed.

Lemma gray_free_rows_Ret (c : Charmap) (x y : Z) (dxs : list Z) (k : bool) :
  gray_free_rows c x y dxs = Ret k ->
  if k then
    forall dx, In dx dxs ->
      getPoint c (x + dx) (y - 1) <> Ret COLORGRAY /\
      getPoint c (x + dx) (y + 1) <> Ret COLORGRAY
  else
    exists dx, In dx dxs /\
      (getPoint c (x + dx) (y - 1) = Ret COLORGRAY \/
       getPoint c (x + dx) (y + 1) = Ret COLORGRAY).
Proof.
  revert k. induction dxs as [| d rest IH]; intros k Hrun; cbn in Hrun.
  - inversion Hrun. intros dx [].
  - destruct (orr _ _) as [[|] | | |] eqn:Hor; try discriminate; cbn [bind] in Hrun.
    + inversion Hrun. exists d. split; [now left |].
      apply orr_true in Hor as [H | H]; apply has_colour_true in H; tauto.
    + apply orr_false in Hor as [H1 H2].
      apply has_colour_false in H1. apply has_colour_false in H2.
      specialize (IH k Hrun). destruct k.
      * intros dx [<- | Hin]; [tauto | now apply IH].
      * destruct IH as (dx & Hin & Hg). exists dx. split; [now right | exact Hg].
Qed.

Lemma gray_free_cols_Ret (c : Charmap) (x y : Z) (dys : list Z) (k : bool) :
  gray_free_cols c x y dys = Ret k ->
  if k then
    forall dy, In dy dys ->
      getPoint c (x - 1) (y + dy) <> Ret COLORGRAY /\
      getPoint c (x + 1) (y + dy) <> Ret COLORGRAY
  else
    exists dy, In dy dys /\
      (getPoint c (x - 1) (y + dy) = Ret COLORGRAY \/
       getPoint c (x + 1) (y + dy) = Ret COLORGRAY).
Proof.
  revert k. induction dys as [| d rest IH]; intros k Hrun; cbn in Hrun.
  - inversion Hrun. intros dy [].
  - destruct (orr _ _) as [[|] | | |] eqn:Hor; try discriminate; cbn [bind] in Hrun.
    + inversion Hrun. exists d. split; [now left |].
      apply orr_true in Hor as [H | H]; apply has_colour_true in H; tauto.
    + apply orr_false in Hor as [H1 H2].
      apply has_colour_false in H1. apply has_colour_false in H2.
      specialize (IH k Hrun). destruct k.
      * intros dy [<- | Hin]; [tauto | now apply IH].
      * destruct IH as (dy & Hin & Hg). exists dy. split; [now right | exact Hg].
Qed.

Lemma In_four (d : Z) : In d four <-> 0 <= d <= 3.
Proof. unfold four. cbn. lia. Qed.

(** What one visit of the fusion loop does. *)
Lemma fuse_at_Ret (relf : Z) (c c' : Charmap) (x y ch ch' : Z) :
  fuse_at relf c x y ch = Ret (c', ch') ->
  (c' = c /\ ch' = ch /\
   ~ (row_gap relf c x y /\ row_gap_gray_free c x y) /\
   ~ (~ row_gap relf c x y /\ col_gap relf c x y /\ col_gap_gray_free c x y)) \/
  (ch' = 1 /\ row_gap relf c x y /\ row_gap_gray_free c x y /\
   exists c1, setPoint c x y AKTIVCOL = Ret c1 /\
              setPoint c1 (x + 1) y AKTIVCOL = Ret c') \/
  (ch' = 1 /\ ~ row_gap relf c x y /\ col_gap relf c x y /\
   col_gap_gray_free c x y /\
   exists c1, setPoint c x y AKTIVCOL = Ret c1 /\
              setPoint c1 x (y + 1) AKTIVCOL = Ret c').
Proof.
  unfold fuse_at. intros Hrun.
  destruct (has_colour c x y relf) as [here | | |] eqn:Hhere; try discriminate.
  cbn [bind] in Hrun. destruct here; cbn [negb] in Hrun.
  2: { inversion Hrun. subst. left. apply has_colour_false in Hhere.
       unfold row_gap, col_gap. tauto. }
  apply has_colour_true in Hhere.
  destruct (andr (has_colour c (x + 1) y relf) _) as [h | | |] eqn:Hh;
    try discriminate.
  cbn [bind] in Hrun. destruct h.
  - apply andr_true in Hh as [H1 H23]. apply andr_true in H23 as [H2 H3].
    apply has_colour_true in H1, H2, H3.
    assert (Hgap : row_gap relf c x y) by (unfold row_gap; tauto).
    destruct (gray_free_rows c x y four) as [k | | |] eqn:Hk; try discriminate.
    cbn [bind] in Hrun. apply gray_free_rows_Ret in Hk. destruct k.
    + destruct (setPoint c x y AKTIVCOL) as [c1 | | |] eqn:Hs1; try discriminate.
      cbn [bind] in Hrun.
      destruct (setPoint c1 (x + 1) y AKTIVCOL) as [c2 | | |] eqn:Hs2;
        try discriminate.
      cbn [bind] in Hrun. inversion Hrun. subst. right. left.
      repeat split; try assumption; try (apply Hk, In_four; assumption).
      eauto.
    + inversion Hrun. subst. left. repeat split; try tauto.
      intros [_ Hfree]. destruct Hk as (dx & Hin & Hg).
      apply In_four in Hin. specialize (Hfree dx Hin). tauto.
  - assert (Hnogap : ~ row_gap relf c x y).
    { intros (_ & G1 & G2 & G3). apply has_colour_true in G1, G2, G3.
      apply andr_false in Hh as [Hh | Hh]; [congruence |].
      apply andr_false in Hh as [Hh | Hh]; congruence. }
    destruct (andr (has_colour c x (y + 1) relf) _) as [v | | |] eqn:Hv;
      try discriminate.
    cbn [bind] in Hrun. destruct v.
    + apply andr_true in Hv as [H1 H23]. apply andr_true in H23 as [H2 H3].
      apply has_colour_true in H1, H2, H3.
      assert (Hgap : col_gap relf c x y) by (unfold col_gap; tauto).
      destruct (gray_free_cols c x y four) as [k | | |] eqn:Hk; try discriminate.
      cbn [bind] in Hrun. apply gray_free_cols_Ret in Hk. destruct k.
      * destruct (setPoint c x y AKTIVCOL) as [c1 | | |] eqn:Hs1; try discriminate.
        cbn [bind] in Hrun.
        destruct (setPoint c1 x (y + 1) AKTIVCOL) as [c2 | | |] eqn:Hs2;
          try discriminate.
        cbn [bind] in Hrun. inversion Hrun. subst. right. right.
        repeat split; try assumption; try (apply Hk, In_four; assumption).
        eauto.
      * inversion Hrun. subst. left. repeat split; try tauto.
        intros (_ & _ & Hfree). destruct Hk as (dy & Hin & Hg).
        apply In_four in Hin. specialize (Hfree dy Hin). tauto.
    + inversion Hrun. subst. left. repeat split; try tauto.
      intros (_ & (_ & G1 & G2 & G3) & _). apply has_colour_true in G1, G2, G3.
      apply andr_false in Hv as [Hv | Hv]; [congruence |].
      apply andr_false in Hv as [Hv | Hv]; congruence.
Qed.

(** ** The fusion step stays inside the raster *)

Lemma cell_in (c : Charmap) (a b : Z) :
  canvas_ok c -> 0 <= a <= xlen c -> 0 <= b ->
  b + 1 < ylen c \/ (b < ylen c /\ a < xlen c) ->
  0 <= b * xlen c + a < xlen c * ylen c.
Proof. intros (Hx & Hy & _) Ha Hb Hcase. nia. Qed.

Lemma has_colour_in (c : Charmap) (a b v : Z) :
  canvas_ok c -> 0 <= a <= xlen c -> 0 <= b ->
  b + 1 < ylen c \/ (b < ylen c /\ a < xlen c) ->
  exists r, has_colour c a b v = Ret r.
Proof.
  intros Hok Ha Hb Hcase. unfold has_colour.
  destruct (getPoint_in c a b Hok (cell_in c a b Hok Ha Hb Hcase)) as [p ->].
  cbn. eauto.
Qed.

Ltac colour_step Hok :=
  match goal with
  | |- context [has_colour ?c ?a ?b ?v] =>
    let r := fresh "r" in let Hr := fresh "Hr" in
    destruct (has_colour_in c a b v Hok) as [r Hr]; [lia | lia | lia |];
    rewrite Hr; cbn [bind]; destruct r
  end.

Lemma paint_two (c : Charmap) (a b a' b' v : Z) :
  canvas_ok c ->
  0 <= b * xlen c + a < xlen c * ylen c ->
  0 <= b' * xlen c + a' < xlen c * ylen c ->
  exists c1 c2, setPoint c a b v = Ret c1 /\ setPoint c1 a' b' v = Ret c2.
Proof.
  intros Hok Hin Hin'.
  destruct (setPoint_in c a b v Hok Hin) as [c1 H1].
  pose proof (setPoint_ok _ _ _ _ _ Hok H1) as Hok1.
  pose proof (setPoint_Ret _ _ _ _ _ H1) as (_ & Hxl & Hyl & _).
  destruct (setPoint_in c1 a' b' v Hok1) as [c2 H2]; [rewrite Hxl, Hyl; exact Hin' |].
  eauto.
Qed.

Lemma fuse_at_returns (relf : Z) (c : Charmap) (x y ch : Z) :
  canvas_ok c -> last_row_inactive c ->
  1 <= x <= xlen c - 3 -> 1 <= y <= ylen c - 3 ->
  exists s, fuse_at relf c x y ch = Ret s.
Proof.
  intros Hok Hlast Hx Hy.
  assert (Hdeep : y + 2 = ylen c - 1 ->
                  has_colour c x (y + 2) AKTIVCOL = Ret false).
  { intros Hrow. destruct (has_colour_in c x (y + 2) AKTIVCOL Hok) as [[|] Hr];
      try lia; [| exact Hr].
    apply has_colour_true in Hr. rewrite Hrow in Hr.
    exfalso. apply (Hlast x); [lia | exact Hr]. }
  destruct (paint_two c x y (x + 1) y AKTIVCOL Hok) as (h1 & h2 & Hh1 & Hh2);
    [apply cell_in; (assumption || lia) | apply cell_in; (assumption || lia) |].
  destruct (paint_two c x y x (y + 1) AKTIVCOL Hok) as (v1 & v2 & Hv1 & Hv2);
    [apply cell_in; (assumption || lia) | apply cell_in; (assumption || lia) |].
  rewrite Hh1 in Hv1. inversion Hv1. subst v1.
  unfold fuse_at, four, gray_free_rows, gray_free_cols, andr, orr.
  rewrite Hh1. cbn [bind]. rewrite Hh2, Hv2. cbn [bind].
  destruct (Z.eq_dec (y + 2) (ylen c - 1)) as [Hrow | Hrow].
  - rewrite (Hdeep Hrow). cbn [bind].
    repeat (colour_step Hok; cbn [bind negb]; eauto).
  - repeat (colour_step Hok; cbn [bind negb]; eauto).
Qed.

(** ** No step of the fusion loop waits for budget *)

Lemma bind_not_Fuel {A B : Type} (m : res A) (k : A -> res B) :
  m <> Fuel -> (forall a, k a <> Fuel) -> bind m k <> Fuel.
Proof. destruct m; cbn; intros Hm Hk; (apply Hk || congruence). Qed.

Lemma rd_not_Fuel {A : Type} (l : list A) (i : Z) : rd l i <> Fuel.
Proof. unfold rd. destruct (zget l i); discriminate. Qed.

Lemma wr_not_Fuel {A : Type} (l : list A) (i : Z) (v : A) : wr l i v <> Fuel.
Proof. unfold wr. destruct (_ && _); discriminate. Qed.

Ltac no_fuel :=
  repeat first
    [ apply rd_not_Fuel
    | apply wr_not_Fuel
    | apply bind_not_Fuel; [| intros ?]
    | match goal with
      | |- Ret _ <> Fuel => discriminate
      | |- (if ?b then _ else _) <> Fuel => destruct b
      end ].

Lemma fuse_at_not_Fuel (relf : Z) (c : Charmap) (x y ch : Z) :
  fuse_at relf c x y ch <> Fuel.
Proof.
  unfold fuse_at, four, gray_free_rows, gray_free_cols, andr, orr,
    has_colour, getPoint, setPoint.
  no_fuel.
Qed.

Lemma fuse_at_dims (relf : Z) (c c' : Charmap) (x y ch ch' : Z) :
  canvas_ok c -> fuse_at relf c x y ch = Ret (c', ch') ->
  canvas_ok c' /\ xlen c' = xlen c /\ ylen c' = ylen c.
Proof.
  intros Hok Hrun.
  assert (Htwo : forall x2 y2 c1,
            setPoint c x y AKTIVCOL = Ret c1 ->
            setPoint c1 x2 y2 AKTIVCOL = Ret c' ->
            canvas_ok c' /\ xlen c' = xlen c /\ ylen c' = ylen c).
  { intros x2 y2 c1 S1 S2.
    pose proof (setPoint_ok _ _ _ _ _ Hok S1) as Hok1.
    pose proof (setPoint_ok _ _ _ _ _ Hok1 S2) as Hok2.
    pose proof (setPoint_Ret _ _ _ _ _ S1) as (_ & Hx1 & Hy1 & _).
    pose proof (setPoint_Ret _ _ _ _ _ S2) as (_ & Hx2 & Hy2 & _).
    split; [exact Hok2 |]. split; congruence. }
  apply fuse_at_Ret in Hrun
    as [(-> & _) | [(_ & _ & _ & c1 & S1 & S2) | (_ & _ & _ & _ & c1 & S1 & S2)]].
  - tauto.
  - exact (Htwo _ _ _ S1 S2).
  - exact (Htwo _ _ _ S1 S2).
Qed.

(** ** Every promotion uses up two target pixels *)

Lemma fuse_at_measure (relf : Z) (c c' : Charmap) (x y ch ch' : Z) :
  canvas_ok c -> relf <> AKTIVCOL ->
  fuse_at relf c x y ch = Ret (c', ch') ->
  canvas_ok c' /\ xlen c' = xlen c /\ ylen c' = ylen c /\
  ((c' = c /\ ch' = ch) \/
   (ch' = 1 /\
    (count_colour relf (cmp c') + 2 = count_colour relf (cmp c))%nat)).
Proof.
  intros Hok Hne Hrun.
  assert (Hpaint : forall x2 y2 c1,
            y2 * xlen c + x2 <> y * xlen c + x ->
            getPoint c x y = Ret relf -> getPoint c x2 y2 = Ret relf ->
            setPoint c x y AKTIVCOL = Ret c1 ->
            setPoint c1 x2 y2 AKTIVCOL = Ret c' ->
            canvas_ok c' /\ xlen c' = xlen c /\ ylen c' = ylen c /\
            (count_colour relf (cmp c') + 2 = count_colour relf (cmp c))%nat).
  { intros x2 y2 c1 Hpos G1 G2 S1 S2.
    pose proof (setPoint_ok _ _ _ _ _ Hok S1) as Hok1.
    pose proof (setPoint_ok _ _ _ _ _ Hok1 S2) as Hok2.
    pose proof (setPoint_Ret _ _ _ _ _ S1) as (_ & Hx1 & Hy1 & _).
    pose proof (setPoint_Ret _ _ _ _ _ S2) as (_ & Hx2 & Hy2 & _).
    pose proof (setPoint_count _ _ _ _ _ _ G1 (not_eq_sym Hne) S1) as C1.
    rewrite <- (getPoint_set_other _ _ _ _ _ _ _ S1 Hpos) in G2.
    pose proof (setPoint_count _ _ _ _ _ _ G2 (not_eq_sym Hne) S2) as C2.
    split; [exact Hok2 |]. split; [congruence |]. split; [congruence | lia]. }
  destruct Hok as (Hxl & Hyl & Hlen).
  apply fuse_at_Ret in Hrun
    as [(-> & -> & _) | [(-> & (G1 & G2 & _) & _ & c1 & S1 & S2)
                        | (-> & _ & (G1 & G2 & _) & _ & c1 & S1 & S2)]].
  - split; [unfold canvas_ok; tauto | tauto].
  - destruct (Hpaint (x + 1) y c1) as (H1 & H2 & H3 & H4);
      try assumption; [lia |]. tauto.
  - destruct (Hpaint x (y + 1) c1) as (H1 & H2 & H3 & H4);
      try assumption; [lia |]. tauto.
Qed.

Lemma fuse_at_last_row (relf : Z) (c c' : Charmap) (x y ch ch' : Z) :
  canvas_ok c -> last_row_inactive c ->
  1 <= x <= xlen c - 3 -> 1 <= y <= ylen c - 3 ->
  fuse_at relf c x y ch = Ret (c', ch') ->
  last_row_inactive c'.
Proof.
  intros Hok Hlast Hx Hy Hrun. destruct Hok as (Hxl & Hyl & Hlen).
  assert (Hkeep : forall x2 y2 c1,
            (x2 = x + 1 /\ y2 = y) \/ (x2 = x /\ y2 = y + 1) ->
            setPoint c x y AKTIVCOL = Ret c1 ->
            setPoint c1 x2 y2 AKTIVCOL = Ret c' -> last_row_inactive c').
  { intros x2 y2 c1 Hcase S1 S2 x' Hx'.
    pose proof (setPoint_Ret _ _ _ _ _ S1) as (_ & Hx1 & Hy1 & _).
    pose proof (setPoint_Ret _ _ _ _ _ S2) as (_ & Hx2 & Hy2 & _).
    rewrite Hx2, Hx1 in Hx'. rewrite Hy2, Hy1.
    rewrite (getPoint_set_other _ _ _ _ _ _ _ S2) by (rewrite Hx1; nia).
    rewrite (getPoint_set_other _ _ _ _ _ _ _ S1) by nia.
    now apply Hlast. }
  apply fuse_at_Ret in Hrun
    as [(-> & _) | [(_ & _ & _ & c1 & S1 & S2) | (_ & _ & _ & _ & c1 & S1 & S2)]].
  - exact Hlast.
  - apply (Hkeep (x + 1) y c1); auto.
  - apply (Hkeep x (y + 1) c1); auto.
Qed.

(** ** One pass over the raster *)

Lemma fuse_row_Ret (relf y : Z) :
  relf <> AKTIVCOL ->
  forall (n : nat) (c : Charmap) (x ch : Z) (c' : Charmap) (ch' : Z),
    canvas_ok c ->
    fuse_row n relf c x y ch = Ret (c', ch') ->
    canvas_ok c' /\ xlen c' = xlen c /\ ylen c' = ylen c /\
    ((c' = c /\ ch' = ch /\
      forall x', x <= x' < x + Z.of_nat n ->
                 fuse_at relf c x' y ch = Ret (c, ch)) \/
     (ch' = 1 /\
      (count_colour relf (cmp c') < count_colour relf (cmp c))%nat)).
Proof.
  intros Hne. induction n as [| n IH]; intros c x ch c' ch' Hok Hrun.
  - cbn in Hrun. inversion Hrun. subst. repeat split; try apply Hok.
    left. repeat split. intros; lia.
  - cbn [fuse_row] in Hrun.
    destruct (fuse_at relf c x y ch) as [[c1 ch1] | | |] eqn:Hat; try discriminate.
    cbn [bind fst snd] in Hrun.
    destruct (fuse_at_measure relf c c1 x y ch ch1 Hok Hne Hat)
      as (Hok1 & Hx1 & Hy1 & Hcase).
    destruct (IH c1 (x + 1) ch1 c' ch' Hok1 Hrun) as (Hok' & Hx' & Hy' & Hrest).
    split; [exact Hok' |]. split; [congruence |]. split; [congruence |].
    destruct Hcase as [[-> ->] | [-> Hless]].
    + destruct Hrest as [(-> & -> & Hnoop) | [-> Hless']].
      * left. repeat split. intros x' Hx.
        destruct (Z.eq_dec x' x) as [-> | Hxne]; [exact Hat | apply Hnoop; lia].
      * right. tauto.
    + right. destruct Hrest as [(-> & -> & _) | [-> Hless']]; split; auto; lia.
Qed.

Lemma fuse_rows_Ret (relf : Z) :
  relf <> AKTIVCOL ->
  forall (m : nat) (c : Charmap) (y ch : Z) (c' : Charmap) (ch' : Z),
    canvas_ok c ->
    fuse_rows m relf c y ch = Ret (c', ch') ->
    canvas_ok c' /\ xlen c' = xlen c /\ ylen c' = ylen c /\
    ((c' = c /\ ch' = ch /\
      forall x' y', 1 <= x' <= xlen c - 3 -> y <= y' < y + Z.of_nat m ->
                    fuse_at relf c x' y' ch = Ret (c, ch)) \/
     (ch' = 1 /\
      (count_colour relf (cmp c') < count_colour relf (cmp c))%nat)).
Proof.
  intros Hne. induction m as [| m IH]; intros c y ch c' ch' Hok Hrun.
  - cbn in Hrun. inversion Hrun. subst. repeat split; try apply Hok.
    left. repeat split. intros; lia.
  - cbn [fuse_rows] in Hrun.
    destruct (fuse_row _ relf c 1 y ch) as [[c1 ch1] | | |] eqn:Hrow;
      try discriminate.
    cbn [bind fst snd] in Hrun.
    destruct (fuse_row_Ret relf y Hne _ c 1 ch c1 ch1 Hok Hrow)
      as (Hok1 & Hx1 & Hy1 & Hcase).
    destruct (IH c1 (y + 1) ch1 c' ch' Hok1 Hrun) as (Hok' & Hx' & Hy' & Hrest).
    split; [exact Hok' |]. split; [congruence |]. split; [congruence |].
    destruct Hcase as [(-> & -> & Hnoop1) | [-> Hless]].
    + destruct Hrest as [(-> & -> & Hnoop) | [-> Hless']].
      * left. repeat split. intros x' y' Hx Hy.
        destruct (Z.eq_dec y' y) as [-> | Hyne];
          [apply Hnoop1; lia | apply Hnoop; lia].
      * right. tauto.
    + right. destruct Hrest as [(-> & -> & _) | [-> Hless']]; split; auto; lia.
Qed.

Lemma fuse_pass_Ret (relf : Z) (c c' : Charmap) (ch' : Z) :
  relf <> AKTIVCOL -> canvas_ok c ->
  fuse_pass relf c = Ret (c', ch') ->
  canvas_ok c' /\ xlen c' = xlen c /\ ylen c' = ylen c /\
  ((c' = c /\ ch' = 0 /\
    forall x y, 1 <= x <= xlen c - 3 -> 1 <= y <= ylen c - 3 ->
                fuse_at relf c x y 0 = Ret (c, 0)) \/
   (ch' = 1 /\
    (count_colour relf (cmp c') < count_colour relf (cmp c))%nat)).
Proof.
  intros Hne Hok Hrun. unfold fuse_pass in Hrun.
  destruct (fuse_rows_Ret relf Hne _ c 1 0 c' ch' Hok Hrun)
    as (Hok' & Hx' & Hy' & Hcase).
  repeat split; try assumption; try apply Hok'.
  destruct Hcase as [(-> & -> & Hnoop) | Hless]; [left | now right].
  repeat split. intros x y Hx Hy. apply Hnoop; lia.
Qed.

Lemma fuse_row_not_Fuel (relf y : Z) (n : nat) :
  forall c x ch, fuse_row n relf c x y ch <> Fuel.
Proof.
  induction n as [| n IH]; intros c x ch; cbn; [discriminate |].
  apply bind_not_Fuel; [apply fuse_at_not_Fuel | intros s; apply IH].
Qed.

Lemma fuse_rows_not_Fuel (relf : Z) (m : nat) :
  forall c y ch, fuse_rows m relf c y ch <> Fuel.
Proof.
  induction m as [| m IH]; intros c y ch; cbn; [discriminate |].
  apply bind_not_Fuel; [apply fuse_row_not_Fuel | intros s; apply IH].
Qed.

Lemma fuse_row_returns (relf y : Z) :
  forall (n : nat) (c : Charmap) (x ch : Z),
    canvas_ok c -> last_row_inactive c ->
    1 <= x -> ((0 < n)%nat -> x + Z.of_nat n <= xlen c - 2) ->
    1 <= y <= ylen c - 3 ->
    exists c' ch', fuse_row n relf c x y ch = Ret (c', ch') /\
                   last_row_inactive c'.
Proof.
  induction n as [| n IH]; intros c x ch Hok Hlast Hx Hn Hy; cbn [fuse_row];
    [eauto |].
  destruct (fuse_at_returns relf c x y ch Hok Hlast) as [[c1 ch1] Hat];
    [lia | lia |].
  rewrite Hat. cbn [bind fst snd].
  assert (Hlast1 : last_row_inactive c1)
    by (apply (fuse_at_last_row relf c c1 x y ch ch1); auto; lia).
  pose proof (fuse_at_dims relf c c1 x y ch ch1 Hok Hat) as Hdims.
  destruct Hdims as (Hok1 & Hx1 & Hy1).
  apply IH; auto; try lia.
Qed.

Lemma fuse_rows_returns (relf : Z) :
  forall (m : nat) (c : Charmap) (y ch : Z),
    canvas_ok c -> last_row_inactive c ->
    1 <= y -> ((0 < m)%nat -> y + Z.of_nat m <= ylen c - 2) ->
    exists c' ch', fuse_rows m relf c y ch = Ret (c', ch') /\
                   last_row_inactive c'.
Proof.
  induction m as [| m IH]; intros c y ch Hok Hlast Hy Hm; cbn [fuse_rows];
    [eauto |].
  destruct (fuse_row_returns relf y (Z.to_nat (xlen c - 3)) c 1 ch Hok Hlast)
    as (c1 & ch1 & Hrow & Hlast1); [lia | lia | lia |].
  rewrite Hrow. cbn [bind fst snd].
  assert (Hdims : canvas_ok c1 /\ xlen c1 = xlen c /\ ylen c1 = ylen c).
  { clear - Hrow Hok. revert Hrow. generalize 1 at 1. generalize ch.
    generalize (Z.to_nat (xlen c - 3)). intros n. revert c Hok.
    induction n as [| n IHn]; intros c Hok ch0 x0 Hrow; cbn [fuse_row] in Hrow.
    - inversion Hrow. subst. tauto.
    - destruct (fuse_at relf c x0 y ch0) as [[c2 ch2] | | |] eqn:Hat;
        try discriminate.
      cbn [bind fst snd] in Hrow.
      destruct (fuse_at_dims _ _ _ _ _ _ _ Hok Hat) as (Hok2 & Hx2 & Hy2).
      destruct (IHn c2 Hok2 _ _ Hrow) as (H1 & H2 & H3).
      split; [exact H1 |]. split; congruence. }
  destruct Hdims as (Hok1 & Hx1 & Hy1).
  apply IH; auto; try lia.
Qed.

(** ** The loop over the passes *)

Lemma fuse_loop_ends (relf : Z) :
  relf <> AKTIVCOL ->
  forall (fuel : nat) (c : Charmap),
    canvas_ok c ->
    (count_colour relf (cmp c) < fuel)%nat ->
    fuse_loop fuel relf c <> Fuel /\
    (last_row_inactive c ->
     exists c', fuse_loop fuel relf c = Ret c' /\
                fuse_pass relf c' = Ret (c', 0)).
Proof.
  intros Hne. induction fuel as [| fuel IH]; intros c Hok Hcount; [lia |].
  cbn [fuse_loop]. split.
  - destruct (fuse_pass relf c) as [[c1 ch1] | | |] eqn:Hpass;
      cbn [bind fst snd]; try discriminate.
    + destruct (fuse_pass_Ret relf c c1 ch1 Hne Hok Hpass)
        as (Hok1 & _ & _ & [(-> & -> & _) | [-> Hless]]).
      * cbn. discriminate.
      * cbn. apply IH; [exact Hok1 | lia].
    + exfalso. exact (fuse_rows_not_Fuel relf (Z.to_nat (ylen c - 3)) c 1 0 Hpass).
  - intros Hlast.
    destruct (fuse_rows_returns relf (Z.to_nat (ylen c - 3)) c 1 0 Hok Hlast)
      as (c1 & ch1 & Hpass & Hlast1); [lia | lia |].
    fold (fuse_pass relf c) in Hpass. rewrite Hpass. cbn [bind fst snd].
    destruct (fuse_pass_Ret relf c c1 ch1 Hne Hok Hpass)
      as (Hok1 & _ & _ & [(-> & -> & _) | [-> Hless]]).
    + cbn. eauto.
    + cbn. apply IH; [exact Hok1 | lia | exact Hlast1].
Qed.

Lemma fuse_loop_fixed (relf : Z) :
  relf <> AKTIVCOL ->
  forall (fuel : nat) (c c' : Charmap),
    canvas_ok c -> fuse_loop fuel relf c = Ret c' ->
    canvas_ok c' /\
    forall x y, 1 <= x <= xlen c' - 3 -> 1 <= y <= ylen c' - 3 ->
                fuse_at relf c' x y 0 = Ret (c', 0).
Proof.
  intros Hne. induction fuel as [| fuel IH]; intros c c' Hok Hrun;
    [discriminate |].
  cbn [fuse_loop] in Hrun.
  destruct (fuse_pass relf c) as [[c1 ch1] | | |] eqn:Hpass; try discriminate.
  cbn [bind fst snd] in Hrun.
  destruct (fuse_pass_Ret relf c c1 ch1 Hne Hok Hpass)
    as (Hok1 & _ & _ & [(-> & -> & Hnoop) | [-> Hless]]).
  - cbn in Hrun. inversion Hrun. subst c'. split; assumption.
  - cbn in Hrun. exact (IH c1 c' Hok1 Hrun).
Qed.

(** ** The gaps the body of the loop closes *)

(** What the body of the two loops does by itself, on any raster: it
    fuses gaps of exactly two target pixels.  Visiting the first pixel of
    such a gap along a row, with no gray above or below the four columns
    from that pixel on, turns both gap pixels active; the same holds along
    a column at a pixel where the row test does not match; and in the
    raster the loop ends with, no such gap is left at any pixel the loop
    visits (columns 1..xlen-3, rows 1..ylen-3). *)
Theorem fusion_closes_double_gaps (relf : Z) (fuel : nat) (c : Charmap) :
  relf <> AKTIVCOL -> canvas_ok c ->
  (forall c0 x y ch c1 ch1,
     fuse_at relf c0 x y ch = Ret (c1, ch1) ->
     (row_gap relf c0 x y /\ row_gap_gray_free c0 x y ->
      getPoint c1 x y = Ret AKTIVCOL /\ getPoint c1 (x + 1) y = Ret AKTIVCOL) /\
     (~ row_gap relf c0 x y /\ col_gap relf c0 x y /\ col_gap_gray_free c0 x y ->
      getPoint c1 x y = Ret AKTIVCOL /\ getPoint c1 x (y + 1) = Ret AKTIVCOL)) /\
  (forall c', fuse_loop fuel relf c = Ret c' -> no_open_gap relf c') /\
  (last_row_inactive c -> (count_colour relf (cmp c) < fuel)%nat ->
   exists c', fuse_loop fuel relf c = Ret c' /\ no_open_gap relf c').
Proof.
  intros Hne Hok.
  assert (Hfixed : forall c', fuse_loop fuel relf c = Ret c' ->
                              no_open_gap relf c').
  { intros c' Hrun x y Hx Hy.
    destruct (fuse_loop_fixed relf Hne fuel c c' Hok Hrun) as [Hok' Hnoop].
    specialize (Hnoop x y Hx Hy).
    apply fuse_at_Ret in Hnoop as [(_ & _ & H1 & H2) | [(H & _) | (H & _)]];
      [tauto | discriminate | discriminate]. }
  split; [| split; [exact Hfixed |]]; cycle 1.
  { intros Hlast Hcount.
    destruct (proj2 (fuse_loop_ends relf Hne fuel c Hok Hcount) Hlast)
      as (c' & Hrun & _).
    exists c'. split; [exact Hrun | exact (Hfixed c' Hrun)]. }
  intros c0 x y ch c1 ch1 Hat.
  assert (Hboth : forall x2 y2 c2,
            setPoint c0 x y AKTIVCOL = Ret c2 ->
            setPoint c2 x2 y2 AKTIVCOL = Ret c1 ->
            getPoint c1 x y = Ret AKTIVCOL /\ getPoint c1 x2 y2 = Ret AKTIVCOL).
  { intros x2 y2 c2 S1 S2. split; [| exact (getPoint_set_same _ _ _ _ _ S2)].
    pose proof (setPoint_Ret _ _ _ _ _ S1) as (_ & Hx1 & _).
    destruct (Z.eq_dec (y * xlen c2 + x) (y2 * xlen c2 + x2)) as [Heq | Hneq].
    - pose proof (getPoint_set_same _ _ _ _ _ S2) as Hget.
      pose proof (setPoint_Ret _ _ _ _ _ S2) as (_ & Hx2 & _).
      unfold getPoint in *. rewrite Hx2 in *. rewrite Heq. exact Hget.
    - rewrite (getPoint_set_other _ _ _ _ _ _ _ S2 Hneq).
      exact (getPoint_set_same _ _ _ _ _ S1). }
  apply fuse_at_Ret in Hat
    as [(_ & _ & Hno1 & Hno2)
       | [(_ & Hgap & _ & c2 & S1 & S2) | (_ & Hnot & _ & _ & c2 & S1 & S2)]].
  + split; intros H; tauto.
  + split; [intros _; exact (Hboth _ _ _ S1 S2) | tauto].
  + split; [tauto | intros _; exact (Hboth _ _ _ S1 S2)].
Qed.

Lemma fusion_closes_double_gaps_witness :
  getPoint double_gap_canvas 2 2 = Ret COLORBLACK /\
  fuse_loop 3 COLORBLACK double_gap_canvas = Ret fused_gap_canvas /\
  no_open_gap COLORBLACK fused_gap_canvas /\
  exists c', fuse_loop 3 COLORBLACK double_gap_canvas = Ret c' /\
             no_open_gap COLORBLACK c'.
Proof.
  pose proof (fusion_closes_double_gaps COLORBLACK 3 double_gap_canvas
                ltac:(discriminate) ltac:(unfold canvas_ok; cbn; lia))
    as (_ & Hfixed & Hends).
  split; [reflexivity |]. split; [reflexivity |]. split.
  - apply Hfixed. reflexivity.
  - apply Hends; [| cbn; lia].
    intros x Hx. cbn in Hx.
    assert (Hcase : x = 0 \/ x = 1 \/ x = 2 \/ x = 3 \/ x = 4 \/ x = 5) by lia.
    repeat (destruct Hcase as [-> | Hcase]; [vm_compute; discriminate |]).
    subst x. vm_compute. discriminate.
Defined.

(** The body of the loop has no rule for a gap of one pixel: the raster
    with one black pixel between two active ones, no gray anywhere, is a
    fixed point of the loop and the pixel stays black.  The kernel scan
    leaves no such raster: the pixels it marks lie off the rim of the
    blocks of its grid. *)
Lemma single_gap_not_fused :
  single_row_gap COLORBLACK single_gap_canvas 2 2 /\
  fuse_loop 1 COLORBLACK single_gap_canvas = Ret single_gap_canvas /\
  getPoint single_gap_canvas 2 2 = Ret COLORBLACK.
Proof.
  split; [| split; vm_compute; reflexivity].
  repeat split; try (vm_compute; reflexivity).
  all: assert (Hd : dx = -1 \/ dx = 0 \/ dx = 1) by lia.
  all: destruct Hd as [-> | [-> | ->]]; vm_compute; discriminate.
Qed.
(** ** The kernel scan *)

Lemma count_colour_insert_le (v w : Z) (l : list Z) (i : nat) :
  w <> v -> (count_colour v (<[i := w]> l) <= count_colour v l)%nat.
Proof.
  intros Hne. revert i. induction l as [| a rest IH]; intros i; [destruct i; apply Nat.le_refl |].
  destruct i as [| i]; cbn [count_colour]; simpl.
  - destruct (Z.eqb_spec w v); [contradiction |]. destruct (a =? v); lia.
  - specialize (IH i). destruct (Z.eqb_spec a v); [apply le_n_S |]; exact IH.
Qed.

Lemma scan_inv_refl (relf : Z) (c : Charmap) :
  canvas_ok c -> last_row_inactive c -> scan_inv relf c c.
Proof. intros Hok Hlast. unfold scan_inv. repeat split; (assumption || lia || apply Hok). Qed.

Lemma mark_step (relf : Z) (c0 c : Charmap) (x2 y2 : Z) :
  relf <> AKTIVCOL -> scan_inv relf c0 c ->
  0 <= x2 < xlen c -> 0 <= y2 -> y2 + 1 < ylen c ->
  exists c', setPoint c x2 y2 AKTIVCOL = Ret c' /\ scan_inv relf c0 c'.
Proof.
  intros Hne (Hok & Hx & Hy & Hlast & Hcount) Hx2 Hy2 Hrow.
  destruct (setPoint_in c x2 y2 AKTIVCOL Hok) as [c' Hset];
    [apply cell_in; (assumption || lia) |].
  exists c'. split; [exact Hset |].
  pose proof (setPoint_ok _ _ _ _ _ Hok Hset) as Hok'.
  pose proof (setPoint_Ret _ _ _ _ _ Hset) as (_ & Hx' & Hy' & Hcmp).
  split; [exact Hok' |]. split; [congruence |]. split; [congruence |]. split.
  - intros x' Hin. rewrite Hx' in Hin. rewrite Hy'.
    rewrite (getPoint_set_other _ _ _ _ _ _ _ Hset) by nia.
    now apply Hlast.
  - rewrite Hcmp.
    pose proof (count_colour_insert_le relf AKTIVCOL (cmp c)
                  (Z.to_nat (y2 * xlen c + x2)) ltac:(congruence)).
    lia.
Qed.

Lemma kernel_mark_row_returns (relf : Z) (c0 : Charmap) (y2 : Z) :
  relf <> AKTIVCOL ->
  forall (n : nat) (c : Charmap) (x2 : Z),
    scan_inv relf c0 c ->
    0 <= x2 -> x2 + Z.of_nat n <= xlen c -> 0 <= y2 -> y2 + 1 < ylen c ->
    exists c', kernel_mark_row n c x2 y2 = Ret c' /\ scan_inv relf c0 c'.
Proof.
  intros Hne. induction n as [| n IH]; intros c x2 Hinv Hx2 Hn Hy2 Hrow;
    cbn [kernel_mark_row]; [eauto |].
  destruct (mark_step relf c0 c x2 y2 Hne Hinv) as (c1 & Hset & Hinv1);
    [lia | lia | lia |].
  rewrite Hset. cbn [bind].
  pose proof Hinv as (_ & Hx & Hy & _). pose proof Hinv1 as (_ & Hx1 & Hy1 & _).
  apply IH; [exact Hinv1 | lia | lia | lia | lia].
Qed.

Lemma kernel_mark_returns (relf D : Z) (c0 : Charmap) (x : Z) :
  relf <> AKTIVCOL -> 0 <= x -> 3 <= D ->
  forall (m : nat) (c : Charmap) (y2 : Z),
    scan_inv relf c0 c ->
    x + D <= xlen c -> 0 <= y2 -> y2 + Z.of_nat m + 1 <= ylen c ->
    exists c', kernel_mark m D c x y2 = Ret c' /\ scan_inv relf c0 c'.
Proof.
  intros Hne Hx0 HD. induction m as [| m IH]; intros c y2 Hinv Hx Hy2 Hm;
    cbn [kernel_mark]; [eauto |].
  destruct (kernel_mark_row_returns relf c0 y2 Hne (Z.to_nat (D - 2)) c (x + 1) Hinv)
    as (c1 & Hrow & Hinv1); [lia | lia | lia | lia |].
  rewrite Hrow. cbn [bind].
  pose proof Hinv as (_ & Hxl & Hyl & _). pose proof Hinv1 as (_ & Hx1 & Hy1 & _).
  apply IH; [exact Hinv1 | lia | lia | lia].
Qed.

Lemma kernel_test_row_returns (relf : Z) (c : Charmap) (x y : Z) :
  canvas_ok c -> 0 <= x -> 0 <= y < ylen c ->
  forall (n : nat) (dx : Z),
    0 <= dx -> x + dx + Z.of_nat n <= xlen c ->
    exists b, kernel_test_row n relf c x y dx = Ret b.
Proof.
  intros Hok Hx Hy. induction n as [| n IH]; intros dx Hdx Hn;
    cbn [kernel_test_row]; [eauto |].
  destruct (has_colour_in c (x + dx) y relf Hok) as [[|] Hr];
    [lia | lia | right; lia | |]; rewrite Hr; cbn [bind]; [| eauto].
  apply IH; lia.
Qed.

Lemma kernel_test_returns (relf D : Z) (c : Charmap) (x y : Z) :
  canvas_ok c -> 0 <= x -> 0 <= D -> x + D <= xlen c -> 0 <= y ->
  forall (m : nat) (dy : Z),
    0 <= dy -> y + dy + Z.of_nat m <= ylen c ->
    exists b, kernel_test m D relf c x y dy = Ret b.
Proof.
  intros Hok Hx HD0 HD Hy. induction m as [| m IH]; intros dy Hdy Hm;
    cbn [kernel_test]; [eauto |].
  destruct (kernel_test_row_returns relf c x (y + dy) Hok Hx ltac:(lia)
              (Z.to_nat D) 0 ltac:(lia) ltac:(lia)) as [[|] Hr];
    rewrite Hr; cbn [bind]; [| eauto].
  apply IH; lia.
Qed.

Lemma kernel_at_returns (relf D : Z) (c0 c : Charmap) (x y : Z) :
  relf <> AKTIVCOL -> 3 <= D -> scan_inv relf c0 c ->
  0 <= x < xlen c - D -> 0 <= y < ylen c - D ->
  exists c', kernel_at D relf c x y = Ret c' /\ scan_inv relf c0 c'.
Proof.
  intros Hne HD Hinv Hx Hy. pose proof Hinv as (Hok & _).
  unfold kernel_at.
  destruct (has_colour_in c x y relf Hok) as [[|] Hr];
    [lia | lia | right; lia | |]; rewrite Hr; cbn [bind negb]; [| eauto].
  destruct (kernel_test_returns relf D c x y Hok ltac:(lia) ltac:(lia)
              ltac:(lia) ltac:(lia)
              (Z.to_nat D) 0 ltac:(lia) ltac:(lia)) as [[|] Ht];
    rewrite Ht; cbn [bind]; [| eauto].
  apply (kernel_mark_returns relf D c0 x Hne); [lia | lia | exact Hinv | lia | lia | lia].
Qed.

Lemma kernel_cols_returns (relf D : Z) (c0 : Charmap) (y : Z) :
  relf <> AKTIVCOL -> 3 <= D ->
  forall (fuel : nat) (c : Charmap) (x : Z),
    scan_inv relf c0 c -> 0 <= x -> 0 <= y < ylen c - D ->
    (Z.to_nat (xlen c - x) < fuel)%nat ->
    exists c', kernel_cols fuel D relf c x y = Ret c' /\ scan_inv relf c0 c'.
Proof.
  intros Hne HD. induction fuel as [| fuel IH]; intros c x Hinv Hx Hy Hfuel.
  - lia.
  - cbn [kernel_cols]. destruct (Z.ltb_spec x (xlen c - D)) as [Hlt | Hge]; [| eauto].
    destruct (kernel_at_returns relf D c0 c x y Hne HD Hinv) as (c1 & Hat & Hinv1);
      [lia | lia |].
    rewrite Hat. cbn [bind].
    pose proof Hinv as (_ & Hxl & Hyl & _). pose proof Hinv1 as (_ & Hx1 & Hy1 & _).
    apply IH; [exact Hinv1 | lia | lia | lia].
Qed.

Lemma kernel_rows_returns (relf D : Z) (c0 : Charmap) :
  relf <> AKTIVCOL -> 3 <= D ->
  forall (fuel : nat) (c : Charmap) (y : Z),
    scan_inv relf c0 c -> 0 <= y ->
    (Z.to_nat (ylen c - y) < fuel)%nat ->
    exists c', kernel_rows fuel D relf c y = Ret c' /\ scan_inv relf c0 c'.
Proof.
  intros Hne HD. induction fuel as [| fuel IH]; intros c y Hinv Hy Hfuel.
  - lia.
  - cbn [kernel_rows]. destruct (Z.ltb_spec y (ylen c - D)) as [Hlt | Hge]; [| eauto].
    pose proof Hinv as ((Hxpos & _) & Hxl & Hyl & _).
    destruct (kernel_cols_returns relf D c0 y Hne HD (S (Z.to_nat (xlen c))) c 0 Hinv)
      as (c1 & Hcols & Hinv1); [lia | lia | lia |].
    rewrite Hcols. cbn [bind].
    pose proof Hinv1 as (_ & Hx1 & Hy1 & _).
    apply IH; [exact Hinv1 | lia | lia].
Qed.

(** The scan returns, and leaves the last row and the size as they were and
    no more target pixels than before. *)
Lemma kernel_scan_returns (granularity relf : Z) (inbild : Charmap) :
  relf <> AKTIVCOL -> canvas_ok inbild -> last_row_inactive inbild ->
  exists c, kernel_scan granularity relf inbild = Ret c /\
            scan_inv relf inbild c.
Proof.
  intros Hne Hok Hlast. unfold kernel_scan.
  pose proof Hok as (_ & Hyl & _).
  apply kernel_rows_returns;
    [exact Hne | destruct (Z.ltb_spec granularity 3); lia
     | now apply scan_inv_refl | lia | lia].
Qed.

(** The scan and the fusion together return a raster that a further pass
    leaves alone. *)
Lemma connect_snippets_ends (granularity relf : Z) (inbild : Charmap)
  (fuel : nat) :
  relf <> AKTIVCOL -> canvas_ok inbild -> last_row_inactive inbild ->
  (count_colour relf (cmp inbild) < fuel)%nat ->
  exists c', connect_snippets fuel granularity relf inbild = Ret c' /\
             fuse_pass relf c' = Ret (c', 0).
Proof.
  intros Hne Hok Hlast Hfuel.
  destruct (kernel_scan_returns granularity relf inbild Hne Hok Hlast)
    as (c & Hscan & Hok1 & _ & _ & Hlast1 & Hcount).
  unfold connect_snippets. rewrite Hscan. cbn [bind].
  apply (fuse_loop_ends relf Hne fuel c Hok1 ltac:(lia)). exact Hlast1.
Qed.

(** ** Printing and scanning numbers *)

Lemma small_digit (d : Z) :
  0 <= d <= 9 ->
  d = 0 \/ d = 1 \/ d = 2 \/ d = 3 \/ d = 4 \/ d = 5 \/ d = 6 \/ d = 7 \/
  d = 8 \/ d = 9.
Proof. lia. Qed.

Ltac each_digit d H :=
  destruct (small_digit d H)
    as [-> | [-> | [-> | [-> | [-> | [-> | [-> | [-> | [-> | ->]]]]]]]]].

Lemma digit_val_char (d : Z) :
  0 <= d <= 9 -> digit_val 10 (digit_char d) = Some d.
Proof. intros H. each_digit d H; reflexivity. Qed.

Lemma digit_char_high (d : Z) :
  0 <= d <= 9 -> below32 (digit_char d) = false.
Proof. intros H. each_digit d H; reflexivity. Qed.

Lemma digit_char_no_space (d : Z) :
  0 <= d <= 9 -> isspace (digit_char d) = false.
Proof. intros H. each_digit d H; reflexivity. Qed.

Lemma scan_digits_stop (base : Z) (s : string) (v : Z) :
  match s with
  | EmptyString => True
  | String c _ => digit_val base c = None
  end ->
  scan_digits base s v = (v, s).
Proof. destruct s as [| c rest]; cbn; [reflexivity | intros ->; reflexivity]. Qed.

Lemma scan_digits_fuel (fuel : nat) :
  forall (n : Z) (acc : string),
    0 <= n < 2 ^ Z.of_nat fuel ->
    scan_digits 10 (digits_fuel fuel n acc) 0 = scan_digits 10 acc n.
Proof.
  induction fuel as [| fuel IH]; intros n acc Hn.
  - cbn. change (2 ^ Z.of_nat 0) with 1 in Hn. f_equal. lia.
  - cbn [digits_fuel].
    assert (Hmod : 0 <= n mod 10 <= 9) by (pose proof (Z.mod_pos_bound n 10); lia).
    destruct (Z.ltb_spec n 10) as [Hsmall | Hbig].
    + cbn [scan_digits]. rewrite digit_val_char by exact Hmod.
      f_equal. rewrite Z.mod_small by lia. lia.
    + rewrite IH.
      * cbn [scan_digits]. rewrite digit_val_char by exact Hmod.
        f_equal. pose proof (Z.div_mod n 10). lia.
      * rewrite Nat2Z.inj_succ, Z.pow_succ_r in Hn by lia.
        split; [apply Z.div_pos; lia |].
        apply Z.div_lt_upper_bound; lia.
Qed.

Lemma log2_fuel (n : Z) : 0 <= n -> 0 <= n < 2 ^ Z.of_nat (S (Z.to_nat (Z.log2 n))).
Proof.
  intros Hn. split; [exact Hn |].
  rewrite Nat2Z.inj_succ, Z2Nat.id by apply Z.log2_nonneg.
  destruct (Z.eq_dec n 0) as [-> | Hne]; [reflexivity |].
  apply Z.log2_spec. lia.
Qed.

Lemma scan_print_unsigned (n : Z) (acc : string) :
  0 <= n -> scan_digits 10 (print_unsigned n acc) 0 = scan_digits 10 acc n.
Proof. intros Hn. apply scan_digits_fuel, log2_fuel, Hn. Qed.

(** A positive number is printed with a leading digit from 1 to 9. *)
Lemma digits_fuel_head (fuel : nat) :
  forall (n : Z) (acc : string),
    0 < n < 2 ^ Z.of_nat fuel ->
    exists d rest, 1 <= d <= 9 /\
                   digits_fuel fuel n acc = String (digit_char d) rest.
Proof.
  induction fuel as [| fuel IH]; intros n acc Hn.
  - change (2 ^ Z.of_nat 0) with 1 in Hn. lia.
  - cbn [digits_fuel]. destruct (Z.ltb_spec n 10) as [Hsmall | Hbig].
    + exists (n mod 10), acc. rewrite Z.mod_small by lia. split; [lia | reflexivity].
    + apply IH. rewrite Nat2Z.inj_succ, Z.pow_succ_r in Hn by lia.
      split; [apply Z.div_str_pos; lia |].
      apply Z.div_lt_upper_bound; lia.
Qed.

Lemma print_unsigned_head (n : Z) (acc : string) :
  0 < n -> exists d rest, 1 <= d <= 9 /\
                          print_unsigned n acc = String (digit_char d) rest.
Proof.
  intros Hn. apply digits_fuel_head.
  pose proof (log2_fuel n ltac:(lia)). lia.
Qed.

Lemma print_unsigned_zero (acc : string) :
  print_unsigned 0 acc = String "0" acc.
Proof. reflexivity. Qed.

Lemma chomp_high (c : ascii) (s : string) :
  below32 c = false -> chomp (String c s) = String c (chomp s).
Proof. intros Hc. cbn [chomp]. destruct (chomp s); [now rewrite Hc | reflexivity]. Qed.

Lemma chomp_digits_fuel (fuel : nat) :
  forall (n : Z) (acc : string),
    chomp (digits_fuel fuel n acc) = digits_fuel fuel n (chomp acc).
Proof.
  induction fuel as [| fuel IH]; intros n acc; [reflexivity |].
  cbn [digits_fuel].
  assert (Hmod : 0 <= n mod 10 <= 9) by (pose proof (Z.mod_pos_bound n 10); lia).
  destruct (n <? 10).
  - apply chomp_high, digit_char_high, Hmod.
  - rewrite IH. f_equal. apply chomp_high, digit_char_high, Hmod.
Qed.

Lemma chomp_print_int (z : Z) (acc : string) :
  chomp (print_int z acc) = print_int z (chomp acc).
Proof.
  unfold print_int, print_unsigned. destruct (z <? 0).
  - rewrite chomp_high by reflexivity. f_equal. apply chomp_digits_fuel.
  - apply chomp_digits_fuel.
Qed.

Lemma chomp_line_end : chomp line_end = EmptyString.
Proof. reflexivity. Qed.

Lemma all_ascii (P : ascii -> Prop) :
  (forall b0 b1 b2 b3 b4 b5 b6 b7, P (Ascii b0 b1 b2 b3 b4 b5 b6 b7)) ->
  forall c, P c.
Proof. intros H [b0 b1 b2 b3 b4 b5 b6 b7]. apply H. Qed.

Lemma scan_prefixed_decimal (c : ascii) (rest : string) :
  code c <> 48 ->
  scan_prefixed (String c rest) = scan_unsigned 10 (String c rest).
Proof.
  revert c. apply (all_ascii (fun c => code c <> 48 -> _)).
  intros b0 b1 b2 b3 b4 b5 b6 b7 Hc.
  destruct b0, b1, b2, b3, b4, b5, b6, b7; try reflexivity.
  exfalso. apply Hc. reflexivity.
Qed.

Lemma scan_int_plain (auto_base : bool) (c : ascii) (rest : string) :
  isspace c = false -> code c <> 45 -> code c <> 43 ->
  scan_int auto_base (String c rest) =
  (if auto_base then scan_prefixed else scan_unsigned 10) (String c rest).
Proof.
  unfold scan_int. cbn [skip_space]. intros ->. revert c.
  apply (all_ascii (fun c => code c <> 45 -> code c <> 43 -> _)).
  intros b0 b1 b2 b3 b4 b5 b6 b7 H1 H2.
  destruct b0, b1, b2, b3, b4, b5, b6, b7; try reflexivity;
    exfalso; (apply H1; reflexivity) || (apply H2; reflexivity).
Qed.

Lemma digit_char_code (d : Z) : 0 <= d <= 9 -> code (digit_char d) = 48 + d.
Proof. intros H. each_digit d H; reflexivity. Qed.

Lemma no_digit_head_stop (acc : string) (v : Z) :
  no_digit_head acc -> scan_digits 10 acc v = (v, acc).
Proof.
  intros H. apply scan_digits_stop. destruct acc; [exact I | apply H].
Qed.

Lemma scan_unsigned_print (n : Z) (acc : string) :
  0 <= n -> no_digit_head acc ->
  scan_unsigned 10 (print_unsigned n acc) = Some (n, acc).
Proof.
  intros Hn Hacc.
  assert (Hhead : exists d rest, 0 <= d <= 9 /\
                    print_unsigned n acc = String (digit_char d) rest).
  { destruct (Z.eq_dec n 0) as [-> | Hne].
    - exists 0, acc. split; [lia | reflexivity].
    - destruct (print_unsigned_head n acc ltac:(lia)) as (d & rest & Hd & E).
      exists d, rest. split; [lia | exact E]. }
  destruct Hhead as (d & rest & Hd & E).
  unfold scan_unsigned. rewrite E. rewrite digit_val_char by exact Hd.
  rewrite <- E, scan_print_unsigned by exact Hn.
  now rewrite no_digit_head_stop.
Qed.

Lemma digit_val_octal_none (c : ascii) :
  digit_val 10 c = None -> digit_val 8 c = None.
Proof.
  unfold digit_val.
  destruct (if (48 <=? code c) && (code c <=? 57) then code c - 48
            else if (97 <=? code c) && (code c <=? 102) then code c - 87
            else if (65 <=? code c) && (code c <=? 70) then code c - 55 else 16)
    as [| p | p] eqn:E.
  - discriminate.
  - destruct (Z.ltb_spec (Z.pos p) 10); [discriminate |].
    destruct (Z.ltb_spec (Z.pos p) 8); [lia | reflexivity].
  - discriminate.
Qed.

Lemma scan_prefixed_zero (acc : string) :
  no_digit_head acc -> scan_prefixed (String "0" acc) = Some (0, acc).
Proof.
  intros Hacc.
  assert (Hoct : scan_unsigned 8 (String "0" acc) = Some (0, acc)).
  { unfold scan_unsigned.
    change (digit_val 8 "0") with (Some 0). cbn [scan_digits].
    change (digit_val 8 "0") with (Some 0). cbn [Z.mul Z.add].
    f_equal. apply scan_digits_stop.
    destruct acc as [| c rest]; [exact I |].
    apply digit_val_octal_none, Hacc. }
  destruct acc as [| x [| h rest]]; try exact Hoct.
  cbn [scan_prefixed]. destruct Hacc as [_ Hx]. rewrite Hx. cbn [andb].
  exact Hoct.
Qed.

Lemma scan_prefixed_print (n : Z) (acc : string) :
  0 <= n -> no_digit_head acc ->
  scan_prefixed (print_unsigned n acc) = Some (n, acc).
Proof.
  intros Hn Hacc. destruct (Z.eq_dec n 0) as [-> | Hne].
  - rewrite print_unsigned_zero. now apply scan_prefixed_zero.
  - destruct (print_unsigned_head n acc ltac:(lia)) as (d & rest & Hd & E).
    rewrite E, scan_prefixed_decimal
      by (rewrite digit_char_code by lia; lia).
    rewrite <- E. now apply scan_unsigned_print.
Qed.

(** Reading back what [print_int] wrote. *)
Lemma scan_int_print (auto_base : bool) (z : Z) (acc : string) :
  no_digit_head acc ->
  scan_int auto_base (print_int z acc) = Some (z, acc).
Proof.
  intros Hacc.
  assert (Hbody : forall n, 0 <= n ->
            (if auto_base then scan_prefixed else scan_unsigned 10)
              (print_unsigned n acc) = Some (n, acc)).
  { intros n Hn. destruct auto_base;
      [now apply scan_prefixed_print | now apply scan_unsigned_print]. }
  unfold print_int. destruct (Z.ltb_spec z 0) as [Hneg | Hpos].
  - unfold scan_int. cbn [skip_space].
    change (isspace "-") with false. cbv iota.
    rewrite Hbody by lia. f_equal. f_equal. lia.
  - assert (Hhead : exists d rest, 0 <= d <= 9 /\
                      print_unsigned z acc = String (digit_char d) rest).
    { destruct (Z.eq_dec z 0) as [-> | Hne].
      - exists 0, acc. split; [lia | reflexivity].
      - destruct (print_unsigned_head z acc ltac:(lia)) as (d & rest & Hd & E).
        exists d, rest. split; [lia | exact E]. }
    destruct Hhead as (d & rest & Hd & E).
    rewrite E, scan_int_plain.
    + rewrite <- E. now apply Hbody.
    + now apply digit_char_no_space.
    + rewrite digit_char_code by exact Hd. lia.
    + rewrite digit_char_code by exact Hd. lia.
Qed.

Lemma sscanf_I64d_print (z : Z) : sscanf_I64d (print_int z EmptyString) = Some z.
Proof. unfold sscanf_I64d. now rewrite scan_int_print. Qed.

Lemma sscanf_i_print (z : Z) : sscanf_i (print_int z EmptyString) = Some z.
Proof. unfold sscanf_i. now rewrite scan_int_print. Qed.

Lemma sscanf_i_i_print (x y : Z) :
  sscanf_i_i (print_int x (String "," (print_int y EmptyString))) = Some (x, y).
Proof.
  unfold sscanf_i_i. rewrite scan_int_print by (split; reflexivity).
  now rewrite scan_int_print.
Qed.

(** ** Reading a record back *)

Lemma chomp_point_line (p : PolygonPoint) :
  chomp (point_line p) = print_int (px p) (String "," (print_int (py p) EmptyString)).
Proof.
  unfold point_line. rewrite chomp_print_int, chomp_high by reflexivity.
  now rewrite chomp_print_int, chomp_line_end.
Qed.

Lemma load_points_lines (pts : list PolygonPoint) :
  forall tmp rest first b acc,
    exists b', load_points (length pts) tmp (map point_line pts ++ rest)
                           first b acc = Ret (acc ++ pts, b').
Proof.
  induction pts as [| p pts IH]; intros tmp rest first b acc.
  - cbn. rewrite app_nil_r. eauto.
  - cbn [length map app load_points next_line].
    rewrite chomp_point_line, sscanf_i_i_print.
    destruct (IH (print_int (px p) (String "," (print_int (py p) EmptyString)))
                 rest false (box_update first b (px p) (py p))
                 (acc ++ [mkPoint (px p) (py p)])) as [b' Hb'].
    exists b'. rewrite Hb'. f_equal. f_equal.
    rewrite <- app_assoc. cbn. now destruct p.
Qed.

(** C9: a polygon written by [save] and read by [load] comes back with the
    same vertices in the same order, the same [pointcount] and the same
    denominator. *)
Theorem load_save_round_trip (RANGE0 RANGE1 : Z) (apg old : Polygon)
  (tmp0 : string) :
  exists apg', load old tmp0 (save RANGE0 RANGE1 apg) = Ret apg' /\
               points apg' = points apg /\
               pointcount apg' = pointcount apg /\
               nenner apg' = nenner apg.
Proof.
  unfold load, save. cbn [app next_line].
  rewrite !chomp_print_int, chomp_line_end.
  rewrite sscanf_I64d_print, sscanf_i_print.
  unfold pointcount at 1.
  destruct (Z.ltb_spec (Z.of_nat (length (points apg))) 0) as [Hneg | _]; [lia |].
  unfold pointcount. rewrite Nat2Z.id.
  destruct (load_points_lines (points apg)
              (print_int (Z.of_nat (length (points apg))) EmptyString)
              [String "." line_end] true (box_of old) []) as [b' Hb'].
  rewrite Hb'. cbn [bind app].
  eexists. split; [reflexivity |]. cbn. auto.
Qed.

(** ** Malformed records *)

Lemma load_points_bad (n : nat) :
  forall tmp f first b acc (k : nat) (l : string),
    (k < n)%nat -> f !! k = Some l -> sscanf_i_i (chomp l) = None ->
    load_points n tmp f first b acc = Exit99.
Proof.
  induction n as [| n IH]; intros tmp f first b acc k l Hk Hl Hbad; [lia |].
  destruct f as [| l0 f']; [discriminate |].
  cbn [load_points next_line]. destruct k as [| k].
  - cbn in Hl. inversion Hl. subst l0. now rewrite Hbad.
  - cbn in Hl. destruct (sscanf_i_i (chomp l0)) as [[ax ay] |]; [| reflexivity].
    apply (IH _ _ _ _ _ k l); [lia | exact Hl | exact Hbad].
Qed.

(** C8, as the code has it: a point-count line or an announced point line
    that does not parse ends the run with [exit(99)]; a denominator line
    that does not parse is replaced by the default [1 << 25] and whether
    the run ends does not depend on it; the range line changes nothing of
    what the model keeps. *)
Theorem load_malformed_record (old : Polygon) (tmp0 l1 l2 l3 : string)
  (rest : list string) :
  (sscanf_i (chomp l3) = None ->
   load old tmp0 (l1 :: l2 :: l3 :: rest) = Exit99) /\
  (forall a k l,
     sscanf_i (chomp l3) = Some a -> 0 <= Z.of_nat k < a ->
     rest !! k = Some l -> sscanf_i_i (chomp l) = None ->
     load old tmp0 (l1 :: l2 :: l3 :: rest) = Exit99) /\
  (forall apg, sscanf_I64d (chomp l1) = None ->
     load old tmp0 (l1 :: l2 :: l3 :: rest) = Ret apg ->
     nenner apg = Z.shiftl 1 25) /\
  (forall l1', load old tmp0 (l1 :: l2 :: l3 :: rest) = Exit99 <->
               load old tmp0 (l1' :: l2 :: l3 :: rest) = Exit99) /\
  (forall l2', load old tmp0 (l1 :: l2' :: l3 :: rest) =
               load old tmp0 (l1 :: l2 :: l3 :: rest)).
Proof.
  unfold load. cbn [next_line]. repeat split.
  - intros ->. reflexivity.
  - intros a k l -> Hk Hl Hbad.
    destruct (Z.ltb_spec a 0); [lia |].
    rewrite (load_points_bad (Z.to_nat a) _ _ _ _ _ k l); [reflexivity | lia | auto | auto].
  - intros apg -> Hrun.
    destruct (sscanf_i (chomp l3)) as [a |]; [| discriminate].
    destruct (a <? 0); [discriminate |].
    destruct (load_points _ _ _ _ _ _) as [[pts b] | | |]; try discriminate.
    cbn [bind] in Hrun. inversion Hrun. reflexivity.
  - destruct (sscanf_i (chomp l3)) as [a |]; [| reflexivity].
    destruct (a <? 0); [discriminate |].
    destruct (load_points _ _ _ _ _ _) as [[pts b] | | |]; cbn [bind];
      (discriminate || reflexivity).
  - destruct (sscanf_i (chomp l3)) as [a |]; [| reflexivity].
    destruct (a <? 0); [discriminate |].
    destruct (load_points _ _ _ _ _ _) as [[pts b] | | |]; cbn [bind];
      (discriminate || reflexivity).
Qed.

Lemma load_malformed_record_witness :
  load empty_polygon EmptyString record_bad_count = Exit99 /\
  load empty_polygon EmptyString record_bad_point = Exit99 /\
  (forall apg, load empty_polygon EmptyString record_bad_denominator = Ret apg ->
               nenner apg = Z.shiftl 1 25).
Proof.
  split; [| split].
  - apply (proj1 (load_malformed_record empty_polygon EmptyString
                    (text_line "33554432") (text_line "-2,2,-2,2")
                    (text_line "one") [text_line "3,4"; text_line "."])).
    reflexivity.
  - apply (proj1 (proj2 (load_malformed_record empty_polygon EmptyString
                    (text_line "33554432") (text_line "-2,2,-2,2")
                    (text_line "2")
                    [text_line "3,4"; text_line "5;6"; text_line "."]))
                 2 1%nat (text_line "5;6"));
      [reflexivity | lia | reflexivity | reflexivity].
  - intros apg.
    apply (proj1 (proj2 (proj2 (load_malformed_record empty_polygon EmptyString
                    (text_line "xx") (text_line "-2,2,-2,2")
                    (text_line "1") [text_line "3,4"; text_line "."])))
                 apg).
    reflexivity.
Defined.

(** C8 as stated fails on the denominator line: this record has a
    denominator line that does not parse, and [load] returns a polygon with
    the default denominator. *)
Lemma load_accepts_bad_denominator :
  sscanf_I64d (chomp (text_line "xx")) = None /\
  load empty_polygon EmptyString record_bad_denominator =
    Ret (mkPolygon [mkPoint 3 4] 0 33554432 3 3 4 4 [0]).
Proof. split; reflexivity. Qed.

(** ** The boundary walk uses up blue pixels *)

Lemma has_colour_not_Fuel (c : Charmap) (x y v : Z) : has_colour c x y v <> Fuel.
Proof. unfold has_colour, getPoint. no_fuel. Qed.

Lemma setPoint_not_Fuel (c : Charmap) (x y v : Z) : setPoint c x y v <> Fuel.
Proof. unfold setPoint. no_fuel. Qed.

Lemma next_blue_not_Fuel (blau : Charmap) (x y : Z) : next_blue blau x y <> Fuel.
Proof. unfold next_blue, has_colour, getPoint. no_fuel. Qed.

(** What the four tests say about their answer. *)
Lemma next_blue_Some (blau : Charmap) (x y nx ny : Z) :
  next_blue blau x y = Ret (Some (nx, ny)) ->
  getPoint blau nx ny = Ret COLORBLUE /\
  ((nx = x + 1 /\ ny = y) \/
   (getPoint blau (x + 1) y <> Ret COLORBLUE /\
    ((nx = x - 1 /\ ny = y) \/ (nx = x /\ ny = y - 1) \/ (nx = x /\ ny = y + 1)))).
Proof.
  unfold next_blue. intros H.
  destruct (has_colour blau (x + 1) y COLORBLUE) as [[|] | | |] eqn:E1;
    try discriminate; cbn [bind] in H.
  { inversion H. subst. apply has_colour_true in E1. tauto. }
  apply has_colour_false in E1.
  destruct (has_colour blau (x - 1) y COLORBLUE) as [[|] | | |] eqn:E2;
    try discriminate; cbn [bind] in H.
  { inversion H. subst. apply has_colour_true in E2. tauto. }
  destruct (has_colour blau x (y - 1) COLORBLUE) as [[|] | | |] eqn:E3;
    try discriminate; cbn [bind] in H.
  { inversion H. subst. apply has_colour_true in E3. tauto. }
  destruct (has_colour blau x (y + 1) COLORBLUE) as [[|] | | |] eqn:E4;
    try discriminate; cbn [bind] in H.
  inversion H. subst. apply has_colour_true in E4. tauto.
Qed.

Lemma mark_count (blau blau' : Charmap) (x y : Z) :
  getPoint blau x y = Ret COLORBLUE ->
  setPoint blau x y COLORYELLOW = Ret blau' ->
  S (count_colour COLORBLUE (cmp blau')) = count_colour COLORBLUE (cmp blau).
Proof.
  intros Hget Hset.
  apply (setPoint_count blau blau' x y COLORBLUE COLORYELLOW Hget); [discriminate | exact Hset].
Qed.

Lemma walk_ends (plane : Z -> Z) (sx sy : Z) :
  forall (fuel : nat) (blau : Charmap) (p1 : Polygon) (aktx akty : Z),
    (count_colour COLORBLUE (cmp blau) < fuel)%nat ->
    walk fuel plane blau p1 sx sy aktx akty <> Fuel.
Proof.
  induction fuel as [| fuel IH]; intros blau p1 aktx akty Hcount; [lia |].
  cbn [walk]. destruct (_ && _); [discriminate |].
  destruct (next_blue blau aktx akty) as [[[nx ny] |] | | |] eqn:Hn;
    cbn [bind]; try discriminate.
  - apply next_blue_Some in Hn as [Hblue _].
    destruct (setPoint blau nx ny COLORYELLOW) as [blau' | | |] eqn:Hset;
      cbn [bind]; try discriminate.
    + apply IH. pose proof (mark_count _ _ _ _ Hblue Hset). lia.
    + exfalso. exact (setPoint_not_Fuel _ _ _ _ Hset).
  - exfalso. exact (next_blue_not_Fuel _ _ _ Hn).
Qed.

Lemma walk_count (plane : Z -> Z) (sx sy : Z) :
  forall (fuel : nat) (blau : Charmap) (p1 : Polygon) (aktx akty : Z)
         (blau' : Charmap) (p' : Polygon),
    walk fuel plane blau p1 sx sy aktx akty = Ret (blau', p') ->
    (count_colour COLORBLUE (cmp blau') <= count_colour COLORBLUE (cmp blau))%nat.
Proof.
  induction fuel as [| fuel IH]; intros blau p1 aktx akty blau' p' Hrun;
    [discriminate |].
  cbn [walk] in Hrun. destruct (_ && _); [inversion Hrun; subst; lia |].
  destruct (next_blue blau aktx akty) as [[[nx ny] |] | | |] eqn:Hn;
    cbn [bind] in Hrun; try discriminate.
  apply next_blue_Some in Hn as [Hblue _].
  destruct (setPoint blau nx ny COLORYELLOW) as [blau1 | | |] eqn:Hset;
    cbn [bind] in Hrun; try discriminate.
  apply IH in Hrun. pose proof (mark_count _ _ _ _ Hblue Hset). lia.
Qed.

(** ** The seam loop drops a vertex per turn *)

Lemma wr_length {A : Type} (l l' : list A) (i : Z) (v : A) :
  wr l i v = Ret l' -> length l' = length l.
Proof. intros H. apply wr_Ret in H as [_ ->]. apply length_insert. Qed.

(** Name the value of the next read or write, or close the goal when it
    did not succeed. *)
Ltac bind_step E :=
  match goal with
  | |- bind ?m _ <> Fuel =>
    destruct m eqn:E; cbn [bind];
    [ | discriminate | discriminate
      | exfalso; first [exact (rd_not_Fuel _ _ E) | exact (wr_not_Fuel _ _ _ E)] ]
  end.

Lemma trim_loop_not_Fuel :
  forall (fuel : nat) (pts : list PolygonPoint),
    (length pts < fuel)%nat -> trim_loop fuel pts <> Fuel.
Proof.
  induction fuel as [| fuel IH]; intros pts Hlen; [lia |].
  cbn [trim_loop]. rewrite Z.geb_leb.
  destruct (Z.leb_spec 3 (Z.of_nat (length pts))); [| discriminate].
  bind_step Ep0. bind_step Ep1. bind_step Epl.
  destruct (seam_colinear _ _ _); [| discriminate].
  bind_step Eq1. bind_step Ea0. bind_step W2. bind_step Eq2. bind_step Ea1.
  bind_step W3.
  apply IH. rewrite (wr_length _ _ _ _ W3), (wr_length _ _ _ _ W2).
  rewrite length_take. lia.
Qed.

Lemma find_in_row_not_Fuel (blau : Charmap) (y : Z) (n : nat) :
  forall x, find_in_row n blau x y <> Fuel.
Proof.
  induction n as [| n IH]; intros x; cbn; [discriminate |].
  apply bind_not_Fuel; [apply has_colour_not_Fuel | intros [|]];
    [discriminate | apply IH].
Qed.

Lemma find_start_not_Fuel (blau : Charmap) : find_start blau <> Fuel.
Proof.
  unfold find_start. generalize 0. generalize (Z.to_nat (ylen blau)).
  induction n as [| n IH]; intros y; cbn [find_rows]; [discriminate |].
  apply bind_not_Fuel; [apply find_in_row_not_Fuel | intros [x |]];
    [discriminate | apply IH].
Qed.

(** ** What [add] does to the vertex list *)

Lemma zget_nat {A : Type} (l : list A) (i : Z) :
  0 <= i -> zget l i = l !! Z.to_nat i.
Proof. intros Hi. unfold zget. destruct (Z.ltb_spec i 0); [lia | reflexivity]. Qed.

Lemma add_cases (apg : Polygon) (ax ay : Z) :
  let pts := points apg in
  let v := mkPoint ax ay in
  ((length pts < 2)%nat /\ points (add apg ax ay) = pts ++ [v]) \/
  (exists A B,
     (2 <= length pts)%nat /\
     pts !! (length pts - 2)%nat = Some A /\
     pts !! (length pts - 1)%nat = Some B /\
     ((colinear_new A B v = true /\
       points (add apg ax ay) = <[(length pts - 1)%nat := v]> pts) \/
      (colinear_new A B v = false /\
       points (add apg ax ay) = pts ++ [v]))).
Proof.
  intros pts v. unfold add, pointcount. fold pts. rewrite Z.geb_leb.
  destruct (Z.leb_spec 2 (Z.of_nat (length pts))) as [Hge | Hlt].
  - right.
    destruct (lookup_lt_is_Some_2 pts (length pts - 2)%nat) as [A HA]; [lia |].
    destruct (lookup_lt_is_Some_2 pts (length pts - 1)%nat) as [B HB]; [lia |].
    exists A, B. split; [lia |]. split; [exact HA |]. split; [exact HB |].
    rewrite !zget_nat by lia.
    replace (Z.to_nat (Z.of_nat (length pts) - 1)) with (length pts - 1)%nat by lia.
    replace (Z.to_nat (Z.of_nat (length pts) - 2)) with (length pts - 2)%nat by lia.
    rewrite HA, HB. unfold colinear_new. cbn [px py v].
    destruct ((ax =? px B) && (ax =? px A)); cbn [orb].
    + left. split; reflexivity.
    + destruct ((ay =? py B) && (ay =? py A)).
      * left. split; reflexivity.
      * right. split; reflexivity.
  - left. split; [lia | reflexivity].
Qed.

Lemma colinear_new_col3 (A B v : PolygonPoint) :
  colinear_new A B v = true <-> col3 A B v.
Proof.
  unfold colinear_new, col3.
  rewrite orb_true_iff, !andb_true_iff, !Z.eqb_eq. lia.
Qed.

Lemma vertex_inj (plane : Z -> Z) (x y x' y' : Z) :
  injective plane -> vertex plane x y = vertex plane x' y' -> x = x' /\ y = y'.
Proof.
  intros Hinj H. inversion H. split; now apply Hinj.
Qed.

(** ** Blue and dead pixels *)

Lemma getPoint_zget (c : Charmap) (x y v : Z) :
  getPoint c x y = Ret v <-> zget (cmp c) (y * xlen c + x) = Some v.
Proof. unfold getPoint. apply rd_Ret. Qed.

Lemma dead_not_blue (blau : Charmap) (x y : Z) :
  dead blau x y -> getPoint blau x y <> Ret COLORBLUE.
Proof. intros (c & Hc & Hne) H. rewrite H in Hc. inversion Hc. congruence. Qed.

Lemma dead_mark (blau blau' : Charmap) (x y nx ny : Z) :
  setPoint blau nx ny COLORYELLOW = Ret blau' ->
  dead blau x y -> dead blau' x y.
Proof.
  intros Hset (c & Hc & Hne).
  destruct (Z.eq_dec (y * xlen blau + x) (ny * xlen blau + nx)) as [Heq | Hneq].
  - exists COLORYELLOW. split; [| discriminate].
    pose proof (getPoint_set_same _ _ _ _ _ Hset) as Hget.
    pose proof (setPoint_Ret _ _ _ _ _ Hset) as (_ & Hx & _).
    unfold getPoint in *. rewrite Hx in *. rewrite Heq. exact Hget.
  - exists c. split; [| exact Hne].
    rewrite (getPoint_set_other _ _ _ _ _ _ _ Hset Hneq). exact Hc.
Qed.

Lemma marked_dead (blau blau' : Charmap) (nx ny : Z) :
  setPoint blau nx ny COLORYELLOW = Ret blau' -> dead blau' nx ny.
Proof.
  intros Hset. exists COLORYELLOW. split; [| discriminate].
  exact (getPoint_set_same _ _ _ _ _ Hset).
Qed.

Lemma blue_mark (blau blau' : Charmap) (nx ny i : Z) :
  setPoint blau nx ny COLORYELLOW = Ret blau' ->
  zget (cmp blau') i = Some COLORBLUE -> zget (cmp blau) i = Some COLORBLUE.
Proof.
  intros Hset Hblue.
  pose proof (setPoint_Ret _ _ _ _ _ Hset) as (Hr & _ & _ & Hcmp).
  rewrite Hcmp in Hblue.
  destruct (Z.eq_dec i (ny * xlen blau + nx)) as [-> | Hne].
  - rewrite zget_insert_eq in Hblue by exact Hr. discriminate.
  - destruct (Z.lt_ge_cases i 0) as [Hneg | Hpos].
    + unfold zget in Hblue. destruct (Z.ltb_spec i 0); [discriminate | lia].
    + rewrite zget_insert_ne in Hblue by lia. exact Hblue.
Qed.

(** ** One step of the walk keeps its invariant *)

Lemma lookup_snoc {A : Type} (l : list A) (v w : A) (i : nat) :
  (l ++ [v]) !! i = Some w ->
  ((i < length l)%nat /\ l !! i = Some w) \/ (i = length l /\ w = v).
Proof.
  intros H. destruct (Nat.lt_ge_cases i (length l)) as [Hlt | Hge].
  - left. split; [exact Hlt |]. now rewrite lookup_app_l in H.
  - right. rewrite lookup_app_r in H by exact Hge.
    destruct (i - length l)%nat as [| j] eqn:E; cbn in H; [| discriminate].
    inversion H. split; [lia | reflexivity].
Qed.

Lemma lookup_snoc_old {A : Type} (l : list A) (v : A) (i : nat) :
  (i < length l)%nat -> (l ++ [v]) !! i = l !! i.
Proof. intros H. now apply lookup_app_l. Qed.

Lemma lookup_snoc_new {A : Type} (l : list A) (v : A) :
  (l ++ [v]) !! length l = Some v.
Proof. rewrite lookup_app_r by lia. now rewrite Nat.sub_diag. Qed.

Lemma lookup_put {A : Type} (l : list A) (v w : A) (i j : nat) :
  (j < length l)%nat ->
  (<[j := v]> l) !! i = Some w ->
  (i <> j /\ l !! i = Some w) \/ (i = j /\ w = v).
Proof.
  intros Hj H. destruct (Nat.eq_dec i j) as [-> | Hne].
  - right. rewrite list_lookup_insert_eq in H by exact Hj.
    inversion H. split; reflexivity.
  - left. split; [exact Hne |]. now rewrite list_lookup_insert_ne in H by auto.
Qed.

Section WalkStep.

Variables (plane : Z -> Z) (blau0 : Charmap) (sx sy : Z) (horiz : bool).
Variables (blau : Charmap) (apg : Polygon) (aktx akty nx ny : Z).
Variable blau' : Charmap.

Hypothesis plane_inj : injective plane.
Hypothesis start_first : first_blue blau0 sx sy.
Hypothesis start_vertical :
  horiz = false -> getPoint blau0 (sx + 1) sy <> Ret COLORBLUE.
Hypothesis inv : walk_inv plane blau0 sx sy horiz blau (points apg) aktx akty.
Hypothesis not_back : ~ (aktx = sx /\ akty = sy).
Hypothesis found : next_blue blau aktx akty = Ret (Some (nx, ny)).
Hypothesis marked : setPoint blau nx ny COLORYELLOW = Ret blau'.

Let pts := points apg.
Let v := vertex plane nx ny.
Let pts' := points (POLYGONADD plane apg nx ny).

Lemma step_blue : getPoint blau nx ny = Ret COLORBLUE.
Proof. exact (proj1 (next_blue_Some _ _ _ _ _ found)). Qed.

Lemma step_near :
  (nx = aktx + 1 /\ ny = akty) \/ (nx = aktx - 1 /\ ny = akty) \/
  (nx = aktx /\ ny = akty - 1) \/ (nx = aktx /\ ny = akty + 1).
Proof. destruct (next_blue_Some _ _ _ _ _ found) as [_ H]. tauto. Qed.

Lemma step_blue0 : getPoint blau0 nx ny = Ret COLORBLUE.
Proof.
  pose proof step_blue as H. apply getPoint_zget in H.
  rewrite (wi_xlen _ _ _ _ _ _ _ _ _ inv) in H.
  apply getPoint_zget. now apply (wi_mono _ _ _ _ _ _ _ _ _ inv).
Qed.

(** A vertex after the first one is never the new pixel. *)
Lemma step_fresh (i : nat) :
  (1 <= i)%nat -> pts !! i = Some v -> False.
Proof.
  intros Hi Hv.
  destruct (wi_dead _ _ _ _ _ _ _ _ _ inv i v Hi Hv) as (x & y & Hxy & Hdead).
  apply (vertex_inj plane nx ny x y plane_inj) in Hxy as [Hx Hy].
  rewrite <- Hx, <- Hy in Hdead.
  exact (dead_not_blue _ _ _ Hdead step_blue).
Qed.

(** The two ways [add] can go. *)
Lemma step_shape :
  exists A,
    pts !! (length pts - 2)%nat = Some A /\
    ((col3 A (vertex plane aktx akty) v /\
      pts' = <[(length pts - 1)%nat := v]> pts) \/
     (~ col3 A (vertex plane aktx akty) v /\ pts' = pts ++ [v])).
Proof.
  pose proof (wi_len _ _ _ _ _ _ _ _ _ inv) as Hlen.
  pose proof (wi_last _ _ _ _ _ _ _ _ _ inv) as Hlast.
  pose proof (add_cases apg (plane nx) (plane ny)) as Hc. cbv zeta in Hc.
  unfold pts, pts', v, POLYGONADD, vertex in *.
  destruct Hc as [[Hshort _] | (A & B & _ & HA & HB & Hcase)]; [lia |].
  rewrite Hlast in HB. inversion HB. subst B.
  exists A. split; [exact HA |].
  destruct Hcase as [[Hcol Hpts] | [Hcol Hpts]]; [left | right];
    (split; [| exact Hpts]).
  - now apply colinear_new_col3.
  - intros H. apply colinear_new_col3 in H. congruence.
Qed.

Lemma point_eq (a b : PolygonPoint) : px a = px b -> py a = py b -> a = b.
Proof. destruct a, b. cbn. intros -> ->. reflexivity. Qed.

Lemma step_free (i : nat) (a b c : PolygonPoint) :
  pts' !! i = Some a -> pts' !! (i + 1)%nat = Some b ->
  pts' !! (i + 2)%nat = Some c -> ~ col3 a b c.
Proof.
  pose proof (wi_len _ _ _ _ _ _ _ _ _ inv) as Hlen.
  pose proof (wi_last _ _ _ _ _ _ _ _ _ inv) as Hlast.
  pose proof (wi_free _ _ _ _ _ _ _ _ _ inv) as Hfree.
  fold pts in Hlen, Hlast, Hfree.
  destruct step_shape as (A & HA & [[Hcol Hp] | [Hcol Hp]]); rewrite Hp;
    intros Ha Hb Hc.
  - apply lookup_put in Ha as [[Hia Ha] | [Hia _]]; [| | lia].
    2: { apply lookup_lt_Some in Hc. rewrite length_insert in Hc. lia. }
    apply lookup_put in Hb as [[Hib Hb] | [Hib _]]; [| | lia].
    2: { apply lookup_lt_Some in Hc. rewrite length_insert in Hc. lia. }
    apply lookup_put in Hc as [[Hic Hc] | [Hic ->]]; [| | lia].
    + exact (Hfree i a b c Ha Hb Hc).
    + assert (HA' : pts !! (i + 1)%nat = Some A)
        by (replace (i + 1)%nat with (length pts - 2)%nat by lia; exact HA).
      rewrite HA' in Hb. inversion Hb. subst b.
      replace (length pts - 1)%nat with (i + 2)%nat in Hlast by lia.
      pose proof (Hfree i a A _ Ha HA' Hlast) as Hold.
      intros Hnew. apply Hold.
      assert (Hne : A <> v).
      { intros ->. apply (step_fresh (length pts - 2)%nat); [lia | exact HA]. }
      unfold col3 in *.
      destruct Hcol as [[C1 C2] | [C1 C2]]; destruct Hnew as [[N1 N2] | [N1 N2]].
      * left. split; congruence.
      * exfalso. apply Hne. apply point_eq; congruence.
      * exfalso. apply Hne. apply point_eq; congruence.
      * right. split; congruence.
  - apply lookup_snoc in Hc as [[Hic Hc] | [Hic ->]].
    + rewrite lookup_snoc_old in Ha, Hb by lia.
      exact (Hfree i a b c Ha Hb Hc).
    + rewrite lookup_snoc_old in Ha, Hb by lia.
      replace i with (length pts - 2)%nat in Ha by lia.
      replace (i + 1)%nat with (length pts - 1)%nat in Hb by lia.
      rewrite HA in Ha. rewrite Hlast in Hb. inversion Ha. inversion Hb.
      subst. exact Hcol.
Qed.

Lemma step_second :
  exists k, pts' !! 1%nat =
              Some (vertex plane (fst (along horiz sx sy k))
                                 (snd (along horiz sx sy k))) /\
            ((3 <= length pts')%nat -> k <> 0).
Proof.
  pose proof (wi_len _ _ _ _ _ _ _ _ _ inv) as Hlen.
  pose proof (wi_last _ _ _ _ _ _ _ _ _ inv) as Hlast.
  pose proof (wi_first _ _ _ _ _ _ _ _ _ inv) as Hfirst.
  destruct (wi_second _ _ _ _ _ _ _ _ _ inv) as (k & Hk & Hk0).
  fold pts in Hlen, Hlast, Hfirst, Hk, Hk0.
  destruct step_shape as (A & HA & Hshape).
  destruct (Nat.eq_dec (length pts) 2%nat) as [Htwo | Hmore].
  - rewrite Htwo in HA, Hlast, Hshape. cbn in HA, Hlast, Hshape.
    rewrite Hlast in Hk. inversion Hk as [[Hkx Hky]].
    apply plane_inj in Hkx, Hky.
    rewrite Hfirst in HA. inversion HA. subst A.
    assert (Hknz : k <> 0).
    { intros ->. apply not_back. unfold along in Hkx, Hky.
      destruct horiz; cbn in Hkx, Hky; lia. }
    destruct Hshape as [[Hcol Hp] | [Hcol Hp]]; rewrite Hp.
    + unfold col3, vertex in Hcol. cbn [px py] in Hcol.
      unfold along in *. destruct horiz; cbn [fst snd] in *.
      * exists (nx - sx). split; [| rewrite length_insert; lia].
        rewrite list_lookup_insert_eq by lia. unfold v, vertex.
        destruct Hcol as [[C1 C2] | [C1 C2]];
          apply plane_inj in C1, C2; [lia |].
        do 2 f_equal; f_equal; lia.
      * exists (ny - sy). split; [| rewrite length_insert; lia].
        rewrite list_lookup_insert_eq by lia. unfold v, vertex.
        destruct Hcol as [[C1 C2] | [C1 C2]];
          apply plane_inj in C1, C2; [| lia].
        do 2 f_equal; f_equal; lia.
    + exists k. split; [| intros _; exact Hknz].
      rewrite lookup_snoc_old by lia. rewrite <- Hk. exact Hlast.
  - exists k. split; [| intros _; apply Hk0; lia].
    destruct Hshape as [[Hcol Hp] | [Hcol Hp]]; rewrite Hp.
    + rewrite list_lookup_insert_ne by lia. exact Hk.
    + rewrite lookup_snoc_old by lia. exact Hk.
Qed.

Lemma step_seam :
  nx = sx -> ny = sy -> (3 <= length pts')%nat ->
  forall p0 p1 pl,
    pts' !! 0%nat = Some p0 -> pts' !! 1%nat = Some p1 ->
    pts' !! (length pts' - 2)%nat = Some pl ->
    seam_colinear p0 p1 pl = false.
Proof.
  intros Hx Hy Hlen' p0 p1 pl H0 H1 Hl.
  pose proof (wi_len _ _ _ _ _ _ _ _ _ inv) as Hlen.
  pose proof (wi_last _ _ _ _ _ _ _ _ _ inv) as Hlast.
  pose proof (wi_first _ _ _ _ _ _ _ _ _ inv) as Hfirst.
  pose proof (wi_akt _ _ _ _ _ _ _ _ _ inv) as Hakt.
  pose proof (wi_early _ _ _ _ _ _ _ _ _ inv) as Hearly.
  destruct (wi_second _ _ _ _ _ _ _ _ _ inv) as (k & Hk & Hk0).
  fold pts in Hlen, Hlast, Hfirst, Hk, Hk0, Hearly.
  destruct start_first as (_ & Hxl & Hmin).
  destruct step_shape as (A & HA & Hshape).
  (* where the walk comes from *)
  assert (Hfrom : (aktx = sx + 1 /\ akty = sy) \/ (aktx = sx /\ akty = sy + 1)).
  { destruct step_near as [[E1 E2] | [[E1 E2] | [[E1 E2] | [E1 E2]]]].
    - exfalso. apply (Hmin aktx akty); [nia | exact Hakt].
    - left. lia.
    - right. lia.
    - exfalso. apply (Hmin aktx akty); [nia | exact Hakt]. }
  (* the first step of the walk is not the last one *)
  assert (Hlate : (aktx, akty) <> along horiz sx sy 1).
  { intros Heq. specialize (Hearly Heq).
    rewrite Hearly in HA, Hshape. cbn in HA, Hshape.
    rewrite Hfirst in HA. inversion HA. subst A.
    destruct Hshape as [[_ Hp] | [Hcol Hp]].
    - fold pts' in Hp. rewrite Hp, length_insert in Hlen'. lia.
    - apply Hcol. unfold col3, v, vertex, along in *. cbn [px py].
      rewrite Hx, Hy. destruct horiz; inversion Heq; subst; [right | left];
        split; reflexivity. }
  assert (Hcase : horiz = true /\ aktx = sx /\ akty = sy + 1).
  { destruct horiz.
    - destruct Hfrom as [[E1 E2] | [E1 E2]]; [| tauto].
      exfalso. apply Hlate. unfold along. now rewrite E1, E2.
    - destruct Hfrom as [[E1 E2] | [E1 E2]].
      + exfalso. apply (start_vertical eq_refl). now rewrite <- E1, <- E2.
      + exfalso. apply Hlate. unfold along. now rewrite E1, E2. }
  destruct Hcase as (Hh & Eax & Eay).
  rewrite Hh in Hk. unfold along in Hk. cbn [fst snd] in Hk.
  (* the walk has turned at least once *)
  assert (Hthree : (3 <= length pts)%nat).
  { destruct (Nat.eq_dec (length pts) 2%nat) as [Htwo | Hmore]; [| lia].
    exfalso. rewrite Htwo in Hlast. cbn in Hlast. rewrite Hlast in Hk.
    inversion Hk as [[Hkx Hky]]. apply plane_inj in Hky. lia. }
  specialize (Hk0 Hthree).
  assert (H1' : pts !! 1%nat = Some p1).
  { destruct Hshape as [[_ Hp] | [_ Hp]]; fold pts' in Hp; rewrite Hp in H1.
    - now rewrite list_lookup_insert_ne in H1 by lia.
    - now rewrite lookup_snoc_old in H1 by lia. }
  assert (H0' : pts !! 0%nat = Some p0).
  { destruct Hshape as [[_ Hp] | [_ Hp]]; fold pts' in Hp; rewrite Hp in H0.
    - now rewrite list_lookup_insert_ne in H0 by lia.
    - now rewrite lookup_snoc_old in H0 by lia. }
  rewrite Hfirst in H0'. inversion H0'. subst p0.
  rewrite Hk in H1'. inversion H1'. subst p1.
  unfold seam_colinear, vertex. cbn [px py].
  replace (plane sx =? plane (sx + k)) with false
    by (symmetry; apply Z.eqb_neq; intros E; apply plane_inj in E; lia).
  rewrite Z.eqb_refl. cbn [andb orb].
  apply Z.eqb_neq. intros Epl.
  destruct Hshape as [[Hcol Hp] | [Hcol Hp]]; fold pts' in Hp; rewrite Hp in Hl.
  - rewrite length_insert in Hl.
    rewrite list_lookup_insert_ne in Hl by lia.
    rewrite HA in Hl. inversion Hl. subst pl.
    apply (step_fresh (length pts - 2)%nat); [lia |].
    rewrite HA. f_equal. unfold v. rewrite Hx, Hy.
    unfold col3, v, vertex in Hcol. cbn [px py] in Hcol.
    rewrite Eax, Eay, Hx, Hy in Hcol.
    apply point_eq; cbn [px py vertex].
    + destruct Hcol as [[C1 C2] | [C1 C2]]; [congruence |].
      apply plane_inj in C2. lia.
    + symmetry. exact Epl.
  - rewrite length_app in Hl. cbn [length] in Hl.
    replace (length pts + 1 - 2)%nat with (length pts - 1)%nat in Hl by lia.
    rewrite lookup_snoc_old in Hl by lia.
    rewrite Hlast in Hl. inversion Hl. subst pl.
    cbn [py vertex] in Epl. apply plane_inj in Epl. lia.
Qed.

Lemma step_inv : walk_inv plane blau0 sx sy horiz blau' pts' nx ny.
Proof.
  pose proof (wi_len _ _ _ _ _ _ _ _ _ inv) as Hlen.
  pose proof (wi_last _ _ _ _ _ _ _ _ _ inv) as Hlast.
  pose proof (wi_first _ _ _ _ _ _ _ _ _ inv) as Hfirst.
  pose proof (wi_dead _ _ _ _ _ _ _ _ _ inv) as Hdead.
  fold pts in Hlen, Hlast, Hfirst, Hdead.
  pose proof (setPoint_Ret _ _ _ _ _ marked) as (_ & Hxl & _ & _).
  destruct step_shape as (A & HA & Hshape).
  constructor.
  - destruct Hshape as [[_ Hp] | [_ Hp]]; rewrite Hp.
    + now rewrite list_lookup_insert_ne by lia.
    + now rewrite lookup_snoc_old by lia.
  - destruct Hshape as [[_ Hp] | [_ Hp]]; rewrite Hp.
    + rewrite length_insert. lia.
    + rewrite length_app. cbn. lia.
  - destruct Hshape as [[_ Hp] | [_ Hp]]; rewrite Hp.
    + rewrite length_insert. apply list_lookup_insert_eq. lia.
    + rewrite length_app. cbn [length].
      replace (length pts + 1 - 1)%nat with (length pts) by lia.
      apply lookup_snoc_new.
  - intros i w Hi Hw.
    assert (Hold : pts !! i = Some w \/ w = v).
    { destruct Hshape as [[_ Hp] | [_ Hp]]; rewrite Hp in Hw.
      - apply lookup_put in Hw as [[_ H] | [_ H]]; [tauto | tauto | lia].
      - apply lookup_snoc in Hw as [[_ H] | [_ H]]; tauto. }
    destruct Hold as [Hold | ->].
    + destruct (Hdead i w Hi Hold) as (x & y & Hxy & Hd).
      exists x, y. split; [exact Hxy |]. exact (dead_mark _ _ _ _ _ _ marked Hd).
    + exists nx, ny. split; [reflexivity |]. exact (marked_dead _ _ _ _ marked).
  - exact step_free.
  - exact step_second.
  - rewrite Hxl. exact (wi_xlen _ _ _ _ _ _ _ _ _ inv).
  - intros i Hi. apply (wi_mono _ _ _ _ _ _ _ _ _ inv).
    exact (blue_mark _ _ _ _ _ marked Hi).
  - exact step_blue0.
  - exact (dead_mark _ _ _ _ _ _ marked (wi_step1 _ _ _ _ _ _ _ _ _ inv)).
  - intros Heq. exfalso.
    pose proof (wi_step1 _ _ _ _ _ _ _ _ _ inv) as Hd.
    rewrite <- Heq in Hd. cbn [fst snd] in Hd.
    exact (dead_not_blue _ _ _ Hd step_blue).
  - exact step_seam.
Qed.

End WalkStep.

(** ** The whole walk *)

Lemma walk_keeps_inv (plane : Z -> Z) (blau0 : Charmap) (sx sy : Z)
  (horiz : bool) :
  injective plane -> first_blue blau0 sx sy ->
  (horiz = false -> getPoint blau0 (sx + 1) sy <> Ret COLORBLUE) ->
  forall (fuel : nat) (blau : Charmap) (apg : Polygon) (aktx akty : Z)
         (blau' : Charmap) (apg' : Polygon),
    walk_inv plane blau0 sx sy horiz blau (points apg) aktx akty ->
    walk fuel plane blau apg sx sy aktx akty = Ret (blau', apg') ->
    walk_inv plane blau0 sx sy horiz blau' (points apg') sx sy.
Proof.
  intros Hinj Hfirst Hvert.
  induction fuel as [| fuel IH]; intros blau apg aktx akty blau' apg' Hinv Hrun;
    [discriminate |].
  cbn [walk] in Hrun.
  destruct (Z.eqb_spec aktx sx) as [Ex | Ex];
    [destruct (Z.eqb_spec akty sy) as [Ey | Ey] |]; cbn [andb] in Hrun.
  - inversion Hrun. subst. exact Hinv.
  - destruct (next_blue blau aktx akty) as [[[nx ny] |] | | |] eqn:Hn;
      cbn [bind] in Hrun; try discriminate.
    destruct (setPoint blau nx ny COLORYELLOW) as [blau1 | | |] eqn:Hset;
      cbn [bind] in Hrun; try discriminate.
    apply (IH _ _ _ _ _ _ (step_inv plane blau0 sx sy horiz blau apg aktx akty
                             nx ny blau1 Hinj Hfirst Hvert Hinv ltac:(tauto)
                             Hn Hset) Hrun).
  - destruct (next_blue blau aktx akty) as [[[nx ny] |] | | |] eqn:Hn;
      cbn [bind] in Hrun; try discriminate.
    destruct (setPoint blau nx ny COLORYELLOW) as [blau1 | | |] eqn:Hset;
      cbn [bind] in Hrun; try discriminate.
    apply (IH _ _ _ _ _ _ (step_inv plane blau0 sx sy horiz blau apg aktx akty
                             nx ny blau1 Hinj Hfirst Hvert Hinv ltac:(tauto)
                             Hn Hset) Hrun).
Qed.

(** ** Where the walk starts *)

Lemma find_in_row_Ret (blau : Charmap) (y : Z) :
  forall (n : nat) (x : Z) (r : option Z),
    find_in_row n blau x y = Ret r ->
    match r with
    | Some s =>
      x <= s < x + Z.of_nat n /\ getPoint blau s y = Ret COLORBLUE /\
      forall x', x <= x' < s -> getPoint blau x' y <> Ret COLORBLUE
    | None =>
      forall x', x <= x' < x + Z.of_nat n -> getPoint blau x' y <> Ret COLORBLUE
    end.
Proof.
  induction n as [| n IH]; intros x r Hrun; cbn [find_in_row] in Hrun.
  - inversion Hrun. intros x' Hx'. lia.
  - destruct (has_colour blau x y COLORBLUE) as [[|] | | |] eqn:Hc;
      try discriminate; cbn [bind] in Hrun.
    + inversion Hrun. apply has_colour_true in Hc.
      split; [lia |]. split; [exact Hc |]. intros; lia.
    + apply has_colour_false in Hc. specialize (IH _ _ Hrun).
      destruct r as [s |].
      * destruct IH as (Hs & Hb & Hbefore). split; [lia |]. split; [exact Hb |].
        intros x' Hx'. destruct (Z.eq_dec x' x) as [-> | Hne];
          [exact Hc | apply Hbefore; lia].
      * intros x' Hx'. destruct (Z.eq_dec x' x) as [-> | Hne];
          [exact Hc | apply IH; lia].
Qed.

Lemma find_rows_Ret (blau : Charmap) :
  forall (m : nat) (y sx sy : Z),
    find_rows m blau y = Ret (Some (sx, sy)) ->
    y <= sy /\ 0 <= sx < xlen blau /\ getPoint blau sx sy = Ret COLORBLUE /\
    (forall x', 0 <= x' < sx -> getPoint blau x' sy <> Ret COLORBLUE) /\
    (forall x' y', y <= y' < sy -> 0 <= x' < xlen blau ->
                   getPoint blau x' y' <> Ret COLORBLUE).
Proof.
  induction m as [| m IH]; intros y sx sy Hrun; cbn [find_rows] in Hrun;
    [discriminate |].
  destruct (find_in_row _ blau 0 y) as [r | | |] eqn:Hrow; try discriminate.
  cbn [bind] in Hrun. apply find_in_row_Ret in Hrow. destruct r as [s |].
  - inversion Hrun. subst. destruct Hrow as (Hs & Hb & Hbefore).
    split; [lia |]. split; [lia |]. split; [exact Hb |].
    split; [intros; apply Hbefore; lia | intros; lia].
  - destruct (IH _ _ _ Hrun) as (Hy & Hsx & Hb & Hbefore & Hrows).
    split; [lia |]. split; [exact Hsx |]. split; [exact Hb |].
    split; [exact Hbefore |]. intros x' y' Hy' Hx'.
    destruct (Z.eq_dec y' y) as [-> | Hne]; [apply Hrow; lia | apply Hrows; lia].
Qed.

Lemma find_start_first (blau : Charmap) (sx sy : Z) :
  find_start blau = Ret (Some (sx, sy)) -> first_blue blau sx sy.
Proof.
  intros Hrun. apply find_rows_Ret in Hrun
    as (Hy & Hsx & Hb & Hbefore & Hrows).
  split; [exact Hb |]. split; [lia |]. intros x y Hpos.
  destruct (Z.lt_ge_cases (y * xlen blau + x) 0) as [Hneg | Hnn].
  - unfold getPoint, rd, zget.
    destruct (Z.ltb_spec (y * xlen blau + x) 0); [discriminate | lia].
  - pose proof (Z.div_mod (y * xlen blau + x) (xlen blau) ltac:(lia)) as Hdm.
    pose proof (Z.mod_pos_bound (y * xlen blau + x) (xlen blau) ltac:(lia)) as Hm.
    pose proof (Z.div_pos (y * xlen blau + x) (xlen blau) Hnn ltac:(lia)) as Hd.
    set (y' := (y * xlen blau + x) / xlen blau) in *.
    set (x' := (y * xlen blau + x) mod xlen blau) in *.
    assert (Hsame : getPoint blau x y = getPoint blau x' y').
    { unfold getPoint. f_equal. lia. }
    rewrite Hsame.
    destruct (Z.lt_trichotomy y' sy) as [Hlt | [Heq | Hgt]].
    + apply Hrows; lia.
    + rewrite Heq. apply Hbefore. nia.
    + exfalso. nia.
Qed.

(** ** The walk starts in its invariant *)

Lemma walk_starts (plane : Z -> Z) (blau0 blau1 : Charmap) (sx sy nx ny : Z) :
  first_blue blau0 sx sy ->
  next_blue blau0 sx sy = Ret (Some (nx, ny)) ->
  setPoint blau0 nx ny COLORYELLOW = Ret blau1 ->
  exists horiz,
    (horiz = false -> getPoint blau0 (sx + 1) sy <> Ret COLORBLUE) /\
    walk_inv plane blau0 sx sy horiz blau1
      (points (POLYGONADD plane (POLYGONADD plane (fresh_polygon blau0) sx sy)
                          nx ny))
      nx ny.
Proof.
  intros Hfirst Hnext Hset.
  destruct Hfirst as (Hs & Hxl & Hmin).
  destruct (next_blue_Some _ _ _ _ _ Hnext) as [Hblue Hnear].
  assert (Hdir : exists horiz,
            (nx, ny) = along horiz sx sy 1 /\
            (horiz = false -> getPoint blau0 (sx + 1) sy <> Ret COLORBLUE)).
  { destruct Hnear as [[-> ->] | [Hnot [[-> ->] | [[-> ->] | [-> ->]]]]].
    - exists true. split; [reflexivity | discriminate].
    - exfalso. apply (Hmin (sx - 1) sy); [lia | exact Hblue].
    - exfalso. apply (Hmin sx (sy - 1)); [nia | exact Hblue].
    - exists false. split; [reflexivity | intros _; exact Hnot]. }
  destruct Hdir as (horiz & Hn & Hvert). exists horiz. split; [exact Hvert |].
  assert (Hpts : points (POLYGONADD plane
                           (POLYGONADD plane (fresh_polygon blau0) sx sy) nx ny)
                 = [vertex plane sx sy; vertex plane nx ny]) by reflexivity.
  rewrite Hpts.
  pose proof (setPoint_Ret _ _ _ _ _ Hset) as (_ & Hx1 & _ & _).
  assert (Hnn : nx = fst (along horiz sx sy 1) /\ ny = snd (along horiz sx sy 1))
    by (rewrite <- Hn; split; reflexivity).
  destruct Hnn as [Hnx Hny].
  constructor; cbn [length].
  - reflexivity.
  - lia.
  - reflexivity.
  - intros i w Hi Hw. destruct i as [| [| i]]; [lia | | discriminate].
    cbn in Hw. inversion Hw. exists nx, ny. split; [reflexivity |].
    exact (marked_dead _ _ _ _ Hset).
  - intros i a b c _ _ Hc. destruct i as [| [| i]]; discriminate.
  - exists 1. split; [| lia]. cbn. now rewrite <- Hnx, <- Hny.
  - exact Hx1.
  - intros i. apply (blue_mark _ _ _ _ _ Hset).
  - exact Hblue.
  - rewrite <- Hnx, <- Hny. exact (marked_dead _ _ _ _ Hset).
  - reflexivity.
  - lia.
Qed.

(** ** After the walk: the seam loop has nothing to do *)

Lemma rd_nat {A : Type} (l : list A) (i : nat) (a : A) :
  l !! i = Some a -> rd l (Z.of_nat i) = Ret a.
Proof.
  intros H. apply rd_Ret. rewrite zget_nat by lia. now rewrite Nat2Z.id.
Qed.

Section Closed.

Variables (plane : Z -> Z) (blau0 : Charmap) (sx sy : Z) (horiz : bool).
Variables (blau : Charmap) (apg : Polygon).
Hypothesis inv : walk_inv plane blau0 sx sy horiz blau (points apg) sx sy.

Lemma closed_reads :
  exists p1 pl,
    rd (points apg) 0 = Ret (vertex plane sx sy) /\
    rd (points apg) 1 = Ret p1 /\
    rd (points apg) (pointcount apg - 2) = Ret pl /\
    rd (points apg) (pointcount apg - 1) = Ret (vertex plane sx sy) /\
    (3 <= pointcount apg ->
     seam_colinear (vertex plane sx sy) p1 pl = false).
Proof.
  pose proof (wi_len _ _ _ _ _ _ _ _ _ inv) as Hlen.
  pose proof (wi_last _ _ _ _ _ _ _ _ _ inv) as Hlast.
  pose proof (wi_first _ _ _ _ _ _ _ _ _ inv) as Hfirst.
  pose proof (wi_seam _ _ _ _ _ _ _ _ _ inv eq_refl eq_refl) as Hseam.
  destruct (lookup_lt_is_Some_2 (points apg) 1%nat) as [p1 H1]; [lia |].
  destruct (lookup_lt_is_Some_2 (points apg) (length (points apg) - 2)%nat)
    as [pl Hl]; [lia |].
  exists p1, pl. unfold pointcount.
  replace (Z.of_nat (length (points apg)) - 2)
    with (Z.of_nat (length (points apg) - 2)) by lia.
  replace (Z.of_nat (length (points apg)) - 1)
    with (Z.of_nat (length (points apg) - 1)) by lia.
  split; [exact (rd_nat _ 0%nat _ Hfirst) |].
  split; [exact (rd_nat _ 1%nat _ H1) |].
  split; [exact (rd_nat _ _ _ Hl) |].
  split; [exact (rd_nat _ _ _ Hlast) |].
  intros H3. apply Hseam; auto. lia.
Qed.

Lemma trim_nothing :
  trimColinearStart apg = Ret (with_points apg (points apg) (box_of apg)).
Proof.
  destruct closed_reads as (p1 & pl & R0 & R1 & Rl & _ & Hseam).
  unfold trimColinearStart. cbn [trim_loop]. fold (pointcount apg).
  rewrite Z.geb_leb.
  destruct (Z.leb_spec 3 (pointcount apg)) as [H3 | H3]; [| reflexivity].
  rewrite R0, R1, Rl. cbn [bind]. now rewrite (Hseam H3).
Qed.

Lemma closed_check : isClosed apg = Ret 1.
Proof.
  destruct closed_reads as (p1 & pl & R0 & _ & _ & Rlast & _).
  unfold isClosed. rewrite R0, Rlast. cbn [bind].
  now rewrite !Z.eqb_refl.
Qed.

Lemma colinear3_col3 (a b c : PolygonPoint) :
  colinear3 a b c = true <-> col3 a b c.
Proof.
  unfold colinear3, col3.
  rewrite orb_true_iff, !andb_true_iff, !Z.eqb_eq. lia.
Qed.

Lemma colinear_inside_free (pts : list PolygonPoint) :
  (forall (i : nat) a b c,
     pts !! i = Some a -> pts !! (i + 1)%nat = Some b ->
     pts !! (i + 2)%nat = Some c -> ~ col3 a b c) ->
  colinear_inside pts = false.
Proof.
  induction pts as [| a rest IH]; intros Hfree; [reflexivity |].
  cbn [colinear_inside].
  assert (Hrest : colinear_inside rest = false).
  { apply IH. intros i x y z Hx Hy Hz. exact (Hfree (S i) x y z Hx Hy Hz). }
  destruct rest as [| b [| c rest']]; try reflexivity.
  rewrite Hrest, orb_false_r.
  destruct (colinear3 a b c) eqn:E; [| reflexivity].
  apply colinear3_col3 in E. exfalso.
  exact (Hfree 0%nat a b c eq_refl eq_refl eq_refl E).
Qed.

Lemma colinear_check : 3 <= pointcount apg -> isColinearFree apg = Ret 1.
Proof.
  intros H3.
  destruct closed_reads as (p1 & pl & R0 & R1 & Rl & _ & Hseam).
  unfold isColinearFree.
  rewrite (colinear_inside_free _ (wi_free _ _ _ _ _ _ _ _ _ inv)).
  rewrite Rl, R1, R0. cbn [bind].
  specialize (Hseam H3). unfold seam_colinear in Hseam.
  apply orb_false_elim in Hseam as [Sx Sy].
  apply andb_false_iff in Sx. apply andb_false_iff in Sy.
  rewrite !Z.eqb_neq in Sx, Sy.
  replace ((px pl =? px p1) && (px (vertex plane sx sy) =? px p1)) with false.
  2: { symmetry. apply andb_false_iff. rewrite !Z.eqb_neq.
       destruct (Z.eq_dec (px (vertex plane sx sy)) (px p1)); [| tauto].
       left. intros E. destruct Sx; congruence. }
  replace ((py pl =? py p1) && (py (vertex plane sx sy) =? py p1)) with false.
  2: { symmetry. apply andb_false_iff. rewrite !Z.eqb_neq.
       destruct (Z.eq_dec (py (vertex plane sx sy)) (py p1)); [| tauto].
       left. intros E. destruct Sy; congruence. }
  reflexivity.
Qed.

End Closed.

(** ** One turn of the outer loop *)

Lemma trace_once_saved (fuel : nat) (plane : Z -> Z) (lower : Z)
  (blau blau' : Charmap) (p : Polygon) :
  injective plane ->
  trace_once fuel plane lower blau = Ret (Some (blau', Some p)) ->
  isClosed p = Ret 1 /\ (3 <= pointcount p -> isColinearFree p = Ret 1) /\
  lower < pointcount p.
Proof.
  intros Hinj Hrun. unfold trace_once in Hrun.
  destruct (find_start blau) as [[[sx sy] |] | | |] eqn:Hstart;
    cbn [bind] in Hrun; try discriminate.
  apply find_start_first in Hstart.
  destruct (next_blue blau sx sy) as [[[nx ny] |] | | |] eqn:Hnext;
    cbn [bind] in Hrun; try discriminate.
  2: { destruct (setPoint blau sx sy COLORYELLOW); cbn [bind] in Hrun;
       discriminate. }
  destruct (setPoint blau nx ny COLORYELLOW) as [blau1 | | |] eqn:Hset;
    cbn [bind] in Hrun; try discriminate.
  destruct (walk_starts plane blau blau1 sx sy nx ny Hstart Hnext Hset)
    as (horiz & Hvert & Hinv).
  destruct (walk fuel plane blau1 _ sx sy nx ny) as [[blau2 p2] | | |] eqn:Hwalk;
    cbn [bind] in Hrun; try discriminate.
  pose proof (walk_keeps_inv plane blau sx sy horiz Hinj Hstart Hvert
                _ _ _ _ _ _ _ Hinv Hwalk) as Hend.
  rewrite (trim_nothing plane blau sx sy horiz blau2 p2 Hend) in Hrun.
  cbn [bind] in Hrun. rewrite Z.gtb_ltb in Hrun.
  destruct (Z.ltb_spec lower (pointcount (with_points p2 (points p2) (box_of p2))))
    as [Hlong | Hshort]; [| discriminate].
  inversion Hrun. subst.
  split; [| split; [| exact Hlong]].
  - exact (closed_check plane blau sx sy horiz blau'
             (with_points p2 (points p2) (box_of p2)) Hend).
  - exact (colinear_check plane blau sx sy horiz blau'
             (with_points p2 (points p2) (box_of p2)) Hend).
Qed.

Lemma trace_once_count (fuel : nat) (plane : Z -> Z) (lower : Z)
  (blau blau' : Charmap) (o : option Polygon) :
  trace_once fuel plane lower blau = Ret (Some (blau', o)) ->
  (count_colour COLORBLUE (cmp blau') < count_colour COLORBLUE (cmp blau))%nat.
Proof.
  intros Hrun. unfold trace_once in Hrun.
  destruct (find_start blau) as [[[sx sy] |] | | |] eqn:Hstart;
    cbn [bind] in Hrun; try discriminate.
  apply find_start_first in Hstart. destruct Hstart as (Hs & _).
  destruct (next_blue blau sx sy) as [[[nx ny] |] | | |] eqn:Hnext;
    cbn [bind] in Hrun; try discriminate.
  - apply next_blue_Some in Hnext as [Hblue _].
    destruct (setPoint blau nx ny COLORYELLOW) as [blau1 | | |] eqn:Hset;
      cbn [bind] in Hrun; try discriminate.
    pose proof (mark_count _ _ _ _ Hblue Hset) as Hone.
    destruct (walk fuel plane blau1 _ sx sy nx ny) as [[blau2 p2] | | |] eqn:Hwalk;
      cbn [bind] in Hrun; try discriminate.
    apply walk_count in Hwalk.
    destruct (trimColinearStart p2) as [p3 | | |]; cbn [bind] in Hrun;
      try discriminate.
    destruct (pointcount p3 >? lower); inversion Hrun; subst; lia.
  - destruct (setPoint blau sx sy COLORYELLOW) as [blau1 | | |] eqn:Hset;
      cbn [bind] in Hrun; try discriminate.
    inversion Hrun. subst. pose proof (mark_count _ _ _ _ Hs Hset). lia.
Qed.

Lemma trimColinearStart_not_Fuel (apg : Polygon) : trimColinearStart apg <> Fuel.
Proof.
  unfold trimColinearStart.
  apply bind_not_Fuel; [apply trim_loop_not_Fuel; lia | discriminate].
Qed.

Lemma trace_once_not_Fuel (fuel : nat) (plane : Z -> Z) (lower : Z)
  (blau : Charmap) :
  (count_colour COLORBLUE (cmp blau) <= fuel)%nat ->
  trace_once fuel plane lower blau <> Fuel.
Proof.
  intros Hcount. unfold trace_once.
  apply bind_not_Fuel; [apply find_start_not_Fuel |].
  intros [[sx sy] |]; [| discriminate].
  destruct (next_blue blau sx sy) as [[[nx ny] |] | | |] eqn:Hnext;
    cbn [bind]; try discriminate.
  - apply next_blue_Some in Hnext as [Hblue _].
    destruct (setPoint blau nx ny COLORYELLOW) as [blau1 | | |] eqn:Hset;
      cbn [bind]; try discriminate.
    + pose proof (mark_count _ _ _ _ Hblue Hset) as Hone.
      apply bind_not_Fuel; [apply walk_ends; lia |].
      intros [blau2 p2].
      apply bind_not_Fuel; [apply trimColinearStart_not_Fuel |].
      intros p3. destruct (_ >? _); discriminate.
    + exfalso. exact (setPoint_not_Fuel _ _ _ _ Hset).
  - apply bind_not_Fuel; [apply setPoint_not_Fuel | discriminate].
  - exfalso. exact (next_blue_not_Fuel _ _ _ Hnext).
Qed.

Lemma buildPolygon_not_Fuel (plane : Z -> Z) (lower : Z) :
  forall (fuel : nat) (blau : Charmap) (saved : list Polygon),
    (count_colour COLORBLUE (cmp blau) < fuel)%nat ->
    snd (buildPolygon fuel plane lower blau saved) <> Fuel.
Proof.
  induction fuel as [| fuel IH]; intros blau saved Hcount; [lia |].
  cbn [buildPolygon].
  destruct (trace_once (S fuel) plane lower blau) as [[[blau' o] |] | | |] eqn:Ht;
    cbn [snd]; try discriminate.
  - apply trace_once_count in Ht as Hless.
    destruct o; apply IH; lia.
  - exfalso.
    exact (trace_once_not_Fuel (S fuel) plane lower blau ltac:(lia) Ht).
Qed.

Lemma buildPolygon_saved (plane : Z -> Z) (lower : Z) (P : Polygon -> Prop) :
  (forall fuel blau blau' p,
     trace_once fuel plane lower blau = Ret (Some (blau', Some p)) -> P p) ->
  forall (fuel : nat) (blau : Charmap) (saved : list Polygon),
    Forall P saved ->
    Forall P (fst (buildPolygon fuel plane lower blau saved)).
Proof.
  intros Hone. induction fuel as [| fuel IH]; intros blau saved Hsaved;
    [exact Hsaved |].
  cbn [buildPolygon].
  destruct (trace_once (S fuel) plane lower blau) as [[[blau' [p |]] |] | | |] eqn:Ht;
    cbn [fst]; try exact Hsaved.
  - apply IH. apply Forall_app. split; [exact Hsaved |].
    apply Forall_cons_2; [exact (Hone _ _ _ _ Ht) | apply Forall_nil_2].
  - apply IH. exact Hsaved.
Qed.

(** ** Claims about the boundary tracer *)

Lemma plane1024_injective : injective plane1024.
Proof. unfold injective, plane1024. intros a b H. lia. Qed.

(** C5: every polygon [buildPolygon] saves, however the run ends, passes
    the closure test of the quality control: its first vertex equals its
    last one.  The conversion of pixel coordinates is assumed to keep
    different coordinates apart. *)
Theorem traced_polygons_closed (fuel : nat) (plane : Z -> Z) (lower : Z)
  (blau : Charmap) :
  injective plane ->
  Forall (fun p => isClosed p = Ret 1)
         (fst (buildPolygon fuel plane lower blau [])).
Proof.
  intros Hinj.
  apply (buildPolygon_saved plane lower (fun p => isClosed p = Ret 1));
    [| constructor].
  intros f b b' p Ht. exact (proj1 (trace_once_saved f plane lower b b' p Hinj Ht)).
Qed.

Lemma traced_polygons_closed_witness :
  Forall (fun p => isClosed p = Ret 1) ring_polygons.
Proof.
  exact (traced_polygons_closed 20 plane1024 3 ring_canvas plane1024_injective).
Defined.

(** C4, as the code has it: every saved polygon with at least three
    vertices passes [isColinearFree], the check of all inner triples and of
    the triple around the seam; with a minimum length of 2 or more (the
    default is 24) these are all saved polygons. *)
Theorem traced_polygons_colinear_free (fuel : nat) (plane : Z -> Z)
  (lower : Z) (blau : Charmap) :
  injective plane ->
  Forall (fun p => 3 <= pointcount p -> isColinearFree p = Ret 1)
         (fst (buildPolygon fuel plane lower blau [])) /\
  (2 <= lower ->
   Forall (fun p => isColinearFree p = Ret 1)
          (fst (buildPolygon fuel plane lower blau []))).
Proof.
  intros Hinj.
  assert (Hall : Forall (fun p => (3 <= pointcount p -> isColinearFree p = Ret 1)
                                  /\ lower < pointcount p)
                        (fst (buildPolygon fuel plane lower blau []))).
  { apply (buildPolygon_saved plane lower
             (fun p => (3 <= pointcount p -> isColinearFree p = Ret 1)
                       /\ lower < pointcount p));
      [| constructor].
    intros f b b' p Ht.
    exact (proj2 (trace_once_saved f plane lower b b' p Hinj Ht)). }
  split.
  - eapply Forall_impl; [exact Hall |]. cbn. tauto.
  - intros Hlow. eapply Forall_impl; [exact Hall |]. cbn.
    intros p [Hfree Hlen]. apply Hfree. lia.
Qed.

Lemma traced_polygons_colinear_free_witness :
  Forall (fun p => 3 <= pointcount p -> isColinearFree p = Ret 1) ring_polygons /\
  (2 <= 3 -> Forall (fun p => isColinearFree p = Ret 1) ring_polygons).
Proof.
  exact (traced_polygons_colinear_free 20 plane1024 3 ring_canvas
           plane1024_injective).
Defined.

(** C4 as stated fails when the minimum length is 1: the two-by-two blue
    block yields two saved polygons of two equal vertices each, and
    [isColinearFree] rejects them. *)
Lemma degenerate_polygon_saved :
  buildPolygon 20 plane1024 1 block_canvas [] = (block_polygons, Ret 1) /\
  map points block_polygons =
    [[mkPoint (-66977792) (-66977792); mkPoint (-66977792) (-66977792)];
     [mkPoint (-66977792) (-66846720); mkPoint (-66977792) (-66846720)]] /\
  map isColinearFree block_polygons = [Ret 0; Ret 0].
Proof. repeat split; vm_compute; reflexivity. Qed.

(** The second assignment of [trimColinearStart] writes [points[1].x] where
    the comment above it announces the new start point.  On a closed
    polygon whose seam lies inside a vertical run the loop therefore
    leaves a polygon that is not closed; the walk never produces such a
    polygon, which is why the seam loop never runs a turn there. *)
Example trim_on_vertical_seam :
  trim_loop 7 [mkPoint 0 5; mkPoint 0 9; mkPoint 7 9; mkPoint 7 1;
               mkPoint 0 1; mkPoint 0 5]
  = Ret [mkPoint 0 5; mkPoint 1 9; mkPoint 7 9; mkPoint 7 1; mkPoint 0 1].
Proof. reflexivity. Qed.

(** C7: both loops end.  For a target colour other than the active colour
    (the callers pass black or white) the fusion loop takes at most one turn
    more than there are target pixels, since a pass that promotes leaves
    fewer target pixels than it found; it never waits for budget.  Started
    as [floodFillPattern] starts it, after the kernel scan of an input
    raster with no active pixel in its last row, it returns a raster that a
    further pass leaves alone.  The boundary walk takes at most as many
    steps as there are blue pixels, and so does the outer loop of
    [buildPolygon]. *)
Theorem loops_terminate :
  (forall relf c c' changed,
     relf <> AKTIVCOL -> canvas_ok c ->
     fuse_pass relf c = Ret (c', changed) -> changed > 0 ->
     (count_colour relf (cmp c') < count_colour relf (cmp c))%nat) /\
  (forall relf c (fuel : nat),
     relf <> AKTIVCOL -> canvas_ok c ->
     (count_colour relf (cmp c) < fuel)%nat ->
     fuse_loop fuel relf c <> Fuel) /\
  (forall granularity relf inbild (fuel : nat),
     relf <> AKTIVCOL -> canvas_ok inbild -> last_row_inactive inbild ->
     (count_colour relf (cmp inbild) < fuel)%nat ->
     exists c', connect_snippets fuel granularity relf inbild = Ret c' /\
                fuse_pass relf c' = Ret (c', 0)) /\
  (forall plane blau p1 sx sy aktx akty (fuel : nat),
     (count_colour COLORBLUE (cmp blau) < fuel)%nat ->
     walk fuel plane blau p1 sx sy aktx akty <> Fuel) /\
  (forall plane lower blau (fuel : nat),
     (count_colour COLORBLUE (cmp blau) < fuel)%nat ->
     snd (buildPolygon fuel plane lower blau []) <> Fuel).
Proof.
  split; [| split; [| split; [| split]]].
  - intros relf c c' changed Hne Hok Hpass Hch.
    destruct (fuse_pass_Ret relf c c' changed Hne Hok Hpass)
      as (_ & _ & _ & [(_ & -> & _) | (_ & Hless)]); [lia | exact Hless].
  - intros relf c fuel Hne Hok Hcount.
    exact (proj1 (fuse_loop_ends relf Hne fuel c Hok Hcount)).
  - intros granularity relf inbild fuel Hne Hok Hlast Hcount.
    now apply connect_snippets_ends.
  - intros plane blau p1 sx sy aktx akty fuel Hcount.
    now apply walk_ends.
  - intros plane lower blau fuel Hcount.
    now apply buildPolygon_not_Fuel.
Qed.

Lemma black_canvas_last_row : last_row_inactive black_canvas.
Proof.
  intros x Hx. cbn in Hx.
  assert (Hcase : x = 0 \/ x = 1 \/ x = 2 \/ x = 3 \/ x = 4 \/ x = 5 \/
                  x = 6 \/ x = 7 \/ x = 8) by lia.
  repeat (destruct Hcase as [-> | Hcase]; [vm_compute; discriminate |]).
  subst x. vm_compute. discriminate.
Defined.

Lemma loops_terminate_witness :
  (count_colour COLORBLACK (cmp fused_gap_canvas)
   < count_colour COLORBLACK (cmp double_gap_canvas))%nat /\
  fuse_loop 3 COLORBLACK double_gap_canvas <> Fuel /\
  (exists c', connect_snippets 82 3 COLORBLACK black_canvas = Ret c' /\
              fuse_pass COLORBLACK c' = Ret (c', 0)) /\
  walk 13 plane1024 ring_canvas (fresh_polygon ring_canvas) 1 1 2 1 <> Fuel /\
  snd (buildPolygon 13 plane1024 24 ring_canvas []) <> Fuel.
Proof.
  split; [| split; [| split; [| split]]].
  - apply (proj1 loops_terminate COLORBLACK double_gap_canvas fused_gap_canvas 1);
      [discriminate | unfold canvas_ok; cbn; lia | reflexivity | lia].
  - apply (proj1 (proj2 loops_terminate) COLORBLACK double_gap_canvas 3%nat);
      [discriminate | unfold canvas_ok; cbn; lia | cbn; lia].
  - apply (proj1 (proj2 (proj2 loops_terminate)) 3 COLORBLACK black_canvas 82%nat);
      [discriminate | unfold canvas_ok; cbn; lia | exact black_canvas_last_row
       | cbn; lia].
  - apply (proj1 (proj2 (proj2 (proj2 loops_terminate)))). cbn. lia.
  - apply (proj2 (proj2 (proj2 (proj2 loops_terminate)))). cbn. lia.
Defined.

(** ** The oracle on arbitrary rectilinear polygons *)

Lemma pip_edge_boundary (pts : list PolygonPoint) (ax ay k even : Z) :
  on_polygon_edge pts k ax ay -> pip_edge pts ax ay k even = Ret EdgeBoundary.
Proof.
  intros (a & b & Ha & Hb & Hon). unfold pip_edge.
  rewrite (proj2 (rd_Ret _ _ _) Hb), (proj2 (rd_Ret _ _ _) Ha).
  cbn [bind]. bools.
  destruct Hon as [(Hx & -> & Hy) | (Hy & -> & Hx)].
  - destruct (Z.eqb_spec (px b) (px a)); [| lia].
    repeat split_if; cbn [andb orb] in *; try discriminate; try lia; reflexivity.
  - destruct (Z.eqb_spec (px b) (px a)).
    + repeat split_if; cbn [andb orb] in *; try discriminate; try lia; reflexivity.
    + destruct (Z.eqb_spec (py b) (py a)); [| lia].
      repeat split_if; cbn [andb orb] in *; try discriminate; try lia; reflexivity.
Qed.

Lemma pip_edge_boundary_on (pts : list PolygonPoint) (ax ay k even : Z) :
  pip_edge pts ax ay k even = Ret EdgeBoundary -> on_polygon_edge pts k ax ay.
Proof.
  unfold pip_edge. intros Hrun.
  destruct (rd pts k) as [b | | |] eqn:Hb; try discriminate.
  destruct (rd pts (k - 1)) as [a | | |] eqn:Ha; try discriminate.
  cbn [bind] in Hrun. apply rd_Ret in Ha, Hb.
  exists a, b. split; [exact Ha |]. split; [exact Hb |].
  revert Hrun. bools. unfold on_segment.
  destruct (Z.eqb_spec (px b) (px a)) as [Hx | Hx].
  - destruct (Z.eqb_spec (px b) ax) as [Hax | Hax]; cbn [andb].
    + repeat split_if; cbn [andb orb] in *; intros Hrun; try discriminate;
        try (left; lia).
      all: repeat match goal with
                  | H : bind ?m _ = _ |- _ => destruct m; cbn [bind] in H; try discriminate
                  | H : (if ?c then _ else _) = _ |- _ => destruct c; try discriminate
                  end.
    + repeat split_if; cbn [andb orb] in *; intros Hrun; try discriminate.
      all: repeat match goal with
                  | H : bind ?m _ = _ |- _ => destruct m; cbn [bind] in H; try discriminate
                  | H : (if ?c then _ else _) = _ |- _ => destruct c; try discriminate
                  end.
  - destruct (Z.eqb_spec (py b) (py a)) as [Hy | Hy]; [| discriminate].
    repeat split_if; cbn [andb orb] in *; intros Hrun; try discriminate;
      try (right; lia).
    all: repeat match goal with
                | H : bind ?m _ = _ |- _ => destruct m; cbn [bind] in H; try discriminate
                | H : (if ?c then _ else _) = _ |- _ => destruct c; try discriminate
                end.
Qed.

Lemma pip_edge_diagonal (pts : list PolygonPoint) (ax ay k even : Z) :
  edge_diagonal pts k -> pip_edge pts ax ay k even = Ret EdgeDiagonal.
Proof.
  intros (a & b & Ha & Hb & Hx & Hy). unfold pip_edge.
  rewrite (proj2 (rd_Ret _ _ _) Hb), (proj2 (rd_Ret _ _ _) Ha).
  cbn [bind].
  destruct (Z.eqb_spec (px b) (px a)); [lia |].
  destruct (Z.eqb_spec (py b) (py a)); [lia | reflexivity].
Qed.

(** The plain walk up to an edge that carries the query point. *)
Lemma pip_loop_reaches_edge (apg : Polygon) (ax ay k : Z) :
  useprepare apg <= 0 ->
  (forall i, edge_rect (points apg) i) ->
  on_polygon_edge (points apg) k ax ay ->
  forall (f : nat) (i even : Z),
    0 <= i < k -> pointcount apg - i <= Z.of_nat f ->
    pip_loop f apg ax ay i even = Ret PIP_BOUNDARY.
Proof.
  intros Hu Hrect Hon.
  assert (Hk : k < pointcount apg).
  { destruct Hon as (a & b & _ & Hb & _). apply zget_bounds in Hb.
    unfold pointcount. lia. }
  induction f as [| f IH]; intros i even Hi Hfuel; [lia |].
  rewrite pip_loop_plain_step by (assumption || lia).
  destruct (Z.eq_dec (i + 1) k) as [Heq | Hne].
  - rewrite Heq, (pip_edge_boundary _ _ _ _ _ Hon). reflexivity.
  - destruct (pip_edge_returns (points apg) ax ay (i + 1) even)
      as [[even' He] | He]; [unfold pointcount in *; lia | apply Hrect | |];
      rewrite He; cbn [bind]; [apply IH; lia | reflexivity].
Qed.

Lemma in_box_segment (b : Box) (p q : PolygonPoint) (ax ay : Z) :
  in_box b p -> in_box b q -> on_segment p q ax ay ->
  bxmin b <= ax <= bxmax b /\ bymin b <= ay <= bymax b.
Proof. unfold in_box, on_segment. lia. Qed.

Lemma zget_In {A : Type} (l : list A) (i : Z) (a : A) :
  zget l i = Some a -> In a l.
Proof.
  unfold zget. destruct (i <? 0); [discriminate |].
  intros H. apply list_elem_of_In. eapply list_elem_of_lookup_2. exact H.
Qed.

Lemma box_covers_edge (apg : Polygon) (k ax ay : Z) :
  box_covers apg -> on_polygon_edge (points apg) k ax ay ->
  (ax <? xmin apg) || (ax >? xmax apg) || (ay <? ymin apg) || (ay >? ymax apg)
  = false.
Proof.
  intros Hbox (a & b & Ha & Hb & Hon).
  unfold box_covers in Hbox. rewrite List.Forall_forall in Hbox.
  pose proof (Hbox a (zget_In _ _ _ Ha)) as Hia.
  pose proof (Hbox b (zget_In _ _ _ Hb)) as Hib.
  pose proof (in_box_segment _ _ _ _ _ Hia Hib Hon) as Hin. cbn in Hin.
  rewrite !Z.gtb_ltb.
  destruct (Z.ltb_spec ax (xmin apg)); [lia |].
  destruct (Z.ltb_spec (xmax apg) ax); [lia |].
  destruct (Z.ltb_spec ay (ymin apg)); [lia |].
  destruct (Z.ltb_spec (ymax apg) ay); [lia | reflexivity].
Qed.

(** X1: a point on an edge of a polygon without diagonal edges, whose box
    holds its vertices and whose jump table is off, is classified as
    boundary, whatever the shape of the polygon. *)
Theorem edge_points_are_boundary (apg : Polygon) (k ax ay : Z) :
  useprepare apg <= 0 -> isDiagonalFree apg = 1 -> box_covers apg ->
  on_polygon_edge (points apg) k ax ay -> 1 <= k ->
  point_in_polygonVH apg ax ay = Ret PIP_BOUNDARY.
Proof.
  intros Hu Hdiag Hbox Hon Hk. unfold point_in_polygonVH.
  rewrite (box_covers_edge apg k ax ay Hbox Hon).
  apply (pip_loop_reaches_edge apg ax ay k Hu
           (isDiagonalFree_pts_edge _ Hdiag) Hon); [lia |].
  unfold pointcount. lia.
Qed.

Lemma edge_points_are_boundary_witness :
  point_in_polygonVH square10 10 3 = Ret PIP_BOUNDARY.
Proof.
  apply (edge_points_are_boundary square10 2 10 3).
  - cbn. lia.
  - reflexivity.
  - unfold box_covers, in_box. cbn.
    repeat (apply List.Forall_cons; [cbn; lia |]). apply List.Forall_nil.
  - exists (mkPoint 10 0), (mkPoint 10 10).
    split; [reflexivity |]. split; [reflexivity |].
    left. cbn. lia.
  - lia.
Defined.

(** The plain walk up to a diagonal edge. *)
Lemma pip_loop_reaches_diagonal (apg : Polygon) (ax ay k : Z) :
  useprepare apg <= 0 ->
  (forall i, 1 <= i < k -> edge_rect (points apg) i) ->
  edge_diagonal (points apg) k ->
  forall (f : nat) (i even : Z),
    0 <= i < k -> pointcount apg - i <= Z.of_nat f ->
    (pip_loop f apg ax ay i even = Exit99 /\
     forall j, i < j < k -> ~ on_polygon_edge (points apg) j ax ay) \/
    (pip_loop f apg ax ay i even = Ret PIP_BOUNDARY /\
     exists j, i < j < k /\ on_polygon_edge (points apg) j ax ay).
Proof.
  intros Hu Hrect Hdiag.
  assert (Hk : k < pointcount apg).
  { destruct Hdiag as (a & b & _ & Hb & _). apply zget_bounds in Hb.
    unfold pointcount. lia. }
  induction f as [| f IH]; intros i even Hi Hfuel; [lia |].
  rewrite pip_loop_plain_step by (assumption || lia).
  destruct (Z.eq_dec (i + 1) k) as [Heq | Hne].
  - rewrite Heq, (pip_edge_diagonal _ _ _ _ _ Hdiag). cbn [bind].
    left. split; [reflexivity | intros j Hj; exfalso; lia].
  - destruct (pip_edge_returns (points apg) ax ay (i + 1) even)
      as [[even' He] | He];
      [unfold pointcount in *; lia | apply Hrect; lia | |];
      rewrite He; cbn [bind].
    + destruct (IH (i + 1) even' ltac:(lia) ltac:(lia))
        as [[Hexit Hnone] | [Hb (j & Hj & Hon)]].
      * left. split; [exact Hexit |]. intros j Hj Hon.
        destruct (Z.eq_dec j (i + 1)) as [-> | Hj'].
        -- rewrite (pip_edge_boundary _ _ _ _ even Hon) in He. discriminate.
        -- apply (Hnone j); [lia | exact Hon].
      * right. split; [exact Hb |]. exists j. split; [lia | exact Hon].
    + right. split; [reflexivity |]. exists (i + 1). split; [lia |].
      exact (pip_edge_boundary_on _ _ _ _ _ He).
Qed.

(** X2: with the jump table off, a polygon whose first diagonal edge ends
    at index [k] never gets the answer interior or exterior for a point
    inside its box: the run ends with [exit(99)], unless the point lies on
    one of the edges before the diagonal one, which gives boundary. *)
Theorem diagonal_edge_is_fatal (apg : Polygon) (k ax ay : Z) :
  useprepare apg <= 0 -> 1 <= k ->
  (forall i, 1 <= i < k -> edge_rect (points apg) i) ->
  edge_diagonal (points apg) k ->
  xmin apg <= ax <= xmax apg -> ymin apg <= ay <= ymax apg ->
  (point_in_polygonVH apg ax ay = Exit99 /\
   forall j, 1 <= j < k -> ~ on_polygon_edge (points apg) j ax ay) \/
  (point_in_polygonVH apg ax ay = Ret PIP_BOUNDARY /\
   exists j, 1 <= j < k /\ on_polygon_edge (points apg) j ax ay).
Proof.
  intros Hu Hk Hrect Hdiag Hx Hy. unfold point_in_polygonVH.
  rewrite !Z.gtb_ltb.
  destruct (Z.ltb_spec ax (xmin apg)); [lia |].
  destruct (Z.ltb_spec (xmax apg) ax); [lia |].
  destruct (Z.ltb_spec ay (ymin apg)); [lia |].
  destruct (Z.ltb_spec (ymax apg) ay); [lia |]. cbn [orb].
  destruct (pip_loop_reaches_diagonal apg ax ay k Hu Hrect Hdiag
              (S (length (points apg))) 0 1 ltac:(lia)
              ltac:(unfold pointcount; lia))
    as [[Hexit Hnone] | [Hb (j & Hj & Hon)]].
  - left. split; [exact Hexit |]. intros j Hj. apply Hnone. lia.
  - right. split; [exact Hb |]. exists j. split; [lia | exact Hon].
Qed.

Lemma diagonal_edge_is_fatal_witness :
  (point_in_polygonVH diagonal_polygon 3 3 = Exit99 /\
   forall j, 1 <= j < 2 ->
             ~ on_polygon_edge (points diagonal_polygon) j 3 3) \/
  (point_in_polygonVH diagonal_polygon 3 3 = Ret PIP_BOUNDARY /\
   exists j, 1 <= j < 2 /\ on_polygon_edge (points diagonal_polygon) j 3 3).
Proof.
  apply (diagonal_edge_is_fatal diagonal_polygon 2 3 3).
  - cbn. lia.
  - lia.
  - intros i Hi a b Ha Hb. assert (i = 1) by lia. subst i.
    cbn in Ha, Hb. inversion Ha. inversion Hb. cbn. right. reflexivity.
  - exists (mkPoint 10 0), (mkPoint 5 5).
    split; [reflexivity |]. split; [reflexivity |]. cbn. lia.
  - cbn. lia.
  - cbn. lia.
Defined.

(** ** The bounding box *)

Lemma box_update_in (first : bool) (b : Box) (x y : Z) :
  in_box (box_update first b x y) (mkPoint x y).
Proof.
  destruct first; [unfold in_box; cbn; lia |].
  rewrite box_update_later. unfold in_box. cbn. lia.
Qed.

Lemma box_update_mono (b : Box) (x y : Z) (p : PolygonPoint) :
  in_box b p -> in_box (box_update false b x y) p.
Proof. rewrite box_update_later. unfold in_box. cbn. lia. Qed.

Lemma load_box_mono (pts : list PolygonPoint) :
  forall b p, in_box b p -> in_box (load_box false b pts) p.
Proof.
  induction pts as [| q rest IH]; intros b p Hin; cbn [load_box]; [exact Hin |].
  apply IH. now apply box_update_mono.
Qed.

Lemma load_box_covers (pts : list PolygonPoint) :
  forall first b, Forall (in_box (load_box first b pts)) pts.
Proof.
  induction pts as [| q rest IH]; intros first b; cbn [load_box];
    [apply List.Forall_nil |].
  apply List.Forall_cons; [| apply IH].
  apply load_box_mono. destruct q as [x y]. apply box_update_in.
Qed.

Lemma load_box_app (l1 l2 : list PolygonPoint) (first : bool) (b : Box) :
  load_box first b (l1 ++ l2) =
  match l1 with
  | [] => load_box first b l2
  | _ => load_box false (load_box first b l1) l2
  end.
Proof.
  revert first b. induction l1 as [| q rest IH]; intros first b; [reflexivity |].
  cbn [app load_box]. rewrite IH. destruct rest; reflexivity.
Qed.

Lemma load_points_Ret (n : nat) :
  forall tmp f first b acc pts b',
    load_points n tmp f first b acc = Ret (pts, b') ->
    exists new, pts = acc ++ new /\ length new = n /\
                b' = load_box first b new.
Proof.
  induction n as [| n IH]; intros tmp f first b acc pts b' Hrun;
    cbn [load_points] in Hrun.
  - inversion Hrun. exists []. rewrite app_nil_r. auto.
  - destruct (next_line tmp f) as [tmp1 f1].
    destruct (sscanf_i_i tmp1) as [[ax ay] |]; [| discriminate].
    destruct (IH _ _ _ _ _ _ _ Hrun) as (new & -> & Hlen & ->).
    exists (mkPoint ax ay :: new). rewrite <- app_assoc. cbn.
    split; [reflexivity |]. split; [now rewrite Hlen | reflexivity].
Qed.

(** X3: every polygon that [load] returns has as many vertices as its count
    line announces, a bounding box that holds all of them, the jump table
    switched off and a table buffer with one cell for every vertex. *)
Theorem load_delivers_usable_polygon (old : Polygon) (tmp0 : string)
  (l1 l2 l3 : string) (rest : list string) (apg : Polygon) :
  load old tmp0 (l1 :: l2 :: l3 :: rest) = Ret apg ->
  sscanf_i (chomp l3) = Some (pointcount apg) /\
  box_covers apg /\ useprepare apg = 0 /\
  length (yprepare apg) = length (points apg).
Proof.
  unfold load. cbn [next_line]. intros Hrun.
  destruct (sscanf_i (chomp l3)) as [a |]; [| discriminate].
  destruct (Z.ltb_spec a 0) as [Hneg | Hpos]; [discriminate |].
  destruct (load_points _ _ _ _ _ _) as [[pts b] | | |] eqn:Hpts;
    try discriminate.
  cbn [bind] in Hrun. inversion Hrun. subst apg. clear Hrun.
  apply load_points_Ret in Hpts as (new & -> & Hlen & ->).
  cbn [app]. unfold pointcount, box_covers, box_of. cbn.
  rewrite Hlen, repeat_length, Z2Nat.id by lia.
  split; [reflexivity |]. split; [apply load_box_covers | auto].
Qed.

Lemma load_delivers_usable_polygon_witness :
  box_covers (mkPolygon [mkPoint 3 4] 0 33554432 3 3 4 4 [0]).
Proof.
  apply (load_delivers_usable_polygon empty_polygon EmptyString
           (text_line "xx") (text_line "-2,2,-2,2") (text_line "1")
           [text_line "3,4"; text_line "."]).
  reflexivity.
Defined.

(** ** [add] *)

Lemma Forall_insert_weak {A : Type} (P : A -> Prop) (l : list A) (i : nat) (v : A) :
  Forall P l -> P v -> Forall P (<[i := v]> l).
Proof.
  intros Hl Hv. revert i. induction Hl as [| a l Ha Hl IH]; intros i.
  - destruct i; apply List.Forall_nil.
  - destruct i as [| i]; cbn; apply List.Forall_cons; auto.
Qed.

Lemma add_fields (apg : Polygon) (ax ay : Z) :
  useprepare (add apg ax ay) = useprepare apg /\
  nenner (add apg ax ay) = nenner apg /\
  yprepare (add apg ax ay) = yprepare apg /\
  box_of (add apg ax ay) =
    box_update (pointcount apg =? 0) (box_of apg) ax ay.
Proof.
  unfold add. cbv zeta.
  repeat match goal with
         | |- context [if ?c then _ else _] => destruct c
         | |- context [match zget ?l ?i with _ => _ end] => destruct (zget l i)
         end; cbn; repeat split;
    unfold box_of, with_points; cbn;
    destruct (box_update _ _ _ _); reflexivity.
Qed.

Lemma add_box_covers (apg : Polygon) (ax ay : Z) :
  box_covers apg -> box_covers (add apg ax ay).
Proof.
  intros Hbox. unfold box_covers in *.
  destruct (add_fields apg ax ay) as (_ & _ & _ & ->).
  assert (Hnew : in_box (box_update (pointcount apg =? 0) (box_of apg) ax ay)
                        (mkPoint ax ay)) by apply box_update_in.
  assert (Hold : Forall (in_box (box_update (pointcount apg =? 0)
                                            (box_of apg) ax ay)) (points apg)).
  { destruct (Z.eqb_spec (pointcount apg) 0) as [Hzero | Hsome].
    - unfold pointcount in Hzero. destruct (points apg); [apply List.Forall_nil |].
      cbn in Hzero. lia.
    - eapply List.Forall_impl; [| exact Hbox]. intros p. apply box_update_mono. }
  destruct (add_cases apg ax ay) as [(_ & ->) | (A & B & _ & _ & _ & [(_ & ->) | (_ & ->)])].
  - apply Forall_app. split; [exact Hold |].
    apply List.Forall_cons; [exact Hnew | apply List.Forall_nil].
  - now apply Forall_insert_weak.
  - apply Forall_app. split; [exact Hold |].
    apply List.Forall_cons; [exact Hnew | apply List.Forall_nil].
Qed.

Lemma add_last (apg : Polygon) (ax ay : Z) :
  last (points (add apg ax ay)) = Some (mkPoint ax ay) /\
  (length (points apg) <= length (points (add apg ax ay))
   <= S (length (points apg)))%nat /\
  (1 <= length (points (add apg ax ay)))%nat.
Proof.
  destruct (add_cases apg ax ay)
    as [(_ & ->) | (A & B & Hlen & _ & _ & [(_ & ->) | (_ & ->)])].
  - rewrite last_snoc, length_app. cbn. split; [reflexivity | lia].
  - rewrite length_insert. split; [| lia].
    rewrite last_lookup, length_insert.
    replace (Init.Nat.pred (length (points apg))) with (length (points apg) - 1)%nat
      by lia.
    apply list_lookup_insert_eq. lia.
  - rewrite last_snoc, length_app. cbn. split; [reflexivity | lia].
Qed.

(** X4: whatever points are added to a polygon whose box holds its
    vertices (an empty one, say), the box holds all vertices afterwards,
    the last vertex is the point added last, there are at most as many
    vertices more as there were calls, and denominator and jump table are
    as before. *)
Theorem add_keeps_box (apg : Polygon) (l : list (Z * Z)) :
  box_covers apg ->
  box_covers (add_all apg l) /\
  (forall x y, last l = Some (x, y) ->
               last (points (add_all apg l)) = Some (mkPoint x y)) /\
  (length (points (add_all apg l)) <= length (points apg) + length l)%nat /\
  (l <> [] -> 1 <= pointcount (add_all apg l)) /\
  nenner (add_all apg l) = nenner apg /\
  useprepare (add_all apg l) = useprepare apg /\
  yprepare (add_all apg l) = yprepare apg.
Proof.
  revert apg. induction l as [| [x y] rest IH] using rev_ind; intros apg Hbox.
  - cbn. repeat split; try assumption; try lia; try discriminate.
    intros H. contradiction.
  - unfold add_all in *. rewrite fold_left_app. cbn [fold_left fst snd].
    destruct (IH apg Hbox) as (Hb & _ & Hlen & _ & Hn & Hu & Hy).
    set (q := fold_left (fun p xy => add p (fst xy) (snd xy)) rest apg) in *.
    destruct (add_fields q x y) as (Hu' & Hn' & Hy' & _).
    destruct (add_last q x y) as (Hlast & Hgrow & Hone).
    split; [now apply add_box_covers |]. split.
    { intros x' y' Hl. rewrite last_snoc in Hl. inversion Hl. subst. exact Hlast. }
    split; [rewrite length_app; cbn; lia |].
    split; [intros _; unfold pointcount; lia |].
    repeat split; congruence.
Qed.

Lemma add_keeps_box_witness :
  box_covers (add_all empty_polygon [(0, 0); (4, 0); (9, 0); (9, 5)]) /\
  last (points (add_all empty_polygon [(0, 0); (4, 0); (9, 0); (9, 5)]))
    = Some (mkPoint 9 5).
Proof.
  pose proof (add_keeps_box empty_polygon [(0, 0); (4, 0); (9, 0); (9, 5)]
                ltac:(apply List.Forall_nil)) as (Hbox & Hlast & _).
  split; [exact Hbox | apply Hlast; reflexivity].
Defined.

(** ** The structural check *)

Lemma colinear_inside_false (pts : list PolygonPoint) :
  colinear_inside pts = false -> colinear_free_inside pts.
Proof.
  induction pts as [| p rest IH]; intros Hc i a b c Ha Hb Hc'.
  - discriminate.
  - cbn [colinear_inside] in Hc.
    destruct rest as [| q [| r rest']].
    + destruct i; discriminate.
    + destruct i as [| [| i]]; discriminate.
    + apply orb_false_iff in Hc as [Hhere Hrest].
      destruct i as [| i].
      * cbn in Ha, Hb, Hc'. inversion Ha. inversion Hb. inversion Hc'. subst.
        intros Hcol. apply colinear3_col3 in Hcol. congruence.
      * exact (IH Hrest i a b c Ha Hb Hc').
Qed.

Lemma edge_rect_tail (p : PolygonPoint) (l : list PolygonPoint) (i : Z) :
  1 <= i -> edge_rect (p :: l) (i + 1) -> edge_rect l i.
Proof.
  intros Hi Hrect a b Ha Hb. apply (Hrect a b).
  - rewrite zget_cons_succ by lia. now replace (i + 1 - 1 - 1) with (i - 1) by lia.
  - rewrite zget_cons_succ by lia. now replace (i + 1 - 1) with i by lia.
Qed.

Lemma rectilinear_diagonal_free (pts : list PolygonPoint) :
  rectilinear pts -> isDiagonalFree_pts pts = 1.
Proof.
  induction pts as [| a rest IH]; intros Hrect; [reflexivity |].
  destruct rest as [| b rest']; [reflexivity |].
  cbn [isDiagonalFree_pts].
  destruct (Hrect 1 a b eq_refl eq_refl) as [Hx | Hy].
  - rewrite Hx, Z.eqb_refl. cbn [negb andb]. apply IH.
    intros i. destruct (Z.lt_ge_cases i 1) as [Hlow | Hhigh].
    + intros p q Hp Hq. unfold zget in Hp.
      destruct (Z.ltb_spec (i - 1) 0); [discriminate | lia].
    + apply (edge_rect_tail a). exact Hhigh. apply Hrect.
  - rewrite Hy, Z.eqb_refl, andb_false_r. apply IH.
    intros i. destruct (Z.lt_ge_cases i 1) as [Hlow | Hhigh].
    + intros p q Hp Hq. unfold zget in Hp.
      destruct (Z.ltb_spec (i - 1) 0); [discriminate | lia].
    + apply (edge_rect_tail a). exact Hhigh. apply Hrect.
Qed.

Lemma isDiagonalFree_pts_cases (pts : list PolygonPoint) :
  isDiagonalFree_pts pts = 0 \/ isDiagonalFree_pts pts = 1.
Proof.
  induction pts as [| a rest IH]; [now right |].
  destruct rest as [| b rest']; [now right |].
  cbn [isDiagonalFree_pts]. destruct (_ && _); [now left | exact IH].
Qed.

Lemma last_zget {A : Type} (l : list A) :
  last l = zget l (Z.of_nat (length l) - 1).
Proof.
  rewrite last_lookup. destruct l as [| a l]; [reflexivity |].
  rewrite zget_nat by (cbn [length]; lia). f_equal. cbn [length]. lia.
Qed.

Lemma isClosed_spec (apg : Polygon) :
  (1 <= length (points apg))%nat ->
  (isClosed apg = Ret 1 /\ ring_closed (points apg)) \/
  (isClosed apg = Ret 0 /\ ~ ring_closed (points apg)).
Proof.
  intros Hlen. unfold isClosed, pointcount, ring_closed.
  destruct (rd_in (points apg) 0) as [p0 H0]; [lia |].
  destruct (rd_in (points apg) (Z.of_nat (length (points apg)) - 1))
    as [pl Hl]; [lia |].
  rewrite H0, Hl. cbn [bind]. apply rd_Ret in H0, Hl.
  rewrite <- last_zget in Hl. rewrite zget_nat in H0 by lia.
  change (Z.to_nat 0) with 0%nat in H0.
  destruct (Z.eqb_spec (px p0) (px pl)) as [Hx | Hx];
    [destruct (Z.eqb_spec (py p0) (py pl)) as [Hy | Hy] |]; cbn [negb orb].
  - left. split; [reflexivity |]. exists p0. split; [exact H0 |].
    rewrite Hl. f_equal. destruct p0, pl. cbn in *. congruence.
  - right. split; [reflexivity |]. intros (v & Hv & Hlast). congruence.
  - right. split; [reflexivity |]. intros (v & Hv & Hlast). congruence.
Qed.

Lemma isColinearFree_spec (apg : Polygon) :
  (2 <= length (points apg))%nat ->
  (isColinearFree apg = Ret 1 /\
   colinear_free_inside (points apg) /\ colinear_free_seam (points apg)) \/
  (isColinearFree apg = Ret 0 /\
   ~ (colinear_free_inside (points apg) /\ colinear_free_seam (points apg))).
Proof.
  intros Hlen. unfold isColinearFree, pointcount.
  destruct (colinear_inside (points apg)) eqn:Hin.
  - right. split; [reflexivity |]. intros [Hfree _].
    apply colinear_inside_free in Hfree. congruence.
  - apply colinear_inside_false in Hin.
    destruct (rd_in (points apg) (Z.of_nat (length (points apg)) - 2))
      as [pl Hl]; [lia |].
    destruct (rd_in (points apg) 1) as [p1 H1]; [lia |].
    destruct (rd_in (points apg) 0) as [p0 H0]; [lia |].
    rewrite Hl, H1, H0. cbn [bind]. apply rd_Ret in Hl, H1, H0.
    rewrite zget_nat in Hl, H1, H0 by lia.
    replace (Z.to_nat (Z.of_nat (length (points apg)) - 2))
      with (length (points apg) - 2)%nat in Hl by lia.
    change (Z.to_nat 1) with 1%nat in H1.
    change (Z.to_nat 0) with 0%nat in H0.
    destruct (_ || _) eqn:Htest.
    + right. split; [reflexivity |]. intros [_ Hseam].
      apply (Hseam pl p0 p1 Hl H0 H1). unfold col3.
      apply orb_true_iff in Htest as [Hc | Hc];
        apply andb_true_iff in Hc as [Ha Hb];
        apply Z.eqb_eq in Ha, Hb; lia.
    + left. split; [reflexivity |]. split; [exact Hin |].
      intros pl' p0' p1' Hl' H0' H1' Hcol.
      assert (pl' = pl) by congruence. assert (p0' = p0) by congruence.
      assert (p1' = p1) by congruence. subst.
      apply orb_false_iff in Htest as [Hc1 Hc2].
      unfold col3 in Hcol.
      destruct Hcol as [[Ha Hb] | [Ha Hb]].
      * rewrite Ha, Hb, !Z.eqb_refl in Hc1. discriminate.
      * rewrite Ha, Hb, !Z.eqb_refl in Hc2. discriminate.
Qed.

(** X5: [qcA] gives an answer exactly for polygons with two vertices or
    more (on shorter ones it reads outside the vertex array), the answer is
    0 or 1, and it is 1 exactly when the first vertex is the last one, no
    three vertices in a row -- the seam included -- lie on one vertical or
    horizontal line, and no edge is diagonal. *)
Theorem qcA_accepts_sound_rings (apg : Polygon) :
  (qcA apg = Ret 1 <-> sound_ring (points apg)) /\
  ((exists r, qcA apg = Ret r) <-> 2 <= pointcount apg) /\
  (pointcount apg < 2 -> qcA apg = Undef) /\
  (forall r, qcA apg = Ret r -> r = 0 \/ r = 1).
Proof.
  unfold qcA, pointcount.
  destruct (points apg) as [| p0 [| p1 rest]] eqn:Hpts.
  - unfold isClosed. rewrite Hpts. cbn.
    repeat split; try discriminate; try (intros [r H]; discriminate);
      try (cbn; lia).
    + intros (Hlen & _). cbn in Hlen. lia.
  - unfold isClosed, isColinearFree, pointcount. rewrite Hpts.
    cbn [colinear_inside length].
    change (rd [p0] (Z.of_nat 1 - 1)) with (Ret p0).
    change (rd [p0] 0) with (Ret p0).
    change (rd [p0] (Z.of_nat 1 - 2)) with (@Undef PolygonPoint).
    cbn [bind]. rewrite !Z.eqb_refl. cbn [negb orb bind Z.leb Z.compare].
    repeat split; try discriminate; try (intros [r H]; discriminate);
      try (cbn; lia).
    + intros (Hlen & _). cbn in Hlen. lia.
  - rewrite <- Hpts.
    assert (Hlen : (2 <= length (points apg))%nat) by (rewrite Hpts; cbn; lia).
    unfold isDiagonalFree.
    destruct (isClosed_spec apg ltac:(lia)) as [[-> Hclosed] | [-> Hopen]];
      cbn [bind Z.leb Z.compare].
    + destruct (isColinearFree_spec apg Hlen) as [[-> [Hin Hseam]] | [-> Hcol]];
        cbn [bind Z.leb Z.compare].
      * destruct (isDiagonalFree_pts_cases (points apg)) as [Hd | Hd];
          rewrite Hd; cbn [Z.leb Z.compare].
        -- repeat split; try discriminate; eauto; try lia.
           ++ intros (_ & _ & _ & _ & Hrect).
              apply rectilinear_diagonal_free in Hrect. congruence.
           ++ intros r H. inversion H. auto.
        -- repeat split; eauto; try lia.
           ++ intros i. apply isDiagonalFree_pts_edge. exact Hd.
           ++ intros r H. inversion H. auto.
      * repeat split; try discriminate; eauto; try lia.
        -- intros (_ & _ & H1 & H2 & _). tauto.
        -- intros r H. inversion H. auto.
    + repeat split; try discriminate; eauto; try lia.
      * intros (_ & H1 & _). tauto.
      * intros r H. inversion H. auto.
Qed.

(** ** The shape of traced polygons *)

Section WalkShape.

Variables (plane : Z -> Z) (blau0 : Charmap) (sx sy : Z) (horiz : bool).
Variables (blau : Charmap) (apg : Polygon) (aktx akty nx ny : Z).
Variable blau' : Charmap.

Hypothesis plane_inj : injective plane.
Hypothesis start_first : first_blue blau0 sx sy.
Hypothesis start_vertical :
  horiz = false -> getPoint blau0 (sx + 1) sy <> Ret COLORBLUE.
Hypothesis inv : walk_inv plane blau0 sx sy horiz blau (points apg) aktx akty.
Hypothesis shape : walk_shape plane blau0 (points apg).
Hypothesis not_back : ~ (aktx = sx /\ akty = sy).
Hypothesis found : next_blue blau aktx akty = Ret (Some (nx, ny)).
Hypothesis marked : setPoint blau nx ny COLORYELLOW = Ret blau'.

Lemma step_keeps_shape :
  walk_shape plane blau0 (points (POLYGONADD plane apg nx ny)).
Proof.
  pose proof (step_shape plane blau0 sx sy horiz blau apg aktx akty nx ny inv)
    as (A & HA & Hcase).
  pose proof (step_near sx sy blau aktx akty nx ny not_back found) as Hnear.
  pose proof (step_blue0 plane blau0 sx sy horiz blau apg aktx akty nx ny
                inv found) as Hblue.
  pose proof (wi_last _ _ _ _ _ _ _ _ _ inv) as Hlast.
  pose proof (wi_len _ _ _ _ _ _ _ _ _ inv) as Hlen.
  destruct shape as [Hrect Hon].
  assert (Hshare : px (vertex plane aktx akty) = px (vertex plane nx ny) \/
                   py (vertex plane aktx akty) = py (vertex plane nx ny)).
  { unfold vertex. cbn.
    destruct Hnear as [[-> ->] | [[-> ->] | [[-> ->] | [-> ->]]]]; auto. }
  destruct Hcase as [[Hcol ->] | [Hnot ->]]; constructor.
  - intros i a b Ha Hb.
    apply lookup_put in Hb as [[Hne Hb] | [Heq ->]]; [| | lia].
    + apply lookup_put in Ha as [[_ Ha] | [Heq _]]; [| | lia].
      * exact (Hrect i a b Ha Hb).
      * apply lookup_lt_Some in Hb. lia.
    + apply lookup_put in Ha as [[_ Ha] | [Heq' _]]; [| lia | lia].
      replace i with (length (points apg) - 2)%nat in Ha by lia.
      assert (a = A) by congruence. subst a.
      unfold col3 in Hcol. lia.
  - intros i v Hv.
    apply lookup_put in Hv as [[_ Hv] | [_ ->]]; [| | lia].
    + exact (Hon i v Hv).
    + exists nx, ny. split; [reflexivity | exact Hblue].
  - intros i a b Ha Hb.
    apply lookup_snoc in Hb as [[Hlt Hb] | [Heq ->]].
    + rewrite lookup_snoc_old in Ha by lia. exact (Hrect i a b Ha Hb).
    + rewrite lookup_snoc_old in Ha by lia.
      replace i with (length (points apg) - 1)%nat in Ha by lia.
      assert (a = vertex plane aktx akty) by congruence. subst a. exact Hshare.
  - intros i v Hv.
    apply lookup_snoc in Hv as [[_ Hv] | [_ ->]].
    + exact (Hon i v Hv).
    + exists nx, ny. split; [reflexivity | exact Hblue].
Qed.

End WalkShape.

Lemma walk_keeps_shape (plane : Z -> Z) (blau0 : Charmap) (sx sy : Z)
  (horiz : bool) :
  injective plane -> first_blue blau0 sx sy ->
  (horiz = false -> getPoint blau0 (sx + 1) sy <> Ret COLORBLUE) ->
  forall (fuel : nat) (blau : Charmap) (apg : Polygon) (aktx akty : Z)
         (blau' : Charmap) (apg' : Polygon),
    walk_inv plane blau0 sx sy horiz blau (points apg) aktx akty ->
    walk_shape plane blau0 (points apg) ->
    walk fuel plane blau apg sx sy aktx akty = Ret (blau', apg') ->
    walk_shape plane blau0 (points apg').
Proof.
  intros Hinj Hfirst Hvert.
  induction fuel as [| fuel IH];
    intros blau apg aktx akty blau' apg' Hinv Hshape Hrun; [discriminate |].
  cbn [walk] in Hrun.
  assert (Hstep : ~ (aktx = sx /\ akty = sy) ->
            (do n <- next_blue blau aktx akty ;
             match n with
             | None => Exit99
             | Some (nx, ny) =>
               do blau1 <- setPoint blau nx ny COLORYELLOW ;
               walk fuel plane blau1 (POLYGONADD plane apg nx ny) sx sy nx ny
             end) = Ret (blau', apg') ->
            walk_shape plane blau0 (points apg')).
  { intros Hnot Hgo.
    destruct (next_blue blau aktx akty) as [[[nx ny] |] | | |] eqn:Hn;
      cbn [bind] in Hgo; try discriminate.
    destruct (setPoint blau nx ny COLORYELLOW) as [blau1 | | |] eqn:Hset;
      cbn [bind] in Hgo; try discriminate.
    eapply IH;
      [exact (step_inv plane blau0 sx sy horiz blau apg aktx akty nx ny blau1
                Hinj Hfirst Hvert Hinv Hnot Hn Hset)
      | eapply step_keeps_shape; eassumption
      | exact Hgo]. }
  destruct (Z.eqb_spec aktx sx) as [Ex | Ex];
    [destruct (Z.eqb_spec akty sy) as [Ey | Ey] |]; cbn [andb] in Hrun.
  - inversion Hrun. subst. exact Hshape.
  - apply Hstep; [tauto | exact Hrun].
  - apply Hstep; [tauto | exact Hrun].
Qed.

Lemma walk_shape_start (plane : Z -> Z) (blau0 : Charmap) (sx sy nx ny : Z) :
  first_blue blau0 sx sy ->
  next_blue blau0 sx sy = Ret (Some (nx, ny)) ->
  walk_shape plane blau0
    (points (POLYGONADD plane (POLYGONADD plane (fresh_polygon blau0) sx sy)
                        nx ny)).
Proof.
  intros (Hs & _) Hnext.
  destruct (next_blue_Some _ _ _ _ _ Hnext) as [Hblue Hnear].
  change (points (POLYGONADD plane
                    (POLYGONADD plane (fresh_polygon blau0) sx sy) nx ny))
    with [vertex plane sx sy; vertex plane nx ny].
  constructor.
  - intros i a b Ha Hb. destruct i as [| [| i]]; try discriminate.
    cbn in Ha, Hb. inversion Ha. inversion Hb. unfold vertex. cbn.
    destruct Hnear as [[-> ->] | [_ [[-> ->] | [[-> ->] | [-> ->]]]]]; auto.
  - intros i v Hv. destruct i as [| [| i]]; try discriminate;
      cbn in Hv; inversion Hv; eauto.
Qed.

Lemma rect_pairs_rectilinear (pts : list PolygonPoint) :
  (forall (i : nat) a b, pts !! i = Some a -> pts !! S i = Some b ->
                         px a = px b \/ py a = py b) ->
  rectilinear pts.
Proof.
  intros Hrect i a b Ha Hb.
  pose proof (zget_bounds _ _ _ Ha) as Hia.
  rewrite zget_nat in Ha, Hb by lia.
  apply (Hrect (Z.to_nat (i - 1)) a b Ha).
  replace (S (Z.to_nat (i - 1))) with (Z.to_nat i) by lia. exact Hb.
Qed.

Lemma blue_within_refl (c : Charmap) : blue_within c c.
Proof. split; auto. Qed.

Lemma blue_within_trans (c1 c2 c3 : Charmap) :
  blue_within c1 c2 -> blue_within c2 c3 -> blue_within c1 c3.
Proof. intros [Hx1 H1] [Hx2 H2]. split; [congruence | auto]. Qed.

Lemma on_blue_within (plane : Z -> Z) (c' c : Charmap) (p : Polygon) :
  blue_within c' c -> on_blue plane c' p -> on_blue plane c p.
Proof.
  intros [Hx Hblue] Hon. unfold on_blue in *.
  eapply List.Forall_impl; [| exact Hon].
  intros v (x & y & -> & Hget). exists x, y. split; [reflexivity |].
  apply getPoint_zget. apply getPoint_zget in Hget.
  rewrite <- Hx. apply Hblue. exact Hget.
Qed.

(** One turn of the outer loop: what it saves and what it leaves. *)
Lemma trace_once_shape (fuel : nat) (plane : Z -> Z) (lower : Z)
  (blau blau' : Charmap) (o : option Polygon) :
  injective plane ->
  trace_once fuel plane lower blau = Ret (Some (blau', o)) ->
  blue_within blau' blau /\
  forall p, o = Some p ->
    isDiagonalFree p = 1 /\ on_blue plane blau p /\
    (3 <= pointcount p -> qcA p = Ret 1).
Proof.
  intros Hinj Hrun. unfold trace_once in Hrun.
  destruct (find_start blau) as [[[sx sy] |] | | |] eqn:Hstart;
    cbn [bind] in Hrun; try discriminate.
  apply find_start_first in Hstart.
  destruct (next_blue blau sx sy) as [[[nx ny] |] | | |] eqn:Hnext;
    cbn [bind] in Hrun; try discriminate.
  2: { destruct (setPoint blau sx sy COLORYELLOW) as [b1 | | |] eqn:Hset;
       cbn [bind] in Hrun; try discriminate.
       inversion Hrun. subst. split; [| discriminate].
       pose proof (setPoint_Ret _ _ _ _ _ Hset) as (_ & Hx & _).
       split; [exact Hx | intros i; exact (blue_mark _ _ _ _ _ Hset)]. }
  destruct (setPoint blau nx ny COLORYELLOW) as [blau1 | | |] eqn:Hset;
    cbn [bind] in Hrun; try discriminate.
  destruct (walk_starts plane blau blau1 sx sy nx ny Hstart Hnext Hset)
    as (horiz & Hvert & Hinv).
  pose proof (walk_shape_start plane blau sx sy nx ny Hstart Hnext) as Hshape.
  destruct (walk fuel plane blau1 _ sx sy nx ny) as [[blau2 p2] | | |] eqn:Hwalk;
    cbn [bind] in Hrun; try discriminate.
  pose proof (walk_keeps_inv plane blau sx sy horiz Hinj Hstart Hvert
                _ _ _ _ _ _ _ Hinv Hwalk) as Hend.
  pose proof (walk_keeps_shape plane blau sx sy horiz Hinj Hstart Hvert
                _ _ _ _ _ _ _ Hinv Hshape Hwalk) as [Hrect Hon].
  rewrite (trim_nothing plane blau sx sy horiz blau2 p2 Hend) in Hrun.
  cbn [bind] in Hrun.
  assert (Hwithin : blue_within blau2 blau)
    by (split; [exact (wi_xlen _ _ _ _ _ _ _ _ _ Hend)
               | exact (wi_mono _ _ _ _ _ _ _ _ _ Hend)]).
  set (p3 := with_points p2 (points p2) (box_of p2)) in *.
  assert (Hdiag : isDiagonalFree p3 = 1)
    by (apply rectilinear_diagonal_free, rect_pairs_rectilinear; exact Hrect).
  assert (Hblue : on_blue plane blau p3).
  { unfold on_blue. apply List.Forall_forall. intros v Hv.
    apply list_elem_of_In, list_elem_of_lookup_1 in Hv as [i Hi].
    exact (Hon i v Hi). }
  assert (Hqc : 3 <= pointcount p3 -> qcA p3 = Ret 1).
  { intros Hlong. unfold qcA.
    rewrite (closed_check plane blau sx sy horiz blau2 p3 Hend).
    cbn [bind Z.leb Z.compare].
    rewrite (colinear_check plane blau sx sy horiz blau2 p3 Hend Hlong).
    cbn [bind Z.leb Z.compare]. rewrite Hdiag. reflexivity. }
  destruct (pointcount p3 >? lower); inversion Hrun; subst;
    (split; [exact Hwithin |]); intros p Hp; inversion Hp; subst; auto.
Qed.

Lemma buildPolygon_shape (plane : Z -> Z) (lower : Z) (c0 : Charmap)
  (P : Polygon -> Prop) :
  injective plane ->
  (forall c p, blue_within c c0 ->
     isDiagonalFree p = 1 /\ on_blue plane c p /\
     (3 <= pointcount p -> qcA p = Ret 1) -> P p) ->
  forall (fuel : nat) (blau : Charmap) (saved : list Polygon),
    blue_within blau c0 -> Forall P saved ->
    Forall P (fst (buildPolygon fuel plane lower blau saved)).
Proof.
  intros Hinj HP. induction fuel as [| fuel IH]; intros blau saved Hin Hsaved;
    [exact Hsaved |].
  cbn [buildPolygon].
  destruct (trace_once (S fuel) plane lower blau) as [[[blau' o] |] | | |] eqn:Ht;
    cbn [fst]; try exact Hsaved.
  destruct (trace_once_shape _ _ _ _ _ _ Hinj Ht) as [Hwithin Hp].
  pose proof (blue_within_trans _ _ _ Hwithin Hin) as Hin'.
  destruct o as [p |].
  - apply IH; [exact Hin' |]. apply Forall_app. split; [exact Hsaved |].
    apply List.Forall_cons; [| apply List.Forall_nil].
    apply (HP blau p Hin). exact (Hp p eq_refl).
  - apply IH; [exact Hin' | exact Hsaved].
Qed.

(** X6: every polygon that [buildPolygon] saves is free of diagonal edges,
    and those with three vertices or more -- all of them for a minimum
    length of 2 or more -- pass the structural check [qcA] of the quality
    control. *)
Theorem traced_polygons_pass_qcA (fuel : nat) (plane : Z -> Z) (lower : Z)
  (blau : Charmap) :
  injective plane ->
  Forall (fun p => isDiagonalFree p = 1 /\
                   (3 <= pointcount p -> qcA p = Ret 1))
         (fst (buildPolygon fuel plane lower blau [])) /\
  (2 <= lower ->
   Forall (fun p => qcA p = Ret 1)
          (fst (buildPolygon fuel plane lower blau []))).
Proof.
  intros Hinj.
  assert (Hall : Forall (fun p => (isDiagonalFree p = 1 /\
                                   (3 <= pointcount p -> qcA p = Ret 1)) /\
                                  lower < pointcount p)
                        (fst (buildPolygon fuel plane lower blau []))).
  { apply Forall_and. split.
    - apply (buildPolygon_shape plane lower blau _ Hinj);
        [| apply blue_within_refl | apply List.Forall_nil].
      intros c p _ (H1 & _ & H3). auto.
    - apply (buildPolygon_saved plane lower (fun p => lower < pointcount p));
        [| apply List.Forall_nil].
      intros f b b' p Ht.
      exact (proj2 (proj2 (trace_once_saved f plane lower b b' p Hinj Ht))). }
  split.
  - eapply List.Forall_impl; [| exact Hall]. intros p [H _]. exact H.
  - intros Hlow. eapply List.Forall_impl; [| exact Hall].
    intros p [[_ H] Hlen]. apply H. lia.
Qed.

Lemma traced_polygons_pass_qcA_witness :
  Forall (fun p => isDiagonalFree p = 1 /\
                   (3 <= pointcount p -> qcA p = Ret 1)) ring_polygons /\
  (2 <= 3 -> Forall (fun p => qcA p = Ret 1) ring_polygons).
Proof.
  exact (traced_polygons_pass_qcA 20 plane1024 3 ring_canvas plane1024_injective).
Defined.

(** X7: every vertex of every polygon that [buildPolygon] saves is the
    vertex of a pixel that is blue in the raster handed to
    [buildPolygon]. *)
Theorem traced_vertices_on_blue (fuel : nat) (plane : Z -> Z) (lower : Z)
  (blau : Charmap) :
  injective plane ->
  Forall (on_blue plane blau) (fst (buildPolygon fuel plane lower blau [])).
Proof.
  intros Hinj.
  apply (buildPolygon_shape plane lower blau _ Hinj);
    [| apply blue_within_refl | apply List.Forall_nil].
  intros c p Hin (_ & Hon & _). exact (on_blue_within plane c blau p Hin Hon).
Qed.

Lemma traced_vertices_on_blue_witness :
  Forall (on_blue plane1024 ring_canvas) ring_polygons.
Proof.
  exact (traced_vertices_on_blue 20 plane1024 3 ring_canvas plane1024_injective).
Defined.

(** ** The oracle with all tables prepared *)

Lemma pip_prepared_plain (apg apg' : Polygon) (ay0 x y : Z) :
  isDiagonalFree apg = 1 ->
  prepareY apg ay0 = Ret apg' ->
  ay0 - BUFFER <= y <= ay0 + BUFFER ->
  point_in_polygonVH apg' x y = point_in_polygonVH (unPrepareY apg) x y.
Proof.
  intros Hdiag Hprep Hy.
  destruct (prepareY_fields _ _ _ Hprep)
    as (Hpts & Huse & Hx0 & Hx1 & Hy0 & Hy1 & _).
  unfold point_in_polygonVH. cbn [unPrepareY set_table xmin xmax ymin ymax points].
  rewrite Hx0, Hx1, Hy0, Hy1, Hpts.
  destruct (_ || _); [reflexivity |].
  pose proof (isDiagonalFree_pts_edge _ Hdiag) as Hrect.
  apply (prepared_walk_eq apg' (unPrepareY apg) ay0); cbn; try lia; auto.
  - intros r Hr Hrange.
    apply (prepareY_chain apg apg' ay0 Hprep r Hr).
    unfold pointcount in *. cbn in Hrange. exact Hrange.
  - unfold pointcount. cbn. lia.
  - unfold pointcount. cbn. lia.
Qed.

Lemma scan_block_same (a b : Polygon) (want : pip) (lo hi : Z) :
  (forall x y, lo <= y <= hi ->
               point_in_polygonVH a x y = point_in_polygonVH b x y) ->
  forall (pts : list (Z * Z)) (ic : Z),
    Forall (fun p => lo <= snd p <= hi) pts ->
    scan_block a want pts ic = scan_block b want pts ic.
Proof.
  intros Hsame. induction pts as [| [x y] rest IH]; intros ic Hall;
    [reflexivity |].
  apply List.Forall_cons_iff in Hall as [Hy Hrest]. cbn [snd] in Hy.
  cbn [scan_block]. rewrite (Hsame x y Hy).
  destruct (point_in_polygonVH b x y) as [r | | |]; cbn [bind]; try reflexivity.
  destruct (pip_eqb r want); [apply IH; exact Hrest | reflexivity].
Qed.

Lemma block_rows (qx qy : Z) :
  Forall (fun p => qy - BUFFER <= snd p <= qy + BUFFER) (block qx qy).
Proof.
  apply block_Forall. intros dx dy Hdx Hdy. cbn [snd].
  unfold mxy, BUFFER in *. lia.
Qed.

Lemma scan_polygon_prepared (apg apg' : Polygon) (want : pip) (ax ay : Q) :
  isDiagonalFree apg = 1 ->
  prepareY apg (scaled ay (nenner apg)) = Ret apg' ->
  scan_polygon apg' want ax ay = scan_polygon (unPrepareY apg) want ax ay.
Proof.
  intros Hdiag Hprep.
  destruct (prepareY_fields _ _ _ Hprep) as (_ & _ & _ & _ & _ & _ & Hn).
  unfold scan_polygon. cbn [unPrepareY set_table nenner]. rewrite Hn.
  apply (scan_block_same apg' (unPrepareY apg) want
           (scaled ay (nenner apg) - BUFFER) (scaled ay (nenner apg) + BUFFER)).
  - intros x y Hy. exact (pip_prepared_plain apg apg' _ x y Hdiag Hprep Hy).
  - apply block_rows.
Qed.

Lemma prepare_all_Ret (ay : Q) :
  forall (l l' : list Polygon),
    prepare_all l ay = Ret l' ->
    Forall2 (fun p p' => prepareY p (scaled ay (nenner p)) = Ret p') l l'.
Proof.
  induction l as [| p rest IH]; intros l' Hrun; cbn [prepare_all] in Hrun.
  - inversion Hrun. constructor.
  - destruct (prepareY p _) as [p' | | |] eqn:Hp; try discriminate.
    cbn [bind] in Hrun.
    destruct (prepare_all rest ay) as [rest' | | |]; try discriminate.
    cbn [bind] in Hrun. inversion Hrun. constructor; [exact Hp | now apply IH].
Qed.

Lemma prepare_all_returns (ay : Q) (l : list Polygon) :
  Forall preparable l -> exists l', prepare_all l ay = Ret l'.
Proof.
  induction 1 as [| p rest [_ Halloc] _ [rest' IH]]; cbn [prepare_all]; [eauto |].
  destruct (prepareY_returns p (scaled ay (nenner p)) Halloc) as [p' ->].
  cbn [bind]. rewrite IH. cbn [bind]. eauto.
Qed.

Lemma prepareY_loop_length (pts : list PolygonPoint) (ay : Z) :
  forall (n : nat) (i : Z) (yp : list Z) (li : Z) (yp' : list Z) (li' : Z),
    prepareY_loop n pts ay i yp li = Ret (yp', li') -> length yp' = length yp.
Proof.
  induction n as [| n IH]; intros i yp li yp' li' Hloop;
    cbn [prepareY_loop] in Hloop.
  - now inversion Hloop.
  - destruct (rd pts (i - 1)) as [a | | |]; try discriminate.
    destruct (rd pts i) as [b | | |]; try discriminate.
    cbn [bind] in Hloop. destruct (in_band ay a b).
    + destruct (wr yp _ i) as [yp1 | | |] eqn:Hw1; try discriminate.
      cbn [bind] in Hloop. apply wr_length in Hw1.
      rewrite (IH _ _ _ _ _ Hloop). exact Hw1.
    + exact (IH _ _ _ _ _ Hloop).
Qed.

Lemma prepareY_preparable (apg apg' : Polygon) (ay0 : Z) :
  preparable apg -> prepareY apg ay0 = Ret apg' -> preparable apg'.
Proof.
  intros [Hdiag [Hpos Hlen]] Hprep.
  destruct (prepareY_fields _ _ _ Hprep) as (Hpts & _).
  assert (Hyp : length (yprepare apg') = length (yprepare apg)).
  { unfold prepareY in Hprep.
    destruct (prepareY_loop _ _ _ _ _ _) as [[yp li] | | |] eqn:Hloop;
      try discriminate.
    cbn [bind] in Hprep.
    destruct (wr yp _ _) as [yp' | | |] eqn:Hw; try discriminate.
    cbn [bind] in Hprep. inversion Hprep. cbn.
    apply wr_length in Hw. rewrite Hw.
    exact (prepareY_loop_length _ _ _ _ _ _ _ _ Hloop). }
  split.
  - unfold isDiagonalFree in *. now rewrite Hpts.
  - unfold table_allocated, pointcount in *. rewrite Hyp, Hpts. lia.
Qed.

Lemma jsoracle_int_prepared (ax ay : Q) :
  forall (l l' : list Polygon),
    Forall preparable l ->
    Forall2 (fun p p' => prepareY p (scaled ay (nenner p)) = Ret p') l l' ->
    jsoracle_int l' ax ay = jsoracle_int (map unPrepareY l) ax ay.
Proof.
  intros l l' Hall H2. induction H2 as [| p p' rest rest' Hp _ IH];
    [reflexivity |].
  apply List.Forall_cons_iff in Hall as [[Hdiag _] Hrest].
  cbn [jsoracle_int map].
  rewrite (scan_polygon_prepared p p' PIP_INTERIOR ax ay Hdiag Hp).
  destruct (scan_polygon _ _ _ _) as [ic | | |]; cbn [bind]; try reflexivity.
  destruct (ic =? AREA); [reflexivity | exact (IH Hrest)].
Qed.

Lemma jsoracle_ext_prepared (ax ay : Q) :
  forall (l l' : list Polygon),
    Forall preparable l ->
    Forall2 (fun p p' => prepareY p (scaled ay (nenner p)) = Ret p') l l' ->
    forall e0,
      jsoracle_ext l' ax ay e0 = jsoracle_ext (map unPrepareY l) ax ay e0.
Proof.
  intros l l' Hall H2. induction H2 as [| p p' rest rest' Hp _ IH];
    intros e0; [reflexivity |].
  apply List.Forall_cons_iff in Hall as [[Hdiag _] Hrest].
  cbn [jsoracle_ext map].
  destruct (prepareY_fields _ _ _ Hp) as (Hpts & _).
  replace (pointcount p') with (pointcount (unPrepareY p))
    by (unfold pointcount; cbn; now rewrite Hpts).
  destruct (pointcount (unPrepareY p) >? 0); [| exact (IH Hrest e0)].
  rewrite (scan_polygon_prepared p p' PIP_EXTERIOR ax ay Hdiag Hp).
  destruct (scan_polygon _ _ _ _) as [ic | | |]; cbn [bind]; try reflexivity.
  destruct (negb (ic =? AREA)); [reflexivity | exact (IH Hrest _)].
Qed.

(** X8: on polygons without diagonal edges whose table buffers are
    allocated, [prepareYOracle] builds all jump tables for the row of [ay],
    whatever state the tables were in, and [jsoracle] then gives for every
    [ax] on that row the answer it gives with all tables switched off; the
    polygons can be prepared again for another row. *)
Theorem prepareYOracle_keeps_answers (intp extp : list Polygon) (ay : Q) :
  Forall preparable intp -> Forall preparable extp ->
  exists intp' extp',
    prepareYOracle intp extp ay = Ret (intp', extp') /\
    (forall ax, jsoracle intp' extp' ax ay =
                jsoracle (fst (unPrepareYOracle intp extp))
                         (snd (unPrepareYOracle intp extp)) ax ay) /\
    Forall preparable intp' /\ Forall preparable extp'.
Proof.
  intros Hi He. unfold prepareYOracle.
  destruct (prepare_all_returns ay intp Hi) as [intp' Hpi].
  destruct (prepare_all_returns ay extp He) as [extp' Hpe].
  rewrite Hpi, Hpe. cbn [bind]. exists intp', extp'.
  split; [reflexivity |].
  apply prepare_all_Ret in Hpi, Hpe.
  split; [| split].
  - intros ax. unfold jsoracle, unPrepareYOracle. cbn [fst snd].
    rewrite (jsoracle_int_prepared ax ay intp intp' Hi Hpi).
    destruct (jsoracle_int _ ax ay) as [[|] | | |]; cbn [bind]; try reflexivity.
    rewrite (jsoracle_ext_prepared ax ay extp extp' He Hpe).
    rewrite length_map, (Forall2_length _ _ _ Hpe). reflexivity.
  - clear - Hi Hpi. induction Hpi as [| p p' rest rest' Hp _ IH];
      [constructor |].
    apply List.Forall_cons_iff in Hi as [Hp0 Hrest].
    constructor; [exact (prepareY_preparable _ _ _ Hp0 Hp) | exact (IH Hrest)].
  - clear - He Hpe. induction Hpe as [| p p' rest rest' Hp _ IH];
      [constructor |].
    apply List.Forall_cons_iff in He as [Hp0 Hrest].
    constructor; [exact (prepareY_preparable _ _ _ Hp0 Hp) | exact (IH Hrest)].
Qed.

Lemma prepareYOracle_keeps_answers_witness :
  exists intp' extp',
    prepareYOracle [square10] [square100] (7 # 2) = Ret (intp', extp') /\
    (forall ax, jsoracle intp' extp' ax (7 # 2) =
                jsoracle (fst (unPrepareYOracle [square10] [square100]))
                         (snd (unPrepareYOracle [square10] [square100]))
                         ax (7 # 2)) /\
    Forall preparable intp' /\ Forall preparable extp'.
Proof.
  apply (prepareYOracle_keeps_answers [square10] [square100] (7 # 2));
    (apply List.Forall_cons; [| apply List.Forall_nil]);
    (split; [reflexivity | unfold table_allocated, pointcount; cbn; lia]).
Defined.

(** ** The order of the polygons *)

Lemma jsoracle_cases (intp extp : list Polygon) (ax ay : Q) (r : pip) :
  jsoracle intp extp ax ay = Ret r ->
  (r = PIP_INTERIOR /\ Exists (whole_block PIP_INTERIOR ax ay) intp) \/
  (r = PIP_EXTERIOR /\ ~ Exists (whole_block PIP_INTERIOR ax ay) intp /\
   Exists (fun p => nonempty p = true) extp /\
   Forall (fun p => nonempty p = true -> whole_block PIP_EXTERIOR ax ay p) extp) \/
  (r = PIP_UNKNOWN /\ ~ Exists (whole_block PIP_INTERIOR ax ay) intp /\
   ~ (Exists (fun p => nonempty p = true) extp /\
      Forall (fun p => nonempty p = true -> whole_block PIP_EXTERIOR ax ay p)
             extp)).
Proof.
  intros Hrun. unfold jsoracle in Hrun.
  destruct (jsoracle_int intp ax ay) as [hit | | |] eqn:Hint; try discriminate.
  cbn [bind] in Hrun. apply jsoracle_int_Ret in Hint.
  destruct hit.
  { inversion Hrun. left. split; [reflexivity | now apply Hint]. }
  assert (Hno : ~ Exists (whole_block PIP_INTERIOR ax ay) intp)
    by (intros H; apply Hint in H; discriminate).
  destruct (jsoracle_ext extp ax ay PIP_UNKNOWN) as [out | | |] eqn:Hext;
    try discriminate.
  cbn [bind] in Hrun. apply jsoracle_ext_Ret in Hext.
  destruct out as [e |].
  - destruct Hext as [Hall [[Hex ->] | [Hnone ->]]].
    + replace (Z.of_nat (length extp) >? 0) with true in Hrun
        by (destruct extp; [inversion Hex | reflexivity]).
      inversion Hrun. right. left. tauto.
    + inversion Hrun. right. right. split; [reflexivity |].
      split; [exact Hno |]. intros (Hex & _).
      apply Exists_exists in Hex as (p & Hp & Hne).
      rewrite Forall_forall in Hnone. specialize (Hnone p Hp). congruence.
  - inversion Hrun. right. right. split; [reflexivity |].
    split; [exact Hno |]. intros (_ & Hall).
    apply Exists_exists in Hext as (p & Hp & Hne & Hnot).
    rewrite Forall_forall in Hall. now specialize (Hall p Hp Hne).
Qed.

(** X9: the answer of [jsoracle] does not depend on the order in which the
    interior polygons and the exterior polygons are stored, for polygons
    without diagonal edges whose tables are off or built by [prepareY]. *)
Theorem jsoracle_order_irrelevant (intp extp intp' extp' : list Polygon)
  (ax ay : Q) :
  Forall oracle_ready intp -> Forall oracle_ready extp ->
  Permutation intp intp' -> Permutation extp extp' ->
  jsoracle intp' extp' ax ay = jsoracle intp extp ax ay.
Proof.
  intros Hi He Pi Pe.
  pose proof (Permutation_Forall Pi Hi) as Hi'.
  pose proof (Permutation_Forall Pe He) as He'.
  destruct (jsoracle_returns intp extp ax ay Hi He) as [r Hr].
  destruct (jsoracle_returns intp' extp' ax ay Hi' He') as [r' Hr'].
  rewrite Hr, Hr'. f_equal.
  apply jsoracle_cases in Hr, Hr'.
  assert (HI : Exists (whole_block PIP_INTERIOR ax ay) intp <->
               Exists (whole_block PIP_INTERIOR ax ay) intp')
    by (split; apply Permutation_Exists; [exact Pi | now symmetry]).
  assert (HE : Exists (fun p => nonempty p = true) extp <->
               Exists (fun p => nonempty p = true) extp')
    by (split; apply Permutation_Exists; [exact Pe | now symmetry]).
  assert (HF : Forall (fun p => nonempty p = true ->
                                whole_block PIP_EXTERIOR ax ay p) extp <->
               Forall (fun p => nonempty p = true ->
                                whole_block PIP_EXTERIOR ax ay p) extp')
    by (split; apply Permutation_Forall; [exact Pe | now symmetry]).
  destruct Hr as [[-> H1] | [[-> H1] | [-> H1]]];
    destruct Hr' as [[-> H2] | [[-> H2] | [-> H2]]];
    try reflexivity; exfalso; tauto.
Qed.

Lemma jsoracle_order_irrelevant_witness :
  jsoracle [square100; square10] [square100] (5 # 1) (5 # 1) =
  jsoracle [square10; square100] [square100] (5 # 1) (5 # 1).
Proof.
  apply (jsoracle_order_irrelevant [square10; square100] [square100]);
    try (repeat (apply List.Forall_cons;
                 [split; [reflexivity | left; cbn; lia] |]);
         apply List.Forall_nil).
  - apply perm_swap.
  - apply Permutation_refl.
Defined.

(** ** The seam loop on arbitrary polygons *)

Lemma rd_lookup {A : Type} (l : list A) (i : Z) (a : A) :
  rd l i = Ret a -> 0 <= i /\ l !! Z.to_nat i = Some a.
Proof.
  intros H. apply rd_Ret in H. pose proof (zget_bounds _ _ _ H).
  rewrite zget_nat in H by lia. split; [lia | exact H].
Qed.

Lemma rd_at {A : Type} (l : list A) (i : nat) (z : Z) (a : A) :
  z = Z.of_nat i -> l !! i = Some a -> rd l z = Ret a.
Proof. intros ->. apply rd_nat. Qed.

Lemma trim_turn (cur : list PolygonPoint) (f : nat) :
  (3 <= length cur)%nat ->
  exists p0 p1 pl,
    cur !! 0%nat = Some p0 /\ cur !! 1%nat = Some p1 /\
    cur !! (length cur - 2)%nat = Some pl /\
    trim_loop (S f) cur =
    if seam_colinear p0 p1 pl
    then trim_loop f (<[1%nat := mkPoint (py pl) (py p1)]>
                        (<[0%nat := mkPoint (px pl) (py p0)]>
                           (take (length cur - 1) cur)))
    else Ret cur.
Proof.
  intros Hlen.
  destruct (lookup_lt_is_Some_2 cur 0%nat ltac:(lia)) as [p0 H0].
  destruct (lookup_lt_is_Some_2 cur 1%nat ltac:(lia)) as [p1 H1].
  destruct (lookup_lt_is_Some_2 cur (length cur - 2)%nat ltac:(lia)) as [pl Hl].
  exists p0, p1, pl. split; [exact H0 |]. split; [exact H1 |].
  split; [exact Hl |].
  cbn [trim_loop]. rewrite Z.geb_leb.
  destruct (Z.leb_spec 3 (Z.of_nat (length cur))); [| lia].
  rewrite (rd_at cur 0 0 p0 eq_refl H0), (rd_at cur 1 1 p1 eq_refl H1).
  cbn [bind].
  rewrite (rd_at cur (length cur - 2) (Z.of_nat (length cur) - 2) pl
             ltac:(lia) Hl). cbn [bind].
  destruct (seam_colinear p0 p1 pl); [| reflexivity].
  set (pts1 := take (length cur - 1) cur).
  assert (Hlen1 : length pts1 = (length cur - 1)%nat)
    by (unfold pts1; rewrite length_take; lia).
  assert (Hq : pts1 !! (length cur - 2)%nat = Some pl)
    by (unfold pts1; rewrite lookup_take_lt by lia; exact Hl).
  assert (Ha0 : pts1 !! 0%nat = Some p0)
    by (unfold pts1; rewrite lookup_take_lt by lia; exact H0).
  assert (Ha1 : pts1 !! 1%nat = Some p1)
    by (unfold pts1; rewrite lookup_take_lt by lia; exact H1).
  rewrite (rd_at pts1 (length cur - 2) (Z.of_nat (length cur) - 1 - 1) pl
             ltac:(lia) Hq),
    (rd_at pts1 0 0 p0 eq_refl Ha0). cbn [bind].
  unfold wr. cbn [Z.leb Z.compare].
  destruct (Z.ltb_spec 0 (Z.of_nat (length pts1))); [| lia].
  cbn [andb bind]. change (Z.to_nat 0) with 0%nat.
  set (pts2 := <[0%nat := mkPoint (px pl) (py p0)]> pts1).
  assert (Hq2 : pts2 !! (length cur - 2)%nat = Some pl)
    by (unfold pts2; rewrite list_lookup_insert_ne by lia; exact Hq).
  assert (Hb1 : pts2 !! 1%nat = Some p1)
    by (unfold pts2; rewrite list_lookup_insert_ne by lia; exact Ha1).
  rewrite (rd_at pts2 (length cur - 2) (Z.of_nat (length cur) - 1 - 1) pl
             ltac:(lia) Hq2),
    (rd_at pts2 1 1 p1 eq_refl Hb1). cbn [bind].
  destruct (Z.ltb_spec 1 (Z.of_nat (length pts2)));
    [| unfold pts2 in *; rewrite length_insert in *; lia].
  cbn [andb bind]. change (Z.to_nat 1) with 1%nat. reflexivity.
Qed.

Lemma trimmed_step (pts cur : list PolygonPoint) (p0 p1 pl : PolygonPoint) :
  (3 <= length cur)%nat ->
  cur !! 0%nat = Some p0 -> cur !! 1%nat = Some p1 ->
  cur !! (length cur - 2)%nat = Some pl ->
  trimmed_from pts cur ->
  trimmed_from pts (<[1%nat := mkPoint (py pl) (py p1)]>
                      (<[0%nat := mkPoint (px pl) (py p0)]>
                         (take (length cur - 1) cur))).
Proof.
  intros Hlen H0 H1 Hl Hfrom.
  set (next := <[1%nat := _]> _).
  assert (Hnlen : length next = (length cur - 1)%nat)
    by (unfold next; rewrite !length_insert, length_take; lia).
  assert (Hkeep : forall j : nat, (2 <= j < length next)%nat ->
                                  next !! j = cur !! j).
  { intros j Hj. unfold next.
    rewrite !list_lookup_insert_ne by lia. apply lookup_take_lt. lia. }
  assert (Hfirst : next !! 0%nat = Some (mkPoint (px pl) (py p0))).
  { unfold next. rewrite list_lookup_insert_ne by lia.
    apply list_lookup_insert_eq. rewrite length_take. lia. }
  assert (Hsecond : next !! 1%nat = Some (mkPoint (py pl) (py p1))).
  { unfold next. apply list_lookup_insert_eq.
    rewrite length_insert, length_take. lia. }
  right.
  assert (Hbase : (length cur <= length pts)%nat /\
                  (forall j : nat, (2 <= j < length cur)%nat ->
                                   cur !! j = pts !! j) /\
                  exists q0 q1, pts !! 0%nat = Some q0 /\ pts !! 1%nat = Some q1 /\
                                py p0 = py q0 /\ py p1 = py q1).
  { destruct Hfrom as [-> | (Hl2 & Hsame & A & B & q0 & q1 & HA & HB & Hq0 & Hq1 & Hy0 & Hy1 & _)].
    - split; [lia |]. split; [auto |]. exists p0, p1. auto.
    - split; [lia |]. split; [exact Hsame |]. exists q0, q1.
      assert (A = p0) by congruence. assert (B = p1) by congruence. subst.
      auto. }
  destruct Hbase as (Hle & Hsame & q0 & q1 & Hq0 & Hq1 & Hy0 & Hy1).
  split; [lia |]. split.
  - intros j Hj. rewrite Hkeep by lia. apply Hsame. lia.
  - exists (mkPoint (px pl) (py p0)), (mkPoint (py pl) (py p1)), q0, q1.
    repeat split; try assumption.
    intros Hthree. exists pl. rewrite Hnlen.
    replace (length cur - 1 - 1)%nat with (length cur - 2)%nat by lia.
    split; [| split; reflexivity].
    rewrite <- Hsame by lia. exact Hl.
Qed.

Lemma trim_loop_result (pts : list PolygonPoint) :
  forall (fuel : nat) (cur : list PolygonPoint),
    (length cur < fuel)%nat -> trimmed_from pts cur ->
    exists out, trim_loop fuel cur = Ret out /\
                trimmed_from pts out /\ seam_settled out.
Proof.
  induction fuel as [| fuel IH]; intros cur Hfuel Hfrom; [lia |].
  destruct (Nat.lt_ge_cases (length cur) 3) as [Hshort | Hlong].
  - exists cur. split; [| split; [exact Hfrom | intros H; lia]].
    cbn [trim_loop]. rewrite Z.geb_leb.
    destruct (Z.leb_spec 3 (Z.of_nat (length cur))); [lia | reflexivity].
  - destruct (trim_turn cur fuel Hlong) as (p0 & p1 & pl & H0 & H1 & Hl & ->).
    destruct (seam_colinear p0 p1 pl) eqn:Hseam.
    + apply IH.
      * rewrite !length_insert, length_take. lia.
      * now apply trimmed_step.
    + exists cur. split; [reflexivity |]. split; [exact Hfrom |].
      intros _ q0 q1 ql Hq0 Hq1 Hql.
      assert (q0 = p0) by congruence. assert (q1 = p1) by congruence.
      assert (ql = pl) by congruence. subst. exact Hseam.
Qed.

(** X10: [trimColinearStart] returns on every polygon and leaves the seam
    test failing.  A polygon it shortens keeps its vertices from index 2
    on, and the y of its first two vertices; with three vertices or more
    left, the first vertex has taken the x of the vertex that is last
    now, and the second vertex has taken as x the y of that vertex.
    Denominator, box and jump table stay as they are. *)
Theorem trimColinearStart_result (apg : Polygon) :
  exists apg',
    trimColinearStart apg = Ret apg' /\
    trimmed_from (points apg) (points apg') /\
    seam_settled (points apg') /\
    nenner apg' = nenner apg /\ box_of apg' = box_of apg /\
    useprepare apg' = useprepare apg /\ yprepare apg' = yprepare apg.
Proof.
  unfold trimColinearStart.
  destruct (trim_loop_result (points apg) (S (length (points apg))) (points apg)
              ltac:(lia) ltac:(now left)) as (out & -> & Hfrom & Hseam).
  cbn [bind]. eexists. split; [reflexivity |]. cbn.
  repeat split; assumption.
Qed.

(** ** Painting pixels *)

Lemma wr_zget (l l' : list Z) (i v : Z) :
  wr l i v = Ret l' ->
  length l' = length l /\
  forall j, zget l' j = if j =? i then Some v else zget l j.
Proof.
  intros Hw. pose proof (wr_length _ _ _ _ Hw) as Hlen.
  apply wr_Ret in Hw as [Hi ->]. split; [exact Hlen |]. intros j.
  destruct (Z.eqb_spec j i) as [-> | Hne].
  - now apply zget_insert_eq.
  - destruct (Z.lt_ge_cases j 0) as [Hneg | Hpos].
    + unfold zget. destruct (Z.ltb_spec j 0); [reflexivity | lia].
    + apply zget_insert_ne; lia.
Qed.

Lemma same_size_refl (c : Charmap) : same_size c c.
Proof. repeat split. Qed.

Lemma same_size_trans (c1 c2 c3 : Charmap) :
  same_size c1 c2 -> same_size c2 c3 -> same_size c1 c3.
Proof. unfold same_size. intros (? & ? & ?) (? & ? & ?). repeat split; congruence. Qed.

Lemma same_size_ok (c' c : Charmap) :
  same_size c' c -> canvas_ok c -> canvas_ok c'.
Proof.
  unfold same_size, canvas_ok. intros (Hx & Hy & Hl) (H1 & H2 & H3).
  rewrite Hx, Hy, Hl. auto.
Qed.

Lemma setPoint_same_size (c c' : Charmap) (x y v : Z) :
  setPoint c x y v = Ret c' -> same_size c' c.
Proof.
  intros Hset. apply setPoint_Ret in Hset as (_ & Hx & Hy & Hcmp).
  unfold same_size. rewrite Hcmp, length_insert. auto.
Qed.

(** Two pixels of the raster at the same place of the array are the same
    pixel. *)
Lemma cell_unique (w x y x' y' : Z) :
  0 <= x < w -> 0 <= x' < w -> y * w + x = y' * w + x' -> x = x' /\ y = y'.
Proof. intros Hx Hx' Heq. assert (y = y') by nia. subst. lia. Qed.

Lemma setPoint_pixels (c c' : Charmap) (x0 y0 v : Z) :
  0 <= x0 < xlen c ->
  setPoint c x0 y0 v = Ret c' ->
  forall x y, 0 <= x < xlen c ->
    getPoint c' x y = if (x =? x0) && (y =? y0) then Ret v else getPoint c x y.
Proof.
  intros Hx0 Hset x y Hx.
  destruct (Z.eqb_spec x x0) as [-> | Hne];
    [destruct (Z.eqb_spec y y0) as [-> | Hney] |]; cbn [andb].
  - exact (getPoint_set_same _ _ _ _ _ Hset).
  - apply (getPoint_set_other _ _ _ _ _ _ _ Hset).
    intros Heq. destruct (cell_unique _ _ _ _ _ Hx Hx0 Heq). contradiction.
  - apply (getPoint_set_other _ _ _ _ _ _ _ Hset).
    intros Heq. destruct (cell_unique _ _ _ _ _ Hx Hx0 Heq). contradiction.
Qed.

Lemma fill_row_pixels (y0 ff : Z) :
  forall (n : nat) (c : Charmap) (x0 : Z),
    canvas_ok c -> 0 <= x0 -> x0 + Z.of_nat n <= xlen c -> 0 <= y0 < ylen c ->
    exists c', fill_row n c x0 y0 ff = Ret c' /\ same_size c' c /\
      forall x y, 0 <= x < xlen c ->
        getPoint c' x y =
        if (y =? y0) && (x0 <=? x) && (x <? x0 + Z.of_nat n)
        then Ret ff else getPoint c x y.
Proof.
  induction n as [| n IH]; intros c x0 Hok Hx0 Hn Hy0; cbn [fill_row].
  - exists c. split; [reflexivity |]. split; [apply same_size_refl |].
    intros x y Hx.
    destruct (Z.leb_spec x0 x), (Z.ltb_spec x (x0 + Z.of_nat 0));
      rewrite ?andb_false_r; cbn [andb]; try reflexivity; lia.
  - destruct (setPoint_in c x0 y0 ff Hok) as [c1 Hset];
      [apply cell_in; (assumption || lia) |].
    rewrite Hset. cbn [bind].
    pose proof (setPoint_same_size _ _ _ _ _ Hset) as Hs1.
    pose proof Hs1 as (Hx1 & Hy1 & _).
    destruct (IH c1 (x0 + 1) (same_size_ok _ _ Hs1 Hok)) as (c' & Hrun & Hs & Hpix);
      [lia | lia | lia |].
    exists c'. split; [exact Hrun |].
    split; [exact (same_size_trans _ _ _ Hs Hs1) |].
    intros x y Hx. rewrite Hpix by lia.
    rewrite (setPoint_pixels c c1 x0 y0 ff ltac:(lia) Hset x y Hx).
    destruct (Z.eqb_spec y y0), (Z.eqb_spec x x0), (Z.leb_spec (x0 + 1) x),
      (Z.leb_spec x0 x), (Z.ltb_spec x (x0 + 1 + Z.of_nat n)),
      (Z.ltb_spec x (x0 + Z.of_nat (S n)));
      cbn [andb]; try reflexivity; lia.
Qed.

Lemma fill_rows_pixels (x0 x1 ff : Z) :
  0 <= x0 <= x1 ->
  forall (m : nat) (c : Charmap) (y0 : Z),
    canvas_ok c -> x1 < xlen c -> 0 <= y0 -> y0 + Z.of_nat m <= ylen c ->
    exists c', fill_rows m c x0 x1 y0 ff = Ret c' /\ same_size c' c /\
      forall x y, 0 <= x < xlen c ->
        getPoint c' x y =
        if (x0 <=? x) && (x <=? x1) && (y0 <=? y) && (y <? y0 + Z.of_nat m)
        then Ret ff else getPoint c x y.
Proof.
  intros Hx01. induction m as [| m IH]; intros c y0 Hok Hx1 Hy0 Hm;
    cbn [fill_rows].
  - exists c. split; [reflexivity |]. split; [apply same_size_refl |].
    intros x y Hx.
    destruct (Z.leb_spec y0 y), (Z.ltb_spec y (y0 + Z.of_nat 0));
      rewrite ?andb_false_r; cbn [andb]; try reflexivity; lia.
  - destruct (fill_row_pixels y0 ff (Z.to_nat (x1 - x0 + 1)) c x0 Hok)
      as (c1 & Hrow & Hs1 & Hpix1); [lia | lia | lia |].
    rewrite Hrow. cbn [bind]. pose proof Hs1 as (Hxl & Hyl & _).
    destruct (IH c1 (y0 + 1) (same_size_ok _ _ Hs1 Hok)) as (c' & Hrun & Hs & Hpix);
      [lia | lia | lia |].
    exists c'. split; [exact Hrun |].
    split; [exact (same_size_trans _ _ _ Hs Hs1) |].
    intros x y Hx. rewrite Hpix by lia. rewrite Hpix1 by lia.
    destruct (Z.eqb_spec y y0), (Z.leb_spec x0 x), (Z.leb_spec x x1),
      (Z.ltb_spec x (x0 + Z.of_nat (Z.to_nat (x1 - x0 + 1)))),
      (Z.leb_spec (y0 + 1) y), (Z.leb_spec y0 y),
      (Z.ltb_spec y (y0 + 1 + Z.of_nat m)),
      (Z.ltb_spec y (y0 + Z.of_nat (S m)));
      cbn [andb]; try reflexivity; lia.
Qed.

(** X11: [fillrect] on a rectangle that lies inside the raster paints
    exactly the pixels of the rectangle, in whatever order the two corners
    are given, and leaves the size of the raster and all other pixels as
    they are. *)
Theorem fillrect_paints_rectangle (c : Charmap) (ax ay bx by_ ff : Z) :
  canvas_ok c -> in_raster c ax ay -> in_raster c bx by_ ->
  exists c', fillrect c ax ay bx by_ ff = Ret c' /\
             painted (in_rect ax ay bx by_) ff c c'.
Proof.
  intros Hok [Hax Hay] [Hbx Hby]. unfold fillrect, minimumI, maximumI.
  rewrite !Z.gtb_ltb.
  set (x0 := if ax <? bx then ax else bx).
  set (x1 := if bx <? ax then ax else bx).
  set (y0 := if ay <? by_ then ay else by_).
  set (y1 := if by_ <? ay then ay else by_).
  assert (Hx0 : x0 = Z.min ax bx) by (unfold x0; destruct (Z.ltb_spec ax bx); lia).
  assert (Hx1 : x1 = Z.max ax bx) by (unfold x1; destruct (Z.ltb_spec bx ax); lia).
  assert (Hy0 : y0 = Z.min ay by_) by (unfold y0; destruct (Z.ltb_spec ay by_); lia).
  assert (Hy1 : y1 = Z.max ay by_) by (unfold y1; destruct (Z.ltb_spec by_ ay); lia).
  destruct (fill_rows_pixels x0 x1 ff ltac:(lia) (Z.to_nat (y1 - y0 + 1)) c y0 Hok)
    as (c' & Hrun & Hs & Hpix); [lia | lia | lia |].
  exists c'. split; [exact Hrun |]. split; [exact Hs |].
  intros x y [Hx Hy]. rewrite Hpix by lia. unfold in_rect.
  rewrite <- Hx0, <- Hx1, <- Hy0, <- Hy1.
  destruct (Z.leb_spec x0 x), (Z.leb_spec x x1), (Z.leb_spec y0 y),
    (Z.leb_spec y y1), (Z.ltb_spec y (y0 + Z.of_nat (Z.to_nat (y1 - y0 + 1))));
    cbn [andb]; try reflexivity; lia.
Qed.

Lemma fillrect_paints_rectangle_witness :
  exists c', fillrect black_canvas 6 2 3 4 AKTIVCOL = Ret c' /\
             painted (in_rect 6 2 3 4) AKTIVCOL black_canvas c'.
Proof.
  apply (fillrect_paints_rectangle black_canvas 6 2 3 4 AKTIVCOL);
    unfold canvas_ok, in_raster; cbn; lia.
Defined.

(** ** Lines *)

Lemma line_cells_spec (step v : Z) :
  0 < step ->
  forall (n : nat) (l : list Z) (pos : Z),
    0 <= pos ->
    ((0 < n)%nat -> pos + (Z.of_nat n - 1) * step < Z.of_nat (length l)) ->
    exists l', line_cells n l pos step v = Ret l' /\ length l' = length l /\
      (forall k, 0 <= k < Z.of_nat n -> zget l' (pos + k * step) = Some v) /\
      (forall j, (forall k, 0 <= k < Z.of_nat n -> j <> pos + k * step) ->
                 zget l' j = zget l j).
Proof.
  intros Hstep. induction n as [| n IH]; intros l pos Hpos Hfit; cbn [line_cells].
  - exists l. split; [reflexivity |]. split; [reflexivity |].
    split; [intros k Hk; lia | auto].
  - destruct (wr_in l pos v) as (l1 & Hw & Hlen1); [nia |].
    rewrite Hw. cbn [bind]. apply wr_zget in Hw as [_ Hz1].
    destruct (IH l1 (pos + step)) as (l' & Hrun & Hlen & Hhit & Hmiss);
      [lia | intros Hn; rewrite Hlen1; specialize (Hfit ltac:(lia)); nia |].
    exists l'. split; [exact Hrun |]. split; [congruence |]. split.
    + intros k Hk. destruct (Z.eq_dec k 0) as [-> | Hk0].
      * rewrite Hmiss; [rewrite Hz1, Z.mul_0_l, Z.add_0_r, Z.eqb_refl; reflexivity |].
        intros k' Hk'. nia.
      * replace (pos + k * step) with (pos + step + (k - 1) * step) by lia.
        apply Hhit. lia.
    + intros j Hj. rewrite Hmiss.
      * rewrite Hz1. destruct (Z.eqb_spec j pos) as [-> | _]; [| reflexivity].
        exfalso. apply (Hj 0); lia.
      * intros k Hk Heq. apply (Hj (k + 1)); lia.
Qed.

Lemma clamp_nearest (a len : Z) : 0 < len -> clamp a len = nearest a len.
Proof.
  intros Hlen. unfold clamp, nearest. rewrite Z.geb_leb.
  destruct (Z.ltb_spec a 0); [lia |]. destruct (Z.leb_spec len a); lia.
Qed.

Lemma nearest_range (a len : Z) : 0 < len -> 0 <= nearest a len < len.
Proof. unfold nearest. lia. Qed.

Lemma getPoint_cells (c c' : Charmap) (x y : Z) :
  xlen c' = xlen c ->
  zget (cmp c') (y * xlen c + x) = zget (cmp c) (y * xlen c + x) ->
  getPoint c' x y = getPoint c x y.
Proof. intros Hx Hz. unfold getPoint, rd. now rewrite Hx, Hz. Qed.

(** X12: on a raster that is not empty [lineVH] never writes outside the
    array, whatever its arguments: it moves both end points to the nearest
    pixel of the raster and paints the segment between them if it is
    vertical or horizontal; a segment that is diagonal after the move
    paints nothing. *)
Theorem lineVH_stays_inside (c : Charmap) (aax aay bbx bby awert : Z) :
  canvas_ok c -> 0 < ylen c ->
  exists c', lineVH c aax aay bbx bby awert = Ret c' /\
             painted (on_line c aax aay bbx bby) awert c c'.
Proof.
  intros Hok Hy. pose proof Hok as (Hx & _ & Hlen).
  unfold lineVH, on_line. rewrite !clamp_nearest by lia.
  pose proof (nearest_range aax (xlen c) Hx) as Hax.
  pose proof (nearest_range bbx (xlen c) Hx) as Hbx.
  pose proof (nearest_range aay (ylen c) Hy) as Hay.
  pose proof (nearest_range bby (ylen c) Hy) as Hby.
  set (ax := nearest aax (xlen c)) in *. set (bx := nearest bbx (xlen c)) in *.
  set (ay := nearest aay (ylen c)) in *. set (by_ := nearest bby (ylen c)) in *.
  cbv zeta. unfold in_rect.
  destruct (Z.eqb_spec ax bx) as [Hv | Hnv]; cbn [orb].
  - set (y0 := if ay <? by_ then ay else by_).
    set (y1 := if ay <? by_ then by_ else ay).
    assert (Hy0 : y0 = Z.min ay by_)
      by (unfold y0; destruct (Z.ltb_spec ay by_); lia).
    assert (Hy1 : y1 = Z.max ay by_)
      by (unfold y1; destruct (Z.ltb_spec ay by_); lia).
    destruct (line_cells_spec (xlen c) awert Hx (Z.to_nat (y1 - y0 + 1)) (cmp c)
                (y0 * xlen c + ax)) as (l & -> & Hl & Hhit & Hmiss); [nia | nia |].
    cbn [bind]. eexists. split; [reflexivity |].
    split; [repeat split; exact Hl |].
    intros x y [Hxr Hyr]. cbn [andb].
    destruct (Z.leb_spec (Z.min ax bx) x), (Z.leb_spec x (Z.max ax bx)),
      (Z.leb_spec (Z.min ay by_) y), (Z.leb_spec y (Z.max ay by_));
      cbn [andb].
    1: { unfold getPoint. cbn [xlen cmp]. apply rd_Ret.
         replace (y * xlen c + x) with (y0 * xlen c + ax + (y - y0) * xlen c) by nia.
         apply Hhit. lia. }
    all: apply getPoint_cells; [reflexivity |]; cbn [cmp]; apply Hmiss;
      intros k Hk Heq;
      assert (Hu : x = ax /\ y = y0 + k)
        by (apply (cell_unique (xlen c)); [lia | lia | nia]); lia.
  - destruct (Z.eqb_spec ay by_) as [Hh | Hnh].
    + set (x0 := if ax <? bx then ax else bx).
      set (x1 := if ax <? bx then bx else ax).
      assert (Hx0 : x0 = Z.min ax bx)
        by (unfold x0; destruct (Z.ltb_spec ax bx); lia).
      assert (Hx1 : x1 = Z.max ax bx)
        by (unfold x1; destruct (Z.ltb_spec ax bx); lia).
      destruct (line_cells_spec 1 awert ltac:(lia) (Z.to_nat (x1 - x0 + 1)) (cmp c)
                  (ay * xlen c + x0)) as (l & -> & Hl & Hhit & Hmiss); [nia | nia |].
      cbn [bind]. eexists. split; [reflexivity |].
      split; [repeat split; exact Hl |].
      intros x y [Hxr Hyr]. cbn [andb].
      destruct (Z.leb_spec (Z.min ax bx) x), (Z.leb_spec x (Z.max ax bx)),
        (Z.leb_spec (Z.min ay by_) y), (Z.leb_spec y (Z.max ay by_));
        cbn [andb].
      1: { unfold getPoint. cbn [xlen cmp]. apply rd_Ret.
           replace (y * xlen c + x) with (ay * xlen c + x0 + (x - x0) * 1) by nia.
           apply Hhit. lia. }
      all: apply getPoint_cells; [reflexivity |]; cbn [cmp]; apply Hmiss;
        intros k Hk Heq;
        assert (Hu : x = x0 + k /\ y = ay)
          by (apply (cell_unique (xlen c)); [lia | lia | nia]); lia.
    + exists c. split; [reflexivity |]. split; [apply same_size_refl |].
      intros x y _. reflexivity.
Qed.

Lemma lineVH_stays_inside_witness :
  exists c', lineVH black_canvas (-5) 3 40 3 COLORRED = Ret c' /\
             painted (on_line black_canvas (-5) 3 40 3) COLORRED black_canvas c'.
Proof.
  apply (lineVH_stays_inside black_canvas (-5) 3 40 3 COLORRED);
    unfold canvas_ok; cbn; lia.
Defined.

Lemma painted_then (f g : Z -> Z -> bool) (v : Z) (c c1 c2 : Charmap) :
  painted f v c c1 -> painted g v c1 c2 ->
  painted (fun x y => f x y || g x y) v c c2.
Proof.
  intros [Hs1 Hp1] [Hs2 Hp2]. split; [exact (same_size_trans _ _ _ Hs2 Hs1) |].
  intros x y Hin. destruct Hs1 as (Hx & Hy & _).
  rewrite Hp2 by (unfold in_raster in *; rewrite Hx, Hy; exact Hin).
  rewrite Hp1 by exact Hin.
  destruct (f x y), (g x y); reflexivity.
Qed.

Lemma painted_ext (f g : Z -> Z -> bool) (v : Z) (c c' : Charmap) :
  (forall x y, in_raster c x y -> f x y = g x y) ->
  painted f v c c' -> painted g v c c'.
Proof.
  intros Hfg [Hs Hp]. split; [exact Hs |]. intros x y Hin.
  rewrite <- Hfg by exact Hin. now apply Hp.
Qed.

Lemma on_line_row (c : Charmap) (a x y : Z) :
  0 < xlen c -> 0 < ylen c -> in_raster c x y ->
  on_line c 0 a (xlen c - 1) a x y = (y =? nearest a (ylen c)).
Proof.
  intros Hx Hy [Hxr Hyr]. unfold on_line, in_rect.
  pose proof (nearest_range a (ylen c) Hy) as Ha.
  set (n := nearest a (ylen c)) in *.
  replace (nearest 0 (xlen c)) with 0 by (unfold nearest; lia).
  replace (nearest (xlen c - 1) (xlen c)) with (xlen c - 1)
    by (unfold nearest; lia).
  rewrite Z.eqb_refl, orb_true_r. cbn [andb].
  rewrite Z.min_id, Z.max_id.
  destruct (Z.leb_spec (Z.min 0 (xlen c - 1)) x); [| lia].
  destruct (Z.leb_spec x (Z.max 0 (xlen c - 1))); [| lia].
  cbn [andb].
  destruct (Z.leb_spec n y), (Z.leb_spec y n), (Z.eqb_spec y n);
    cbn [andb]; try reflexivity; lia.
Qed.

Lemma on_line_col (c : Charmap) (a x y : Z) :
  0 < xlen c -> 0 < ylen c -> in_raster c x y ->
  on_line c a 0 a (ylen c - 1) x y = (x =? nearest a (xlen c)).
Proof.
  intros Hx Hy [Hxr Hyr]. unfold on_line, in_rect.
  pose proof (nearest_range a (xlen c) Hx) as Ha.
  set (n := nearest a (xlen c)) in *.
  replace (nearest 0 (ylen c)) with 0 by (unfold nearest; lia).
  replace (nearest (ylen c - 1) (ylen c)) with (ylen c - 1)
    by (unfold nearest; lia).
  rewrite Z.eqb_refl. cbn [orb andb].
  rewrite Z.min_id, Z.max_id.
  destruct (Z.leb_spec (Z.min 0 (ylen c - 1)) y); [| lia].
  destruct (Z.leb_spec y (Z.max 0 (ylen c - 1))); [| lia].
  rewrite !andb_true_r.
  destruct (Z.leb_spec n x), (Z.leb_spec x n), (Z.eqb_spec x n);
    cbn [andb]; try reflexivity; lia.
Qed.

(** X13: [drawCrossing] never writes outside a raster that is not empty,
    wherever the marked pixel lies: it paints the two rows and the two
    columns ten pixels away from it, each moved to the nearest row or
    column of the raster, and nothing else. *)
Theorem drawCrossing_stays_inside (c : Charmap) (ax ay af : Z) :
  canvas_ok c -> 0 < ylen c ->
  exists c', drawCrossing c ax ay af = Ret c' /\
             painted (on_crossing c ax ay) af c c'.
Proof.
  intros Hok Hy. unfold drawCrossing.
  destruct (lineVH_stays_inside c 0 (ay - 10) (xlen c - 1) (ay - 10) af Hok Hy)
    as (c1 & -> & P1). cbn [bind].
  pose proof P1 as [S1 _]. pose proof S1 as (X1 & Y1 & _).
  destruct (lineVH_stays_inside c1 0 (ay + 10) (xlen c1 - 1) (ay + 10) af
              (same_size_ok _ _ S1 Hok) ltac:(lia)) as (c2 & -> & P2).
  cbn [bind]. pose proof P2 as [S2 _]. pose proof S2 as (X2 & Y2 & _).
  pose proof (same_size_trans _ _ _ S2 S1) as S02.
  destruct (lineVH_stays_inside c2 (ax - 10) 0 (ax - 10) (ylen c2 - 1) af
              (same_size_ok _ _ S02 Hok) ltac:(lia)) as (c3 & -> & P3).
  cbn [bind]. pose proof P3 as [S3 _]. pose proof S3 as (X3 & Y3 & _).
  pose proof (same_size_trans _ _ _ S3 S02) as S03.
  destruct (lineVH_stays_inside c3 (ax + 10) 0 (ax + 10) (ylen c3 - 1) af
              (same_size_ok _ _ S03 Hok) ltac:(lia)) as (c4 & -> & P4).
  exists c4. split; [reflexivity |].
  pose proof (painted_then _ _ _ _ _ _
                (painted_then _ _ _ _ _ _ (painted_then _ _ _ _ _ _ P1 P2) P3) P4)
    as Pall.
  apply (painted_ext _ _ _ _ _ ) with (2 := Pall).
  intros x y Hin. pose proof Hok as (Hxl & _).
  assert (Hin1 : in_raster c1 x y) by (unfold in_raster in *; now rewrite X1, Y1).
  assert (Hin2 : in_raster c2 x y) by (unfold in_raster in *; now rewrite X2, Y2).
  assert (Hin3 : in_raster c3 x y) by (unfold in_raster in *; now rewrite X3, Y3).
  rewrite (on_line_row c (ay - 10) x y) by (assumption || lia).
  rewrite (on_line_row c1 (ay + 10) x y) by (assumption || lia).
  rewrite (on_line_col c2 (ax - 10) x y) by (assumption || lia).
  rewrite (on_line_col c3 (ax + 10) x y) by (assumption || lia).
  unfold on_crossing. rewrite X3, X2, X1, Y1. reflexivity.
Qed.

Lemma drawCrossing_stays_inside_witness :
  exists c', drawCrossing black_canvas 2 7 COLORRED = Ret c' /\
             painted (on_crossing black_canvas 2 7) COLORRED black_canvas c'.
Proof.
  apply (drawCrossing_stays_inside black_canvas 2 7 COLORRED);
    unfold canvas_ok; cbn; lia.
Defined.

(** ** The white border *)

Lemma lacks_colour_in (c : Charmap) (x y v : Z) :
  canvas_ok c -> in_raster c x y ->
  exists p, getPoint c x y = Ret p /\
            lacks_colour c x y v = Ret (negb (p =? v)).
Proof.
  intros Hok [Hx Hy]. unfold lacks_colour.
  destruct (getPoint_in c x y Hok) as [p Hp]; [apply cell_in; (assumption || lia) |].
  exists p. split; [exact Hp |]. rewrite Hp. reflexivity.
Qed.

Lemma border_test_spec (md : Charmap) (a b : Z) :
  canvas_ok md -> xlen md = ylen md ->
  0 <= a < xlen md -> 0 <= b < xlen md ->
  exists bad, border_test md a b = Ret bad /\
    (bad = false <->
     getPoint md a b = Ret COLORWHITE /\
     getPoint md (xlen md - 1 - a) b = Ret COLORWHITE /\
     getPoint md b a = Ret COLORWHITE /\
     getPoint md b (ylen md - 1 - a) = Ret COLORWHITE).
Proof.
  intros Hok Hsq Ha Hb. unfold border_test, orr.
  destruct (lacks_colour_in md a b COLORWHITE Hok) as (p1 & G1 & ->);
    [unfold in_raster; lia |].
  destruct (lacks_colour_in md (xlen md - 1 - a) b COLORWHITE Hok) as (p2 & G2 & ->);
    [unfold in_raster; lia |].
  destruct (lacks_colour_in md b a COLORWHITE Hok) as (p3 & G3 & ->);
    [unfold in_raster; lia |].
  destruct (lacks_colour_in md b (ylen md - 1 - a) COLORWHITE Hok) as (p4 & G4 & ->);
    [unfold in_raster; lia |].
  rewrite G1, G2, G3, G4. cbn [bind].
  destruct (Z.eqb_spec p1 COLORWHITE) as [-> | N1]; cbn [negb].
  2: { eexists. split; [reflexivity |]. split; [discriminate |].
       intros (H & _). congruence. }
  destruct (Z.eqb_spec p2 COLORWHITE) as [-> | N2]; cbn [negb bind].
  2: { eexists. split; [reflexivity |]. split; [discriminate |].
       intros (_ & H & _). congruence. }
  destruct (Z.eqb_spec p3 COLORWHITE) as [-> | N3]; cbn [negb bind].
  2: { eexists. split; [reflexivity |]. split; [discriminate |].
       intros (_ & _ & H & _). congruence. }
  destruct (Z.eqb_spec p4 COLORWHITE) as [-> | N4]; cbn [negb bind].
  2: { eexists. split; [reflexivity |]. split; [discriminate |].
       intros (_ & _ & _ & H). congruence. }
  eexists. split; [reflexivity |]. tauto.
Qed.

Lemma border_cols_spec (md : Charmap) (a : Z) :
  canvas_ok md -> xlen md = ylen md -> 0 <= a < xlen md ->
  forall (n : nat) (b0 : Z),
    0 <= b0 -> b0 + Z.of_nat n <= xlen md ->
    exists r, border_cols n md a b0 = Ret r /\ (r = 0 \/ r = 1) /\
      (r = 1 <->
       forall b, b0 <= b < b0 + Z.of_nat n ->
         getPoint md a b = Ret COLORWHITE /\
         getPoint md (xlen md - 1 - a) b = Ret COLORWHITE /\
         getPoint md b a = Ret COLORWHITE /\
         getPoint md b (ylen md - 1 - a) = Ret COLORWHITE).
Proof.
  intros Hok Hsq Ha. induction n as [| n IH]; intros b0 Hb0 Hn; cbn [border_cols].
  - exists 1. split; [reflexivity |]. split; [now right |].
    split; [intros _ b Hb; lia | reflexivity].
  - destruct (border_test_spec md a b0 Hok Hsq Ha ltac:(lia)) as (bad & -> & Hbad).
    cbn [bind]. destruct bad.
    + exists 0. split; [reflexivity |]. split; [now left |].
      split; [discriminate |]. intros Hall. exfalso.
      assert (true = false) by (apply Hbad, Hall; lia). discriminate.
    + destruct (IH (b0 + 1) ltac:(lia) ltac:(lia)) as (r & Hr & H01 & Hiff).
      exists r. split; [exact Hr |]. split; [exact H01 |]. rewrite Hiff.
      split.
      * intros Hall b Hb. destruct (Z.eq_dec b b0) as [-> | Hne].
        -- now apply Hbad.
        -- apply Hall. lia.
      * intros Hall b Hb. apply Hall. lia.
Qed.

Lemma border_rows_spec (md : Charmap) :
  canvas_ok md -> xlen md = ylen md ->
  forall (m : nat) (a0 : Z),
    0 <= a0 -> a0 + Z.of_nat m <= xlen md ->
    exists r, border_rows m md a0 = Ret r /\ (r = 0 \/ r = 1) /\
      (r = 1 <->
       forall a b, a0 <= a < a0 + Z.of_nat m -> 0 <= b < xlen md ->
         getPoint md a b = Ret COLORWHITE /\
         getPoint md (xlen md - 1 - a) b = Ret COLORWHITE /\
         getPoint md b a = Ret COLORWHITE /\
         getPoint md b (ylen md - 1 - a) = Ret COLORWHITE).
Proof.
  intros Hok Hsq. induction m as [| m IH]; intros a0 Ha0 Hm; cbn [border_rows].
  - exists 1. split; [reflexivity |]. split; [now right |].
    split; [intros _ a b Ha; lia | reflexivity].
  - destruct (border_cols_spec md a0 Hok Hsq ltac:(lia) (Z.to_nat (xlen md)) 0
                ltac:(lia) ltac:(lia)) as (r0 & -> & H01 & Hrow).
    cbn [bind]. destruct H01 as [-> | ->]; cbn [Z.leb Z.compare].
    + exists 0. split; [reflexivity |]. split; [now left |].
      split; [discriminate |]. intros Hall. exfalso.
      assert (0 = 1) by (apply Hrow; intros b Hb; apply Hall; lia). lia.
    + destruct (IH (a0 + 1) ltac:(lia) ltac:(lia)) as (r & Hr & H01 & Hiff).
      exists r. split; [exact Hr |]. split; [exact H01 |]. rewrite Hiff.
      split.
      * intros Hall a b Ha Hb. destruct (Z.eq_dec a a0) as [-> | Hne].
        -- apply (proj1 Hrow eq_refl). lia.
        -- apply Hall; lia.
      * intros Hall a b Ha Hb. apply Hall; lia.
Qed.

(** X14: on a square raster at least [BORDERWIDTH = 16] pixels wide,
    [borderPresent] reads inside the array only and answers 1 exactly when
    every pixel less than 16 pixels away from an edge of the raster is
    white; otherwise it answers 0. *)
Theorem borderPresent_white_frame (md : Charmap) :
  canvas_ok md -> xlen md = ylen md -> BORDERWIDTH <= xlen md ->
  exists r, borderPresent md = Ret r /\ (r = 0 \/ r = 1) /\
            (r = 1 <-> white_frame md).
Proof.
  intros Hok Hsq Hwide. unfold borderPresent.
  destruct (border_rows_spec md Hok Hsq (Z.to_nat BORDERWIDTH) 0 ltac:(lia)
              ltac:(unfold BORDERWIDTH in *; lia)) as (r & Hr & H01 & Hiff).
  exists r. split; [exact Hr |]. split; [exact H01 |]. rewrite Hiff.
  unfold white_frame, in_raster, BORDERWIDTH in *. split.
  - intros Hall x y [Hx Hy] Hnear.
    destruct (Z.lt_ge_cases x 16) as [H1 | H1].
    { exact (proj1 (Hall x y ltac:(lia) ltac:(lia))). }
    destruct (Z.le_gt_cases (xlen md - 16) x) as [H2 | H2].
    { pose proof (proj1 (proj2 (Hall (xlen md - 1 - x) y ltac:(lia) ltac:(lia))))
        as H. now replace (xlen md - 1 - (xlen md - 1 - x)) with x in H by lia. }
    destruct (Z.lt_ge_cases y 16) as [H3 | H3].
    { exact (proj1 (proj2 (proj2 (Hall y x ltac:(lia) ltac:(lia))))). }
    pose proof (proj2 (proj2 (proj2 (Hall (ylen md - 1 - y) x ltac:(lia) ltac:(lia)))))
      as H. now replace (ylen md - 1 - (ylen md - 1 - y)) with y in H by lia.
  - intros Hframe a b Ha Hb. repeat split; apply Hframe; lia.
Qed.

Lemma borderPresent_white_frame_witness :
  exists r, borderPresent framed_canvas = Ret r /\ (r = 0 \/ r = 1) /\
            (r = 1 <-> white_frame framed_canvas).
Proof.
  apply (borderPresent_white_frame framed_canvas);
    unfold canvas_ok, BORDERWIDTH; cbn; lia.
Defined.

(** ** The palette adjustment *)

Lemma adjust_at_step (pal : list RGB) (md c : Charmap) (x y : Z) :
  canvas_ok md -> in_raster md x y ->
  adjusted_to pal md (y * xlen md + x) c ->
  exists f, zget (cmp md) (y * xlen md + x) = Some f /\
    match class_of pal f with
    | Some v => exists c', adjust_at pal c x y = Ret c' /\
                           adjusted_to pal md (y * xlen md + x + 1) c'
    | None => (exists e, zget pal f = Some e) -> adjust_at pal c x y = Exit99
    end.
Proof.
  intros Hok [Hx Hy] [Hs Hcells]. pose proof Hok as (Hxl & Hyl & Hlen).
  pose proof Hs as (Hsx & Hsy & Hsl).
  assert (Hpos : 0 <= y * xlen md + x < Z.of_nat (length (cmp md))) by nia.
  destruct (zget_Some (cmp md) _ Hpos) as [f Hf].
  exists f. split; [exact Hf |].
  assert (Hget : getPoint c x y = Ret f).
  { unfold getPoint. rewrite Hsx. apply rd_Ret. rewrite Hcells by exact Hpos.
    destruct (Z.ltb_spec (y * xlen md + x) (y * xlen md + x)); [lia | exact Hf]. }
  unfold adjust_at, class_of. rewrite Hget. cbn [bind]. unfold rd.
  destruct (zget pal f) as [e |] eqn:He.
  - cbn [bind]. destruct (classify e) as [v |] eqn:Hc; [| reflexivity].
    destruct (setPoint_in c x y v (same_size_ok _ _ Hs Hok)) as [c' Hset];
      [rewrite Hsx, Hsy; nia |].
    exists c'. split; [exact Hset |].
    pose proof (setPoint_same_size _ _ _ _ _ Hset) as Hs'.
    split; [exact (same_size_trans _ _ _ Hs' Hs) |].
    intros j Hj. apply setPoint_Ret in Hset as (_ & _ & _ & ->).
    rewrite Hsx.
    destruct (Z.eq_dec j (y * xlen md + x)) as [-> | Hne].
    + rewrite zget_insert_eq by (rewrite Hsl; lia).
      destruct (Z.ltb_spec (y * xlen md + x) (y * xlen md + x + 1)); [| lia].
      rewrite Hf. cbn [option_map]. unfold class_or_gray, class_of.
      now rewrite He, Hc.
    + rewrite zget_insert_ne by lia. rewrite Hcells by exact Hj.
      destruct (Z.ltb_spec j (y * xlen md + x)),
        (Z.ltb_spec j (y * xlen md + x + 1)); try reflexivity; lia.
  - intros [e' He']. discriminate.
Qed.

Section Adjust.

Variables (pal : list RGB) (md : Charmap).
Hypothesis md_ok : canvas_ok md.
Hypothesis md_bytes : byte_cells md.
Hypothesis pal_full : length pal = 256%nat.

Lemma palette_entry (j f : Z) :
  zget (cmp md) j = Some f -> exists e, zget pal f = Some e.
Proof.
  intros Hf. apply zget_Some. rewrite pal_full.
  apply zget_In in Hf. unfold byte_cells in md_bytes.
  rewrite List.Forall_forall in md_bytes. specialize (md_bytes f Hf). lia.
Qed.

(** A stretch of cells: either all have a class and the loop goes through,
    or one has none and the run ends there. *)
Lemma adjust_row_spec (y : Z) :
  0 <= y < ylen md ->
  forall (n : nat) (c : Charmap) (x : Z),
    0 <= x -> x + Z.of_nat n <= xlen md ->
    adjusted_to pal md (y * xlen md + x) c ->
    (exists c', adjust_row n pal c x y = Ret c' /\
                adjusted_to pal md (y * xlen md + x + Z.of_nat n) c' /\
                forall j f, y * xlen md + x <= j < y * xlen md + x + Z.of_nat n ->
                            zget (cmp md) j = Some f -> class_of pal f <> None) \/
    (adjust_row n pal c x y = Exit99 /\
     exists j f, zget (cmp md) j = Some f /\ class_of pal f = None).
Proof.
  intros Hy. induction n as [| n IH]; intros c x Hx Hn Hstate; cbn [adjust_row].
  - left. exists c. split; [reflexivity |].
    split; [now rewrite Z.add_0_r | intros j f Hj; lia].
  - destruct (adjust_at_step pal md c x y md_ok ltac:(unfold in_raster; lia) Hstate)
      as (f & Hf & Hcase).
    destruct (class_of pal f) as [v |] eqn:Hclass.
    + destruct Hcase as (c1 & -> & Hstate1). cbn [bind].
      replace (y * xlen md + x + 1) with (y * xlen md + (x + 1)) in Hstate1 by lia.
      destruct (IH c1 (x + 1) ltac:(lia) ltac:(lia) Hstate1)
        as [(c' & Hrun & Hstate' & Hfine) | [Hexit Hbad]].
      * left. exists c'. split; [exact Hrun |].
        split; [now replace (y * xlen md + x + Z.of_nat (S n))
                  with (y * xlen md + (x + 1) + Z.of_nat n) by lia |].
        intros j g Hj Hg. destruct (Z.eq_dec j (y * xlen md + x)) as [-> | Hne].
        -- assert (g = f) by congruence. subst. congruence.
        -- apply (Hfine j g); [lia | exact Hg].
      * right. split; [exact Hexit | exact Hbad].
    + right. rewrite (Hcase (palette_entry _ _ Hf)). split; [reflexivity |].
      exists (y * xlen md + x), f. auto.
Qed.

Lemma adjust_rows_spec :
  forall (m : nat) (c : Charmap) (y : Z),
    0 <= y -> y + Z.of_nat m <= ylen md ->
    adjusted_to pal md (y * xlen md) c ->
    (exists c', adjust_rows m pal c y = Ret c' /\
                adjusted_to pal md ((y + Z.of_nat m) * xlen md) c' /\
                forall j f, y * xlen md <= j < (y + Z.of_nat m) * xlen md ->
                            zget (cmp md) j = Some f -> class_of pal f <> None) \/
    (adjust_rows m pal c y = Exit99 /\
     exists j f, zget (cmp md) j = Some f /\ class_of pal f = None).
Proof.
  induction m as [| m IH]; intros c y Hy Hm Hstate; cbn [adjust_rows].
  - left. exists c. split; [reflexivity |].
    split; [now rewrite Z.add_0_r | intros j f Hj; lia].
  - pose proof Hstate as [(Hsx & _) _]. rewrite Hsx.
    destruct (adjust_row_spec y ltac:(lia) (Z.to_nat (xlen md)) c 0 ltac:(lia)
                ltac:(destruct md_ok; lia)
                ltac:(now rewrite Z.add_0_r))
      as [(c1 & -> & Hstate1 & Hfine1) | [-> Hbad]]; cbn [bind].
    + assert (Hw : Z.of_nat (Z.to_nat (xlen md)) = xlen md)
        by (destruct md_ok; lia).
      rewrite Z.add_0_r, Hw in Hstate1, Hfine1.
      replace (y * xlen md + xlen md) with ((y + 1) * xlen md) in Hstate1, Hfine1
        by lia.
      destruct (IH c1 (y + 1) ltac:(lia) ltac:(lia) Hstate1)
        as [(c' & Hrun & Hstate' & Hfine) | [Hexit Hbad]].
      * left. exists c'. split; [exact Hrun |].
        split; [now replace (y + Z.of_nat (S m)) with (y + 1 + Z.of_nat m) by lia |].
        intros j f Hj Hf.
        destruct (Z.lt_ge_cases j ((y + 1) * xlen md)) as [Hlow | Hhigh].
        -- apply (Hfine1 j f); [lia | exact Hf].
        -- apply (Hfine j f); [lia | exact Hf].
      * right. split; [exact Hexit | exact Hbad].
    + right. split; [reflexivity | exact Hbad].
Qed.

Lemma adjusted_all (c : Charmap) :
  adjusted_to pal md (ylen md * xlen md) c ->
  cmp c = map (class_or_gray pal) (cmp md).
Proof.
  intros [(_ & _ & Hlen) Hcells]. destruct md_ok as (_ & _ & Hsize).
  apply list_eq. intros i. rewrite list_lookup_fmap.
  destruct (Nat.lt_ge_cases i (length (cmp md))) as [Hin | Hout].
  - specialize (Hcells (Z.of_nat i) ltac:(lia)).
    rewrite !zget_nat, Nat2Z.id in Hcells by lia.
    destruct (Z.ltb_spec (Z.of_nat i) (ylen md * xlen md)); [| lia].
    rewrite Hcells. destruct (cmp md !! i); reflexivity.
  - rewrite (lookup_ge_None_2 (cmp c)) by lia.
    now rewrite (lookup_ge_None_2 (cmp md)) by lia.
Qed.

End Adjust.

Lemma classify_classes (e : RGB) (v : Z) :
  classify e = Some v -> v = COLORBLACK \/ v = COLORWHITE \/ v = COLORGRAY.
Proof.
  unfold classify.
  repeat match goal with
         | |- context [if ?b then _ else _] => destruct b
         end; intros H; inversion H; auto.
Qed.

Lemma class_of_standard (v : Z) :
  v = COLORBLACK \/ v = COLORWHITE \/ v = COLORGRAY ->
  class_of setPaletteTo v = Some v.
Proof. intros [-> | [-> | ->]]; reflexivity. Qed.

(** X15: on a raster of byte values with a palette of 256 entries,
    [adjustPalette] either replaces every pixel by the class of its palette
    entry and installs the standard palette, or -- exactly when some pixel
    has a palette entry that is neither dark, bright nor medium -- ends the
    run with [exit(99)].  After it has returned, gray, white and black are
    the only pixel values, and a second call changes nothing. *)
Theorem adjustPalette_three_classes (pal : list RGB) (md : Charmap) :
  canvas_ok md -> byte_cells md -> length pal = 256%nat ->
  (Forall (fun f => class_of pal f <> None) (cmp md) ->
   exists md', adjustPalette pal md = Ret (md', setPaletteTo) /\
               same_size md' md /\
               cmp md' = map (class_or_gray pal) (cmp md) /\
               three_classes md' /\
               adjustPalette setPaletteTo md' = Ret (md', setPaletteTo)) /\
  (~ Forall (fun f => class_of pal f <> None) (cmp md) ->
   adjustPalette pal md = Exit99).
Proof.
  intros Hok Hbytes Hpal.
  assert (Hstart : forall p m, adjusted_to p m (0 * xlen m) m).
  { intros p m. split; [apply same_size_refl |]. intros j Hj.
    destruct (Z.ltb_spec j (0 * xlen m)); [lia | reflexivity]. }
  assert (Hrun : forall p m, canvas_ok m -> byte_cells m -> length p = 256%nat ->
            Forall (fun f => class_of p f <> None) (cmp m) ->
            exists m', adjustPalette p m = Ret (m', setPaletteTo) /\
                       same_size m' m /\ cmp m' = map (class_or_gray p) (cmp m)).
  { intros p m Hm Hb Hp Hall. unfold adjustPalette.
    destruct (adjust_rows_spec p m Hm Hb Hp (Z.to_nat (ylen m)) m 0 ltac:(lia)
                ltac:(destruct Hm; lia) (Hstart p m))
      as [(c' & -> & Hstate & _) | [_ (j & f & Hf & Hnone)]].
    - cbn [bind]. exists c'. split; [reflexivity |].
      split; [exact (proj1 Hstate) |].
      replace ((0 + Z.of_nat (Z.to_nat (ylen m))) * xlen m)
        with (ylen m * xlen m) in Hstate by (destruct Hm; lia).
      eapply adjusted_all; eassumption.
    - exfalso. rewrite List.Forall_forall in Hall.
      exact (Hall f (zget_In _ _ _ Hf) Hnone). }
  split.
  - intros Hall. destruct (Hrun pal md Hok Hbytes Hpal Hall) as (md' & Hret & Hs & Hcmp).
    assert (Hthree : three_classes md').
    { unfold three_classes. rewrite Hcmp. apply List.Forall_map.
      rewrite List.Forall_forall in Hall |- *. intros f Hf.
      specialize (Hall f Hf). unfold class_or_gray, class_of in *.
      destruct (zget pal f) as [e |]; [| contradiction].
      destruct (classify e) as [v |] eqn:Hc; [| contradiction].
      exact (classify_classes e v Hc). }
    exists md'. split; [exact Hret |]. split; [exact Hs |].
    split; [exact Hcmp |]. split; [exact Hthree |].
    destruct (Hrun setPaletteTo md' (same_size_ok _ _ Hs Hok)) as (md2 & Hret2 & Hs2 & Hcmp2).
    + eapply List.Forall_impl; [| exact Hthree]. intros v [-> | [-> | ->]];
        unfold COLORBLACK, COLORWHITE, COLORGRAY; lia.
    + reflexivity.
    + eapply List.Forall_impl; [| exact Hthree]. intros v Hv.
      rewrite (class_of_standard v Hv). discriminate.
    + rewrite Hret2. f_equal. f_equal.
      assert (Hsame : map (class_or_gray setPaletteTo) (cmp md') = cmp md').
      { rewrite <- (map_id (cmp md')) at 2. apply map_ext_in.
        intros v Hv. unfold three_classes in Hthree.
        rewrite List.Forall_forall in Hthree. specialize (Hthree v Hv).
        unfold class_or_gray. now rewrite (class_of_standard v Hthree). }
      rewrite Hsame in Hcmp2. destruct Hs2 as (Hx2 & Hy2 & _).
      destruct md2 as [x2 y2 l2], md' as [x1 y1 l1].
      cbn in Hx2, Hy2, Hcmp2. congruence.
  - intros Hnot. unfold adjustPalette.
    destruct (adjust_rows_spec pal md Hok Hbytes Hpal (Z.to_nat (ylen md)) md 0
                ltac:(lia) ltac:(destruct Hok; lia) (Hstart pal md))
      as [(c' & _ & _ & Hfine) | [-> _]]; [| reflexivity].
    exfalso. apply Hnot. apply List.Forall_forall. intros f Hf.
    apply list_elem_of_In, list_elem_of_lookup_1 in Hf as [i Hi].
    apply (Hfine (Z.of_nat i) f).
    + apply lookup_lt_Some in Hi. destruct Hok as (? & ? & Hsize). nia.
    + rewrite zget_nat by lia. now rewrite Nat2Z.id.
Qed.

Lemma adjustPalette_three_classes_witness :
  exists md', adjustPalette setPaletteTo framed_canvas = Ret (md', setPaletteTo) /\
              same_size md' framed_canvas /\
              cmp md' = map (class_or_gray setPaletteTo) (cmp framed_canvas) /\
              three_classes md' /\
              adjustPalette setPaletteTo md' = Ret (md', setPaletteTo).
Proof.
  apply (proj1 (adjustPalette_three_classes setPaletteTo framed_canvas
                  ltac:(unfold canvas_ok; cbn; lia)
                  ltac:(unfold byte_cells; apply List.Forall_forall;
                        intros f Hf; cbn in Hf;
                        repeat (destruct Hf as [<- | Hf];
                                [unfold COLORBLACK, COLORWHITE; lia |]);
                        contradiction)
                  eq_refl)).
  apply List.Forall_forall. intros f Hf. cbn in Hf.
  repeat (destruct Hf as [<- | Hf]; [discriminate |]). contradiction.
Defined.

(** ** The boundary pass *)

Lemma has_colour_is (c : Charmap) (x y v p : Z) :
  getPoint c x y = Ret p -> has_colour c x y v = Ret (is_colour c x y v).
Proof. intros H. unfold has_colour, is_colour. now rewrite H. Qed.

Lemma relf_in_row_exists (relf : Z) (c : Charmap) (x y : Z) :
  forall dxs,
    (forall dx, In dx dxs -> exists p, getPoint c (x + dx) y = Ret p) ->
    relf_in_row dxs relf c x y =
    Ret (existsb (fun dx => is_colour c (x + dx) y relf) dxs).
Proof.
  induction dxs as [| dx rest IH]; intros Hread; [reflexivity |].
  cbn [relf_in_row existsb].
  destruct (Hread dx (or_introl eq_refl)) as [p Hp].
  rewrite (has_colour_is c (x + dx) y relf p Hp). cbn [bind].
  destruct (is_colour c (x + dx) y relf); [reflexivity |].
  apply IH. intros d Hd. apply Hread. now right.
Qed.

Lemma relf_near_exists (relf : Z) (c : Charmap) (x y : Z) :
  forall dys,
    (forall dx dy, In dx three -> In dy dys ->
                   exists p, getPoint c (x + dx) (y + dy) = Ret p) ->
    relf_near dys relf c x y =
    Ret (existsb (fun dy => existsb (fun dx => is_colour c (x + dx) (y + dy) relf)
                                    three) dys).
Proof.
  induction dys as [| dy rest IH]; intros Hread; [reflexivity |].
  cbn [relf_near existsb].
  rewrite (relf_in_row_exists relf c x (y + dy) three)
    by (intros dx Hdx; apply Hread; [exact Hdx | now left]).
  cbn [bind]. destruct (existsb _ three); [reflexivity |].
  apply IH. intros dx d Hdx Hd. apply Hread; [exact Hdx | now right].
Qed.

Lemma In_three (d : Z) : In d three -> -1 <= d <= 1.
Proof. unfold three. cbn. lia. Qed.

Section BoundaryPass.

Variables (relf : Z) (c : Charmap).
Hypothesis c_ok : canvas_ok c.
Hypothesis relf_not_active : relf <> AKTIVCOL.
Hypothesis relf_not_blue : relf <> COLORBLUE.

Lemma marked_to_size (k : Z) (cur : Charmap) :
  marked_to relf c k cur -> same_size cur c /\ canvas_ok cur.
Proof. intros [Hs _]. split; [exact Hs | exact (same_size_ok _ _ Hs c_ok)]. Qed.

(** The tests for [relf] see the same in the current raster as in the
    raster the pass started from. *)
Lemma marked_to_relf (k : Z) (cur : Charmap) (x y : Z) :
  marked_to relf c k cur -> in_raster c x y ->
  is_colour cur x y relf = is_colour c x y relf.
Proof.
  intros [_ Hpix] Hin. unfold is_colour at 1. rewrite (Hpix x y Hin).
  destruct ((y * xlen c + x <? k) && marks relf c x y) eqn:Hm.
  - apply andb_true_iff in Hm as [_ Hm]. unfold marks in Hm.
    apply andb_true_iff in Hm as [Hm _]. apply andb_true_iff in Hm as [_ Hakt].
    unfold is_colour in *. destruct (getPoint c x y) as [p | | |]; try discriminate.
    apply Z.eqb_eq in Hakt. subst p.
    destruct (Z.eqb_spec COLORBLUE relf), (Z.eqb_spec AKTIVCOL relf);
      congruence.
  - reflexivity.
Qed.

Lemma marked_to_around (k : Z) (cur : Charmap) (x y : Z) :
  marked_to relf c k cur -> inner c x y = true ->
  relf_around relf cur x y = relf_around relf c x y.
Proof.
  intros Hinv Hinner. unfold relf_around, inner in *.
  apply andb_true_iff in Hinner as [Hinner Hy2].
  apply andb_true_iff in Hinner as [Hinner Hy1].
  apply andb_true_iff in Hinner as [Hx1 Hx2].
  apply Z.leb_le in Hx1, Hx2, Hy1, Hy2.
  unfold three. cbn [existsb].
  rewrite !(marked_to_relf k cur) by (assumption || (unfold in_raster; lia)).
  reflexivity.
Qed.

Lemma mark_at_step (cur : Charmap) (x y : Z) :
  inner c x y = true ->
  marked_to relf c (y * xlen c + x) cur ->
  exists cur', mark_at relf cur x y = Ret cur' /\
               marked_to relf c (y * xlen c + x + 1) cur'.
Proof.
  intros Hinner Hinv.
  destruct (marked_to_size _ _ Hinv) as [Hs Hok]. pose proof Hs as (Hsx & Hsy & _).
  pose proof Hinner as Hin. unfold inner in Hin.
  apply andb_true_iff in Hin as [Hin Hy2]. apply andb_true_iff in Hin as [Hin Hy1].
  apply andb_true_iff in Hin as [Hx1 Hx2]. apply Z.leb_le in Hx1, Hx2, Hy1, Hy2.
  assert (Hread : forall dx dy, -1 <= dx <= 1 -> -1 <= dy <= 1 ->
            exists p, getPoint cur (x + dx) (y + dy) = Ret p).
  { intros dx dy Hdx Hdy. apply (getPoint_in cur _ _ Hok).
    rewrite Hsx, Hsy. destruct c_ok as (? & ? & _). nia. }
  destruct (Hread 0 0 ltac:(lia) ltac:(lia)) as [p Hp].
  rewrite !Z.add_0_r in Hp.
  assert (Hsame : getPoint cur x y = getPoint c x y).
  { destruct Hinv as [_ Hpix]. rewrite (Hpix x y) by (unfold in_raster; lia).
    destruct (Z.ltb_spec (y * xlen c + x) (y * xlen c + x)); [lia | reflexivity]. }
  assert (Hnext : forall cur', same_size cur' c ->
            (forall x' y', in_raster c x' y' ->
               getPoint cur' x' y' =
               if (x' =? x) && (y' =? y) && marks relf c x y
               then Ret COLORBLUE else getPoint cur x' y') ->
            marked_to relf c (y * xlen c + x + 1) cur').
  { intros cur' Hs' Hpix'. split; [exact Hs' |]. intros x' y' Hin'.
    rewrite (Hpix' x' y' Hin'). destruct Hinv as [_ Hpix].
    rewrite (Hpix x' y' Hin').
    destruct (Z.eqb_spec x' x) as [-> | Hnx];
      [destruct (Z.eqb_spec y' y) as [-> | Hny] |]; cbn [andb].
    - destruct (Z.ltb_spec (y * xlen c + x) (y * xlen c + x + 1)); [| lia].
      destruct (Z.ltb_spec (y * xlen c + x) (y * xlen c + x)); [lia |].
      cbn [andb]. reflexivity.
    - assert (y' * xlen c + x <> y * xlen c + x)
        by (intros Heq; destruct Hin' as [? ?];
            destruct (cell_unique (xlen c) x y' x y ltac:(lia) ltac:(lia) Heq); lia).
      destruct (Z.ltb_spec (y' * xlen c + x) (y * xlen c + x + 1)),
        (Z.ltb_spec (y' * xlen c + x) (y * xlen c + x)); try reflexivity; lia.
    - assert (y' * xlen c + x' <> y * xlen c + x)
        by (intros Heq; destruct Hin' as [? ?];
            destruct (cell_unique (xlen c) x' y' x y ltac:(lia) ltac:(lia) Heq); lia).
      destruct (Z.ltb_spec (y' * xlen c + x') (y * xlen c + x + 1)),
        (Z.ltb_spec (y' * xlen c + x') (y * xlen c + x)); try reflexivity; lia. }
  unfold mark_at. rewrite (has_colour_is cur x y AKTIVCOL p Hp). cbn [bind].
  assert (Hakt : is_colour cur x y AKTIVCOL = is_colour c x y AKTIVCOL)
    by (unfold is_colour; now rewrite Hsame).
  rewrite Hakt.
  destruct (is_colour c x y AKTIVCOL) eqn:Hactive; cbn [negb].
  - rewrite (relf_near_exists relf cur x y three)
      by (intros dx dy Hdx Hdy; apply Hread; now apply In_three).
    cbn [bind]. fold (relf_around relf cur x y).
    rewrite (marked_to_around _ _ x y Hinv Hinner).
    destruct (relf_around relf c x y) eqn:Hnear.
    + destruct (setPoint_in cur x y COLORBLUE Hok) as [cur' Hset];
        [rewrite Hsx, Hsy; destruct c_ok as (? & ? & _); nia |].
      exists cur'. split; [exact Hset |].
      apply Hnext; [exact (same_size_trans _ _ _ (setPoint_same_size _ _ _ _ _ Hset) Hs) |].
      intros x' y' [Hx' Hy']. unfold marks. rewrite Hinner, Hactive, Hnear.
      rewrite andb_true_r.
      apply (setPoint_pixels cur cur' x y COLORBLUE ltac:(lia) Hset); lia.
    + exists cur. split; [reflexivity |]. apply Hnext; [exact Hs |].
      intros x' y' _. unfold marks. rewrite Hnear, !andb_false_r. reflexivity.
  - exists cur. split; [reflexivity |]. apply Hnext; [exact Hs |].
    intros x' y' _. unfold marks. rewrite Hactive, andb_false_r, !andb_false_l.
    rewrite andb_false_r. reflexivity.
Qed.

(** Moving on over pixels that are on the rim. *)
Lemma marked_to_skip (k k' : Z) (cur : Charmap) :
  k <= k' ->
  (forall x y, in_raster c x y -> k <= y * xlen c + x < k' ->
               inner c x y = false) ->
  marked_to relf c k cur -> marked_to relf c k' cur.
Proof.
  intros Hle Hrim [Hs Hpix]. split; [exact Hs |]. intros x y Hin.
  rewrite (Hpix x y Hin).
  destruct (Z.ltb_spec (y * xlen c + x) k), (Z.ltb_spec (y * xlen c + x) k');
    cbn [andb]; try reflexivity; try lia.
  unfold marks. rewrite (Hrim x y Hin) by lia. reflexivity.
Qed.

Lemma mark_row_spec (y : Z) :
  1 <= y <= ylen c - 2 ->
  forall (n : nat) (cur : Charmap) (x : Z),
    1 <= x -> x + Z.of_nat n <= xlen c - 1 ->
    marked_to relf c (y * xlen c + x) cur ->
    exists cur', mark_row n relf cur x y = Ret cur' /\
                 marked_to relf c (y * xlen c + x + Z.of_nat n) cur'.
Proof.
  intros Hy. induction n as [| n IH]; intros cur x Hx Hn Hinv; cbn [mark_row].
  - exists cur. split; [reflexivity | now rewrite Z.add_0_r].
  - destruct (mark_at_step cur x y) as (cur1 & -> & Hinv1); [| exact Hinv |].
    { unfold inner. apply andb_true_iff. split; [| apply Z.leb_le; lia].
      apply andb_true_iff. split; [| apply Z.leb_le; lia].
      apply andb_true_iff. split; apply Z.leb_le; lia. }
    cbn [bind].
    replace (y * xlen c + x + 1) with (y * xlen c + (x + 1)) in Hinv1 by lia.
    destruct (IH cur1 (x + 1) ltac:(lia) ltac:(lia) Hinv1) as (cur' & Hrun & Hinv').
    exists cur'. split; [exact Hrun |].
    now replace (y * xlen c + x + Z.of_nat (S n))
      with (y * xlen c + (x + 1) + Z.of_nat n) by lia.
Qed.

Lemma inner_false_rim (x y : Z) :
  x <= 0 \/ xlen c - 1 <= x \/ y <= 0 \/ ylen c - 1 <= y -> inner c x y = false.
Proof.
  intros H. unfold inner.
  destruct (Z.leb_spec 1 x), (Z.leb_spec x (xlen c - 2)), (Z.leb_spec 1 y),
    (Z.leb_spec y (ylen c - 2)); cbn [andb]; try reflexivity; lia.
Qed.

Lemma mark_rows_spec :
  forall (m : nat) (cur : Charmap) (y : Z),
    1 <= y -> y + Z.of_nat m <= ylen c - 1 ->
    marked_to relf c (y * xlen c + 1) cur ->
    exists cur', mark_rows m relf cur y = Ret cur' /\
                 marked_to relf c ((y + Z.of_nat m) * xlen c + 1) cur'.
Proof.
  induction m as [| m IH]; intros cur y Hy Hm Hinv; cbn [mark_rows].
  - exists cur. split; [reflexivity | now rewrite Z.add_0_r].
  - destruct (marked_to_size _ _ Hinv) as [(Hsx & _) _]. rewrite Hsx.
    destruct c_ok as (Hxl & Hyl & _).
    assert (Hstep : exists cur1,
              mark_row (Z.to_nat (xlen c - 2)) relf cur 1 y = Ret cur1 /\
              marked_to relf c ((y + 1) * xlen c + 1) cur1).
    { destruct (Z.le_gt_cases (xlen c) 2) as [Hnarrow | Hwide].
      - replace (Z.to_nat (xlen c - 2)) with 0%nat by lia. cbn [mark_row].
        exists cur. split; [reflexivity |].
        apply (marked_to_skip (y * xlen c + 1)); [nia | | exact Hinv].
        intros x' y' _ _. apply inner_false_rim. lia.
      - destruct (mark_row_spec y ltac:(lia) (Z.to_nat (xlen c - 2)) cur 1
                    ltac:(lia) ltac:(lia) Hinv) as (cur1 & Hrow & Hinv1).
        exists cur1. split; [exact Hrow |].
        apply (marked_to_skip (y * xlen c + 1 + Z.of_nat (Z.to_nat (xlen c - 2))));
          [nia | | exact Hinv1].
        intros x' y' [Hx' Hy'] Hk. apply inner_false_rim.
        assert (y' = y \/ y' = y + 1) by nia. nia. }
    destruct Hstep as (cur1 & -> & Hinv1). cbn [bind].
    destruct (IH cur1 (y + 1) ltac:(lia) ltac:(lia) Hinv1) as (cur' & Hrun & Hinv').
    exists cur'. split; [exact Hrun |].
    now replace (y + Z.of_nat (S m)) with (y + 1 + Z.of_nat m) by lia.
Qed.

End BoundaryPass.

Lemma boundary_pass_returns (relf : Z) (c : Charmap) :
  canvas_ok c -> relf <> AKTIVCOL -> relf <> COLORBLUE ->
  exists c', boundary_pass relf c = Ret c'.
Proof.
  intros Hok Hna Hnb. unfold boundary_pass.
  pose proof Hok as (Hxl & Hyl & _).
  destruct (Z.le_gt_cases (ylen c) 2) as [Hlow | Hhigh].
  - replace (Z.to_nat (ylen c - 2)) with 0%nat by lia. cbn [mark_rows]. eauto.
  - assert (Hstart : marked_to relf c (1 * xlen c + 1) c).
    { split; [apply same_size_refl |]. intros x y [Hx Hy].
      destruct (Z.ltb_spec (y * xlen c + x) (1 * xlen c + 1)); cbn [andb];
        [| reflexivity].
      unfold marks. rewrite (inner_false_rim c x y) by nia. reflexivity. }
    destruct (mark_rows_spec relf c Hok Hna Hnb (Z.to_nat (ylen c - 2)) c 1
                ltac:(lia) ltac:(lia) Hstart) as (c' & Hrun & _).
    eauto.
Qed.

(** X16: for a target colour that is neither the active colour nor blue,
    the boundary pass of [floodFillPattern] reads and writes inside the
    array only and turns blue exactly the pixels that were active, lie off
    the rim of the raster and had a pixel of the target colour among the
    eight around them; the pixels it has turned blue before do not change
    what it does later. *)
Theorem boundary_pass_marks (relf : Z) (c : Charmap) :
  canvas_ok c -> relf <> AKTIVCOL -> relf <> COLORBLUE ->
  exists c', boundary_pass relf c = Ret c' /\
             painted (marks relf c) COLORBLUE c c'.
Proof.
  intros Hok Hna Hnb. unfold boundary_pass.
  pose proof Hok as (Hxl & Hyl & _).
  assert (Hstart : marked_to relf c (1 * xlen c + 1) c).
  { split; [apply same_size_refl |]. intros x y [Hx Hy].
    destruct (Z.ltb_spec (y * xlen c + x) (1 * xlen c + 1)); cbn [andb];
      [| reflexivity].
    unfold marks. rewrite (inner_false_rim c x y) by nia. reflexivity. }
  assert (Hend : forall k c', (ylen c - 1) * xlen c <= k ->
            marked_to relf c k c' -> painted (marks relf c) COLORBLUE c c').
  { intros k c' Hk [Hs Hpix]. split; [exact Hs |]. intros x y Hin.
    rewrite (Hpix x y Hin). destruct Hin as [Hx Hy].
    destruct (Z.ltb_spec (y * xlen c + x) k); cbn [andb]; [reflexivity |].
    unfold marks. rewrite (inner_false_rim c x y) by nia. reflexivity. }
  destruct (Z.le_gt_cases (ylen c) 2) as [Hlow | Hhigh].
  - replace (Z.to_nat (ylen c - 2)) with 0%nat by lia. cbn [mark_rows].
    exists c. split; [reflexivity |].
    split; [apply same_size_refl |]. intros x y [Hx Hy].
    unfold marks. rewrite (inner_false_rim c x y) by lia. reflexivity.
  - destruct (mark_rows_spec relf c Hok Hna Hnb (Z.to_nat (ylen c - 2)) c 1
                ltac:(lia) ltac:(lia) Hstart) as (c' & Hrun & Hinv).
    exists c'. split; [exact Hrun |].
    apply (Hend _ c') with (2 := Hinv). nia.
Qed.

Lemma boundary_pass_marks_witness :
  exists c', boundary_pass COLORBLACK fused_gap_canvas = Ret c' /\
             painted (marks COLORBLACK fused_gap_canvas) COLORBLUE
                     fused_gap_canvas c'.
Proof.
  apply (boundary_pass_marks COLORBLACK fused_gap_canvas);
    [unfold canvas_ok; cbn; lia | discriminate | discriminate].
Defined.

(** ** What the flood fill changes *)

Lemma promoted_refl (relf : Z) (c : Charmap) : promoted relf c c.
Proof. split; [apply same_size_refl |]. intros i v H. now left. Qed.

Lemma promoted_trans_size (relf : Z) (c0 c : Charmap) :
  promoted relf c0 c -> xlen c = xlen c0 /\ ylen c = ylen c0.
Proof. intros [(Hx & Hy & _) _]. now split. Qed.

(** A pixel that holds [relf] in the first raster may be set to the active
    colour or to blue. *)
Lemma promoted_set (relf : Z) (c0 c c' : Charmap) (x y w : Z) :
  promoted relf c0 c -> setPoint c x y w = Ret c' ->
  w = AKTIVCOL \/ w = COLORBLUE ->
  getPoint c0 x y = Ret relf -> promoted relf c0 c'.
Proof.
  intros [Hs Hcell] Hset Hw H0.
  pose proof (setPoint_Ret _ _ _ _ _ Hset) as (Hr & Hxl & Hyl & Hcmp).
  split; [exact (same_size_trans _ _ _ (setPoint_same_size _ _ _ _ _ Hset) Hs) |].
  intros i v Hi. rewrite Hcmp in Hi.
  destruct (Z.eq_dec i (y * xlen c + x)) as [Heq | Hne].
  - rewrite Heq in *. rewrite zget_insert_eq in Hi by exact Hr.
    inversion Hi. subst v. right. split; [| exact Hw].
    apply getPoint_zget in H0. destruct Hs as (Hsx & _). now rewrite Hsx.
  - pose proof (zget_bounds _ _ _ Hi) as Hb.
    rewrite zget_insert_ne in Hi by lia. now apply Hcell.
Qed.

(** A colour other than the two new ones was there before. *)
Lemma promoted_back (relf : Z) (c0 c : Charmap) (x y v : Z) :
  promoted relf c0 c -> getPoint c x y = Ret v ->
  v <> AKTIVCOL -> v <> COLORBLUE -> getPoint c0 x y = Ret v.
Proof.
  intros [(Hsx & _) Hcell] Hget Hna Hnb. apply getPoint_zget in Hget.
  apply getPoint_zget. rewrite <- Hsx.
  destruct (Hcell _ _ Hget) as [H | [_ [H | H]]]; [exact H | |]; contradiction.
Qed.

(** One of the two new colours, if the first raster has none of it, stands
    on a pixel that held [relf]. *)
Lemma promoted_new (relf : Z) (c0 c : Charmap) (x y v : Z) :
  promoted relf c0 c -> getPoint c x y = Ret v -> ~ In v (cmp c0) ->
  getPoint c0 x y = Ret relf.
Proof.
  intros [(Hsx & _) Hcell] Hget Hnone. apply getPoint_zget in Hget.
  apply getPoint_zget. rewrite <- Hsx.
  destruct (Hcell _ _ Hget) as [H | [H _]]; [| exact H].
  exfalso. apply Hnone. exact (zget_In _ _ _ H).
Qed.

Lemma three_classes_none (c : Charmap) (v : Z) :
  three_classes c -> v = AKTIVCOL \/ v = COLORBLUE -> ~ In v (cmp c).
Proof.
  intros H3 Hv Hin. unfold three_classes in H3.
  rewrite List.Forall_forall in H3. specialize (H3 v Hin).
  unfold AKTIVCOL, COLORBLUE, COLORBLACK, COLORWHITE, COLORGRAY in *. lia.
Qed.

Section Promoted.

Variables (relf : Z) (c0 : Charmap).
Hypothesis relf_not_active : relf <> AKTIVCOL.
Hypothesis relf_not_blue : relf <> COLORBLUE.

(** *** The kernel scan *)

Lemma kernel_test_row_true (c : Charmap) (x y : Z) :
  forall (n : nat) (dx : Z),
    kernel_test_row n relf c x y dx = Ret true ->
    forall d, dx <= d < dx + Z.of_nat n -> getPoint c (x + d) y = Ret relf.
Proof.
  induction n as [| n IH]; intros dx Hrun d Hd; [lia |].
  cbn [kernel_test_row] in Hrun.
  destruct (has_colour c (x + dx) y relf) as [[|] | | |] eqn:Hh;
    cbn [bind] in Hrun; try discriminate.
  destruct (Z.eq_dec d dx) as [-> | Hne].
  - now apply has_colour_true.
  - apply (IH (dx + 1) Hrun). lia.
Qed.

Lemma kernel_test_true (D : Z) (c : Charmap) (x y : Z) :
  forall (m : nat) (dy : Z),
    kernel_test m D relf c x y dy = Ret true ->
    forall dx d, 0 <= dx < D -> dy <= d < dy + Z.of_nat m ->
                 getPoint c (x + dx) (y + d) = Ret relf.
Proof.
  induction m as [| m IH]; intros dy Hrun dx d Hdx Hd; [lia |].
  cbn [kernel_test] in Hrun.
  destruct (kernel_test_row (Z.to_nat D) relf c x (y + dy) 0)
    as [[|] | | |] eqn:Hrow; cbn [bind] in Hrun; try discriminate.
  destruct (Z.eq_dec d dy) as [-> | Hne].
  - apply (kernel_test_row_true c x (y + dy) _ 0 Hrow). lia.
  - apply (IH (dy + 1) Hrun); lia.
Qed.

Lemma kernel_mark_row_promoted (y2 : Z) :
  forall (n : nat) (c c' : Charmap) (x2 : Z),
    promoted relf c0 c -> kernel_mark_row n c x2 y2 = Ret c' ->
    (forall d, x2 <= d < x2 + Z.of_nat n -> getPoint c0 d y2 = Ret relf) ->
    promoted relf c0 c'.
Proof.
  induction n as [| n IH]; intros c c' x2 Hp Hrun Hrelf; cbn [kernel_mark_row] in Hrun.
  - inversion Hrun. now subst.
  - destruct (setPoint c x2 y2 AKTIVCOL) as [c1 | | |] eqn:Hset;
      cbn [bind] in Hrun; try discriminate.
    apply (IH c1 c' (x2 + 1)); [| exact Hrun | intros d Hd; apply Hrelf; lia].
    apply (promoted_set relf c0 c c1 x2 y2 AKTIVCOL Hp Hset); [now left |].
    apply Hrelf. lia.
Qed.

Lemma kernel_mark_promoted (D x : Z) :
  forall (m : nat) (c c' : Charmap) (y2 : Z),
    promoted relf c0 c -> kernel_mark m D c x y2 = Ret c' ->
    (forall d e, x + 1 <= d < x + 1 + Z.of_nat (Z.to_nat (D - 2)) ->
                 y2 <= e < y2 + Z.of_nat m -> getPoint c0 d e = Ret relf) ->
    promoted relf c0 c'.
Proof.
  induction m as [| m IH]; intros c c' y2 Hp Hrun Hrelf; cbn [kernel_mark] in Hrun.
  - inversion Hrun. now subst.
  - destruct (kernel_mark_row (Z.to_nat (D - 2)) c (x + 1) y2) as [c1 | | |] eqn:Hrow;
      cbn [bind] in Hrun; try discriminate.
    apply (IH c1 c' (y2 + 1)); [| exact Hrun | intros d e Hd He; apply Hrelf; lia].
    apply (kernel_mark_row_promoted y2 _ c c1 (x + 1) Hp Hrow).
    intros d Hd. apply Hrelf; lia.
Qed.

Lemma kernel_at_promoted (D : Z) (c c' : Charmap) (x y : Z) :
  promoted relf c0 c -> kernel_at D relf c x y = Ret c' ->
  promoted relf c0 c'.
Proof.
  intros Hp Hrun. unfold kernel_at in Hrun.
  destruct (has_colour c x y relf) as [[|] | | |] eqn:Hh;
    cbn [bind negb] in Hrun; try discriminate.
  2: { inversion Hrun. now subst. }
  destruct (kernel_test (Z.to_nat D) D relf c x y 0) as [[|] | | |] eqn:Ht;
    cbn [bind] in Hrun; try discriminate.
  2: { inversion Hrun. now subst. }
  apply (kernel_mark_promoted D x _ c c' (y + 1) Hp Hrun).
  intros d e Hd He.
  apply (promoted_back relf c0 c d e relf Hp); [| assumption | assumption].
  replace d with (x + (d - x)) by lia. replace e with (y + (e - y)) by lia.
  apply (kernel_test_true D c x y _ 0 Ht); lia.
Qed.

Lemma kernel_cols_promoted (D y : Z) :
  forall (fuel : nat) (c c' : Charmap) (x : Z),
    promoted relf c0 c -> kernel_cols fuel D relf c x y = Ret c' ->
    promoted relf c0 c'.
Proof.
  induction fuel as [| fuel IH]; intros c c' x Hp Hrun; [discriminate |].
  cbn [kernel_cols] in Hrun. destruct (x <? xlen c - D).
  - destruct (kernel_at D relf c x y) as [c1 | | |] eqn:Hat;
      cbn [bind] in Hrun; try discriminate.
    exact (IH c1 c' (x + D) (kernel_at_promoted D c c1 x y Hp Hat) Hrun).
  - inversion Hrun. now subst.
Qed.

Lemma kernel_rows_promoted (D : Z) :
  forall (fuel : nat) (c c' : Charmap) (y : Z),
    promoted relf c0 c -> kernel_rows fuel D relf c y = Ret c' ->
    promoted relf c0 c'.
Proof.
  induction fuel as [| fuel IH]; intros c c' y Hp Hrun; [discriminate |].
  cbn [kernel_rows] in Hrun. destruct (y <? ylen c - D).
  - destruct (kernel_cols (S (Z.to_nat (xlen c))) D relf c 0 y) as [c1 | | |] eqn:Hc;
      cbn [bind] in Hrun; try discriminate.
    exact (IH c1 c' (y + D) (kernel_cols_promoted D y _ c c1 0 Hp Hc) Hrun).
  - inversion Hrun. now subst.
Qed.

(** *** The fusion *)

Lemma fuse_at_promoted (c c' : Charmap) (x y ch ch' : Z) :
  promoted relf c0 c -> fuse_at relf c x y ch = Ret (c', ch') ->
  promoted relf c0 c'.
Proof.
  intros Hp Hrun.
  destruct (fuse_at_Ret relf c c' x y ch ch' Hrun)
    as [(-> & _) | [(_ & Hgap & _ & c1 & Hs1 & Hs2) | (_ & _ & Hgap & _ & c1 & Hs1 & Hs2)]].
  - exact Hp.
  - destruct Hgap as (G0 & G1 & _).
    apply (promoted_set relf c0 c1 c' (x + 1) y AKTIVCOL); [| exact Hs2 | now left |].
    + apply (promoted_set relf c0 c c1 x y AKTIVCOL Hp Hs1); [now left |].
      exact (promoted_back relf c0 c x y relf Hp G0 relf_not_active relf_not_blue).
    + exact (promoted_back relf c0 c (x + 1) y relf Hp G1 relf_not_active relf_not_blue).
  - destruct Hgap as (G0 & G1 & _).
    apply (promoted_set relf c0 c1 c' x (y + 1) AKTIVCOL); [| exact Hs2 | now left |].
    + apply (promoted_set relf c0 c c1 x y AKTIVCOL Hp Hs1); [now left |].
      exact (promoted_back relf c0 c x y relf Hp G0 relf_not_active relf_not_blue).
    + exact (promoted_back relf c0 c x (y + 1) relf Hp G1 relf_not_active relf_not_blue).
Qed.

Lemma fuse_row_promoted (y : Z) :
  forall (n : nat) (c : Charmap) (x ch : Z) (s : Charmap * Z),
    promoted relf c0 c -> fuse_row n relf c x y ch = Ret s ->
    promoted relf c0 (fst s).
Proof.
  induction n as [| n IH]; intros c x ch s Hp Hrun; cbn [fuse_row] in Hrun.
  - inversion Hrun. now subst.
  - destruct (fuse_at relf c x y ch) as [[c1 ch1] | | |] eqn:Hat;
      cbn [bind fst snd] in Hrun; try discriminate.
    exact (IH c1 (x + 1) ch1 s (fuse_at_promoted c c1 x y ch ch1 Hp Hat) Hrun).
Qed.

Lemma fuse_rows_promoted :
  forall (m : nat) (c : Charmap) (y ch : Z) (s : Charmap * Z),
    promoted relf c0 c -> fuse_rows m relf c y ch = Ret s ->
    promoted relf c0 (fst s).
Proof.
  induction m as [| m IH]; intros c y ch s Hp Hrun; cbn [fuse_rows] in Hrun.
  - inversion Hrun. now subst.
  - destruct (fuse_row (Z.to_nat (xlen c - 3)) relf c 1 y ch) as [s1 | | |] eqn:Hrow;
      cbn [bind] in Hrun; try discriminate.
    exact (IH (fst s1) (y + 1) (snd s1) s (fuse_row_promoted y _ c 1 ch s1 Hp Hrow) Hrun).
Qed.

Lemma fuse_loop_promoted :
  forall (fuel : nat) (c c' : Charmap),
    promoted relf c0 c -> fuse_loop fuel relf c = Ret c' ->
    promoted relf c0 c'.
Proof.
  induction fuel as [| fuel IH]; intros c c' Hp Hrun; [discriminate |].
  cbn [fuse_loop] in Hrun.
  destruct (fuse_pass relf c) as [s | | |] eqn:Hpass; cbn [bind] in Hrun;
    try discriminate.
  pose proof (fuse_rows_promoted _ c 1 0 s Hp Hpass) as Hp1.
  destruct (snd s >? 0).
  - exact (IH (fst s) c' Hp1 Hrun).
  - inversion Hrun. now subst.
Qed.

(** *** The border *)

Lemma fill_row_promoted (y w : Z) :
  w = AKTIVCOL \/ w = COLORBLUE ->
  forall (n : nat) (c c' : Charmap) (x : Z),
    promoted relf c0 c -> fill_row n c x y w = Ret c' ->
    (forall d, x <= d < x + Z.of_nat n -> getPoint c0 d y = Ret relf) ->
    promoted relf c0 c'.
Proof.
  intros Hw. induction n as [| n IH]; intros c c' x Hp Hrun Hrelf;
    cbn [fill_row] in Hrun.
  - inversion Hrun. now subst.
  - destruct (setPoint c x y w) as [c1 | | |] eqn:Hset;
      cbn [bind] in Hrun; try discriminate.
    apply (IH c1 c' (x + 1)); [| exact Hrun | intros d Hd; apply Hrelf; lia].
    apply (promoted_set relf c0 c c1 x y w Hp Hset Hw). apply Hrelf. lia.
Qed.

Lemma fill_rows_promoted (x0 x1 w : Z) :
  w = AKTIVCOL \/ w = COLORBLUE ->
  forall (m : nat) (c c' : Charmap) (y : Z),
    promoted relf c0 c -> fill_rows m c x0 x1 y w = Ret c' ->
    (forall d e, x0 <= d <= x1 -> y <= e < y + Z.of_nat m ->
                 getPoint c0 d e = Ret relf) ->
    promoted relf c0 c'.
Proof.
  intros Hw. induction m as [| m IH]; intros c c' y Hp Hrun Hrelf;
    cbn [fill_rows] in Hrun.
  - inversion Hrun. now subst.
  - destruct (fill_row (Z.to_nat (x1 - x0 + 1)) c x0 y w) as [c1 | | |] eqn:Hrow;
      cbn [bind] in Hrun; try discriminate.
    apply (IH c1 c' (y + 1)); [| exact Hrun | intros d e Hd He; apply Hrelf; lia].
    apply (fill_row_promoted y w Hw _ c c1 x0 Hp Hrow).
    intros d Hd. apply Hrelf; lia.
Qed.

(** [fillrect] with its corners in order, on a rectangle of the raster
    whose pixels hold [relf] in the first raster. *)
Lemma fillrect_promoted (c : Charmap) (ax ay bx by_ w : Z) :
  w = AKTIVCOL \/ w = COLORBLUE ->
  canvas_ok c -> promoted relf c0 c ->
  0 <= ax <= bx -> bx < xlen c -> 0 <= ay <= by_ -> by_ < ylen c ->
  (forall d e, ax <= d <= bx -> ay <= e <= by_ -> getPoint c0 d e = Ret relf) ->
  exists c', fillrect c ax ay bx by_ w = Ret c' /\ canvas_ok c' /\
             promoted relf c0 c'.
Proof.
  intros Hw Hok Hp Hx Hbx Hy Hby Hrelf. unfold fillrect, minimumI, maximumI.
  rewrite !Z.gtb_ltb.
  replace (if ax <? bx then ax else bx) with ax by (destruct (Z.ltb_spec ax bx); lia).
  replace (if bx <? ax then ax else bx) with bx by (destruct (Z.ltb_spec bx ax); lia).
  replace (if ay <? by_ then ay else by_) with ay by (destruct (Z.ltb_spec ay by_); lia).
  replace (if by_ <? ay then ay else by_) with by_ by (destruct (Z.ltb_spec by_ ay); lia).
  destruct (fill_rows_pixels ax bx w ltac:(lia) (Z.to_nat (by_ - ay + 1)) c ay Hok)
    as (c' & Hrun & Hs & _); [lia | lia | lia |].
  exists c'. split; [exact Hrun |]. split; [exact (same_size_ok _ _ Hs Hok) |].
  apply (fill_rows_promoted ax bx w Hw _ c c' ay Hp Hrun).
  intros d e Hd He. apply Hrelf; lia.
Qed.

Lemma border_fill_promoted (c : Charmap) :
  canvas_ok c -> promoted relf c0 c ->
  relf = COLORWHITE -> white_frame c0 ->
  BORDERWIDTH <= xlen c -> BORDERWIDTH <= ylen c ->
  exists c', border_fill c = Ret c' /\ canvas_ok c' /\ promoted relf c0 c'.
Proof.
  intros Hok Hp Hwhite Hframe Hxl Hyl. unfold border_fill.
  destruct (promoted_trans_size relf c0 c Hp) as [Hsx Hsy].
  assert (Hrelf : forall d e, 0 <= d < xlen c -> 0 <= e < ylen c ->
            d < BORDERWIDTH \/ xlen c - BORDERWIDTH <= d \/
            e < BORDERWIDTH \/ ylen c - BORDERWIDTH <= e ->
            getPoint c0 d e = Ret relf).
  { intros d e Hd He Hnear. rewrite Hwhite. apply Hframe.
    - unfold in_raster. lia.
    - lia. }
  unfold BORDERWIDTH in *.
  destruct (fillrect_promoted c 0 0 (xlen c - 1) (16 - 1) AKTIVCOL
              ltac:(now left) Hok Hp) as (c1 & -> & Hok1 & Hp1);
    [lia | lia | lia | lia | intros d e Hd He; apply Hrelf; lia |].
  cbn [bind]. destruct (promoted_trans_size relf c0 c1 Hp1) as [Hx1 Hy1].
  destruct (fillrect_promoted c1 0 (ylen c1 - 1 - (16 - 1)) (xlen c1 - 1)
              (ylen c1 - 1) AKTIVCOL ltac:(now left) Hok1 Hp1)
    as (c2 & -> & Hok2 & Hp2);
    [lia | lia | lia | lia | intros d e Hd He; apply Hrelf; lia |].
  cbn [bind]. destruct (promoted_trans_size relf c0 c2 Hp2) as [Hx2 Hy2].
  destruct (fillrect_promoted c2 0 0 (16 - 1) (ylen c2 - 1) AKTIVCOL
              ltac:(now left) Hok2 Hp2) as (c3 & -> & Hok3 & Hp3);
    [lia | lia | lia | lia | intros d e Hd He; apply Hrelf; lia |].
  cbn [bind]. destruct (promoted_trans_size relf c0 c3 Hp3) as [Hx3 Hy3].
  apply (fillrect_promoted c3 (xlen c3 - 1 - (16 - 1)) 0 (xlen c3 - 1)
           (ylen c3 - 1) AKTIVCOL ltac:(now left) Hok3 Hp3);
    [lia | lia | lia | lia | intros d e Hd He; apply Hrelf; lia].
Qed.

(** *** The boundary pass *)

Hypothesis first_plain : three_classes c0.

Lemma mark_at_promoted (c c' : Charmap) (x y : Z) :
  promoted relf c0 c -> mark_at relf c x y = Ret c' -> promoted relf c0 c'.
Proof.
  intros Hp Hrun. unfold mark_at in Hrun.
  destruct (has_colour c x y AKTIVCOL) as [[|] | | |] eqn:Hh;
    cbn [bind negb] in Hrun; try discriminate.
  2: { inversion Hrun. now subst. }
  destruct (relf_near three relf c x y) as [[|] | | |] eqn:Hn;
    cbn [bind] in Hrun; try discriminate.
  2: { inversion Hrun. now subst. }
  apply (promoted_set relf c0 c c' x y COLORBLUE Hp Hrun); [now right |].
  apply has_colour_true in Hh.
  apply (promoted_new relf c0 c x y AKTIVCOL Hp Hh).
  apply three_classes_none; [exact first_plain | now left].
Qed.

Lemma mark_row_promoted (y : Z) :
  forall (n : nat) (c c' : Charmap) (x : Z),
    promoted relf c0 c -> mark_row n relf c x y = Ret c' ->
    promoted relf c0 c'.
Proof.
  induction n as [| n IH]; intros c c' x Hp Hrun; cbn [mark_row] in Hrun.
  - inversion Hrun. now subst.
  - destruct (mark_at relf c x y) as [c1 | | |] eqn:Hat;
      cbn [bind] in Hrun; try discriminate.
    exact (IH c1 c' (x + 1) (mark_at_promoted c c1 x y Hp Hat) Hrun).
Qed.

Lemma mark_rows_promoted :
  forall (m : nat) (c c' : Charmap) (y : Z),
    promoted relf c0 c -> mark_rows m relf c y = Ret c' ->
    promoted relf c0 c'.
Proof.
  induction m as [| m IH]; intros c c' y Hp Hrun; cbn [mark_rows] in Hrun.
  - inversion Hrun. now subst.
  - destruct (mark_row (Z.to_nat (xlen c - 2)) relf c 1 y) as [c1 | | |] eqn:Hrow;
      cbn [bind] in Hrun; try discriminate.
    exact (IH c1 c' (y + 1) (mark_row_promoted y _ c c1 1 Hp Hrow) Hrun).
Qed.

End Promoted.

Lemma three_classes_last_row (c : Charmap) :
  three_classes c -> last_row_inactive c.
Proof.
  intros H3 x _ Hget. apply getPoint_zget in Hget.
  apply (three_classes_none c AKTIVCOL H3 (or_introl eq_refl)).
  exact (zget_In _ _ _ Hget).
Qed.

Lemma promoted_ok (relf : Z) (c0 c : Charmap) :
  canvas_ok c0 -> promoted relf c0 c -> canvas_ok c.
Proof. intros Hok [Hs _]. exact (same_size_ok _ _ Hs Hok). Qed.

Lemma floodFillPattern_runs (fuel : nat) (granularity relf : Z)
  (inbild : Charmap) :
  canvas_ok inbild -> three_classes inbild ->
  relf = COLORBLACK \/ relf = COLORWHITE -> border_fits relf inbild ->
  (count_colour relf (cmp inbild) < fuel)%nat ->
  exists blau, floodFillPattern fuel granularity relf inbild = Ret blau /\
               promoted relf inbild blau.
Proof.
  intros Hok H3 Hrelf Hfit Hfuel.
  assert (Hna : relf <> AKTIVCOL)
    by (unfold AKTIVCOL, COLORBLACK, COLORWHITE in *; lia).
  assert (Hnb : relf <> COLORBLUE)
    by (unfold COLORBLUE, COLORBLACK, COLORWHITE in *; lia).
  unfold floodFillPattern.
  destruct (connect_snippets_ends granularity relf inbild fuel Hna Hok
              (three_classes_last_row _ H3) Hfuel) as (c & Hconn & _).
  rewrite Hconn. cbn [bind].
  assert (Hp : promoted relf inbild c).
  { unfold connect_snippets in Hconn.
    destruct (kernel_scan granularity relf inbild) as [k | | |] eqn:Hscan;
      cbn [bind] in Hconn; try discriminate.
    apply (fuse_loop_promoted relf inbild Hna Hnb fuel k c); [| exact Hconn].
    unfold kernel_scan in Hscan.
    exact (kernel_rows_promoted relf inbild Hna Hnb _ _ inbild k 0
             (promoted_refl relf inbild) Hscan). }
  assert (Hborder : exists c1,
            (if relf =? COLORWHITE then border_fill c else Ret c) = Ret c1 /\
            canvas_ok c1 /\ promoted relf inbild c1).
  { destruct (Z.eqb_spec relf COLORWHITE) as [Hw | Hw].
    - destruct (Hfit Hw) as (Hframe & Hxl & Hyl).
      destruct (promoted_trans_size relf inbild c Hp) as [Hsx Hsy].
      apply (border_fill_promoted relf inbild c (promoted_ok _ _ _ Hok Hp) Hp Hw Hframe);
        lia.
    - exists c. split; [reflexivity |]. split; [exact (promoted_ok _ _ _ Hok Hp) | exact Hp]. }
  destruct Hborder as (c1 & -> & Hok1 & Hp1). cbn [bind].
  destruct (boundary_pass_returns relf c1 Hok1 Hna Hnb) as (blau & Hrun).
  exists blau. split; [exact Hrun |].
  exact (mark_rows_promoted relf inbild H3 _ c1 blau 1 Hp1 Hrun).
Qed.

(** What an unchanged or promoted cell means for the pixels. *)
Lemma promoted_pixels (relf : Z) (c0 c : Charmap) :
  promoted relf c0 c ->
  (forall x y v, getPoint c x y = Ret v ->
     getPoint c0 x y = Ret v \/
     (getPoint c0 x y = Ret relf /\ (v = AKTIVCOL \/ v = COLORBLUE))) /\
  (forall x y v, getPoint c0 x y = Ret v -> v <> relf ->
     getPoint c x y = Ret v).
Proof.
  intros [(Hsx & _ & Hsl) Hcell]. split.
  - intros x y v Hget. apply getPoint_zget in Hget.
    rewrite Hsx in Hget.
    destruct (Hcell _ _ Hget) as [H | [H Hv]].
    + left. now apply getPoint_zget.
    + right. split; [now apply getPoint_zget | exact Hv].
  - intros x y v Hget Hne. apply getPoint_zget in Hget.
    apply getPoint_zget. rewrite Hsx.
    destruct (zget_Some (cmp c) (y * xlen c0 + x)) as [w Hw];
      [apply zget_bounds in Hget; lia |].
    destruct (Hcell _ _ Hw) as [H | [H _]]; congruence.
Qed.

(** ** The flood fill and the polygons of a plain raster *)

Lemma three_classes_check (c : Charmap) :
  forallb plain_cell (cmp c) = true -> three_classes c.
Proof.
  intros H. apply List.Forall_forall. intros v Hv.
  pose proof (proj1 (forallb_forall plain_cell (cmp c)) H v Hv) as Hp.
  unfold plain_cell in Hp.
  destruct (Z.eqb_spec v COLORBLACK); [now left |].
  destruct (Z.eqb_spec v COLORWHITE); [right; now left |].
  destruct (Z.eqb_spec v COLORGRAY); [right; now right | discriminate].
Qed.

Lemma white_frame_check (md : Charmap) :
  canvas_ok md -> xlen md = ylen md -> BORDERWIDTH <= xlen md ->
  borderPresent md = Ret 1 -> white_frame md.
Proof.
  intros Hok Hsq Hwide Hrun. unfold borderPresent in Hrun.
  destruct (border_rows_spec md Hok Hsq (Z.to_nat BORDERWIDTH) 0 ltac:(lia)
              ltac:(unfold BORDERWIDTH in *; lia)) as (r & Hr & _ & Hiff).
  rewrite Hr in Hrun. inversion Hrun. subst r.
  pose proof (proj1 Hiff eq_refl) as Hall.
  unfold white_frame, in_raster, BORDERWIDTH in *.
  intros x y [Hx Hy] Hnear.
  destruct (Z.lt_ge_cases x 16) as [H1 | H1].
  { exact (proj1 (Hall x y ltac:(lia) ltac:(lia))). }
  destruct (Z.le_gt_cases (xlen md - 16) x) as [H2 | H2].
  { pose proof (proj1 (proj2 (Hall (xlen md - 1 - x) y ltac:(lia) ltac:(lia))))
      as H. now replace (xlen md - 1 - (xlen md - 1 - x)) with x in H by lia. }
  destruct (Z.lt_ge_cases y 16) as [H3 | H3].
  { exact (proj1 (proj2 (proj2 (Hall y x ltac:(lia) ltac:(lia))))). }
  pose proof (proj2 (proj2 (proj2 (Hall (ylen md - 1 - y) x ltac:(lia) ltac:(lia)))))
    as H. now replace (ylen md - 1 - (ylen md - 1 - y)) with y in H by lia.
Qed.

Lemma island_canvas_ok : canvas_ok island_canvas.
Proof. unfold canvas_ok. vm_compute. repeat split; congruence. Qed.

Lemma island_canvas_plain : three_classes island_canvas.
Proof. apply three_classes_check. vm_compute. reflexivity. Qed.

Lemma island_canvas_fits (relf : Z) : border_fits relf island_canvas.
Proof.
  intros _. split; [| split; vm_compute; congruence].
  apply white_frame_check;
    [exact island_canvas_ok | reflexivity | vm_compute; congruence
     | vm_compute; reflexivity].
Qed.

(** X17: on a raster of gray, white and black pixels, with the white border
    in place when the target colour is white, [floodFillPattern] returns
    once its budget exceeds the number of target pixels, and all its reads
    and writes stay inside the array.  The raster it returns has the size
    of the input; a pixel of it holds what the input holds there, or the
    active colour or blue where the input holds the target colour; gray
    pixels and pixels of the other colour are never changed. *)
Theorem floodFillPattern_promotes_target (fuel : nat) (granularity relf : Z)
  (inbild : Charmap) :
  canvas_ok inbild -> three_classes inbild ->
  relf = COLORBLACK \/ relf = COLORWHITE -> border_fits relf inbild ->
  (count_colour relf (cmp inbild) < fuel)%nat ->
  exists blau, floodFillPattern fuel granularity relf inbild = Ret blau /\
    same_size blau inbild /\
    (forall x y v, getPoint blau x y = Ret v ->
       getPoint inbild x y = Ret v \/
       (getPoint inbild x y = Ret relf /\ (v = AKTIVCOL \/ v = COLORBLUE))) /\
    (forall x y v, getPoint inbild x y = Ret v -> v <> relf ->
       getPoint blau x y = Ret v) /\
    (forall x y, getPoint blau x y = Ret COLORBLUE ->
       getPoint inbild x y = Ret relf).
Proof.
  intros Hok H3 Hrelf Hfit Hfuel.
  destruct (floodFillPattern_runs fuel granularity relf inbild Hok H3 Hrelf
              Hfit Hfuel) as (blau & Hrun & Hp).
  exists blau. split; [exact Hrun |]. split; [exact (proj1 Hp) |].
  destruct (promoted_pixels relf inbild blau Hp) as [Hnew Hold].
  split; [exact Hnew |]. split; [exact Hold |].
  intros x y Hblue.
  apply (promoted_new relf inbild blau x y COLORBLUE Hp Hblue).
  apply three_classes_none; [exact H3 | now right].
Qed.

Lemma floodFillPattern_promotes_target_witness :
  exists blau, floodFillPattern 1600 3 COLORWHITE island_canvas = Ret blau /\
    same_size blau island_canvas /\
    (forall x y, getPoint blau x y = Ret COLORBLUE ->
       getPoint island_canvas x y = Ret COLORWHITE).
Proof.
  destruct (floodFillPattern_promotes_target 1600 3 COLORWHITE island_canvas
              island_canvas_ok island_canvas_plain (or_intror eq_refl)
              (island_canvas_fits COLORWHITE) ltac:(vm_compute; lia))
    as (blau & Hrun & Hs & _ & _ & Hblue).
  exists blau. split; [exact Hrun |]. split; [exact Hs | exact Hblue].
Defined.

Lemma on_blue_on_colour (plane : Z -> Z) (relf : Z) (inbild blau : Charmap)
  (p : Polygon) :
  three_classes inbild -> promoted relf inbild blau ->
  on_blue plane blau p -> on_colour plane inbild relf p.
Proof.
  intros H3 Hp Hon. unfold on_blue, on_colour in *.
  eapply List.Forall_impl; [| exact Hon].
  intros q (x & y & Hq & Hget). exists x, y. split; [exact Hq |].
  apply (promoted_new relf inbild blau x y COLORBLUE Hp Hget).
  apply three_classes_none; [exact H3 | now right].
Qed.

Lemma make_polygons_on_colour (relf : Z) (fuel1 fuel2 : nat) (plane : Z -> Z)
  (granularity lower : Z) (inbild : Charmap) :
  injective plane -> canvas_ok inbild -> three_classes inbild ->
  relf = COLORBLACK \/ relf = COLORWHITE -> border_fits relf inbild ->
  (count_colour relf (cmp inbild) < fuel1)%nat ->
  Forall (fun p => on_colour plane inbild relf p /\ isDiagonalFree p = 1)
         (fst (make_polygons relf fuel1 fuel2 plane granularity lower inbild)).
Proof.
  intros Hinj Hok H3 Hrelf Hfit Hfuel. unfold make_polygons.
  destruct (floodFillPattern_runs fuel1 granularity relf inbild Hok H3 Hrelf
              Hfit Hfuel) as (blau & -> & Hp).
  apply (buildPolygon_shape plane lower blau _ Hinj);
    [| apply blue_within_refl | apply List.Forall_nil].
  intros c p Hin (Hdiag & Hon & _). split; [| exact Hdiag].
  apply (on_blue_on_colour plane relf inbild blau p H3 Hp).
  exact (on_blue_within plane c blau p Hin Hon).
Qed.

(** X18: on a raster of gray, white and black pixels, every polygon that
    [interiorPolygon] saves has no diagonal edge and has each of its
    vertices on a pixel that is black in the input raster; with the white
    border in place the same holds for [exteriorPolygon] and the white
    pixels.  The budget of the flood fill has to exceed the number of
    pixels of that colour. *)
Theorem polygons_on_target_colour (fuel1 fuel2 : nat) (plane : Z -> Z)
  (granularity lower : Z) (inbild : Charmap) :
  injective plane -> canvas_ok inbild -> three_classes inbild ->
  ((count_colour COLORBLACK (cmp inbild) < fuel1)%nat ->
   Forall (fun p => on_colour plane inbild COLORBLACK p /\
                    isDiagonalFree p = 1)
          (fst (interiorPolygon fuel1 fuel2 plane granularity lower inbild))) /\
  (white_frame inbild -> BORDERWIDTH <= xlen inbild ->
   BORDERWIDTH <= ylen inbild ->
   (count_colour COLORWHITE (cmp inbild) < fuel1)%nat ->
   Forall (fun p => on_colour plane inbild COLORWHITE p /\
                    isDiagonalFree p = 1)
          (fst (exteriorPolygon fuel1 fuel2 plane granularity lower inbild))).
Proof.
  intros Hinj Hok H3. split.
  - intros Hfuel.
    apply (make_polygons_on_colour COLORBLACK); try assumption; [now left |].
    intros Hw. discriminate Hw.
  - intros Hframe Hxl Hyl Hfuel.
    apply (make_polygons_on_colour COLORWHITE); try assumption; [now right |].
    intros _. auto.
Qed.

Lemma polygons_on_target_colour_witness :
  Forall (fun p => on_colour plane1024 island_canvas COLORBLACK p /\
                   isDiagonalFree p = 1)
         (fst (interiorPolygon 1600 60 plane1024 3 3 island_canvas)) /\
  Forall (fun p => on_colour plane1024 island_canvas COLORWHITE p /\
                   isDiagonalFree p = 1)
         (fst (exteriorPolygon 1600 60 plane1024 3 3 island_canvas)).
Proof.
  destruct (polygons_on_target_colour 1600 60 plane1024 3 3 island_canvas
              plane1024_injective island_canvas_ok island_canvas_plain)
    as [Hint Hext].
  split.
  - apply Hint. vm_compute. lia.
  - destruct (island_canvas_fits COLORWHITE eq_refl) as (Hframe & Hxl & Hyl).
    apply Hext; [exact Hframe | exact Hxl | exact Hyl | vm_compute; lia].
Defined.

(** ** The bitmap file *)

Lemma le_value_le_bytes (n : nat) :
  forall v, 0 <= v < 256 ^ Z.of_nat n -> le_value (le_bytes n v) = v.
Proof.
  induction n as [| n IH]; intros v Hv; cbn [le_bytes le_value].
  - change (256 ^ Z.of_nat 0) with 1 in Hv. lia.
  - rewrite Nat2Z.inj_succ, Z.pow_succ_r in Hv by lia.
    rewrite IH.
    + pose proof (Z.div_mod v 256 ltac:(lia)). lia.
    + split; [apply Z.div_pos; lia | apply Z.div_lt_upper_bound; lia].
Qed.

Lemma length_le_bytes (n : nat) (v : Z) : length (le_bytes n v) = n.
Proof. revert v. induction n as [| n IH]; intros v; cbn; [reflexivity | now rewrite IH]. Qed.

Lemma le_bytes_range (n : nat) (v : Z) :
  Forall (fun b => 0 <= b < 256) (le_bytes n v).
Proof.
  revert v. induction n as [| n IH]; intros v; cbn [le_bytes]; constructor.
  - apply Z.mod_pos_bound. lia.
  - apply IH.
Qed.

Lemma le_value_range (l : list Z) :
  Forall (fun b => 0 <= b < 256) l ->
  0 <= le_value l < 256 ^ Z.of_nat (length l).
Proof.
  induction 1 as [| b l Hb _ IH]; cbn [le_value length].
  - change (256 ^ Z.of_nat 0) with 1. lia.
  - rewrite Nat2Z.inj_succ, Z.pow_succ_r by lia. lia.
Qed.

Lemma to_int_small (z : Z) : - 2 ^ 31 <= z < 2 ^ 31 -> to_int z = z.
Proof. intros Hz. unfold to_int. rewrite Z.mod_small; lia. Qed.

Lemma to_unsigned_small (z : Z) : 0 <= z < 2 ^ 32 -> to_unsigned z = z.
Proof. intros Hz. unfold to_unsigned. now apply Z.mod_small. Qed.

Lemma first_n_all {A : Type} (l : list A) (n : Z) :
  n = Z.of_nat (length l) -> first_n l n = Ret l.
Proof.
  intros ->. unfold first_n.
  destruct (Z.leb_spec 0 (Z.of_nat (length l))); [| lia].
  destruct (Z.leb_spec (Z.of_nat (length l)) (Z.of_nat (length l))); [| lia].
  cbn [andb]. rewrite Nat2Z.id. now rewrite firstn_all.
Qed.

Lemma first_n_Ret {A : Type} (l k : list A) (n : Z) :
  first_n l n = Ret k ->
  0 <= n <= Z.of_nat (length l) /\ k = take (Z.to_nat n) l /\
  Z.of_nat (length k) = n.
Proof.
  unfold first_n.
  destruct (Z.leb_spec 0 n); [| discriminate].
  destruct (Z.leb_spec n (Z.of_nat (length l))); [| discriminate].
  cbn [andb]. intros Hrun. inversion Hrun. subst k.
  split; [lia |]. split; [reflexivity |]. rewrite length_take. lia.
Qed.

Lemma fread_app (n : nat) (a rest : list Z) :
  length a = n -> fread n (a ++ rest) = Ret (a, rest).
Proof.
  intros <-. unfold fread. rewrite length_app.
  destruct (Nat.leb_spec (length a) (length a + length rest)); [| lia].
  now rewrite take_app_length, drop_app_length.
Qed.

Lemma fread_Ret (n : nat) (f a rest : list Z) :
  fread n f = Ret (a, rest) ->
  (n <= length f)%nat /\ a = take n f /\ rest = drop n f /\ length a = n.
Proof.
  unfold fread. destruct (Nat.leb_spec n (length f)) as [Hle | Hgt]; [| discriminate].
  intros Hrun. inversion Hrun. subst. rewrite length_take. repeat split; lia.
Qed.

Lemma DUMMYREAD_app (n : nat) (a rest : list Z) :
  length a = n -> DUMMYREAD n (a ++ rest) = rest.
Proof. intros <-. unfold DUMMYREAD. apply drop_app_length. Qed.

Lemma read_palette_written (pal : list RGB) (rest : list Z) :
  read_palette (length pal) (concat (map palette_bytes pal) ++ rest) =
  Ret (pal, rest).
Proof.
  induction pal as [| e pal IH]; [reflexivity |].
  cbn [length map concat read_palette].
  rewrite <- app_assoc. rewrite (fread_app 4 (palette_bytes e)) by reflexivity.
  cbn [bind fst snd]. unfold palette_bytes at 1 2 3.
  change (rd [B e; G e; R e; 0] 0) with (Ret (B e)).
  change (rd [B e; G e; R e; 0] 1) with (Ret (G e)).
  change (rd [B e; G e; R e; 0] 2) with (Ret (R e)).
  cbn [bind]. rewrite IH. cbn [bind fst snd]. now destruct e.
Qed.

Lemma read_palette_Ret (n : nat) :
  forall (f rest : list Z) (pal : list RGB),
    read_palette n f = Ret (pal, rest) ->
    length pal = n /\ rest = drop (4 * n) f /\ (4 * n <= length f)%nat.
Proof.
  induction n as [| n IH]; intros f rest pal Hrun; cbn [read_palette] in Hrun.
  - inversion Hrun. subst. repeat split. lia.
  - destruct (fread 4 f) as [[a f1] | | |] eqn:Hr; cbn [bind fst snd] in Hrun;
      try discriminate.
    apply fread_Ret in Hr as (Hlen & _ & -> & _).
    destruct (rd a 0) as [b | | |]; cbn [bind] in Hrun; try discriminate.
    destruct (rd a 1) as [g | | |]; cbn [bind] in Hrun; try discriminate.
    destruct (rd a 2) as [r | | |]; cbn [bind] in Hrun; try discriminate.
    destruct (read_palette n (drop 4 f)) as [[pal1 rest1] | | |] eqn:Hp;
      cbn [bind fst snd] in Hrun; try discriminate.
    inversion Hrun. subst.
    destruct (IH _ _ _ Hp) as (Hl & -> & Hn). rewrite length_drop in Hn.
    cbn [length]. split; [lia |]. split; [| lia].
    rewrite drop_drop. f_equal. lia.
Qed.

Lemma length_palette_bytes (pal : list RGB) :
  length (concat (map palette_bytes pal)) = (4 * length pal)%nat.
Proof.
  induction pal as [| e pal IH]; [reflexivity |].
  cbn [map concat]. rewrite length_app, IH. cbn [palette_bytes length]. lia.
Qed.

(** The parts of the file that [saveAsBmp] writes. *)
Lemma saveAsBmp_Ret (c : Charmap) (palette : list RGB) (file : list Z) :
  saveAsBmp c palette = Ret file ->
  exists ybytes pal pixels,
    round_up_4 (to_int (ylen c)) = Ret ybytes /\
    first_n palette 256 = Ret pal /\
    first_n (cmp c) (xlen c * ylen c) = Ret pixels /\
    file = [66; 77] ++ le_bytes 4 (to_unsigned (BMP_OFF + ybytes * xlen c))
           ++ [0; 0; 0; 0] ++ le_bytes 4 BMP_OFF ++ [40; 0; 0; 0]
           ++ le_bytes 4 (to_unsigned (xlen c))
           ++ le_bytes 4 (to_unsigned (ylen c))
           ++ [1; 0] ++ [8; 0]
           ++ [0; 0; 0; 0; 0; 0; 0; 0; 19; 11; 0; 0;
               19; 11; 0; 0; 0; 1; 0; 0; 0; 0; 0; 0]
           ++ concat (map palette_bytes pal) ++ pixels.
Proof.
  unfold saveAsBmp. intros Hrun.
  destruct (round_up_4 (to_int (ylen c))) as [ybytes | | |]; cbn [bind] in Hrun;
    try discriminate.
  destruct (first_n palette 256) as [pal | | |]; cbn [bind] in Hrun;
    try discriminate.
  destruct (first_n (cmp c) (xlen c * ylen c)) as [pixels | | |];
    cbn [bind] in Hrun; try discriminate.
  exists ybytes, pal, pixels. repeat split. inversion Hrun. reflexivity.
Qed.

Lemma round_up_4_Ret (y v : Z) :
  round_up_4 y = Ret v -> v = y + (- y) mod 4 /\ v < 2 ^ 31.
Proof.
  unfold round_up_4. destruct (Z.ltb_spec (4 * ((y + 3) / 4)) (2 ^ 31));
    [| discriminate].
  intros Hrun. inversion Hrun. subst v. split; [| assumption].
  pose proof (Z.div_mod (y + 3) 4 ltac:(lia)).
  pose proof (Z.mod_pos_bound (y + 3) 4 ltac:(lia)).
  pose proof (Z.mod_pos_bound (- y) 4 ltac:(lia)).
  assert ((- y) mod 4 = 3 - (y + 3) mod 4).
  { symmetry. apply (Z.mod_unique _ _ (- ((y + 3) / 4))); lia. }
  lia.
Qed.

Lemma saveAsBmp_runs (c : Charmap) (palette : list RGB) :
  bmp_raster c -> length palette = 256%nat ->
  exists ybytes,
    round_up_4 (to_int (ylen c)) = Ret ybytes /\
    ybytes = ylen c + (- ylen c) mod 4 /\
    first_n palette 256 = Ret palette /\
    first_n (cmp c) (xlen c * ylen c) = Ret (cmp c).
Proof.
  intros ((Hxl & Hyl & Hlen) & Hx & Hy) Hpal.
  rewrite to_int_small by lia.
  assert (Hr : exists v, round_up_4 (ylen c) = Ret v).
  { unfold round_up_4.
    pose proof (Z.div_mod (ylen c + 3) 4 ltac:(lia)).
    pose proof (Z.mod_pos_bound (ylen c + 3) 4 ltac:(lia)).
    destruct (Z.ltb_spec (4 * ((ylen c + 3) / 4)) (2 ^ 31)); [eauto | lia]. }
  destruct Hr as [v Hv]. exists v. split; [exact Hv |].
  split; [exact (proj1 (round_up_4_Ret _ _ Hv)) |].
  split; apply first_n_all; [rewrite Hpal; reflexivity | lia].
Qed.

(** ** Writing and reading a bitmap *)

Lemma loadAsBmp_written (fl w h : Z) (pal : list RGB) (pixels : list Z)
  (c0 : Charmap) (pal0 : list RGB) :
  length pal = 256%nat ->
  0 <= to_int (le_value (le_bytes 4 w)) * to_int (le_value (le_bytes 4 h)) ->
  length pixels =
  Z.to_nat (to_int (le_value (le_bytes 4 w)) * to_int (le_value (le_bytes 4 h))) ->
  loadAsBmp
    (Some ([66; 77] ++ le_bytes 4 fl ++ [0; 0; 0; 0] ++ le_bytes 4 BMP_OFF
           ++ [40; 0; 0; 0] ++ le_bytes 4 w ++ le_bytes 4 h
           ++ [1; 0] ++ [8; 0]
           ++ [0; 0; 0; 0; 0; 0; 0; 0; 19; 11; 0; 0;
               19; 11; 0; 0; 0; 1; 0; 0; 0; 0; 0; 0]
           ++ concat (map palette_bytes pal) ++ pixels)) c0 pal0 =
  Ret (1, mkCharmap (to_int (le_value (le_bytes 4 w)))
                    (to_int (le_value (le_bytes 4 h))) pixels, pal).
Proof.
  intros Hpal Hpos Hlen. unfold loadAsBmp.
  rewrite (DUMMYREAD_app 2 [66; 77]) by reflexivity.
  rewrite (DUMMYREAD_app 4 (le_bytes 4 fl)) by apply length_le_bytes.
  rewrite (DUMMYREAD_app 4 [0; 0; 0; 0]) by reflexivity.
  rewrite (DUMMYREAD_app 4 (le_bytes 4 BMP_OFF)) by apply length_le_bytes.
  rewrite (DUMMYREAD_app 4 [40; 0; 0; 0]) by reflexivity.
  rewrite (fread_app 4 (le_bytes 4 w)) by apply length_le_bytes.
  cbn [bind fst snd].
  rewrite (fread_app 4 (le_bytes 4 h)) by apply length_le_bytes.
  cbn [bind fst snd].
  destruct (Z.ltb_spec (to_int (le_value (le_bytes 4 w)) *
                        to_int (le_value (le_bytes 4 h))) 0); [lia |].
  rewrite (DUMMYREAD_app 2 [1; 0]) by reflexivity.
  rewrite (fread_app 2 [8; 0]) by reflexivity.
  cbn [bind fst snd]. change (le_value [8; 0] =? 8) with true. cbn [negb].
  rewrite (DUMMYREAD_app 24) by reflexivity.
  rewrite <- Hpal, read_palette_written. cbn [bind fst snd].
  rewrite <- (app_nil_r pixels) at 1.
  rewrite (fread_app _ pixels []) by exact Hlen.
  reflexivity.
Qed.

(** X19: a raster whose array has [xlen*ylen] cells and whose sizes are
    those of an [int] comes back from its bitmap file as it was: after
    [saveAsBmp], [loadAsBmp] of the file returns 1 and leaves the same
    sizes, the same pixels and the same 256 palette entries, whatever the
    raster held before. *)
Theorem bmp_round_trip (c : Charmap) (palette : list RGB) :
  bmp_raster c -> length palette = 256%nat ->
  exists file, saveAsBmp c palette = Ret file /\
    forall c0 pal0, loadAsBmp (Some file) c0 pal0 = Ret (1, c, palette).
Proof.
  intros Hc Hpal.
  destruct (saveAsBmp_runs c palette Hc Hpal) as (yb & Hyb & _ & Hp & Hpix).
  destruct Hc as ((Hxl & Hyl & Hlen) & Hx & Hy).
  unfold saveAsBmp. rewrite Hyb, Hp, Hpix. cbn [bind].
  eexists. split; [reflexivity |]. intros c0 pal0.
  assert (Hw : to_int (le_value (le_bytes 4 (to_unsigned (xlen c)))) = xlen c).
  { rewrite to_unsigned_small by lia.
    rewrite le_value_le_bytes by (change (256 ^ Z.of_nat 4) with (2 ^ 32); lia).
    apply to_int_small. lia. }
  assert (Hh : to_int (le_value (le_bytes 4 (to_unsigned (ylen c)))) = ylen c).
  { rewrite to_unsigned_small by lia.
    rewrite le_value_le_bytes by (change (256 ^ Z.of_nat 4) with (2 ^ 32); lia).
    apply to_int_small. lia. }
  change (writehex "424D") with [66; 77].
  change (writehex "00000000") with [0; 0; 0; 0].
  change (writehex "28000000") with [40; 0; 0; 0].
  change (writehex "0100") with [1; 0].
  change (writehex "0800") with [8; 0].
  change (writehex "130B0000") with [19; 11; 0; 0].
  change (writehex "00010000") with [0; 1; 0; 0].
  change ([0; 0; 0; 0] ++ [0; 0; 0; 0] ++ [19; 11; 0; 0] ++ [19; 11; 0; 0]
          ++ [0; 1; 0; 0] ++ [0; 0; 0; 0]
          ++ concat (map palette_bytes palette) ++ cmp c)
    with ([0; 0; 0; 0; 0; 0; 0; 0; 19; 11; 0; 0;
           19; 11; 0; 0; 0; 1; 0; 0; 0; 0; 0; 0]
          ++ concat (map palette_bytes palette) ++ cmp c).
  rewrite (loadAsBmp_written _ _ _ palette (cmp c) c0 pal0 Hpal);
    rewrite ?Hw, ?Hh; [| nia | lia].
  now destruct c.
Qed.

Lemma bmp_round_trip_witness :
  exists file, saveAsBmp small_canvas setPaletteTo = Ret file /\
    forall c0 pal0,
      loadAsBmp (Some file) c0 pal0 = Ret (1, small_canvas, setPaletteTo).
Proof.
  apply (bmp_round_trip small_canvas setPaletteTo); [| reflexivity].
  unfold bmp_raster, canvas_ok. cbn. lia.
Defined.

(** X20: in the file that [saveAsBmp] writes, the pixels start at the
    offset 1078 that the header names and the file is [1078 + xlen*ylen]
    bytes long, but the length field of the header holds
    [1078 + xlen * (ylen rounded up to a multiple of 4)]: it is the length
    of the file exactly when [ylen] is a multiple of 4. *)
Theorem bmp_length_field (c : Charmap) (palette : list RGB) (file : list Z) :
  bmp_raster c -> saveAsBmp c palette = Ret file ->
  BMP_OFF + (ylen c + 3) * xlen c < 2 ^ 32 ->
  Z.of_nat (length file) = 1078 + xlen c * ylen c /\
  field file 10 4 = 1078 /\
  drop 1078 file = cmp c /\
  field file 2 4 = Z.of_nat (length file) + xlen c * ((- ylen c) mod 4) /\
  (field file 2 4 = Z.of_nat (length file) <-> ylen c mod 4 = 0).
Proof.
  intros ((Hxl & Hyl & Hlen) & Hx & Hy) Hrun Hsmall.
  destruct (saveAsBmp_Ret c palette file Hrun)
    as (yb & pal & pixels & Hyb & Hpal & Hpix & ->).
  rewrite to_int_small in Hyb by lia.
  destruct (round_up_4_Ret _ _ Hyb) as [-> _].
  destruct (first_n_Ret _ _ _ Hpal) as (_ & _ & Hpl).
  rewrite (first_n_all (cmp c)) in Hpix by lia. inversion Hpix. subst pixels.
  pose proof (Z.mod_pos_bound (- ylen c) 4 ltac:(lia)) as Hm.
  assert (Hlength : Z.of_nat (length
            ([66; 77] ++ le_bytes 4 (to_unsigned
               (BMP_OFF + (ylen c + (- ylen c) mod 4) * xlen c))
             ++ [0; 0; 0; 0] ++ le_bytes 4 BMP_OFF ++ [40; 0; 0; 0]
             ++ le_bytes 4 (to_unsigned (xlen c))
             ++ le_bytes 4 (to_unsigned (ylen c)) ++ [1; 0] ++ [8; 0]
             ++ [0; 0; 0; 0; 0; 0; 0; 0; 19; 11; 0; 0;
                 19; 11; 0; 0; 0; 1; 0; 0; 0; 0; 0; 0]
             ++ concat (map palette_bytes pal) ++ cmp c))
          = 1078 + xlen c * ylen c).
  { rewrite !length_app, !length_le_bytes, length_palette_bytes.
    cbn [length]. lia. }
  assert (Hfield : field
            ([66; 77] ++ le_bytes 4 (to_unsigned
               (BMP_OFF + (ylen c + (- ylen c) mod 4) * xlen c))
             ++ [0; 0; 0; 0] ++ le_bytes 4 BMP_OFF ++ [40; 0; 0; 0]
             ++ le_bytes 4 (to_unsigned (xlen c))
             ++ le_bytes 4 (to_unsigned (ylen c)) ++ [1; 0] ++ [8; 0]
             ++ [0; 0; 0; 0; 0; 0; 0; 0; 19; 11; 0; 0;
                 19; 11; 0; 0; 0; 1; 0; 0; 0; 0; 0; 0]
             ++ concat (map palette_bytes pal) ++ cmp c) 2 4
          = BMP_OFF + (ylen c + (- ylen c) mod 4) * xlen c).
  { unfold field. rewrite (drop_app_length [66; 77]).
    rewrite (take_app_length' (le_bytes 4 _)) by (symmetry; apply length_le_bytes).
    rewrite le_value_le_bytes; [apply to_unsigned_small |];
      unfold to_unsigned; try apply Z.mod_pos_bound; try lia.
    unfold BMP_OFF in *. nia. }
  split; [exact Hlength |]. split; [reflexivity |]. split.
  - set (rest := concat (map palette_bytes pal) ++ cmp c).
    change 1078%nat with (54 + 1024)%nat. rewrite <- drop_drop.
    replace (drop 54 _) with rest by reflexivity.
    unfold rest. apply drop_app_length'. rewrite length_palette_bytes. lia.
  - rewrite Hfield, Hlength. unfold BMP_OFF. split; [lia |].
    assert (Hmod : (- ylen c) mod 4 = 0 <-> ylen c mod 4 = 0).
    { pose proof (Z.div_mod (- ylen c) 4 ltac:(lia)).
      pose proof (Z.div_mod (ylen c) 4 ltac:(lia)).
      pose proof (Z.mod_pos_bound (ylen c) 4 ltac:(lia)). lia. }
    rewrite <- Hmod. nia.
Qed.

Lemma bmp_length_field_witness :
  exists file, saveAsBmp small_canvas setPaletteTo = Ret file /\
    Z.of_nat (length file) = 1078 + 3 * 2 /\
    field file 2 4 = Z.of_nat (length file) + 3 * 2.
Proof.
  eexists. split; [reflexivity |].
  destruct (bmp_length_field small_canvas setPaletteTo _
              ltac:(unfold bmp_raster, canvas_ok; cbn; lia) eq_refl
              ltac:(vm_compute; reflexivity)) as (Hlen & _ & _ & Hfield & _).
  split; [exact Hlen | exact Hfield].
Defined.

(** ** Reading a bitmap *)

Lemma header_skip (f : list Z) :
  DUMMYREAD 4 (DUMMYREAD 4 (DUMMYREAD 4 (DUMMYREAD 4 (DUMMYREAD 2 f)))) =
  drop 18 f.
Proof. unfold DUMMYREAD. rewrite !drop_drop. reflexivity. Qed.

Lemma fread_drop (n k : nat) (f : list Z) :
  (k + n <= length f)%nat ->
  fread n (drop k f) = Ret (take n (drop k f), drop (k + n) f).
Proof.
  intros Hlen. unfold fread. rewrite length_drop.
  destruct (Nat.leb_spec n (length f - k)); [| lia]. now rewrite drop_drop.
Qed.

Lemma fread_drop_Ret (n k : nat) (f a rest : list Z) :
  (0 < n)%nat -> fread n (drop k f) = Ret (a, rest) ->
  (k + n <= length f)%nat /\ a = take n (drop k f) /\ rest = drop (k + n) f.
Proof.
  intros Hn Hr. apply fread_Ret in Hr as (Hlen & -> & -> & Hl).
  rewrite length_drop in Hlen. rewrite drop_drop.
  rewrite length_take, length_drop in Hl. repeat split. lia.
Qed.

(** What a successful [loadAsBmp] has found in the file. *)
Lemma loadAsBmp_Ret (f : list Z) (c0 c : Charmap) (pal0 pal : list RGB)
  (r : Z) :
  loadAsBmp (Some f) c0 pal0 = Ret (r, c, pal) ->
  r = 1 /\
  xlen c = to_int (field f 18 4) /\ ylen c = to_int (field f 22 4) /\
  field f 28 2 = 8 /\
  0 <= xlen c * ylen c /\
  Z.of_nat (length (cmp c)) = xlen c * ylen c /\
  cmp c = take (Z.to_nat (xlen c * ylen c)) (drop 1078 f) /\
  length pal = 256%nat /\
  1078 + xlen c * ylen c <= Z.of_nat (length f).
Proof.
  unfold loadAsBmp. cbv zeta. rewrite header_skip. intros Hrun.
  destruct (fread 4 (drop 18 f)) as [[a1 f1] | | |] eqn:H1;
    cbn [bind fst snd] in Hrun; try discriminate.
  apply fread_drop_Ret in H1 as (L1 & -> & ->); [| lia].
  destruct (fread 4 (drop (18 + 4) f)) as [[a2 f2] | | |] eqn:H2;
    cbn [bind fst snd] in Hrun; try discriminate.
  apply fread_drop_Ret in H2 as (L2 & -> & ->); [| lia].
  fold (field f 18 4) in Hrun. fold (field f (18 + 4) 4) in Hrun.
  destruct (Z.ltb_spec (to_int (field f 18 4) * to_int (field f (18 + 4) 4)) 0)
    as [Hneg | Hpos]; [discriminate |].
  unfold DUMMYREAD in Hrun. rewrite drop_drop in Hrun.
  destruct (fread 2 (drop (18 + 4 + 4 + 2) f)) as [[a3 f3] | | |] eqn:H3;
    cbn [bind fst snd] in Hrun; try discriminate.
  apply fread_drop_Ret in H3 as (L3 & -> & ->); [| lia].
  fold (field f (18 + 4 + 4 + 2) 2) in Hrun.
  destruct (Z.eqb_spec (field f (18 + 4 + 4 + 2) 2) 8) as [Hbits | Hbits];
    cbn [negb] in Hrun; [| discriminate].
  rewrite drop_drop in Hrun.
  destruct (read_palette 256 (drop (18 + 4 + 4 + 2 + 2 + 24) f))
    as [[p f4] | | |] eqn:H4; cbn [bind fst snd] in Hrun; try discriminate.
  apply read_palette_Ret in H4 as (Hp & -> & L4).
  rewrite drop_drop in Hrun. rewrite length_drop in L4.
  destruct (fread _ (drop (18 + 4 + 4 + 2 + 2 + 24 + 4 * 256) f))
    as [[a5 f5] | | |] eqn:H5; cbn [bind fst snd] in Hrun; try discriminate.
  apply fread_Ret in H5 as (L5 & -> & _ & _). rewrite length_drop in L5.
  inversion Hrun. subst r c pal. cbn [xlen ylen cmp].
  change (18 + 4)%nat with 22%nat in *.
  change (22 + 4 + 2)%nat with 28%nat in *.
  change (28 + 2 + 24 + 4 * 256)%nat with 1078%nat in *.
  repeat split; try assumption; try reflexivity.
  - rewrite length_take, length_drop. lia.
  - lia.
Qed.

Lemma loadAsBmp_cells (f : list Z) (c0 c : Charmap) (pal0 pal : list RGB)
  (r : Z) :
  file_bytes f -> loadAsBmp (Some f) c0 pal0 = Ret (r, c, pal) ->
  byte_cells c.
Proof.
  intros Hf Hrun.
  destruct (loadAsBmp_Ret f c0 c pal0 pal r Hrun) as (_ & _ & _ & _ & _ & _ & Hc & _).
  unfold byte_cells. rewrite Hc. apply Forall_take, Forall_drop. exact Hf.
Qed.

(** X21: [loadAsBmp] returns 0 and leaves the raster alone when the file
    cannot be opened, and ends the run with [exit(99)] when the two bytes at
    28 are not 8.  When it returns for a file, it returns 1; the sizes are
    the two numbers at 18 and 22 read as [int], the pixels are the
    [xlen*ylen] bytes from 1078 on, which the file must have, the palette
    has 256 entries, and the array has [xlen*ylen] cells.  Nothing before
    byte 18 -- the signature, the length and the offset of the pixels -- is
    ever looked at. *)
Theorem loadAsBmp_reads (f : list Z) (c0 : Charmap) (pal0 : list RGB) :
  loadAsBmp None c0 pal0 = Ret (0, c0, pal0) /\
  (forall r c pal, loadAsBmp (Some f) c0 pal0 = Ret (r, c, pal) ->
     r = 1 /\
     xlen c = to_int (field f 18 4) /\ ylen c = to_int (field f 22 4) /\
     field f 28 2 = 8 /\
     0 <= xlen c * ylen c /\
     Z.of_nat (length (cmp c)) = xlen c * ylen c /\
     cmp c = take (Z.to_nat (xlen c * ylen c)) (drop 1078 f) /\
     length pal = 256%nat /\
     1078 + xlen c * ylen c <= Z.of_nat (length f)) /\
  (forall g, drop 18 g = drop 18 f ->
     loadAsBmp (Some g) c0 pal0 = loadAsBmp (Some f) c0 pal0) /\
  ((30 <= length f)%nat ->
   0 <= to_int (field f 18 4) * to_int (field f 22 4) ->
   field f 28 2 <> 8 -> loadAsBmp (Some f) c0 pal0 = Exit99).
Proof.
  split; [reflexivity |].
  split; [intros r c pal; apply loadAsBmp_Ret |]. split.
  - intros g Hg. unfold loadAsBmp. cbv zeta. rewrite !header_skip, Hg.
    reflexivity.
  - intros Hlen Hpos Hbits. unfold loadAsBmp. cbv zeta. rewrite header_skip.
    rewrite (fread_drop 4 18) by lia. cbn [bind fst snd].
    rewrite (fread_drop 4 (18 + 4)) by lia. cbn [bind fst snd].
    fold (field f 18 4). fold (field f (18 + 4) 4).
    change (18 + 4)%nat with 22%nat.
    destruct (Z.ltb_spec (to_int (field f 18 4) * to_int (field f 22 4)) 0);
      [lia |].
    unfold DUMMYREAD. rewrite drop_drop.
    rewrite (fread_drop 2 (22 + 4 + 2)) by lia. cbn [bind fst snd].
    fold (field f (22 + 4 + 2) 2). change (22 + 4 + 2)%nat with 28%nat.
    destruct (Z.eqb_spec (field f 28 2) 8); [contradiction | reflexivity].
Qed.

Lemma loadAsBmp_reads_witness :
  loadAsBmp (Some (repeat 0 30)) small_canvas setPaletteTo = Exit99.
Proof.
  apply (loadAsBmp_reads (repeat 0 30) small_canvas setPaletteTo);
    [cbn; lia | vm_compute; discriminate | vm_compute; discriminate].
Defined.

(** ** The image checks of [main] *)

Lemma adjustPalette_Ret (pal pal' : list RGB) (c md : Charmap) :
  canvas_ok c -> byte_cells c -> length pal = 256%nat ->
  adjustPalette pal c = Ret (md, pal') ->
  same_size md c /\ three_classes md /\ pal' = setPaletteTo.
Proof.
  intros Hok Hbytes Hpal Hrun. unfold adjustPalette in Hrun.
  assert (Hstart : adjusted_to pal c (0 * xlen c) c).
  { split; [apply same_size_refl |]. intros j Hj.
    destruct (Z.ltb_spec j (0 * xlen c)); [lia | reflexivity]. }
  destruct (adjust_rows_spec pal c Hok Hbytes Hpal (Z.to_nat (ylen c)) c 0
              ltac:(lia) ltac:(destruct Hok; lia) Hstart)
    as [(c' & Hret & Hstate & Hfine) | [Hexit _]];
    [| rewrite Hexit in Hrun; discriminate].
  rewrite Hret in Hrun. cbn [bind] in Hrun. inversion Hrun. subst c' pal'.
  split; [exact (proj1 Hstate) |]. split; [| reflexivity].
  replace ((0 + Z.of_nat (Z.to_nat (ylen c))) * xlen c)
    with (ylen c * xlen c) in Hstate, Hfine by (destruct Hok; lia).
  assert (Hcmp : cmp md = map (class_or_gray pal) (cmp c))
    by (eapply adjusted_all; eassumption).
  unfold three_classes. rewrite Hcmp. apply List.Forall_map.
  apply List.Forall_forall. intros f Hf.
  apply list_elem_of_In, list_elem_of_lookup_1 in Hf as [i Hi].
  assert (Hclass : class_of pal f <> None).
  { apply (Hfine (Z.of_nat i) f).
    - apply lookup_lt_Some in Hi. destruct Hok as (? & ? & Hsize). nia.
    - rewrite zget_nat by lia. now rewrite Nat2Z.id. }
  unfold class_or_gray, class_of in *.
  destruct (zget pal f) as [e |]; [| contradiction].
  destruct (classify e) as [v |] eqn:Hc; [| contradiction].
  exact (classify_classes e v Hc).
Qed.

(** A raster without columns is left as it is. *)
Lemma adjust_rows_empty (pal : list RGB) (md : Charmap) :
  xlen md <= 0 -> forall (m : nat) (y : Z), adjust_rows m pal md y = Ret md.
Proof.
  intros Hx. induction m as [| m IH]; intros y; cbn [adjust_rows];
    [reflexivity |].
  replace (Z.to_nat (xlen md)) with 0%nat by lia. cbn [adjust_row bind].
  apply IH.
Qed.

(** On a square raster with fewer than [BORDERWIDTH] rows the test leaves
    the array before it can answer 1. *)
Lemma border_rows_small (md : Charmap) :
  canvas_ok md -> xlen md = ylen md ->
  forall (m : nat) (a0 r : Z),
    0 <= a0 <= xlen md -> xlen md < a0 + Z.of_nat m ->
    border_rows m md a0 = Ret r -> r = 0.
Proof.
  intros Hok Hsq. induction m as [| m IH]; intros a0 r Ha Hm Hrun; [lia |].
  cbn [border_rows] in Hrun.
  destruct (Z.eq_dec a0 (xlen md)) as [-> | Hne].
  - destruct Hok as (Hxl & _).
    destruct (Z.to_nat (xlen md)) as [| n] eqn:Hn; [lia |].
    cbn [border_cols] in Hrun. unfold border_test, orr, lacks_colour in Hrun.
    destruct (getPoint md (xlen md) 0) as [p | | |]; cbn [bind] in Hrun;
      try discriminate.
    destruct (negb (p =? COLORWHITE)); cbn [bind] in Hrun.
    + cbn in Hrun. now inversion Hrun.
    + assert (Hout : getPoint md (xlen md - 1 - xlen md) 0 = Undef).
      { unfold getPoint, rd, zget.
        destruct (Z.ltb_spec (0 * xlen md + (xlen md - 1 - xlen md)) 0);
          [reflexivity | lia]. }
      rewrite Hout in Hrun. discriminate.
  - destruct (border_cols_spec md a0 Hok Hsq ltac:(lia) (Z.to_nat (xlen md)) 0
                ltac:(lia) ltac:(lia)) as (r0 & Hr0 & H01 & _).
    rewrite Hr0 in Hrun. cbn [bind] in Hrun. destruct H01 as [-> | ->].
    + cbn in Hrun. now inversion Hrun.
    + cbn [Z.leb Z.compare] in Hrun.
      apply (IH (a0 + 1) r); [lia | lia | exact Hrun].
Qed.

Lemma borderPresent_Ret (md : Charmap) (r : Z) :
  canvas_ok md -> xlen md = ylen md -> borderPresent md = Ret r -> 0 < r ->
  BORDERWIDTH <= xlen md /\ white_frame md.
Proof.
  intros Hok Hsq Hrun Hr. unfold borderPresent in Hrun.
  destruct (Z.le_gt_cases BORDERWIDTH (xlen md)) as [Hwide | Hsmall].
  - split; [exact Hwide |].
    apply (white_frame_check md Hok Hsq Hwide). unfold borderPresent.
    destruct (border_rows_spec md Hok Hsq (Z.to_nat BORDERWIDTH) 0 ltac:(lia)
                ltac:(unfold BORDERWIDTH in *; lia)) as (r' & Hr' & H01 & _).
    rewrite Hr' in Hrun |- *. inversion Hrun. subst r'.
    destruct H01 as [-> | ->]; [lia | reflexivity].
  - pose proof (border_rows_small md Hok Hsq (Z.to_nat BORDERWIDTH) 0 r
                  ltac:(destruct Hok; lia)
                  ltac:(unfold BORDERWIDTH in *; lia) Hrun).
    lia.
Qed.

Lemma file_bytes_check (f : list Z) :
  forallb byte_cell f = true -> file_bytes f.
Proof.
  intros H. apply List.Forall_forall. intros b Hb.
  pose proof (proj1 (forallb_forall byte_cell f) H b Hb) as Hc.
  unfold byte_cell in Hc. apply andb_true_iff in Hc as [H0 H1].
  apply Z.leb_le in H0. apply Z.ltb_lt in H1. lia.
Qed.



(** ** The names of the polygon files *)

Lemma scan_zeros (k : nat) (s : string) :
  scan_digits 10 (zeros k s) 0 = scan_digits 10 s 0.
Proof. induction k as [| k IH]; [reflexivity | exact IH]. Qed.

Lemma print_04i_value (n : Z) :
  0 <= n -> scan_digits 10 (print_04i n EmptyString) 0 = (n, EmptyString).
Proof.
  intros Hn. unfold print_04i. destruct (Z.ltb_spec n 0); [lia |].
  rewrite scan_zeros, scan_print_unsigned by exact Hn. reflexivity.
Qed.

Lemma append_inj (s a b : string) :
  String.append s a = String.append s b -> a = b.
Proof.
  induction s as [| c s IH]; cbn [String.append]; intros H; [exact H |].
  inversion H. auto.
Qed.

Lemma poly_name_inj (afnpref : string) (n m : Z) :
  0 <= n -> 0 <= m -> poly_name afnpref n = poly_name afnpref m -> n = m.
Proof.
  intros Hn Hm H. unfold poly_name in H.
  apply append_inj, append_inj in H.
  pose proof (print_04i_value n Hn) as Pn. pose proof (print_04i_value m Hm) as Pm.
  rewrite H in Pn. congruence.
Qed.

Lemma int_ext_differ (n m : Z) : poly_name "int" n <> poly_name "ext" m.
Proof. unfold poly_name. cbn [String.append]. discriminate. Qed.

(** ** [loadAllPolygons] *)

Section LoadAll.

Variables (fs : Files) (fresh : Polygon) (tmp0 : string -> string).

Lemma load_next_spec (afnpref : string) (ps arr : list Polygon)
  (search : Z) (todo : nat) :
  numbered_run fs afnpref fresh tmp0 ps ->
  Z.of_nat (length ps) < MAXPOLYGONE ->
  search_state ps arr search todo ->
  exists arr' search',
    load_next fs afnpref fresh tmp0 arr search = Ret (arr', search') /\
    search_state ps arr' search' (pred todo).
Proof.
  intros [Hload Hmiss] Hmax [(-> & a & Ha & -> & ->) | (-> & -> & ->)].
  - unfold load_next. cbn [Z.gtb Z.compare]. cbv zeta.
    rewrite length_take, Nat.min_l by exact Ha.
    destruct (Z.geb_spec (Z.of_nat a) MAXPOLYGONE) as [Hbig | _]; [lia |].
    destruct (Nat.eq_dec a (length ps)) as [-> | Hne].
    + unfold load_file. rewrite Hmiss. cbn [bind fst snd Z.leb Z.compare].
      eexists _, _. split; [reflexivity |]. right.
      rewrite firstn_all. repeat split. cbn. lia.
    + destruct (lookup_lt_is_Some_2 ps a ltac:(lia)) as [p Hp].
      rewrite (Hload a p Hp). cbn [bind fst snd Z.leb Z.compare].
      eexists _, _. split; [reflexivity |]. left. split; [reflexivity |].
      exists (S a). split; [lia |]. split.
      * now rewrite (take_S_r ps a p Hp).
      * cbn [pred]. lia.
  - unfold load_next. cbn [Z.gtb Z.compare]. eexists _, _.
    split; [reflexivity |]. right. auto.
Qed.

Lemma load_loop_spec (ips eps : list Polygon) :
  numbered_run fs "int" fresh tmp0 ips ->
  numbered_run fs "ext" fresh tmp0 eps ->
  Z.of_nat (length ips) < MAXPOLYGONE ->
  Z.of_nat (length eps) < MAXPOLYGONE ->
  forall (fuel : nat) (intp extp : list Polygon) (searchi searche : Z)
         (ti te : nat),
    search_state ips intp searchi ti -> search_state eps extp searche te ->
    (Nat.max ti te < fuel)%nat ->
    load_loop fuel fs fresh tmp0 intp extp searchi searche = Ret (ips, eps).
Proof.
  intros Hi He Mi Me. induction fuel as [| fuel IH];
    intros intp extp searchi searche ti te Si Se Hfuel; [lia |].
  cbn [load_loop].
  destruct ((searche >? 0) || (searchi >? 0)) eqn:Hgo.
  - destruct (load_next_spec "int" ips intp searchi ti Hi Mi Si)
      as (i' & si' & -> & Si').
    destruct (load_next_spec "ext" eps extp searche te He Me Se)
      as (e' & se' & -> & Se').
    cbn [bind fst snd].
    apply (IH i' e' si' se' (pred ti) (pred te) Si' Se').
    assert (H0 : (0 < Nat.max ti te)%nat).
    { destruct Si as [(-> & a & _ & _ & ->) | (-> & _ & _)]; [lia |].
      destruct Se as [(-> & b & _ & _ & ->) | (-> & _ & _)]; [lia |].
      discriminate Hgo. }
    lia.
  - apply orb_false_iff in Hgo as [Ge Gi].
    destruct Si as [(-> & _) | (_ & -> & _)]; [discriminate Gi |].
    destruct Se as [(-> & _) | (_ & -> & _)]; [discriminate Ge |].
    reflexivity.
Qed.

End LoadAll.

(** ** Saved polygons come back *)

Lemma load_saved (RANGE0 RANGE1 : Z) (apg old : Polygon) (tmp0 : string) :
  load old tmp0 (save RANGE0 RANGE1 apg) = Ret (reloaded old apg).
Proof.
  unfold load, save. cbn [app next_line].
  rewrite !chomp_print_int, chomp_line_end.
  rewrite sscanf_I64d_print, sscanf_i_print.
  unfold pointcount at 1.
  destruct (Z.ltb_spec (Z.of_nat (length (points apg))) 0) as [Hneg | _]; [lia |].
  unfold pointcount. rewrite Nat2Z.id.
  destruct (load_points_lines (points apg)
              (print_int (Z.of_nat (length (points apg))) EmptyString)
              [String "." line_end] true (box_of old) []) as [b' Hb'].
  rewrite Hb'. cbn [bind app].
  apply load_points_Ret in Hb' as (new & Hnew & _ & ->).
  cbn [app] in Hnew. subst new. reflexivity.
Qed.

Lemma save_all_other (afnpref : string) (RANGE0 RANGE1 : Z) (afn : string) :
  forall (saved : list Polygon) (polanz : Z) (fs : Files),
    (forall j : nat, (j < length saved)%nat ->
                     afn <> poly_name afnpref (polanz + Z.of_nat j)) ->
    save_all afnpref RANGE0 RANGE1 polanz saved fs afn = fs afn.
Proof.
  induction saved as [| p rest IH]; intros polanz fs Hother; [reflexivity |].
  cbn [save_all]. rewrite IH.
  - destruct (String.eqb_spec afn (poly_name afnpref polanz)) as [Heq | _];
      [| reflexivity].
    exfalso. apply (Hother 0%nat); [cbn; lia |].
    now rewrite Z.add_0_r.
  - intros j Hj. replace (polanz + 1 + Z.of_nat j)
      with (polanz + Z.of_nat (S j)) by lia.
    apply Hother. cbn [length]. lia.
Qed.

Lemma save_all_at (afnpref : string) (RANGE0 RANGE1 : Z) :
  forall (saved : list Polygon) (polanz : Z) (fs : Files) (j : nat) p,
    0 <= polanz -> saved !! j = Some p ->
    save_all afnpref RANGE0 RANGE1 polanz saved fs
             (poly_name afnpref (polanz + Z.of_nat j)) =
    Some (save RANGE0 RANGE1 p).
Proof.
  induction saved as [| q rest IH]; intros polanz fs j p Hpos Hj;
    [discriminate Hj |].
  cbn [save_all]. destruct j as [| j].
  - inversion Hj. subst q. rewrite Z.add_0_r. rewrite save_all_other.
    + now rewrite String.eqb_refl.
    + intros k _ Heq. apply poly_name_inj in Heq; lia.
  - replace (polanz + Z.of_nat (S j)) with (polanz + 1 + Z.of_nat j) by lia.
    apply IH; [lia | exact Hj].
Qed.

Lemma saved_run (RANGE0 RANGE1 : Z) (afnpref : string) (fs : Files)
  (fresh : Polygon) (tmp0 : string -> string) (saved : list Polygon) :
  fs (poly_name afnpref (Z.of_nat (length saved))) = None ->
  numbered_run (save_all afnpref RANGE0 RANGE1 0 saved fs) afnpref fresh tmp0
               (map (reloaded fresh) saved).
Proof.
  intros Hmiss. split.
  - intros k p' Hk. rewrite list_lookup_fmap in Hk.
    destruct (saved !! k) as [p |] eqn:Hp; [| discriminate Hk].
    inversion Hk. subst p'. unfold load_file.
    rewrite <- (Z.add_0_l (Z.of_nat k)).
    rewrite (save_all_at afnpref RANGE0 RANGE1 saved 0 fs k p ltac:(lia) Hp).
    rewrite load_saved. reflexivity.
  - rewrite length_map. rewrite save_all_other; [exact Hmiss |].
    intros j Hj Heq. apply poly_name_inj in Heq; lia.
Qed.

Lemma numbered_run_other (RANGE0 RANGE1 : Z) (a b : string) (fs : Files)
  (fresh : Polygon) (tmp0 : string -> string) (saved ps : list Polygon) :
  (forall n m, poly_name a n <> poly_name b m) ->
  numbered_run fs a fresh tmp0 ps ->
  numbered_run (save_all b RANGE0 RANGE1 0 saved fs) a fresh tmp0 ps.
Proof.
  intros Hdiff [Hload Hmiss]. split.
  - intros k p Hk. unfold load_file. rewrite save_all_other by (intros; apply Hdiff).
    exact (Hload k p Hk).
  - rewrite save_all_other by (intros; apply Hdiff). exact Hmiss.
Qed.

(** X23: [loadAllPolygons] loads the interior files numbered 0000, 0001,
    ... up to the first one that cannot be opened, and likewise the
    exterior files; the polygons come in this order and the counters are
    their numbers.  Files behind a gap in the numbering are ignored.  The
    loop needs two turns more than the longer of the two runs. *)
Theorem loadAllPolygons_consecutive (fs : Files) (fresh : Polygon)
  (tmp0 : string -> string) (ips eps : list Polygon) (fuel : nat) :
  numbered_run fs "int" fresh tmp0 ips ->
  numbered_run fs "ext" fresh tmp0 eps ->
  Z.of_nat (length ips) < MAXPOLYGONE ->
  Z.of_nat (length eps) < MAXPOLYGONE ->
  (S (Nat.max (length ips) (length eps)) < fuel)%nat ->
  loadAllPolygons fuel fs fresh tmp0 = Ret (ips, eps).
Proof.
  intros Hi He Mi Me Hfuel. unfold loadAllPolygons.
  apply (load_loop_spec fs fresh tmp0 ips eps Hi He Mi Me fuel [] [] 1 1
           (S (length ips)) (S (length eps))).
  - left. split; [reflexivity |]. exists 0%nat.
    split; [lia |]. split; [reflexivity | lia].
  - left. split; [reflexivity |]. exists 0%nat.
    split; [lia |]. split; [reflexivity | lia].
  - lia.
Qed.

Lemma loadAllPolygons_consecutive_witness :
  loadAllPolygons 3 (save_all "int" (-2) 2 0 ring_polygons no_files)
                  plain_polygon (fun _ => EmptyString) =
  Ret (map (reloaded plain_polygon) ring_polygons, []).
Proof.
  apply (loadAllPolygons_consecutive
           (save_all "int" (-2) 2 0 ring_polygons no_files) plain_polygon
           (fun _ => EmptyString) (map (reloaded plain_polygon) ring_polygons)
           [] 3).
  - apply saved_run. reflexivity.
  - split; [intros k p Hp; discriminate Hp | reflexivity].
  - vm_compute. reflexivity.
  - reflexivity.
  - vm_compute. lia.
Defined.

(** X24: the polygons that the construction has saved as interior and as
    exterior polygons, each kind numbered from 0000 on, are what
    [loadAllPolygons] delivers, in the same order: every polygon comes back
    with its vertices and its denominator, the jump table switched off and
    a table buffer of one cell per vertex, provided there are fewer than
    [MAXPOLYGONE] of each kind and no older file carries the next number. *)
Theorem saved_polygons_load_back (RANGE0 RANGE1 : Z) (fs : Files)
  (fresh : Polygon) (tmp0 : string -> string) (ints exts : list Polygon)
  (fuel : nat) :
  fs (poly_name "int" (Z.of_nat (length ints))) = None ->
  fs (poly_name "ext" (Z.of_nat (length exts))) = None ->
  Z.of_nat (length ints) < MAXPOLYGONE ->
  Z.of_nat (length exts) < MAXPOLYGONE ->
  (S (Nat.max (length ints) (length exts)) < fuel)%nat ->
  loadAllPolygons fuel
    (save_all "ext" RANGE0 RANGE1 0 exts
       (save_all "int" RANGE0 RANGE1 0 ints fs)) fresh tmp0 =
  Ret (map (reloaded fresh) ints, map (reloaded fresh) exts) /\
  Forall (fun p => points (reloaded fresh p) = points p /\
                   nenner (reloaded fresh p) = nenner p /\
                   useprepare (reloaded fresh p) = 0 /\
                   length (yprepare (reloaded fresh p)) = length (points p))
         (ints ++ exts).
Proof.
  intros Hi He Mi Me Hfuel. split.
  - unfold loadAllPolygons.
    apply (load_loop_spec _ fresh tmp0 (map (reloaded fresh) ints)
             (map (reloaded fresh) exts)) with
      (ti := S (length ints)) (te := S (length exts)).
    + apply numbered_run_other; [apply int_ext_differ |].
      apply saved_run. exact Hi.
    + apply saved_run. rewrite save_all_other; [exact He |].
      intros j _ Heq. symmetry in Heq. exact (int_ext_differ _ _ Heq).
    + now rewrite length_map.
    + now rewrite length_map.
    + left. split; [reflexivity |]. exists 0%nat. rewrite length_map.
      split; [lia |]. split; [reflexivity | lia].
    + left. split; [reflexivity |]. exists 0%nat. rewrite length_map.
      split; [lia |]. split; [reflexivity | lia].
    + lia.
  - apply List.Forall_forall. intros p _. unfold reloaded, loaded. cbn.
    rewrite repeat_length. auto.
Qed.

Lemma saved_polygons_load_back_witness :
  loadAllPolygons 3
    (save_all "ext" (-2) 2 0 []
       (save_all "int" (-2) 2 0 ring_polygons no_files))
    plain_polygon (fun _ => EmptyString) =
  Ret (map (reloaded plain_polygon) ring_polygons, []).
Proof.
  apply (saved_polygons_load_back (-2) 2 no_files plain_polygon
           (fun _ => EmptyString) ring_polygons [] 3);
    try reflexivity; vm_compute; (reflexivity || lia).
Defined.

(** ** Check A on what the construction saved *)

Lemma qcA_all_pass (l : list Polygon) :
  Forall (fun p => qcA p = Ret 1) l -> qcA_all l = Ret 1.
Proof.
  induction 1 as [| p l Hp _ IH]; [reflexivity |].
  cbn [qcA_all]. rewrite Hp. cbn [bind Z.leb Z.compare]. exact IH.
Qed.

Lemma qcA_reloaded (fresh p : Polygon) : qcA (reloaded fresh p) = qcA p.
Proof. reflexivity. Qed.

Lemma buildPolygon_passes_qcA (fuel : nat) (plane : Z -> Z) (lower : Z)
  (blau : Charmap) :
  injective plane -> 2 <= lower ->
  Forall (fun p => qcA p = Ret 1) (fst (buildPolygon fuel plane lower blau [])).
Proof.
  intros Hinj Hlow.
  assert (Hall : Forall (fun p => (3 <= pointcount p -> qcA p = Ret 1) /\
                                  lower < pointcount p)
                        (fst (buildPolygon fuel plane lower blau []))).
  { apply Forall_and. split.
    - apply (buildPolygon_shape plane lower blau _ Hinj);
        [| apply blue_within_refl | apply List.Forall_nil].
      intros c p _ (_ & _ & H3). exact H3.
    - apply (buildPolygon_saved plane lower (fun p => lower < pointcount p));
        [| apply List.Forall_nil].
      intros f b b' p Ht.
      exact (proj2 (proj2 (trace_once_saved f plane lower b b' p Hinj Ht))). }
  eapply List.Forall_impl; [| exact Hall]. intros p [H Hlen]. apply H. lia.
Qed.

Lemma make_polygons_pass_qcA (relf : Z) (fuel1 fuel2 : nat) (plane : Z -> Z)
  (granularity lower : Z) (inbild : Charmap) :
  injective plane -> 2 <= lower ->
  Forall (fun p => qcA p = Ret 1)
         (fst (make_polygons relf fuel1 fuel2 plane granularity lower inbild)).
Proof.
  intros Hinj Hlow. unfold make_polygons.
  destruct (floodFillPattern fuel1 granularity relf inbild);
    try apply List.Forall_nil.
  now apply buildPolygon_passes_qcA.
Qed.

(** X25: with a minimum polygon length of 2 or more -- the default is 24 --
    check A of [qualitycontrol] never fails on what the construction has
    saved: the polygons of [interiorPolygon] and of [exteriorPolygon], read
    back as [loadAllPolygons] reads them, are all closed, free of colinear
    vertices and free of diagonals, whatever the rasters were. *)
Theorem saved_polygons_pass_check_A (fuel1 fuel2 fuel3 fuel4 : nat)
  (plane : Z -> Z) (granularity lower : Z) (inbild inbild' : Charmap)
  (fresh : Polygon) :
  injective plane -> 2 <= lower ->
  check_A
    (map (reloaded fresh)
         (fst (interiorPolygon fuel1 fuel2 plane granularity lower inbild)))
    (map (reloaded fresh)
         (fst (exteriorPolygon fuel3 fuel4 plane granularity lower inbild')))
  = Ret 1.
Proof.
  intros Hinj Hlow. unfold check_A, interiorPolygon, exteriorPolygon.
  assert (Hmap : forall l, Forall (fun p => qcA p = Ret 1) l ->
            qcA_all (map (reloaded fresh) l) = Ret 1).
  { intros l Hl. apply qcA_all_pass. apply List.Forall_map.
    eapply List.Forall_impl; [| exact Hl]. intros p Hp.
    now rewrite qcA_reloaded. }
  rewrite (Hmap _ (make_polygons_pass_qcA COLORBLACK fuel1 fuel2 plane
                     granularity lower inbild Hinj Hlow)).
  cbn [bind Z.gtb Z.compare].
  exact (Hmap _ (make_polygons_pass_qcA COLORWHITE fuel3 fuel4 plane
                   granularity lower inbild' Hinj Hlow)).
Qed.

Lemma saved_polygons_pass_check_A_witness :
  check_A
    (map (reloaded plain_polygon)
         (fst (interiorPolygon 1600 60 plane1024 3 3 island_canvas)))
    (map (reloaded plain_polygon)
         (fst (exteriorPolygon 1600 60 plane1024 3 3 island_canvas)))
  = Ret 1.
Proof.
  apply (saved_polygons_pass_check_A 1600 60 1600 60 plane1024 3 3
           island_canvas island_canvas plain_polygon plane1024_injective).
  lia.
Defined.

(** ** [chomp] *)

Lemma ends_high_cons (c : ascii) (s : string) :
  s <> EmptyString -> ends_high (String c s) = ends_high s.
Proof. destruct s; [contradiction | reflexivity]. Qed.

Lemma chomp_cons (c : ascii) (s : string) :
  chomp (String c s) =
  match chomp s with
  | EmptyString => if below32 c then EmptyString else String c EmptyString
  | t => String c t
  end.
Proof. reflexivity. Qed.

Lemma chomp_fixed (s : string) :
  s <> EmptyString -> ends_high s = true -> chomp s = s.
Proof.
  induction s as [| c s IH]; intros Hne Hend; [contradiction |].
  destruct s as [| d s].
  - cbn in Hend |- *. destruct (below32 c); [discriminate | reflexivity].
  - rewrite ends_high_cons in Hend by discriminate.
    rewrite chomp_cons, (IH ltac:(discriminate) Hend). reflexivity.
Qed.

(** X26: [chomp] cuts the longest tail made of characters below 32 and
    nothing else -- with the signed [char] of the program the bytes from
    128 on, as in any text that is not ASCII, count as such and are cut as
    well --, so what it returns is empty or ends with a character it
    keeps, and a second [chomp] changes nothing. *)
Theorem chomp_cuts_tail (s : string) :
  (exists t, s = String.append (chomp s) t /\ all_below32 t = true) /\
  ends_high (chomp s) = true /\
  chomp (chomp s) = chomp s.
Proof.
  assert (Hcut : (exists t, s = String.append (chomp s) t /\
                            all_below32 t = true) /\
                 ends_high (chomp s) = true).
  { induction s as [| c s [(t & Hs & Ht) Hend]].
    - split; [exists EmptyString; auto | reflexivity].
    - rewrite chomp_cons. destruct (chomp s) as [| d u] eqn:Hc.
      + cbn [String.append] in Hs. subst t.
        destruct (below32 c) eqn:Hb.
        * split; [| reflexivity]. exists (String c s). cbn. now rewrite Hb, Ht.
        * split; [| cbn; now rewrite Hb]. exists s. auto.
      + split.
        * exists t. cbn [String.append] in Hs |- *. now rewrite <- Hs.
        * rewrite ends_high_cons by discriminate. exact Hend. }
  destruct Hcut as [Htail Hend]. split; [exact Htail |]. split; [exact Hend |].
  destruct (chomp s) as [| c u] eqn:Hc; [reflexivity |].
  apply chomp_fixed; [discriminate | exact Hend].
Qed.

(** ** [upper] and the options of [main] *)

Lemma upper_char_fixed (c : ascii) : upper_char (upper_char c) = upper_char c.
Proof.
  destruct c as [[|] [|] [|] [|] [|] [|] [|] [|]]; reflexivity.
Qed.

Lemma upper_fixed (s : string) : upper (upper s) = upper s.
Proof.
  induction s as [| c s IH]; [reflexivity |].
  cbn [upper]. now rewrite upper_char_fixed, IH.
Qed.

Lemma upper_append (s t : string) :
  upper (String.append s t) = String.append (upper s) (upper t).
Proof. induction s as [| c s IH]; [reflexivity |]. cbn. now rewrite IH. Qed.

Lemma upper_digit (d : Z) :
  0 <= d <= 9 -> upper_char (digit_char d) = digit_char d.
Proof. intros H. each_digit d H; reflexivity. Qed.

Lemma upper_digits_fuel (fuel : nat) :
  forall (n : Z) (acc : string),
    upper (digits_fuel fuel n acc) = digits_fuel fuel n (upper acc).
Proof.
  induction fuel as [| fuel IH]; intros n acc; [reflexivity |].
  cbn [digits_fuel].
  assert (Hmod : 0 <= n mod 10 <= 9) by (pose proof (Z.mod_pos_bound n 10); lia).
  destruct (n <? 10).
  - cbn [upper]. now rewrite upper_digit.
  - rewrite IH. cbn [upper]. now rewrite upper_digit.
Qed.

Lemma upper_print_int (z : Z) : upper (print_int z EmptyString) = print_int z EmptyString.
Proof.
  unfold print_int, print_unsigned. destruct (z <? 0).
  - cbn [upper]. rewrite upper_digits_fuel. reflexivity.
  - rewrite upper_digits_fuel. reflexivity.
Qed.

Lemma option_step_upper (st : Settings) (arg : string) :
  option_step st (upper arg) = option_step st arg.
Proof. unfold option_step. now rewrite upper_fixed. Qed.

Lemma main_settings_app (args : list string) (arg : string) :
  main_settings (args ++ [arg]) = option_step (main_settings args) arg.
Proof. unfold main_settings. now rewrite fold_left_app. Qed.

Lemma option_step_minpollen (st : Settings) (v : string) :
  option_step st (String.append "MINPOLLEN=" v) =
  match sscanf_i (upper v) with
  | Some n => mkSettings (cmd st) (RANGE0 st) (RANGE1 st) (granularity st) n
  | None => mkSettings (cmd st) (RANGE0 st) (RANGE1 st) (granularity st) 24
  end.
Proof.
  unfold option_step. rewrite upper_append.
  change (upper "MINPOLLEN=") with "MINPOLLEN="%string.
  generalize (upper v). intros u.
  change (String.prefix "CMD=" (String.append "MINPOLLEN=" u)) with false.
  change (String.prefix "RANGE=" (String.append "MINPOLLEN=" u)) with false.
  change (String.prefix "POINT=" (String.append "MINPOLLEN=" u)) with false.
  change (String.prefix "MINPOLLEN=" (String.append "MINPOLLEN=" u))
    with (String.prefix "" u).
  change (from_index 10 (String.append "MINPOLLEN=" u)) with u.
  now destruct u.
Qed.

Lemma option_step_granularity (st : Settings) (v : string) :
  option_step st (String.append "GRANULARITY=" v) =
  match sscanf_i (upper v) with
  | Some n =>
    mkSettings (cmd st) (RANGE0 st) (RANGE1 st) n (LOWERBOUNDPOLYGONLENGTH st)
  | None =>
    mkSettings (cmd st) (RANGE0 st) (RANGE1 st) 5 (LOWERBOUNDPOLYGONLENGTH st)
  end.
Proof.
  unfold option_step. rewrite upper_append.
  change (upper "GRANULARITY=") with "GRANULARITY="%string.
  generalize (upper v). intros u.
  change (String.prefix "CMD=" (String.append "GRANULARITY=" u)) with false.
  change (String.prefix "RANGE=" (String.append "GRANULARITY=" u)) with false.
  change (String.prefix "POINT=" (String.append "GRANULARITY=" u)) with false.
  change (String.prefix "MINPOLLEN=" (String.append "GRANULARITY=" u))
    with false.
  change (String.prefix "GRANULARITY=" (String.append "GRANULARITY=" u))
    with (String.prefix "" u).
  change (from_index 12 (String.append "GRANULARITY=" u)) with u.
  now destruct u.
Qed.

Lemma option_step_cmd (st : Settings) (v : string) :
  option_step st (String.append "CMD=" v) =
  if String.eqb (upper v) "MAKEINT" then
    mkSettings CMD_MAKEINT (RANGE0 st) (RANGE1 st) (granularity st)
               (LOWERBOUNDPOLYGONLENGTH st)
  else if String.eqb (upper v) "MAKEEXT" then
    mkSettings CMD_MAKEEXT (RANGE0 st) (RANGE1 st) (granularity st)
               (LOWERBOUNDPOLYGONLENGTH st)
  else if String.eqb (upper v) "ORACLE" then
    mkSettings CMD_ORACLE (RANGE0 st) (RANGE1 st) (granularity st)
               (LOWERBOUNDPOLYGONLENGTH st)
  else if String.eqb (upper v) "QUALITY" then
    mkSettings CMD_QUALITY (RANGE0 st) (RANGE1 st) (granularity st)
               (LOWERBOUNDPOLYGONLENGTH st)
  else st.
Proof.
  unfold option_step. rewrite upper_append.
  change (upper "CMD=") with "CMD="%string.
  generalize (upper v). intros u.
  change (String.prefix "CMD=" (String.append "CMD=" u))
    with (String.prefix "" u).
  change (from_index 4 (String.append "CMD=" u)) with u.
  now destruct u.
Qed.

(** X27: the options of [main] are read without regard to upper and lower
    case, and of two arguments for the same setting the later one wins:
    [minpollen=n] and [Granularity=n] as last argument set the minimum
    polygon length and the granularity to [n], [cmd=MakeInt] selects the
    interior polygons.  A value that is not a number does not leave the
    setting as it was but puts the standard value back, and an unknown
    command leaves all settings as they were. *)
Theorem main_options (args : list string) (n : Z) (v : string) :
  main_settings (map upper args) = main_settings args /\
  LOWERBOUNDPOLYGONLENGTH
    (main_settings (args ++ [number_option "minpollen=" n])) = n /\
  granularity
    (main_settings (args ++ [number_option "Granularity=" n])) = n /\
  cmd (main_settings (args ++ ["cmd=MakeInt"%string])) = CMD_MAKEINT /\
  (sscanf_i (upper v) = None ->
   LOWERBOUNDPOLYGONLENGTH
     (main_settings (args ++ [String.append "MINPOLLEN=" v])) = 24 /\
   granularity
     (main_settings (args ++ [String.append "GRANULARITY=" v])) = 5) /\
  (String.eqb (upper v) "MAKEINT" = false ->
   String.eqb (upper v) "MAKEEXT" = false ->
   String.eqb (upper v) "ORACLE" = false ->
   String.eqb (upper v) "QUALITY" = false ->
   main_settings (args ++ [String.append "CMD=" v]) = main_settings args).
Proof.
  split.
  { unfold main_settings. generalize standard_settings.
    induction args as [| a args IH]; intros st; [reflexivity |].
    cbn [map fold_left]. rewrite option_step_upper. apply IH. }
  rewrite !main_settings_app. unfold number_option.
  set (st := main_settings args).
  split.
  { rewrite <- option_step_upper, upper_append, upper_print_int.
    change (upper "minpollen=") with "MINPOLLEN="%string.
    rewrite option_step_minpollen, upper_print_int, sscanf_i_print.
    reflexivity. }
  split.
  { rewrite <- option_step_upper, upper_append, upper_print_int.
    change (upper "Granularity=") with "GRANULARITY="%string.
    rewrite option_step_granularity, upper_print_int, sscanf_i_print.
    reflexivity. }
  split.
  { rewrite <- option_step_upper.
    change (upper "cmd=MakeInt") with (String.append "CMD=" "MAKEINT").
    rewrite option_step_cmd. reflexivity. }
  split.
  - intros Hbad.
    rewrite option_step_minpollen, option_step_granularity, Hbad.
    split; reflexivity.
  - intros H1 H2 H3 H4. rewrite option_step_cmd, H1, H2, H3, H4. reflexivity.
Qed.

Lemma main_options_witness :
  LOWERBOUNDPOLYGONLENGTH
    (main_settings (["minpollen=30"; "MINPOLLEN=x"])%string) = 24
  /\ main_settings (["cmd=quality"; "CMD=nothing"])%string =
     main_settings (["cmd=quality"])%string.
Proof.
  destruct (main_options ["minpollen=30"%string] 0 "x")
    as (_ & _ & _ & _ & Hbad & _).
  destruct (main_options ["cmd=quality"%string] 0 "nothing")
    as (_ & _ & _ & _ & _ & Hcmd).
  split.
  - exact (proj1 (Hbad eq_refl)).
  - exact (Hcmd eq_refl eq_refl eq_refl eq_refl).
Defined.

(** ** A polygon file without vertices *)

(** X28: a polygon file whose count line says 0 loads as a polygon without
    vertices and with a table buffer of no cells, and [load] returns as for
    any other file.  Every point is exterior to such a polygon, but check A
    of the quality control reads [points[0]] of it and [prepareY] writes
    [yprepare[0]], both outside their arrays. *)
Theorem empty_polygon_file (RANGE0 RANGE1 : Z) (p fresh : Polygon)
  (tmp0 : string) (ax ay line : Z) (rest extp : list Polygon) :
  points p = [] ->
  load fresh tmp0 (save RANGE0 RANGE1 p) = Ret (reloaded fresh p) /\
  pointcount (reloaded fresh p) = 0 /\
  yprepare (reloaded fresh p) = [] /\
  point_in_polygonVH (reloaded fresh p) ax ay = Ret PIP_EXTERIOR /\
  qcA (reloaded fresh p) = Undef /\
  check_A (reloaded fresh p :: rest) extp = Undef /\
  prepareY (reloaded fresh p) line = Undef.
Proof.
  intros Hnil. split; [apply load_saved |].
  assert (Hpts : points (reloaded fresh p) = []) by exact Hnil.
  split; [unfold pointcount; now rewrite Hpts |].
  split; [unfold reloaded, loaded; rewrite Hnil; reflexivity |].
  split; [now apply point_in_polygonVH_empty |].
  assert (Hqc : qcA (reloaded fresh p) = Undef).
  { unfold qcA, isClosed. rewrite Hpts. reflexivity. }
  split; [exact Hqc |]. split.
  - unfold check_A. cbn [qcA_all]. rewrite Hqc. reflexivity.
  - unfold prepareY, pointcount. rewrite Hpts.
    unfold reloaded, loaded. rewrite Hnil. reflexivity.
Qed.

Lemma empty_polygon_file_witness :
  load plain_polygon EmptyString (save (-2) 2 plain_polygon) =
  Ret (reloaded plain_polygon plain_polygon) /\
  qcA (reloaded plain_polygon plain_polygon) = Undef /\
  prepareY (reloaded plain_polygon plain_polygon) 0 = Undef.
Proof.
  destruct (empty_polygon_file (-2) 2 plain_polygon plain_polygon EmptyString
              0 0 0 [] [] eq_refl) as (Hload & _ & _ & _ & Hqc & _ & Hprep).
  split; [exact Hload |]. split; [exact Hqc | exact Hprep].
Defined.

(** ** What the kernel scan marks *)

Lemma kernel_mark_row_fill (y : Z) :
  forall (n : nat) (c : Charmap) (x : Z),
    kernel_mark_row n c x y = fill_row n c x y AKTIVCOL.
Proof.
  induction n as [| n IH]; intros c x; [reflexivity |].
  cbn [kernel_mark_row fill_row]. destruct (setPoint c x y AKTIVCOL); try reflexivity.
  cbn [bind]. apply IH.
Qed.

Lemma kernel_mark_fill (D x : Z) :
  forall (m : nat) (c : Charmap) (y : Z),
    kernel_mark m D c x y = fill_rows m c (x + 1) (x + D - 2) y AKTIVCOL.
Proof.
  induction m as [| m IH]; intros c y; [reflexivity |].
  cbn [kernel_mark fill_rows].
  replace (x + D - 2 - (x + 1) + 1) with (D - 2) by lia.
  rewrite kernel_mark_row_fill.
  destruct (fill_row (Z.to_nat (D - 2)) c (x + 1) y AKTIVCOL); try reflexivity.
  cbn [bind]. apply IH.
Qed.

Lemma In_offsets (D d : Z) : In d (offsets_to D) <-> 0 <= d < D.
Proof.
  unfold offsets_to. rewrite in_map_iff. split.
  - intros (k & <- & Hk). apply in_seq in Hk. lia.
  - intros Hd. exists (Z.to_nat d). split; [lia |]. apply in_seq. lia.
Qed.

Lemma kernel_test_row_all (relf : Z) (c : Charmap) (x y : Z) :
  forall (n k : nat),
    (forall d, Z.of_nat k <= d < Z.of_nat (k + n) ->
               exists p, getPoint c (x + d) y = Ret p) ->
    kernel_test_row n relf c x y (Z.of_nat k) =
    Ret (forallb (fun d => is_colour c (x + d) y relf)
                 (map Z.of_nat (seq k n))).
Proof.
  induction n as [| n IH]; intros k Hread; [reflexivity |].
  cbn [kernel_test_row seq map forallb].
  destruct (Hread (Z.of_nat k) ltac:(lia)) as [p Hp].
  rewrite (has_colour_is c (x + Z.of_nat k) y relf p Hp). cbn [bind].
  destruct (is_colour c (x + Z.of_nat k) y relf); [| reflexivity].
  replace (Z.of_nat k + 1) with (Z.of_nat (S k)) by lia.
  apply IH. intros d Hd. apply Hread. lia.
Qed.

Lemma kernel_test_all (D relf : Z) (c : Charmap) (x y : Z) :
  forall (m k : nat),
    (forall d e, 0 <= d < D -> Z.of_nat k <= e < Z.of_nat (k + m) ->
                 exists p, getPoint c (x + d) (y + e) = Ret p) ->
    kernel_test m D relf c x y (Z.of_nat k) =
    Ret (forallb (fun e => forallb (fun d => is_colour c (x + d) (y + e) relf)
                                   (offsets_to D))
                 (map Z.of_nat (seq k m))).
Proof.
  induction m as [| m IH]; intros k Hread; [reflexivity |].
  cbn [kernel_test seq map forallb].
  pose proof (kernel_test_row_all relf c x (y + Z.of_nat k) (Z.to_nat D) 0
                ltac:(intros d Hd; apply Hread; lia)) as Hrow.
  change (Z.of_nat 0) with 0 in Hrow. rewrite Hrow.
  cbn [bind]. fold (offsets_to D).
  destruct (forallb _ (offsets_to D)); [| reflexivity].
  replace (Z.of_nat k + 1) with (Z.of_nat (S k)) by lia.
  apply IH. intros d e Hd He. apply Hread; lia.
Qed.

Lemma corner_block (D x0 d : Z) :
  0 < D -> corner D x0 = x0 -> 0 <= d < D -> corner D (x0 + d) = x0.
Proof.
  unfold corner. intros HD Hx0 Hd.
  rewrite <- Hx0 at 1. rewrite Z.div_add_l by lia.
  rewrite (Z.div_small d D) by lia. lia.
Qed.

Lemma corner_next (D x0 : Z) :
  0 < D -> corner D x0 = x0 -> corner D (x0 + D) = x0 + D.
Proof.
  unfold corner. intros HD Hx0.
  rewrite <- Hx0 at 1. replace (x0 / D * D + D) with ((x0 / D + 1) * D) by lia.
  rewrite Z.div_mul by lia. lia.
Qed.

Lemma corner_ge (D x0 x : Z) :
  0 < D -> corner D x0 = x0 -> x0 <= x -> x0 <= corner D x.
Proof.
  unfold corner. intros HD Hx0 Hx.
  assert (x0 / D <= x / D) by (apply Z.div_le_mono; lia). nia.
Qed.

Lemma block_all_true (c : Charmap) (relf bx by_ D : Z) :
  block_all c relf bx by_ D = true <->
  forall d e, 0 <= d < D -> 0 <= e < D ->
              is_colour c (bx + d) (by_ + e) relf = true.
Proof.
  unfold block_all. rewrite forallb_forall. split.
  - intros H d e Hd He. specialize (H e (proj2 (In_offsets D e) He)).
    rewrite forallb_forall in H. apply H. now apply In_offsets.
  - intros H e He. apply forallb_forall. intros d Hd.
    apply H; now apply In_offsets.
Qed.

Lemma forallb_same {A : Type} (f g : A -> bool) (l : list A) :
  (forall a, In a l -> f a = g a) -> forallb f l = forallb g l.
Proof.
  induction l as [| a l IH]; intros H; [reflexivity |].
  cbn [forallb]. rewrite (H a (or_introl eq_refl)). f_equal.
  apply IH. intros b Hb. apply H. now right.
Qed.

Lemma block_all_ext (c c' : Charmap) (relf bx by_ D : Z) :
  (forall d e, 0 <= d < D -> 0 <= e < D ->
               getPoint c' (bx + d) (by_ + e) = getPoint c (bx + d) (by_ + e)) ->
  block_all c' relf bx by_ D = block_all c relf bx by_ D.
Proof.
  intros Hsame. unfold block_all. apply forallb_same. intros e He.
  apply forallb_same. intros d Hd. unfold is_colour.
  rewrite Hsame; [reflexivity | now apply In_offsets | now apply In_offsets].
Qed.

Section KernelScan.

Variables (relf D : Z) (c : Charmap).
Hypothesis c_ok : canvas_ok c.
Hypothesis D_min : 3 <= D.

Lemma scanned_to_size (y0 x0 : Z) (cur : Charmap) :
  scanned_to c D relf y0 x0 cur -> same_size cur c /\ canvas_ok cur.
Proof. intros [Hs _]. split; [exact Hs | exact (same_size_ok _ _ Hs c_ok)]. Qed.

(** The pixels of the block that comes next are those of the raster the
    scan started from. *)
Lemma scanned_to_block (y0 x0 : Z) (cur : Charmap) (d e : Z) :
  scanned_to c D relf y0 x0 cur ->
  0 <= x0 -> 0 <= y0 -> x0 < xlen c - D -> y0 < ylen c - D ->
  0 <= d < D -> 0 <= e < D ->
  getPoint cur (x0 + d) (y0 + e) = getPoint c (x0 + d) (y0 + e).
Proof.
  intros [_ Hpix] Hx0 Hy0 Hx Hy Hd He.
  rewrite (Hpix (x0 + d) (y0 + e)) by (unfold in_raster; lia).
  destruct (Z.ltb_spec (y0 + e) y0); [lia |].
  destruct (Z.ltb_spec (x0 + d) x0); [lia |].
  rewrite andb_false_r, orb_false_r, andb_false_r. reflexivity.
Qed.

Lemma kernel_at_step (y0 x0 : Z) (cur : Charmap) :
  corner D x0 = x0 -> corner D y0 = y0 ->
  0 <= x0 -> 0 <= y0 -> x0 < xlen c - D -> y0 < ylen c - D ->
  scanned_to c D relf y0 x0 cur ->
  exists cur', kernel_at D relf cur x0 y0 = Ret cur' /\
               scanned_to c D relf y0 (x0 + D) cur'.
Proof.
  intros Cx Cy Hx0 Hy0 Hx Hy Hinv.
  destruct (scanned_to_size _ _ _ Hinv) as [Hs Hok].
  pose proof Hs as (Hsx & Hsy & _). pose proof c_ok as (Hxl & Hyl & _).
  assert (Hread : forall d e, 0 <= d < D -> 0 <= e < D ->
            exists p, getPoint cur (x0 + d) (y0 + e) = Ret p).
  { intros d e Hd He. apply (getPoint_in cur _ _ Hok). rewrite Hsx, Hsy. nia. }
  assert (Hblock : block_all cur relf x0 y0 D = block_all c relf x0 y0 D).
  { apply block_all_ext. intros d e Hd He.
    now apply (scanned_to_block y0 x0 cur d e Hinv). }
  (* the state after the block when its pixels stay as they are *)
  assert (Hskip : block_all c relf x0 y0 D = false ->
            scanned_to c D relf y0 (x0 + D) cur).
  { intros Hnone. destruct Hinv as [_ Hpix]. split; [exact Hs |].
    intros x y Hin. rewrite (Hpix x y Hin).
    destruct (Z.ltb_spec y y0) as [Hy1 | Hy1]; cbn [orb]; [reflexivity |].
    destruct (Z.ltb_spec y (y0 + D)) as [Hy2 | Hy2]; cbn [andb]; [| reflexivity].
    destruct (Z.ltb_spec x x0) as [Hx1 | Hx1],
      (Z.ltb_spec x (x0 + D)) as [Hx2 | Hx2]; try reflexivity; try lia.
    rewrite andb_false_r, andb_true_r. unfold kernel_pixel.
    replace x with (x0 + (x - x0)) by lia. replace y with (y0 + (y - y0)) by lia.
    rewrite (corner_block D x0 (x - x0)), (corner_block D y0 (y - y0)) by lia.
    rewrite Hnone, andb_false_r. reflexivity. }
  unfold kernel_at.
  destruct (Hread 0 0 ltac:(lia) ltac:(lia)) as [p Hp].
  rewrite !Z.add_0_r in Hp.
  rewrite (has_colour_is cur x0 y0 relf p Hp). cbn [bind].
  destruct (is_colour cur x0 y0 relf) eqn:Hhere; cbn [negb].
  2: { exists cur. split; [reflexivity |]. apply Hskip.
       destruct (block_all c relf x0 y0 D) eqn:Hall; [| reflexivity].
       pose proof (proj1 (block_all_true cur relf x0 y0 D) Hblock 0 0
                     ltac:(lia) ltac:(lia)) as H0.
       rewrite !Z.add_0_r in H0. congruence. }
  pose proof (kernel_test_all D relf cur x0 y0 (Z.to_nat D) 0
                ltac:(intros d e Hd He; apply Hread; lia)) as Htest.
  change (Z.of_nat 0) with 0 in Htest. rewrite Htest.
  cbn [bind]. fold (offsets_to D). fold (block_all cur relf x0 y0 D).
  rewrite Hblock. destruct (block_all c relf x0 y0 D) eqn:Hall.
  2: { exists cur. split; [reflexivity |]. now apply Hskip. }
  rewrite kernel_mark_fill.
  destruct (fill_rows_pixels (x0 + 1) (x0 + D - 2) AKTIVCOL ltac:(lia)
              (Z.to_nat (D - 2)) cur (y0 + 1) Hok)
    as (cur' & Hrun & Hs' & Hpix'); [lia | lia | lia |].
  exists cur'. split; [exact Hrun |].
  split; [exact (same_size_trans _ _ _ Hs' Hs) |].
  intros x y [Hxin Hyin]. rewrite Hpix' by lia.
  destruct Hinv as [_ Hpix]. rewrite (Hpix x y) by (unfold in_raster; lia).
  destruct (Z.leb_spec (x0 + 1) x) as [A1 | A1],
    (Z.leb_spec x (x0 + D - 2)) as [A2 | A2],
    (Z.leb_spec (y0 + 1) y) as [A3 | A3],
    (Z.ltb_spec y (y0 + 1 + Z.of_nat (Z.to_nat (D - 2)))) as [A4 | A4];
    cbn [andb].
  1: { (* a pixel off the rim of this block *)
       destruct (Z.ltb_spec y y0); [lia |]. cbn [orb].
       destruct (Z.ltb_spec y (y0 + D)); [| lia].
       destruct (Z.ltb_spec x (x0 + D)); [| lia]. cbn [andb].
       rewrite andb_true_r. unfold kernel_pixel.
       replace x with (x0 + (x - x0)) by lia.
       replace y with (y0 + (y - y0)) by lia.
       rewrite (corner_block D x0 (x - x0)), (corner_block D y0 (y - y0)) by lia.
       rewrite Hall.
       destruct (Z.ltb_spec x0 (xlen c - D)); [| lia].
       destruct (Z.ltb_spec y0 (ylen c - D)); [| lia].
       destruct (Z.leb_spec 1 (x0 + (x - x0) - x0)); [| lia].
       destruct (Z.leb_spec (x0 + (x - x0) - x0) (D - 2)); [| lia].
       destruct (Z.leb_spec 1 (y0 + (y - y0) - y0)); [| lia].
       destruct (Z.leb_spec (y0 + (y - y0) - y0) (D - 2)); [| lia].
       reflexivity. }
  all: destruct (Z.ltb_spec y y0) as [B1 | B1]; cbn [orb]; try reflexivity.
  all: destruct (Z.ltb_spec y (y0 + D)) as [B2 | B2]; cbn [andb];
    try reflexivity.
  all: destruct (Z.ltb_spec x x0) as [B3 | B3],
         (Z.ltb_spec x (x0 + D)) as [B4 | B4]; try reflexivity; try lia.
  all: rewrite andb_false_r, andb_true_r; unfold kernel_pixel.
  all: replace x with (x0 + (x - x0)) by lia.
  all: replace y with (y0 + (y - y0)) by lia.
  all: rewrite (corner_block D x0 (x - x0)), (corner_block D y0 (y - y0)) by lia.
  all: destruct (Z.leb_spec 1 (x0 + (x - x0) - x0)),
         (Z.leb_spec (x0 + (x - x0) - x0) (D - 2)),
         (Z.leb_spec 1 (y0 + (y - y0) - y0)),
         (Z.leb_spec (y0 + (y - y0) - y0) (D - 2));
    rewrite ?andb_false_r, ?andb_false_l; cbn [andb]; try reflexivity; lia.
Qed.

Lemma kernel_cols_spec (y0 : Z) :
  corner D y0 = y0 -> 0 <= y0 -> y0 < ylen c - D ->
  forall (fuel : nat) (cur : Charmap) (x0 : Z),
    corner D x0 = x0 -> 0 <= x0 ->
    (Z.to_nat (xlen c - x0) < fuel)%nat ->
    scanned_to c D relf y0 x0 cur ->
    exists cur', kernel_cols fuel D relf cur x0 y0 = Ret cur' /\
                 scanned_to c D relf (y0 + D) 0 cur'.
Proof.
  intros Cy Hy0 Hy. induction fuel as [| fuel IH]; intros cur x0 Cx Hx0 Hfuel Hinv;
    [lia |].
  cbn [kernel_cols].
  destruct (scanned_to_size _ _ _ Hinv) as [(Hsx & _) _]. rewrite Hsx.
  destruct (Z.ltb_spec x0 (xlen c - D)) as [Hin | Hout].
  - destruct (kernel_at_step y0 x0 cur Cx Cy Hx0 Hy0 Hin Hy Hinv)
      as (cur1 & -> & Hinv1).
    cbn [bind].
    apply (IH cur1 (x0 + D)); [now apply corner_next; lia | lia | lia | exact Hinv1].
  - exists cur. split; [reflexivity |]. destruct Hinv as [Hs Hpix].
    split; [exact Hs |]. intros x y Hin. rewrite (Hpix x y Hin).
    destruct Hin as [Hxin Hyin].
    assert (Hk : x0 <= x -> kernel_pixel c D relf x y = false).
    { intros Hge. unfold kernel_pixel.
      pose proof (corner_ge D x0 x ltac:(lia) Cx Hge).
      destruct (Z.ltb_spec (corner D x) (xlen c - D)); [lia | reflexivity]. }
    destruct (Z.ltb_spec y y0), (Z.ltb_spec y (y0 + D)),
      (Z.ltb_spec y (y0 + D + D)), (Z.ltb_spec x x0), (Z.ltb_spec x 0);
      cbn [orb andb]; rewrite ?andb_true_r, ?andb_false_r;
      try reflexivity; try lia; rewrite Hk by lia; reflexivity.
Qed.

Lemma kernel_rows_spec :
  forall (fuel : nat) (cur : Charmap) (y0 : Z),
    corner D y0 = y0 -> 0 <= y0 ->
    (Z.to_nat (ylen c - y0) < fuel)%nat ->
    scanned_to c D relf y0 0 cur ->
    exists cur', kernel_rows fuel D relf cur y0 = Ret cur' /\
                 painted (kernel_pixel c D relf) AKTIVCOL c cur'.
Proof.
  induction fuel as [| fuel IH]; intros cur y0 Cy Hy0 Hfuel Hinv; [lia |].
  cbn [kernel_rows].
  destruct (scanned_to_size _ _ _ Hinv) as [(Hsx & Hsy & _) _].
  rewrite Hsx, Hsy.
  destruct (Z.ltb_spec y0 (ylen c - D)) as [Hin | Hout].
  - destruct (kernel_cols_spec y0 Cy Hy0 Hin (S (Z.to_nat (xlen c))) cur 0
                eq_refl ltac:(lia) ltac:(lia) Hinv) as (cur1 & -> & Hinv1).
    cbn [bind].
    apply (IH cur1 (y0 + D)); [now apply corner_next; lia | lia | lia | exact Hinv1].
  - exists cur. split; [reflexivity |]. destruct Hinv as [Hs Hpix].
    split; [exact Hs |]. intros x y Hin. rewrite (Hpix x y Hin).
    destruct Hin as [Hxin Hyin].
    assert (Hk : y0 <= y -> kernel_pixel c D relf x y = false).
    { intros Hge. unfold kernel_pixel.
      pose proof (corner_ge D y0 y ltac:(lia) Cy Hge).
      destruct (Z.ltb_spec (corner D y) (ylen c - D)); [lia |].
      now rewrite andb_false_r. }
    destruct (Z.ltb_spec y y0), (Z.ltb_spec y (y0 + D)), (Z.ltb_spec x 0);
      cbn [orb andb]; rewrite ?andb_true_r, ?andb_false_r;
      try reflexivity; try lia; rewrite Hk by lia; reflexivity.
Qed.

End KernelScan.

(** X29: the kernel scan of [floodFillPattern] returns, stays inside the
    array, and marks with the active colour exactly the pixels off the rim
    of those blocks of the grid -- [D] by [D] pixels each, [D] being the
    granularity or 3 if that is less, the corners at multiples of [D] below
    [xlen-D] and [ylen-D] -- that have the target colour all over.  Every
    other pixel and the size of the raster stay as they were. *)
Theorem kernel_scan_marks (granularity relf : Z) (inbild : Charmap) :
  canvas_ok inbild ->
  exists c, kernel_scan granularity relf inbild = Ret c /\
            painted (kernel_pixel inbild (Z.max 3 granularity) relf)
                    AKTIVCOL inbild c.
Proof.
  intros Hok. unfold kernel_scan.
  replace (if granularity <? 3 then 3 else granularity)
    with (Z.max 3 granularity) by (destruct (Z.ltb_spec granularity 3); lia).
  apply (kernel_rows_spec relf (Z.max 3 granularity) inbild Hok ltac:(lia));
    [reflexivity | lia | destruct Hok; lia |].
  split; [apply same_size_refl |]. intros x y [Hx Hy].
  destruct (Z.ltb_spec y 0); [lia |]. destruct (Z.ltb_spec x 0); [lia |].
  rewrite andb_false_r, orb_false_r, andb_false_r. reflexivity.
Qed.

Lemma kernel_scan_marks_witness :
  exists c, kernel_scan 3 COLORBLACK island_canvas = Ret c /\
            painted (kernel_pixel island_canvas (Z.max 3 3) COLORBLACK)
                    AKTIVCOL island_canvas c.
Proof.
  apply (kernel_scan_marks 3 COLORBLACK island_canvas island_canvas_ok).
Defined.

(** ** Rasters painted from the same raster *)

Lemma painted_unique (f : Z -> Z -> bool) (v : Z) (c c1 c2 : Charmap) :
  canvas_ok c -> painted f v c c1 -> painted f v c c2 -> c1 = c2.
Proof.
  intros (Hx & Hy & Hlen) [(Hx1 & Hy1 & Hl1) Hp1] [(Hx2 & Hy2 & Hl2) Hp2].
  destruct c1 as [xl1 yl1 l1], c2 as [xl2 yl2 l2]. cbn in *. subst xl1 yl1 xl2 yl2.
  f_equal. apply list_eq. intros i.
  destruct (Nat.lt_ge_cases i (length (cmp c))) as [Hi | Hi].
  - set (k := Z.of_nat i).
    assert (Hk : 0 <= k < xlen c * ylen c) by lia.
    pose proof (Z.div_mod k (xlen c) ltac:(lia)) as Hdm.
    pose proof (Z.mod_pos_bound k (xlen c) Hx) as Hmod.
    assert (Hin : in_raster c (k mod xlen c) (k / xlen c)).
    { split; [lia |]. split; [apply Z.div_pos; lia |].
      apply Z.div_lt_upper_bound; lia. }
    pose proof (Hp1 _ _ Hin) as G1. pose proof (Hp2 _ _ Hin) as G2.
    rewrite <- G2 in G1. unfold getPoint, rd, zget in G1. cbn in G1.
    replace (k / xlen c * xlen c + k mod xlen c) with k in G1 by lia.
    destruct (Z.ltb_spec k 0); [lia |].
    unfold k in G1. rewrite Nat2Z.id in G1.
    destruct (l1 !! i) as [a |] eqn:E1, (l2 !! i) as [b |] eqn:E2;
      try reflexivity; try discriminate.
    inversion G1. reflexivity.
  - rewrite (proj2 (lookup_ge_None l1 i)) by lia.
    rewrite (proj2 (lookup_ge_None l2 i)) by lia. reflexivity.
Qed.

(** ** The corners of the blocks *)

Lemma corner_range (D a : Z) : 0 < D -> corner D a <= a < corner D a + D.
Proof.
  intros HD. unfold corner.
  pose proof (Z.div_mod a D ltac:(lia)). pose proof (Z.mod_pos_bound a D HD).
  lia.
Qed.

Lemma corner_idem (D a : Z) : 0 < D -> corner D (corner D a) = corner D a.
Proof. intros HD. unfold corner. rewrite Z.div_mul by lia. reflexivity. Qed.

Lemma corner_prev (D x0 : Z) :
  0 < D -> corner D x0 = x0 -> corner D (x0 - D) = x0 - D.
Proof.
  unfold corner. intros HD Hx0.
  rewrite <- Hx0 at 1. replace (x0 / D * D - D) with ((x0 / D - 1) * D) by lia.
  rewrite Z.div_mul by lia. lia.
Qed.

Lemma corner_within (D a b : Z) :
  0 < D -> corner D a <= b < corner D a + D -> corner D b = corner D a.
Proof.
  intros HD Hb. replace b with (corner D a + (b - corner D a)) by lia.
  apply corner_block; [exact HD | now apply corner_idem | lia].
Qed.

Lemma corner_above (D a b : Z) :
  0 < D -> corner D a + D <= b < corner D a + 2 * D ->
  corner D b = corner D a + D.
Proof.
  intros HD Hb. replace b with (corner D a + D + (b - (corner D a + D))) by lia.
  apply corner_block; [exact HD | | lia].
  apply corner_next; [exact HD | now apply corner_idem].
Qed.

Lemma corner_below (D a b : Z) :
  0 < D -> corner D a - D <= b < corner D a ->
  corner D b = corner D a - D.
Proof.
  intros HD Hb. replace b with (corner D a - D + (b - (corner D a - D))) by lia.
  apply corner_block; [exact HD | | lia].
  apply corner_prev; [exact HD | now apply corner_idem].
Qed.

(** The corner of the block of a coordinate near [a]. *)
Lemma corner_near (D a b : Z) :
  0 < D -> corner D a - D <= b < corner D a + 2 * D ->
  (b < corner D a /\ corner D b = corner D a - D) \/
  (corner D a <= b < corner D a + D /\ corner D b = corner D a) \/
  (corner D a + D <= b /\ corner D b = corner D a + D).
Proof.
  intros HD Hb.
  destruct (Z.lt_ge_cases b (corner D a)) as [H1 | H1];
    [left; split; [exact H1 | apply corner_below; lia] |].
  destruct (Z.lt_ge_cases b (corner D a + D)) as [H2 | H2].
  - right. left. split; [lia | apply corner_within; lia].
  - right. right. split; [lia | apply corner_above; lia].
Qed.

Lemma touches_across (D a b : Z) :
  3 <= D -> touches D a b <-> b = corner D a \/ b = across D a.
Proof.
  intros HD. unfold touches, across.
  destruct (Z.eqb_spec (a - corner D a) (D - 1)),
           (Z.eqb_spec (a - corner D a) 0); lia.
Qed.

(** The block of a coordinate and the blocks of the coordinates next to
    it: [a] is the first coordinate of its block, or the last one, or one
    off the rim with its second successor off the rim too, or the last
    but one. *)
Lemma grid_cases (D a : Z) :
  3 <= D ->
  (a = corner D a /\ corner D (a - 1) = corner D a - D /\
   corner D (a + 1) = corner D a /\ corner D (a + 2) = corner D a) \/
  (a = corner D a + D - 1 /\ corner D (a - 1) = corner D a /\
   corner D (a + 1) = corner D a + D /\ corner D (a + 2) = corner D a + D) \/
  (corner D a < a /\ a < corner D a + D - 2 /\ corner D (a - 1) = corner D a /\
   corner D (a + 1) = corner D a /\ corner D (a + 2) = corner D a) \/
  (corner D a < a /\ a = corner D a + D - 2 /\ corner D (a - 1) = corner D a /\
   corner D (a + 1) = corner D a /\ corner D (a + 2) = corner D a + D).
Proof.
  intros HD. pose proof (corner_range D a ltac:(lia)) as Ha.
  destruct (Z.eq_dec a (corner D a)) as [H0 | H0].
  { left. split; [exact H0 |]. split; [apply corner_below; lia |].
    split; apply corner_within; lia. }
  destruct (Z.eq_dec a (corner D a + D - 1)) as [H1 | H1].
  { right. left. split; [exact H1 |]. split; [apply corner_within; lia |].
    split; apply corner_above; lia. }
  destruct (Z.eq_dec a (corner D a + D - 2)) as [H2 | H2].
  { right. right. right. split; [lia |]. split; [exact H2 |].
    split; [apply corner_within; lia |].
    split; [apply corner_within; lia | apply corner_above; lia]. }
  right. right. left. split; [lia |]. split; [lia |].
  repeat split; apply corner_within; lia.
Qed.

Ltac grid_at D a HD :=
  destruct (grid_cases D a HD)
    as [(? & ? & ? & ?) | [(? & ? & ? & ?)
       | [(? & ? & ? & ? & ?) | (? & ? & ? & ? & ?)]]].

(** ** Pixels at marked blocks *)

Lemma touches_own (D a : Z) : touches D a (corner D a).
Proof. now left. Qed.

Lemma touch_gap_first (D x b : Z) :
  3 <= D -> touches D x b -> touches D (x - 1) b \/ touches D (x + 2) b.
Proof. intros HD. unfold touches. grid_at D x HD; lia. Qed.

Lemma touch_gap_second (D x b : Z) :
  3 <= D -> touches D (x + 1) b -> touches D (x - 1) b \/ touches D (x + 2) b.
Proof. intros HD. unfold touches. grid_at D x HD; lia. Qed.

Lemma touch_gap_single (D x b : Z) :
  3 <= D -> touches D x b -> touches D (x - 1) b \/ touches D (x + 1) b.
Proof. intros HD. unfold touches. grid_at D x HD; lia. Qed.

Lemma touch_side (D y : Z) :
  3 <= D -> touches D y (corner D (y - 1)) /\ touches D y (corner D (y + 1)).
Proof. intros HD. unfold touches. grid_at D y HD; lia. Qed.

Lemma touch_flank (D x dx : Z) :
  3 <= D -> 0 <= dx <= 3 ->
  touches D (x - 1) (corner D (x + dx)) \/ touches D (x + 2) (corner D (x + dx)).
Proof.
  intros HD Hdx.
  assert (Hd : dx = 0 \/ dx = 1 \/ dx = 2 \/ dx = 3) by lia.
  destruct Hd as [-> | [-> | [-> | ->]]].
  - replace (x + 0) with x by lia. unfold touches. grid_at D x HD; lia.
  - unfold touches. grid_at D x HD; lia.
  - right. apply touches_own.
  - right. replace (x + 3) with (x + 2 + 1) by lia.
    apply (touch_side D (x + 2) HD).
Qed.

Section FusionGrid.

Variables (relf D : Z) (c : Charmap).
Hypothesis c_ok : canvas_ok c.
Hypothesis c_plain : three_classes c.
Hypothesis D_min : 3 <= D.
Hypothesis relf_not_active : relf <> AKTIVCOL.
Hypothesis relf_not_gray : relf <> COLORGRAY.

Lemma joined_touches (x y : Z) :
  joined c D relf x y = true <->
  forall bx by_, touches D x bx -> touches D y by_ ->
                 marked_block c D relf bx by_ = true.
Proof.
  unfold joined. rewrite !andb_true_iff. split.
  - intros (((H1 & H2) & H3) & H4) bx by_ Hx Hy.
    apply (touches_across D x bx D_min) in Hx.
    apply (touches_across D y by_ D_min) in Hy.
    destruct Hx as [-> | ->], Hy as [-> | ->]; assumption.
  - intros H. repeat split; apply H; apply touches_across; auto.
Qed.

Lemma marked_pixel (bx by_ x y : Z) :
  marked_block c D relf bx by_ = true ->
  bx <= x < bx + D -> by_ <= y < by_ + D ->
  getPoint c x y = Ret relf /\ 0 <= x <= xlen c - 2 /\ 0 <= y <= ylen c - 2.
Proof.
  unfold marked_block. rewrite !andb_true_iff.
  intros ((((H1 & H2) & H3) & H4) & Hall) Hx Hy.
  apply Z.leb_le in H1, H3. apply Z.ltb_lt in H2, H4.
  split; [| lia].
  pose proof (proj1 (block_all_true c relf bx by_ D) Hall (x - bx) (y - by_)
                ltac:(lia) ltac:(lia)) as Hcol.
  replace (bx + (x - bx)) with x in Hcol by lia.
  replace (by_ + (y - by_)) with y in Hcol by lia.
  unfold is_colour in Hcol.
  destruct (getPoint c x y) as [p | | |]; try discriminate.
  apply Z.eqb_eq in Hcol. now subst.
Qed.

(** A pixel whose block is one of the blocks a joined pixel lies in or
    at. *)
Lemma pixel_near (x1 y1 x y : Z) :
  joined c D relf x1 y1 = true ->
  touches D x1 (corner D x) -> touches D y1 (corner D y) ->
  getPoint c x y = Ret relf /\ 0 <= x <= xlen c - 2 /\ 0 <= y <= ylen c - 2.
Proof.
  intros Hj Hx Hy.
  apply (marked_pixel (corner D x) (corner D y)).
  - exact (proj1 (joined_touches x1 y1) Hj _ _ Hx Hy).
  - apply corner_range. lia.
  - apply corner_range. lia.
Qed.

Lemma joined_pixel (x y : Z) :
  joined c D relf x y = true ->
  getPoint c x y = Ret relf /\ 0 <= x <= xlen c - 2 /\ 0 <= y <= ylen c - 2.
Proof.
  intros Hj. apply (pixel_near x y x y Hj); apply touches_own.
Qed.

Lemma joined_row (x x1 x2 y : Z) :
  joined c D relf x1 y = true -> joined c D relf x2 y = true ->
  (forall b, touches D x b -> touches D x1 b \/ touches D x2 b) ->
  joined c D relf x y = true.
Proof.
  intros H1 H2 Hsub. apply joined_touches. intros bx by_ Hx Hy.
  destruct (Hsub bx Hx) as [Hb | Hb].
  - exact (proj1 (joined_touches x1 y) H1 _ _ Hb Hy).
  - exact (proj1 (joined_touches x2 y) H2 _ _ Hb Hy).
Qed.

Lemma joined_col (x y y1 y2 : Z) :
  joined c D relf x y1 = true -> joined c D relf x y2 = true ->
  (forall b, touches D y b -> touches D y1 b \/ touches D y2 b) ->
  joined c D relf x y = true.
Proof.
  intros H1 H2 Hsub. apply joined_touches. intros bx by_ Hx Hy.
  destruct (Hsub by_ Hy) as [Hb | Hb].
  - exact (proj1 (joined_touches x y1) H1 _ _ Hx Hb).
  - exact (proj1 (joined_touches x y2) H2 _ _ Hx Hb).
Qed.

Lemma plain_pixel (x y : Z) : getPoint c x y <> Ret AKTIVCOL.
Proof.
  intros Hget. apply getPoint_zget in Hget.
  apply (three_classes_none c AKTIVCOL c_plain (or_introl eq_refl)).
  exact (zget_In _ _ _ Hget).
Qed.

(** ** One visit of the fusion loop in a state painted from the input *)

Section Visit.

Variables (g : Z -> Z -> bool) (cur : Charmap).
Hypothesis cur_painted : painted g AKTIVCOL c cur.
Hypothesis g_joined : forall x y, g x y = true -> joined c D relf x y = true.

Lemma cur_ok : canvas_ok cur.
Proof. exact (same_size_ok _ _ (proj1 cur_painted) c_ok). Qed.

Lemma cur_xlen : xlen cur = xlen c.
Proof. exact (proj1 (proj1 cur_painted)). Qed.

Lemma cur_ylen : ylen cur = ylen c.
Proof. exact (proj1 (proj2 (proj1 cur_painted))). Qed.

Lemma cur_active (x y : Z) :
  in_raster c x y -> (getPoint cur x y = Ret AKTIVCOL <-> g x y = true).
Proof.
  intros Hin. rewrite (proj2 cur_painted x y Hin).
  destruct (g x y); split; intros H; try reflexivity; try discriminate.
  exfalso. exact (plain_pixel x y H).
Qed.

Lemma cur_relf_of (x y : Z) :
  in_raster c x y -> getPoint cur x y = Ret relf -> g x y = false.
Proof.
  intros Hin. rewrite (proj2 cur_painted x y Hin).
  destruct (g x y); [| reflexivity]. intros H. inversion H. congruence.
Qed.

Lemma cur_relf (x y : Z) :
  joined c D relf x y = true -> g x y = false -> getPoint cur x y = Ret relf.
Proof.
  intros Hj Hg. destruct (joined_pixel x y Hj) as (Hget & Hx & Hy).
  rewrite (proj2 cur_painted x y ltac:(split; lia)), Hg. exact Hget.
Qed.

Lemma cur_not_gray (x y : Z) :
  getPoint c x y = Ret relf -> in_raster c x y ->
  getPoint cur x y <> Ret COLORGRAY.
Proof.
  intros Hget Hin. rewrite (proj2 cur_painted x y Hin).
  destruct (g x y); [discriminate | rewrite Hget; congruence].
Qed.

Lemma cur_last_row : last_row_inactive cur.
Proof.
  intros x Hx Hget. rewrite cur_xlen in Hx. rewrite cur_ylen in Hget.
  destruct (Z.lt_ge_cases 0 (ylen c)) as [Hy | Hy].
  - apply cur_active in Hget; [| split; lia].
    apply g_joined, joined_pixel in Hget. lia.
  - destruct c_ok as (H1 & H2 & H3). destruct cur_painted as [(Hs1 & Hs2 & Hs3) _].
    apply getPoint_zget in Hget. unfold zget in Hget.
    destruct (_ <? 0); [discriminate |].
    apply lookup_lt_Some in Hget. nia.
Qed.

Lemma row_gap_pattern (x y : Z) :
  1 <= x <= xlen c - 3 -> 0 <= y < ylen c ->
  (row_gap relf cur x y <-> row_pattern g x y = true).
Proof.
  intros Hx Hy. unfold row_gap, row_pattern. split.
  - intros (G0 & G1 & G2 & G3).
    apply cur_relf_of in G0, G1; try (split; lia).
    apply cur_active in G2, G3; try (split; lia).
    rewrite G0, G1, G2, G3. reflexivity.
  - rewrite !andb_true_iff, !negb_true_iff. intros (((G0 & G1) & G2) & G3).
    pose proof (g_joined _ _ G2) as J2. pose proof (g_joined _ _ G3) as J3.
    assert (J0 : joined c D relf x y = true).
    { apply (joined_row x (x - 1) (x + 2) y J2 J3).
      intros b. now apply touch_gap_first. }
    assert (J1 : joined c D relf (x + 1) y = true).
    { apply (joined_row (x + 1) (x - 1) (x + 2) y J2 J3).
      intros b. now apply touch_gap_second. }
    repeat split.
    + now apply cur_relf.
    + now apply cur_relf.
    + apply cur_active; [split; lia | exact G2].
    + apply cur_active; [split; lia | exact G3].
Qed.

Lemma row_pattern_free (x y : Z) :
  row_pattern g x y = true -> row_gap_gray_free cur x y.
Proof.
  unfold row_pattern. rewrite !andb_true_iff.
  intros (((_ & _) & G2) & G3) dx Hdx.
  pose proof (g_joined _ _ G2) as J2. pose proof (g_joined _ _ G3) as J3.
  destruct (touch_side D y D_min) as [Hup Hdown].
  assert (Hnear : forall e, touches D y (corner D e) ->
            getPoint c (x + dx) e = Ret relf /\ in_raster c (x + dx) e).
  { intros e He. destruct (touch_flank D x dx D_min Hdx) as [Hb | Hb].
    - destruct (pixel_near _ _ (x + dx) e J2 Hb He) as (H1 & H2 & H3).
      split; [exact H1 | split; lia].
    - destruct (pixel_near _ _ (x + dx) e J3 Hb He) as (H1 & H2 & H3).
      split; [exact H1 | split; lia]. }
  split.
  - destruct (Hnear (y - 1) Hup). now apply cur_not_gray.
  - destruct (Hnear (y + 1) Hdown). now apply cur_not_gray.
Qed.

Lemma col_gap_pattern (x y : Z) :
  0 <= x < xlen c -> 1 <= y <= ylen c - 3 ->
  (col_gap relf cur x y <-> col_pattern g x y = true).
Proof.
  intros Hx Hy. unfold col_gap, col_pattern. split.
  - intros (G0 & G1 & G2 & G3).
    apply cur_relf_of in G0, G1; try (split; lia).
    apply cur_active in G2, G3; try (split; lia).
    rewrite G0, G1, G2, G3. reflexivity.
  - rewrite !andb_true_iff, !negb_true_iff. intros (((G0 & G1) & G2) & G3).
    pose proof (g_joined _ _ G2) as J2. pose proof (g_joined _ _ G3) as J3.
    assert (J0 : joined c D relf x y = true).
    { apply (joined_col x y (y - 1) (y + 2) J3 J2).
      intros b. now apply touch_gap_first. }
    assert (J1 : joined c D relf x (y + 1) = true).
    { apply (joined_col x (y + 1) (y - 1) (y + 2) J3 J2).
      intros b. now apply touch_gap_second. }
    repeat split.
    + now apply cur_relf.
    + now apply cur_relf.
    + apply cur_active; [split; lia | exact G2].
    + apply cur_active; [split; lia | exact G3].
Qed.

Lemma col_pattern_free (x y : Z) :
  col_pattern g x y = true -> col_gap_gray_free cur x y.
Proof.
  unfold col_pattern. rewrite !andb_true_iff.
  intros (((_ & _) & G2) & G3) dy Hdy.
  pose proof (g_joined _ _ G2) as J2. pose proof (g_joined _ _ G3) as J3.
  destruct (touch_side D x D_min) as [Hleft Hright].
  assert (Hnear : forall e, touches D x (corner D e) ->
            getPoint c e (y + dy) = Ret relf /\ in_raster c e (y + dy)).
  { intros e He. destruct (touch_flank D y dy D_min Hdy) as [Hb | Hb].
    - destruct (pixel_near _ _ e (y + dy) J3 He Hb) as (H1 & H2 & H3).
      split; [exact H1 | split; lia].
    - destruct (pixel_near _ _ e (y + dy) J2 He Hb) as (H1 & H2 & H3).
      split; [exact H1 | split; lia]. }
  split.
  - destruct (Hnear (x - 1) Hleft). now apply cur_not_gray.
  - destruct (Hnear (x + 1) Hright). now apply cur_not_gray.
Qed.

(** The raster after two pixels have been set. *)
Lemma painted_pair (x y x2 y2 : Z) (c1 cur' : Charmap) (f : Z -> Z -> bool) :
  0 <= x < xlen c -> 0 <= x2 < xlen c ->
  setPoint cur x y AKTIVCOL = Ret c1 ->
  setPoint c1 x2 y2 AKTIVCOL = Ret cur' ->
  (forall px py, f px py =
     g px py || ((px =? x) && (py =? y)) || ((px =? x2) && (py =? y2))) ->
  painted f AKTIVCOL c cur'.
Proof.
  intros Hx Hx2 S1 S2 Hf.
  pose proof (setPoint_same_size _ _ _ _ _ S1) as Hs1.
  pose proof (setPoint_same_size _ _ _ _ _ S2) as Hs2.
  split.
  - exact (same_size_trans _ _ _ Hs2 (same_size_trans _ _ _ Hs1 (proj1 cur_painted))).
  - intros px py Hin.
    rewrite (setPoint_pixels c1 cur' x2 y2 AKTIVCOL)
      by (try exact S2; rewrite ?(proj1 Hs1), ?cur_xlen; destruct Hin; lia).
    rewrite (setPoint_pixels cur c1 x y AKTIVCOL)
      by (try exact S1; rewrite ?cur_xlen; destruct Hin; lia).
    rewrite (proj2 cur_painted px py Hin), Hf.
    destruct (g px py), ((px =? x) && (py =? y)), ((px =? x2) && (py =? y2));
      reflexivity.
Qed.

Lemma fuse_at_painted (x y ch : Z) :
  1 <= x <= xlen c - 3 -> 1 <= y <= ylen c - 3 ->
  exists cur' ch',
    fuse_at relf cur x y ch = Ret (cur', ch') /\
    painted (after_visit g x y) AKTIVCOL c cur'.
Proof.
  intros Hx Hy.
  destruct (fuse_at_returns relf cur x y ch cur_ok cur_last_row)
    as [[cur' ch'] Hat]; [rewrite cur_xlen; lia | rewrite cur_ylen; lia |].
  exists cur', ch'. split; [exact Hat |].
  pose proof (row_gap_pattern x y Hx ltac:(lia)) as Hrow.
  pose proof (col_gap_pattern x y ltac:(lia) Hy) as Hcol.
  apply fuse_at_Ret in Hat
    as [(-> & _ & Hno1 & Hno2)
       | [(_ & Hgap & _ & c1 & S1 & S2) | (_ & Hnot & Hgap & _ & c1 & S1 & S2)]].
  - apply (painted_ext g); [| exact cur_painted].
    intros px py _. unfold after_visit.
    destruct (row_pattern g x y) eqn:Er.
    + exfalso. apply Hno1. split; [now apply Hrow | now apply row_pattern_free].
    + destruct (col_pattern g x y) eqn:Ec.
      * exfalso. apply Hno2. split; [| split].
        -- intros H. apply Hrow in H. congruence.
        -- now apply Hcol.
        -- now apply col_pattern_free.
      * cbn [negb andb]. now rewrite !orb_false_r.
  - apply (painted_pair x y (x + 1) y c1 cur'); try assumption; try lia.
    intros px py. unfold after_visit.
    rewrite (proj1 Hrow Hgap). cbn [negb andb].
    destruct (g px py), (Z.eqb_spec px x), (Z.eqb_spec py y),
      (Z.eqb_spec px (x + 1)); cbn; try reflexivity; lia.
  - apply (painted_pair x y x (y + 1) c1 cur'); try assumption; try lia.
    intros px py. unfold after_visit.
    assert (Er : row_pattern g x y = false).
    { destruct (row_pattern g x y) eqn:Er; [| reflexivity].
      exfalso. apply Hnot. now apply Hrow. }
    rewrite Er, (proj1 Hcol Hgap). cbn [negb andb].
    destruct (g px py), (Z.eqb_spec px x), (Z.eqb_spec py y),
      (Z.eqb_spec py (y + 1)); cbn; try reflexivity; lia.
Qed.

End Visit.

(** ** One pass of the fusion loop *)

Section Pass.

(** [state x0 y0] are the active pixels when the pass comes to
    [(x0,y0)]. *)
Variable state : Z -> Z -> Z -> Z -> bool.
Hypothesis state_joined :
  forall x0 y0 x y, state x0 y0 x y = true -> joined c D relf x y = true.
Hypothesis state_visit :
  forall x0 y0, 1 <= x0 <= xlen c - 3 -> 1 <= y0 <= ylen c - 3 ->
    forall x y, in_raster c x y ->
      after_visit (state x0 y0) x0 y0 x y = state (x0 + 1) y0 x y.
Hypothesis state_row_end :
  forall x0 y0, 1 <= x0 -> xlen c - 2 <= x0 ->
    forall x y, in_raster c x y -> state x0 y0 x y = state 1 (y0 + 1) x y.

Lemma fuse_row_painted (y0 : Z) :
  1 <= y0 <= ylen c - 3 ->
  forall (n : nat) (cur : Charmap) (x0 ch : Z),
    1 <= x0 -> ((0 < n)%nat -> x0 + Z.of_nat n <= xlen c - 2) ->
    painted (state x0 y0) AKTIVCOL c cur ->
    exists cur' ch',
      fuse_row n relf cur x0 y0 ch = Ret (cur', ch') /\
      painted (state (x0 + Z.of_nat n) y0) AKTIVCOL c cur'.
Proof.
  intros Hy0. induction n as [| n IH]; intros cur x0 ch Hx0 Hn Hcur.
  - exists cur, ch. split; [reflexivity |].
    replace (x0 + Z.of_nat 0) with x0 by lia. exact Hcur.
  - cbn [fuse_row].
    destruct (fuse_at_painted (state x0 y0) cur Hcur (state_joined x0 y0)
                x0 y0 ch ltac:(lia) Hy0) as (cur1 & ch1 & -> & Hcur1).
    cbn [bind fst snd].
    apply (painted_ext _ (state (x0 + 1) y0)) in Hcur1;
      [| apply state_visit; lia].
    destruct (IH cur1 (x0 + 1) ch1 ltac:(lia) ltac:(lia) Hcur1)
      as (cur' & ch' & Hrun & Hcur').
    exists cur', ch'. split; [exact Hrun |].
    replace (x0 + Z.of_nat (S n)) with (x0 + 1 + Z.of_nat n) by lia.
    exact Hcur'.
Qed.

Lemma fuse_rows_painted :
  forall (m : nat) (cur : Charmap) (y0 ch : Z),
    1 <= y0 -> ((0 < m)%nat -> y0 + Z.of_nat m <= ylen c - 2) ->
    painted (state 1 y0) AKTIVCOL c cur ->
    exists cur' ch',
      fuse_rows m relf cur y0 ch = Ret (cur', ch') /\
      painted (state 1 (y0 + Z.of_nat m)) AKTIVCOL c cur'.
Proof.
  induction m as [| m IH]; intros cur y0 ch Hy0 Hm Hcur.
  - exists cur, ch. split; [reflexivity |].
    replace (y0 + Z.of_nat 0) with y0 by lia. exact Hcur.
  - cbn [fuse_rows]. rewrite (proj1 (proj1 Hcur)).
    destruct (fuse_row_painted y0 ltac:(lia) (Z.to_nat (xlen c - 3)) cur 1 ch
                ltac:(lia) ltac:(lia) Hcur) as (cur1 & ch1 & -> & Hcur1).
    cbn [bind fst snd].
    apply (painted_ext _ (state 1 (y0 + 1))) in Hcur1;
      [| apply state_row_end; lia].
    destruct (IH cur1 (y0 + 1) ch1 ltac:(lia) ltac:(lia) Hcur1)
      as (cur' & ch' & Hrun & Hcur').
    exists cur', ch'. split; [exact Hrun |].
    replace (y0 + Z.of_nat (S m)) with (y0 + 1 + Z.of_nat m) by lia.
    exact Hcur'.
Qed.

Lemma fuse_pass_painted (cur : Charmap) :
  painted (state 1 1) AKTIVCOL c cur ->
  exists cur' ch' y1,
    fuse_pass relf cur = Ret (cur', ch') /\
    1 <= y1 /\ ylen c - 2 <= y1 /\
    painted (state 1 y1) AKTIVCOL c cur'.
Proof.
  intros Hcur. unfold fuse_pass. rewrite (proj1 (proj2 (proj1 Hcur))).
  destruct (fuse_rows_painted (Z.to_nat (ylen c - 3)) cur 1 0
              ltac:(lia) ltac:(lia) Hcur) as (cur' & ch' & Hrun & Hcur').
  exists cur', ch', (1 + Z.of_nat (Z.to_nat (ylen c - 3))).
  split; [exact Hrun |]. split; [lia |]. split; [lia | exact Hcur'].
Qed.

End Pass.

(** ** Joined pixels next to each other *)

Lemma joined_sub_row (x x' y : Z) :
  joined c D relf x y = true ->
  (forall b, touches D x' b -> touches D x b) ->
  joined c D relf x' y = true.
Proof. intros H Hsub. apply (joined_row x' x x y H H). auto. Qed.

Lemma joined_sub_col (x y y' : Z) :
  joined c D relf x y = true ->
  (forall b, touches D y' b -> touches D y b) ->
  joined c D relf x y' = true.
Proof. intros H Hsub. apply (joined_col x y' y y H H). auto. Qed.

Lemma touch_pair (a b : Z) :
  a - corner D a = D - 1 -> (touches D (a + 1) b <-> touches D a b).
Proof. intros Ha. unfold touches. grid_at D a D_min; lia. Qed.

Lemma touch_last (a b : Z) :
  a - corner D a = D - 1 ->
  (touches D (a - 1) b -> touches D a b) /\
  (touches D (a + 2) b -> touches D a b).
Proof. intros Ha. unfold touches. grid_at D a D_min; lia. Qed.

Lemma joined_pair_row (x y : Z) :
  x - corner D x = D - 1 ->
  joined c D relf (x + 1) y = joined c D relf x y.
Proof.
  intros Hx. apply eq_true_iff_eq. split; intros H.
  - apply (joined_sub_row _ _ _ H). intros b. now apply touch_pair.
  - apply (joined_sub_row _ _ _ H). intros b. now apply touch_pair.
Qed.

Lemma joined_pair_col (x y : Z) :
  y - corner D y = D - 1 ->
  joined c D relf x (y + 1) = joined c D relf x y.
Proof.
  intros Hy. apply eq_true_iff_eq. split; intros H.
  - apply (joined_sub_col _ _ _ H). intros b. now apply touch_pair.
  - apply (joined_sub_col _ _ _ H). intros b. now apply touch_pair.
Qed.

Lemma joined_last_row (x y : Z) :
  x - corner D x = D - 1 -> joined c D relf x y = true ->
  joined c D relf (x - 1) y = true /\ joined c D relf (x + 2) y = true.
Proof.
  intros Hx H. split; apply (joined_sub_row _ _ _ H); intros b;
    apply (touch_last x b Hx).
Qed.

Lemma joined_last_col (x y : Z) :
  y - corner D y = D - 1 -> joined c D relf x y = true ->
  joined c D relf x (y - 1) = true /\ joined c D relf x (y + 2) = true.
Proof.
  intros Hy H. split; apply (joined_sub_col _ _ _ H); intros b;
    apply (touch_last y b Hy).
Qed.

Lemma joined_gap_row (x y : Z) :
  joined c D relf (x - 1) y = true -> joined c D relf (x + 2) y = true ->
  joined c D relf x y = true /\ joined c D relf (x + 1) y = true.
Proof.
  intros H1 H2. split.
  - apply (joined_row x (x - 1) (x + 2) y H1 H2). intros b.
    now apply touch_gap_first.
  - apply (joined_row (x + 1) (x - 1) (x + 2) y H1 H2). intros b.
    now apply touch_gap_second.
Qed.

Lemma joined_gap_col (x y : Z) :
  joined c D relf x (y - 1) = true -> joined c D relf x (y + 2) = true ->
  joined c D relf x y = true /\ joined c D relf x (y + 1) = true.
Proof.
  intros H1 H2. split.
  - apply (joined_col x y (y - 1) (y + 2) H1 H2). intros b.
    now apply touch_gap_first.
  - apply (joined_col x (y + 1) (y - 1) (y + 2) H1 H2). intros b.
    now apply touch_gap_second.
Qed.

(** The blocks of a joined pixel lie in the part of the raster the scan
    visits. *)
Lemma joined_bounds (x y : Z) :
  joined c D relf x y = true ->
  0 <= corner D x < xlen c - D /\ 0 <= across D x < xlen c - D /\
  0 <= corner D y < ylen c - D /\ 0 <= across D y < ylen c - D.
Proof.
  unfold joined, marked_block. rewrite !andb_true_iff.
  intros (((((((A1 & A2) & A3) & A4) & _) & ((((B1 & B2) & _) & _) & _))
           & ((((_ & _) & E3) & E4) & _)) & _).
  apply Z.leb_le in A1, A3, B1, E3. apply Z.ltb_lt in A2, A4, B2, E4. lia.
Qed.

(** ** The first pass *)

Ltac cmp_step :=
  match goal with
  | |- context [Z.eqb ?a ?b] =>
    first [ replace (Z.eqb a b) with true by (symmetry; apply Z.eqb_eq; lia)
          | replace (Z.eqb a b) with false by (symmetry; apply Z.eqb_neq; lia)
          | destruct (Z.eqb_spec a b) ]
  | |- context [Z.ltb ?a ?b] =>
    first [ replace (Z.ltb a b) with true by (symmetry; apply Z.ltb_lt; lia)
          | replace (Z.ltb a b) with false by (symmetry; apply Z.ltb_ge; lia)
          | destruct (Z.ltb_spec a b) ]
  | |- context [Z.leb ?a ?b] =>
    first [ replace (Z.leb a b) with true by (symmetry; apply Z.leb_le; lia)
          | replace (Z.leb a b) with false by (symmetry; apply Z.leb_gt; lia)
          | destruct (Z.leb_spec a b) ]
  end; cbn [andb orb negb].

Ltac cmp_cases := repeat cmp_step.

Ltac bool_cases :=
  repeat match goal with
         | |- context [joined ?a ?b ?r ?x ?y] =>
           let J := fresh "J" in destruct (joined a b r x y) eqn:J
         end.

Ltac gap_row x0 y0 :=
  pose proof (joined_gap_row x0 y0 ltac:(assumption) ltac:(assumption))
    as [? ?]; congruence.

Ltac last_row x0 y0 :=
  pose proof (joined_last_row x0 y0 ltac:(lia) ltac:(assumption))
    as [? ?]; congruence.

Lemma first_row_pattern (x0 y0 : Z) :
  row_pattern (first_pass_pixel c D relf x0 y0) x0 y0 =
  joined c D relf x0 y0 && last_of D x0 && negb (last_of D y0).
Proof.
  unfold row_pattern, first_pass_pixel, on_rim, last_of, pair_start,
    visited_before.
  grid_at D x0 D_min; grid_at D y0 D_min; cmp_cases; bool_cases;
    try reflexivity; exfalso;
    first [gap_row x0 y0 | last_row x0 y0].
Qed.

Ltac gap_col x0 y0 :=
  pose proof (joined_gap_col x0 y0 ltac:(assumption) ltac:(assumption))
    as [? ?]; congruence.

Ltac last_col x0 y0 :=
  pose proof (joined_last_col x0 y0 ltac:(lia) ltac:(assumption))
    as [? ?]; congruence.

Lemma first_col_pattern (x0 y0 : Z) :
  col_pattern (first_pass_pixel c D relf x0 y0) x0 y0 =
  joined c D relf x0 y0 && negb (on_rim D x0) && last_of D y0.
Proof.
  unfold col_pattern, first_pass_pixel, on_rim, last_of, pair_start,
    visited_before.
  grid_at D x0 D_min; grid_at D y0 D_min; cmp_cases; bool_cases;
    try reflexivity; exfalso;
    first [gap_col x0 y0 | last_col x0 y0].
Qed.

Lemma first_visit (x0 y0 x y : Z) :
  after_visit (first_pass_pixel c D relf x0 y0) x0 y0 x y =
  first_pass_pixel c D relf (x0 + 1) y0 x y.
Proof.
  unfold after_visit. rewrite first_row_pattern, first_col_pattern.
  unfold first_pass_pixel, on_rim, last_of, pair_start, visited_before.
  destruct (Z.eq_dec x x0) as [-> | Hx]; destruct (Z.eq_dec y y0) as [-> | Hy].
  - grid_at D x0 D_min; grid_at D y0 D_min; cmp_cases; bool_cases;
      reflexivity.
  - destruct (Z.eq_dec y (y0 + 1)) as [-> | Hy1].
    + grid_at D x0 D_min; grid_at D y0 D_min; cmp_cases;
        try rewrite (joined_pair_col x0 y0) by lia; bool_cases; reflexivity.
    + cmp_cases; bool_cases; reflexivity.
  - destruct (Z.eq_dec x (x0 + 1)) as [-> | Hx1].
    + grid_at D x0 D_min; grid_at D y0 D_min; cmp_cases;
        try rewrite (joined_pair_row x0 y0) by lia; bool_cases; reflexivity.
    + cmp_cases; bool_cases; reflexivity.
  - cmp_cases; bool_cases; reflexivity.
Qed.

(** The blocks of a joined pixel, without the case analysis of
    [across]. *)
Lemma joined_range (x y : Z) :
  joined c D relf x y = true ->
  (corner D x <= x < corner D x + D /\ 0 <= corner D x < xlen c - D /\
   (x - corner D x = D - 1 -> corner D x + D < xlen c - D) /\
   (x - corner D x = 0 -> 0 <= corner D x - D)) /\
  (corner D y <= y < corner D y + D /\ 0 <= corner D y < ylen c - D /\
   (y - corner D y = D - 1 -> corner D y + D < ylen c - D) /\
   (y - corner D y = 0 -> 0 <= corner D y - D)).
Proof.
  intros J. pose proof (joined_bounds x y J) as Hb. unfold across in Hb.
  pose proof (corner_range D x ltac:(lia)).
  pose proof (corner_range D y ltac:(lia)).
  destruct (Z.eqb_spec (x - corner D x) (D - 1)),
    (Z.eqb_spec (x - corner D x) 0),
    (Z.eqb_spec (y - corner D y) (D - 1)),
    (Z.eqb_spec (y - corner D y) 0); lia.
Qed.

Ltac range_cases x y :=
  match goal with
  | |- context [joined ?a ?b ?r x y] =>
    let J := fresh "J" in
    destruct (joined a b r x y) eqn:J;
    [pose proof (joined_range x y J) as [(? & ? & ? & ?) (? & ? & ? & ?)]
    | reflexivity]
  end.

Lemma first_row_end (x0 y0 x y : Z) :
  1 <= x0 -> xlen c - 2 <= x0 ->
  first_pass_pixel c D relf x0 y0 x y =
  first_pass_pixel c D relf 1 (y0 + 1) x y.
Proof.
  intros H1 H2.
  unfold first_pass_pixel, on_rim, last_of, pair_start, visited_before.
  range_cases x y. cmp_cases; reflexivity.
Qed.

Lemma kernel_joined (x y : Z) :
  kernel_pixel c D relf x y = true -> 0 <= x -> 0 <= y ->
  joined c D relf x y = true.
Proof.
  unfold kernel_pixel. rewrite !andb_true_iff.
  intros ((((((K1 & K2) & K3) & K4) & K5) & K6) & K7) Hx Hy.
  apply Z.ltb_lt in K1, K2. apply Z.leb_le in K3, K4, K5, K6.
  pose proof (corner_ge D 0 x ltac:(lia) eq_refl Hx).
  pose proof (corner_ge D 0 y ltac:(lia) eq_refl Hy).
  assert (Hm : marked_block c D relf (corner D x) (corner D y) = true).
  { unfold marked_block. rewrite K7. cmp_cases. reflexivity. }
  unfold joined, across. cmp_cases. now rewrite Hm.
Qed.

Lemma first_start (x y : Z) :
  in_raster c x y ->
  kernel_pixel c D relf x y = first_pass_pixel c D relf 1 1 x y.
Proof.
  intros [Hx Hy]. unfold first_pass_pixel.
  destruct (joined c D relf x y) eqn:J.
  - pose proof (joined_range x y J) as [(? & ? & ? & ?) (? & ? & ? & ?)].
    pose proof (proj1 (joined_touches x y) J _ _ (touches_own D x)
                  (touches_own D y)) as Hm.
    unfold marked_block in Hm. rewrite !andb_true_iff in Hm.
    destruct Hm as (_ & Hall).
    unfold kernel_pixel, on_rim, last_of, pair_start, visited_before.
    rewrite Hall. cmp_cases; reflexivity.
  - destruct (kernel_pixel c D relf x y) eqn:K; [| reflexivity].
    apply kernel_joined in K; [congruence | lia | lia].
Qed.

Lemma first_end (y1 x y : Z) :
  1 <= y1 -> ylen c - 2 <= y1 ->
  first_pass_pixel c D relf 1 y1 x y = second_pass_pixel c D relf 1 1 x y.
Proof.
  intros H1 H2.
  unfold first_pass_pixel, second_pass_pixel, on_rim, last_of, pair_start,
    visited_before.
  range_cases x y. cmp_cases; reflexivity.
Qed.

(** ** The second pass *)

Lemma second_row_pattern (x0 y0 : Z) :
  row_pattern (second_pass_pixel c D relf x0 y0) x0 y0 =
  joined c D relf x0 y0 && last_of D x0 && last_of D y0.
Proof.
  unfold row_pattern, second_pass_pixel, on_rim, last_of, pair_start,
    visited_before.
  grid_at D x0 D_min; grid_at D y0 D_min; cmp_cases; bool_cases;
    try reflexivity; exfalso;
    first [gap_row x0 y0 | last_row x0 y0].
Qed.

Lemma second_col_pattern (x0 y0 : Z) :
  col_pattern (second_pass_pixel c D relf x0 y0) x0 y0 = false.
Proof.
  unfold col_pattern, second_pass_pixel, on_rim, last_of, pair_start,
    visited_before.
  grid_at D x0 D_min; grid_at D y0 D_min; cmp_cases; bool_cases;
    try reflexivity; exfalso; gap_col x0 y0.
Qed.

Lemma second_visit (x0 y0 x y : Z) :
  after_visit (second_pass_pixel c D relf x0 y0) x0 y0 x y =
  second_pass_pixel c D relf (x0 + 1) y0 x y.
Proof.
  unfold after_visit. rewrite second_row_pattern, second_col_pattern.
  rewrite andb_false_r. cbn [andb]. rewrite orb_false_r.
  unfold second_pass_pixel, on_rim, last_of, pair_start, visited_before.
  destruct (Z.eq_dec y y0) as [-> | Hy];
    [destruct (Z.eq_dec x x0) as [-> | Hx];
     [| destruct (Z.eq_dec x (x0 + 1)) as [-> | Hx1]] |].
  - grid_at D x0 D_min; grid_at D y0 D_min; cmp_cases; bool_cases;
      reflexivity.
  - grid_at D x0 D_min; grid_at D y0 D_min; cmp_cases;
      try rewrite (joined_pair_row x0 y0) by lia; bool_cases; reflexivity.
  - cmp_cases; bool_cases; reflexivity.
  - cmp_cases; bool_cases; reflexivity.
Qed.

Lemma second_row_end (x0 y0 x y : Z) :
  1 <= x0 -> xlen c - 2 <= x0 ->
  second_pass_pixel c D relf x0 y0 x y =
  second_pass_pixel c D relf 1 (y0 + 1) x y.
Proof.
  intros H1 H2.
  unfold second_pass_pixel, on_rim, last_of, pair_start, visited_before.
  range_cases x y. cmp_cases; reflexivity.
Qed.

Lemma second_end (y1 x y : Z) :
  1 <= y1 -> ylen c - 2 <= y1 ->
  second_pass_pixel c D relf 1 y1 x y = joined c D relf x y.
Proof.
  intros H1 H2.
  unfold second_pass_pixel, on_rim, last_of, pair_start, visited_before.
  range_cases x y. cmp_cases; reflexivity.
Qed.

(** ** A pass over the joined pixels *)

Lemma joined_visit (x0 y0 x y : Z) :
  after_visit (joined c D relf) x0 y0 x y = joined c D relf x y.
Proof.
  assert (Hr : row_pattern (joined c D relf) x0 y0 = false).
  { unfold row_pattern. bool_cases; try reflexivity; exfalso; gap_row x0 y0. }
  assert (Hc : col_pattern (joined c D relf) x0 y0 = false).
  { unfold col_pattern. bool_cases; try reflexivity; exfalso; gap_col x0 y0. }
  unfold after_visit. rewrite Hr, Hc. cbn [negb andb].
  now rewrite !orb_false_r.
Qed.

(** ** The three passes *)

Lemma first_pass_joined (x0 y0 x y : Z) :
  first_pass_pixel c D relf x0 y0 x y = true -> joined c D relf x y = true.
Proof. unfold first_pass_pixel. now intros [H _]%andb_true_iff. Qed.

Lemma second_pass_joined (x0 y0 x y : Z) :
  second_pass_pixel c D relf x0 y0 x y = true -> joined c D relf x y = true.
Proof. unfold second_pass_pixel. now intros [H _]%andb_true_iff. Qed.

Lemma first_pass_painted (cur : Charmap) :
  painted (kernel_pixel c D relf) AKTIVCOL c cur ->
  exists cur' ch',
    fuse_pass relf cur = Ret (cur', ch') /\
    painted (second_pass_pixel c D relf 1 1) AKTIVCOL c cur'.
Proof.
  intros Hcur.
  apply (painted_ext _ (first_pass_pixel c D relf 1 1)) in Hcur;
    [| intros x y; apply first_start].
  destruct (fuse_pass_painted (first_pass_pixel c D relf) first_pass_joined
              ltac:(intros; apply first_visit)
              ltac:(intros; now apply first_row_end) cur Hcur)
    as (cur' & ch' & y1 & Hrun & H1 & H2 & Hcur').
  exists cur', ch'. split; [exact Hrun |].
  apply (painted_ext _ _ _ _ _ (fun x y _ => first_end y1 x y H1 H2) Hcur').
Qed.

Lemma second_pass_painted (cur : Charmap) :
  painted (second_pass_pixel c D relf 1 1) AKTIVCOL c cur ->
  exists cur' ch',
    fuse_pass relf cur = Ret (cur', ch') /\
    painted (joined c D relf) AKTIVCOL c cur'.
Proof.
  intros Hcur.
  destruct (fuse_pass_painted (second_pass_pixel c D relf) second_pass_joined
              ltac:(intros; apply second_visit)
              ltac:(intros; now apply second_row_end) cur Hcur)
    as (cur' & ch' & y1 & Hrun & H1 & H2 & Hcur').
  exists cur', ch'. split; [exact Hrun |].
  apply (painted_ext _ _ _ _ _ (fun x y _ => second_end y1 x y H1 H2) Hcur').
Qed.

Lemma joined_fixed (cur : Charmap) :
  painted (joined c D relf) AKTIVCOL c cur ->
  fuse_pass relf cur = Ret (cur, 0).
Proof.
  intros Hcur.
  destruct (fuse_pass_painted (fun _ _ => joined c D relf)
              ltac:(intros ? ? ? ? H; exact H)
              ltac:(intros; apply joined_visit)
              ltac:(intros; reflexivity) cur Hcur)
    as (cur' & ch' & y1 & Hrun & _ & _ & Hcur').
  pose proof (painted_unique _ _ _ _ _ c_ok Hcur' Hcur) as ->.
  destruct (fuse_pass_Ret relf cur cur ch' relf_not_active
              (same_size_ok _ _ (proj1 Hcur) c_ok) Hrun)
    as (_ & _ & _ & [(_ & -> & _) | [_ Hless]]); [exact Hrun | lia].
Qed.

Lemma fuse_loop_painted (fuel : nat) (c0 : Charmap) :
  painted (kernel_pixel c D relf) AKTIVCOL c c0 -> (3 <= fuel)%nat ->
  exists c', fuse_loop fuel relf c0 = Ret c' /\
             painted (joined c D relf) AKTIVCOL c c'.
Proof.
  intros Hc0 Hfuel.
  destruct fuel as [| [| [| fuel]]]; try lia.
  destruct (first_pass_painted c0 Hc0) as (c1 & ch1 & Hrun1 & Hc1).
  destruct (second_pass_painted c1 Hc1) as (c2 & ch2 & Hrun2 & Hc2).
  pose proof (joined_fixed c2 Hc2) as Hrun3.
  assert (Hok0 : canvas_ok c0) by exact (same_size_ok _ _ (proj1 Hc0) c_ok).
  assert (Hok1 : canvas_ok c1) by exact (same_size_ok _ _ (proj1 Hc1) c_ok).
  cbn [fuse_loop]. rewrite Hrun1. cbn [bind fst snd].
  destruct (fuse_pass_Ret relf c0 c1 ch1 relf_not_active Hok0 Hrun1)
    as (_ & _ & _ & [(-> & -> & _) | [-> _]]).
  - cbn. exists c0. split; [reflexivity |].
    rewrite Hrun1 in Hrun2. inversion Hrun2. subst. exact Hc2.
  - cbn. rewrite Hrun2. cbn [bind fst snd].
    destruct (fuse_pass_Ret relf c1 c2 ch2 relf_not_active Hok1 Hrun2)
      as (_ & _ & _ & [(-> & -> & _) | [-> _]]).
    + cbn. eauto.
    + cbn. rewrite Hrun3. cbn. eauto.
Qed.

(** ** No gap between joined pixels *)

Lemma joined_gap_free (c' : Charmap) :
  painted (joined c D relf) AKTIVCOL c c' -> gap_free relf c'.
Proof.
  intros Hc' x y n Hn.
  pose proof (cur_active (joined c D relf) c' Hc') as Hact.
  destruct Hc' as [(Hsx & Hsy & _) Hpix].
  assert (Hno : forall px py, in_raster c px py ->
            joined c D relf px py = true -> getPoint c' px py <> Ret relf).
  { intros px py Hin Hj. rewrite (Hpix px py Hin), Hj. congruence. }
  unfold gap_between, in_raster. rewrite Hsx, Hsy.
  split; intros ((Hx1 & Hy1) & (Hx2 & Hy2) & G1 & G2 & Hgap);
    pose proof (Hgap 0 ltac:(lia)) as G0;
    rewrite ?Z.mul_1_r, ?Z.mul_0_r, ?Z.mul_0_l, ?Z.add_0_r, ?Z.sub_0_r in *;
    apply Hact in G1, G2; try (split; lia).
  - apply (Hno x y); [split; lia | | exact G0].
    destruct Hn as [-> | ->].
    + apply (joined_row x (x - 1) (x + 1) y G1 G2). intros b.
      now apply touch_gap_single.
    + now apply joined_gap_row.
  - apply (Hno x y); [split; lia | | exact G0].
    destruct Hn as [-> | ->].
    + apply (joined_col x y (y - 1) (y + 1) G1 G2). intros b.
      now apply touch_gap_single.
    + now apply joined_gap_col.
Qed.

(** ** The rasters on the way of the loop *)

Lemma after_visit_joined (g : Z -> Z -> bool) (x0 y0 x y : Z) :
  (forall px py, g px py = true -> joined c D relf px py = true) ->
  after_visit g x0 y0 x y = true -> joined c D relf x y = true.
Proof.
  intros Hg. unfold after_visit, row_pattern, col_pattern.
  rewrite !orb_true_iff, !andb_true_iff, !orb_true_iff.
  intros [[H | (((((_ & _) & G1) & G2) & Hy) & Hx)]
         | (((_ & (((_ & _) & G2) & G1)) & Hx) & Hy)].
  - now apply Hg.
  - apply Hg in G1, G2. apply Z.eqb_eq in Hy. subst y.
    destruct (joined_gap_row x0 y0 G1 G2) as [J0 J1].
    destruct Hx as [Hx | Hx]; apply Z.eqb_eq in Hx; now subst x.
  - apply Hg in G1, G2. apply Z.eqb_eq in Hx. subst x.
    destruct (joined_gap_col x0 y0 G1 G2) as [J0 J1].
    destruct Hy as [Hy | Hy]; apply Z.eqb_eq in Hy; now subst y.
Qed.

Lemma reaches_painted (c0 cur : Charmap) :
  painted (kernel_pixel c D relf) AKTIVCOL c c0 ->
  fusion_reaches relf c0 cur ->
  exists g, painted g AKTIVCOL c cur /\
            forall x y, g x y = true -> joined c D relf x y = true.
Proof.
  intros Hc0. induction 1 as [| cur cur' x y ch ch' _ IH Hx Hy Hat].
  - exists (first_pass_pixel c D relf 1 1). split.
    + apply (painted_ext _ _ _ _ _ (fun x y => first_start x y) Hc0).
    + intros x y. apply first_pass_joined.
  - destruct IH as (g & Hcur & Hg).
    rewrite (proj1 (proj1 Hcur)) in Hx. rewrite (proj1 (proj2 (proj1 Hcur))) in Hy.
    destruct (fuse_at_painted g cur Hcur Hg x y ch Hx Hy)
      as (cur2 & ch2 & Hat2 & Hcur2).
    rewrite Hat in Hat2. inversion Hat2. subst cur2 ch2.
    exists (after_visit g x y). split; [exact Hcur2 |].
    intros px py. now apply after_visit_joined.
Qed.

Lemma reaches_closed (c0 cur c' : Charmap) :
  painted (kernel_pixel c D relf) AKTIVCOL c c0 ->
  fusion_reaches relf c0 cur ->
  painted (joined c D relf) AKTIVCOL c c' ->
  gaps_closed relf cur c'.
Proof.
  intros Hc0 Hreach Hc' x y n Hn.
  destruct (reaches_painted c0 cur Hc0 Hreach) as (g & Hcur & Hg).
  pose proof (cur_active g cur Hcur) as Hact.
  destruct Hcur as [(Hsx & Hsy & _) _].
  assert (Hset : forall px py, joined c D relf px py = true ->
            getPoint c' px py = Ret AKTIVCOL).
  { intros px py Hj. destruct (joined_pixel px py Hj) as (_ & Hpx & Hpy).
    rewrite (proj2 Hc' px py ltac:(split; lia)), Hj. reflexivity. }
  unfold gap_between, in_raster. rewrite Hsx, Hsy.
  split; intros ((Hx1 & Hy1) & (Hx2 & Hy2) & G1 & G2 & _) k Hk;
    rewrite ?Z.mul_1_r, ?Z.mul_0_r, ?Z.mul_0_l, ?Z.add_0_r, ?Z.sub_0_r in *;
    apply Hact in G1, G2; try (split; lia);
    apply Hg in G1, G2; apply Hset.
  - destruct Hn as [-> | ->].
    + replace (x + k) with x by lia.
      apply (joined_row x (x - 1) (x + 1) y G1 G2). intros b.
      now apply touch_gap_single.
    + destruct (joined_gap_row x y G1 G2) as [J0 J1].
      assert (Hk2 : k = 0 \/ k = 1) by lia.
      destruct Hk2 as [-> | ->]; [now replace (x + 0) with x by lia | exact J1].
  - destruct Hn as [-> | ->].
    + replace (y + k) with y by lia.
      apply (joined_col x y (y - 1) (y + 1) G1 G2). intros b.
      now apply touch_gap_single.
    + destruct (joined_gap_col x y G1 G2) as [J0 J1].
      assert (Hk2 : k = 0 \/ k = 1) by lia.
      destruct Hk2 as [-> | ->]; [now replace (y + 0) with y by lia | exact J1].
Qed.

End FusionGrid.

(** ** The loop stays among the rasters on its way *)

Lemma reaches_row (relf : Z) (c0 : Charmap) (y : Z) :
  forall (n : nat) (cur : Charmap) (x ch : Z) (cur' : Charmap) (ch' : Z),
    canvas_ok cur -> fusion_reaches relf c0 cur ->
    1 <= x -> ((0 < n)%nat -> x + Z.of_nat n <= xlen cur - 2) ->
    1 <= y <= ylen cur - 3 ->
    fuse_row n relf cur x y ch = Ret (cur', ch') ->
    fusion_reaches relf c0 cur' /\ canvas_ok cur' /\
    xlen cur' = xlen cur /\ ylen cur' = ylen cur.
Proof.
  induction n as [| n IH]; intros cur x ch cur' ch' Hok Hreach Hx Hn Hy Hrun.
  - cbn in Hrun. inversion Hrun. subst. tauto.
  - cbn [fuse_row] in Hrun.
    destruct (fuse_at relf cur x y ch) as [[c1 ch1] | | |] eqn:Hat;
      try discriminate.
    cbn [bind fst snd] in Hrun.
    destruct (fuse_at_dims relf cur c1 x y ch ch1 Hok Hat) as (Hok1 & Hx1 & Hy1).
    destruct (IH c1 (x + 1) ch1 cur' ch' Hok1
                (reaches_visit relf c0 cur c1 x y ch ch1 Hreach
                   ltac:(lia) Hy Hat)
                ltac:(lia) ltac:(lia) ltac:(lia) Hrun) as (H1 & H2 & H3 & H4).
    split; [exact H1 |]. split; [exact H2 |]. split; congruence.
Qed.

Lemma reaches_rows (relf : Z) (c0 : Charmap) :
  forall (m : nat) (cur : Charmap) (y ch : Z) (cur' : Charmap) (ch' : Z),
    canvas_ok cur -> fusion_reaches relf c0 cur ->
    1 <= y -> ((0 < m)%nat -> y + Z.of_nat m <= ylen cur - 2) ->
    fuse_rows m relf cur y ch = Ret (cur', ch') ->
    fusion_reaches relf c0 cur' /\ canvas_ok cur' /\
    xlen cur' = xlen cur /\ ylen cur' = ylen cur.
Proof.
  induction m as [| m IH]; intros cur y ch cur' ch' Hok Hreach Hy Hm Hrun.
  - cbn in Hrun. inversion Hrun. subst. tauto.
  - cbn [fuse_rows] in Hrun.
    destruct (fuse_row _ relf cur 1 y ch) as [[c1 ch1] | | |] eqn:Hrow;
      try discriminate.
    cbn [bind fst snd] in Hrun.
    destruct (reaches_row relf c0 y (Z.to_nat (xlen cur - 3)) cur 1 ch c1 ch1
                Hok Hreach
                ltac:(lia) ltac:(lia) ltac:(lia) Hrow) as (R1 & Hok1 & Hx1 & Hy1).
    destruct (IH c1 (y + 1) ch1 cur' ch' Hok1 R1 ltac:(lia) ltac:(lia) Hrun)
      as (H1 & H2 & H3 & H4).
    split; [exact H1 |]. split; [exact H2 |]. split; congruence.
Qed.

Lemma reaches_loop (relf : Z) (c0 : Charmap) :
  forall (fuel : nat) (cur c' : Charmap),
    canvas_ok cur -> fusion_reaches relf c0 cur ->
    fuse_loop fuel relf cur = Ret c' -> fusion_reaches relf c0 c'.
Proof.
  induction fuel as [| fuel IH]; intros cur c' Hok Hreach Hrun;
    [discriminate |].
  cbn [fuse_loop] in Hrun.
  destruct (fuse_pass relf cur) as [[c1 ch1] | | |] eqn:Hpass; try discriminate.
  cbn [bind fst snd] in Hrun. unfold fuse_pass in Hpass.
  destruct (reaches_rows relf c0 (Z.to_nat (ylen cur - 3)) cur 1 0 c1 ch1
              Hok Hreach
              ltac:(lia) ltac:(lia) Hpass) as (R1 & Hok1 & _).
  destruct (ch1 >? 0).
  - exact (IH c1 c' Hok1 R1 Hrun).
  - inversion Hrun. now subst.
Qed.

(** ** Claim about the gaps the fusion closes *)

(** C3: for an input raster of gray, white and black pixels and the target
    colour black or white, the kernel scan and the fusion loop of
    [floodFillPattern] return, the loop after three passes at most.  In
    the raster [c'] the loop ends with -- a fixed point of the pass -- the
    active pixels are those whose blocks of the grid are all marked ones,
    and no two active pixels of a row or of a column have exactly one or
    exactly two pixels of the target colour between them, whatever the
    colours of the rows or columns at the sides of the gap.  Moreover, for
    every raster on the way of the loop, from the result of the scan on,
    the pixels of every gap of one or two pixels between two active pixels
    of a row or a column are active in [c']. *)
Theorem fusion_closes_gaps (fuel : nat) (granularity relf : Z)
  (inbild : Charmap) :
  canvas_ok inbild -> three_classes inbild ->
  relf = COLORBLACK \/ relf = COLORWHITE -> (3 <= fuel)%nat ->
  exists c0 c',
    kernel_scan granularity relf inbild = Ret c0 /\
    fuse_loop fuel relf c0 = Ret c' /\
    connect_snippets fuel granularity relf inbild = Ret c' /\
    fuse_pass relf c' = Ret (c', 0) /\
    fusion_reaches relf c0 c' /\
    painted (joined inbild (Z.max 3 granularity) relf) AKTIVCOL inbild c' /\
    gap_free relf c' /\
    forall cur, fusion_reaches relf c0 cur -> gaps_closed relf cur c'.
Proof.
  intros Hok Hplain Hrelf Hfuel.
  assert (Hna : relf <> AKTIVCOL) by (destruct Hrelf; subst; discriminate).
  assert (Hng : relf <> COLORGRAY) by (destruct Hrelf; subst; discriminate).
  assert (HD : 3 <= Z.max 3 granularity) by lia.
  assert (Hscan : exists c0, kernel_scan granularity relf inbild = Ret c0 /\
            painted (kernel_pixel inbild (Z.max 3 granularity) relf)
                    AKTIVCOL inbild c0).
  { unfold kernel_scan.
    replace (if granularity <? 3 then 3 else granularity)
      with (Z.max 3 granularity) by (destruct (Z.ltb_spec granularity 3); lia).
    apply (kernel_rows_spec relf (Z.max 3 granularity) inbild Hok HD);
      [reflexivity | lia | destruct Hok; lia |].
    split; [apply same_size_refl |]. intros x y [Hx Hy].
    destruct (Z.ltb_spec y 0); [lia |]. destruct (Z.ltb_spec x 0); [lia |].
    rewrite andb_false_r, orb_false_r, andb_false_r. reflexivity. }
  destruct Hscan as (c0 & Hscan & Hc0).
  assert (Hrun : exists c', fuse_loop fuel relf c0 = Ret c' /\
            painted (joined inbild (Z.max 3 granularity) relf)
                    AKTIVCOL inbild c')
    by (apply fuse_loop_painted; assumption).
  destruct Hrun as (c' & Hloop & Hc').
  assert (Hok0 : canvas_ok c0) by exact (same_size_ok _ _ (proj1 Hc0) Hok).
  exists c0, c'. split; [exact Hscan |]. split; [exact Hloop |].
  split; [unfold connect_snippets; rewrite Hscan; exact Hloop |].
  split; [apply (joined_fixed relf (Z.max 3 granularity) inbild); assumption |].
  split; [exact (reaches_loop relf c0 fuel c0 c' Hok0
                   (reaches_start relf c0) Hloop) |].
  split; [exact Hc' |].
  split; [apply (joined_gap_free relf (Z.max 3 granularity) inbild);
          assumption |].
  intros cur Hreach.
  apply (reaches_closed relf (Z.max 3 granularity) inbild) with (c0 := c0);
    assumption.
Qed.

Lemma fusion_closes_gaps_witness :
  exists c0 c',
    kernel_scan 3 COLORWHITE island_canvas = Ret c0 /\
    fuse_loop 3 COLORWHITE c0 = Ret c' /\
    connect_snippets 3 3 COLORWHITE island_canvas = Ret c' /\
    fuse_pass COLORWHITE c' = Ret (c', 0) /\
    fusion_reaches COLORWHITE c0 c' /\
    painted (joined island_canvas (Z.max 3 3) COLORWHITE) AKTIVCOL
            island_canvas c' /\
    gap_free COLORWHITE c' /\
    forall cur, fusion_reaches COLORWHITE c0 cur ->
                gaps_closed COLORWHITE cur c'.
Proof.
  apply (fusion_closes_gaps 3 3 COLORWHITE island_canvas island_canvas_ok
           island_canvas_plain (or_intror eq_refl) (le_n 3)).
Defined.
